(** * michi: rules kernel, playout loop and tree statistics

    A shallow embedding of the Python sources [board.py], [position.py],
    [heuristics.py] ([fix_atari], [cfg_distances], [gen_playout_moves],
    [mcplayout]), [tree.py]
    ([tree_update]) and [tree_node.py] ([TreeNode.__init__],
    [rave_urgency], [best_move]).

    Conventions.
    - A Python [str] / [bytearray] is a [list ascii]; the boards of the
      engine are ASCII, where UTF-8 encoding and decoding are the identity.
    - A Python [int] is a [Z]; a Python [float] that holds a komi, a score
      or a prior is a [Q] (every arithmetic step the claims depend on is a
      sign test, a negation or an addition of small half integers).
    - A call either returns, raises, or does not finish: [result].
    - What the module [random] hands out is a parameter of the playout. *)

From Stdlib Require Import ZArith QArith Ascii String DecimalString DecimalZ Lia.
From stdpp Require Import base list gmap.

Local Open Scope char_scope.
Local Open Scope Z_scope.

(** ** Outcomes of a Python call *)

Inductive exn : Set :=
| IndexError | KeyError | TypeError | AttributeError | ValueError
| ZeroDivisionError.

(** [Diverge] is the outcome of a loop that did not finish within the
    iteration bound of its model. *)
Inductive result (A : Type) : Type :=
| Ret (a : A)
| Raise (e : exn)
| Diverge.
Arguments Ret {A} a.
Arguments Raise {A} e.
Arguments Diverge {A}.

#[global] Instance result_ret : MRet result := @Ret.
#[global] Instance result_bind : MBind result := fun A B k m =>
  match m with
  | Ret a => k a
  | Raise e => Raise e
  | Diverge => Diverge
  end.

Definition returns {A} (m : result A) : Prop := exists a, m = Ret a.
Definition terminates {A} (m : result A) : Prop := m <> Diverge.

(** ** Python sequences *)

Abbreviation str := (list ascii).

(** A string literal as a [str]. *)
Definition lit (x : string) : str := list_ascii_of_string x.

(** [l[i]] and [l[i] = a]: an index in [-len, len) is taken from the end
    when negative; anything else raises [IndexError]. *)
Definition index_of {A} (l : list A) (i : Z) : option nat :=
  let len := Z.of_nat (length l) in
  if (0 <=? i) && (i <? len) then Some (Z.to_nat i)
  else if (- len <=? i) && (i <? 0) then Some (Z.to_nat (len + i))
  else None.

Definition getitem {A} (l : list A) (i : Z) : result A :=
  match index_of l i with
  | Some k => match l !! k with Some a => Ret a | None => Raise IndexError end
  | None => Raise IndexError
  end.

Definition setitem {A} (l : list A) (i : Z) (a : A) : result (list A) :=
  match index_of l i with
  | Some k => Ret (<[k := a]> l)
  | None => Raise IndexError
  end.

(** Slice bounds: [l[:i]] and [l[i:]] clamp instead of raising. *)
Definition slice_bound {A} (l : list A) (i : Z) : nat :=
  let len := Z.of_nat (length l) in
  if i <? 0 then Z.to_nat (Z.max 0 (len + i)) else Z.to_nat (Z.min i len).

Definition slice_to {A} (l : list A) (i : Z) : list A := take (slice_bound l i) l.
Definition slice_from {A} (l : list A) (i : Z) : list A := drop (slice_bound l i) l.

(** [str.count] of a one-character pattern. *)
Fixpoint count (a : ascii) (l : str) : Z :=
  match l with
  | [] => 0
  | b :: t => (if Ascii.eqb b a then 1 else 0) + count a t
  end.

(** [str.replace] of one character by another. *)
Definition replace (a b : ascii) (l : str) : str :=
  map (fun x => if Ascii.eqb x a then b else x) l.

(** [str.find(a, start)] for [0 <= start]: lowest index at or after
    [start] that holds [a], or [-1]. *)
Fixpoint find_at (a : ascii) (l : str) (i start : Z) : Z :=
  match l with
  | [] => -1
  | b :: t => if (start <=? i) && Ascii.eqb b a then i else find_at a t (i + 1) start
  end.
Definition find (a : ascii) (l : str) (start : Z) : Z := find_at a l 0 start.

(** [str.find(a, start)] for any [start]: a negative one counts from the
    end of the string. *)
Definition find_from (a : ascii) (l : str) (start : Z) : Z :=
  find a l (if start <? 0 then Z.max 0 (Z.of_nat (length l) + start) else start).

(** [l[i:j]]: both bounds clamp, and the slice is empty when they cross. *)
Definition slice {A} (l : list A) (i j : Z) : list A :=
  take (slice_bound l j - slice_bound l i) (drop (slice_bound l i) l).

(** A generator run until it stops: the values it yields, in order, and
    how it stops ([Ret tt] when it is exhausted). *)
Definition gen (A : Type) : Type := list A * result unit.

Definition is_upper (a : ascii) : bool :=
  let k := N_of_ascii a in (65 <=? k)%N && (k <=? 90)%N.
Definition is_lower (a : ascii) : bool :=
  let k := N_of_ascii a in (97 <=? k)%N && (k <=? 122)%N.

Definition swapcase_char (a : ascii) : ascii :=
  if is_upper a then ascii_of_N (N_of_ascii a + 32)
  else if is_lower a then ascii_of_N (N_of_ascii a - 32)
  else a.
Definition upper_char (a : ascii) : ascii :=
  if is_lower a then ascii_of_N (N_of_ascii a - 32) else a.

(** [str.isspace] on one ASCII character: tab, line feed, vertical tab,
    form feed, carriage return, the four separators 0x1c..0x1f and space. *)
Definition isspace (a : ascii) : bool :=
  let k := N_of_ascii a in
  ((9 <=? k)%N && (k <=? 13)%N) || ((28 <=? k)%N && (k <=? 32)%N).

(** [ord] and [chr] on ASCII. *)
Definition ord (a : ascii) : Z := Z.of_N (N_of_ascii a).
Definition chr (k : Z) : ascii := ascii_of_N (Z.to_N k).

(** [str(k)] of an [int]: decimal digits, a leading minus sign when
    negative. *)
Definition str_of_int (k : Z) : str :=
  list_ascii_of_string (NilZero.string_of_int (Z.to_int k)).

(** [int(x)] on an optional sign followed by decimal digits; every other
    string raises [ValueError] here (surrounding blanks and digit-group
    underscores, which Python also reads, are left out: no coordinate
    string made by [str_coord] has them). *)
Definition int_of_str (x : str) : result Z :=
  let parsed :=
    match x with
    | "+" :: d => option_map Decimal.Pos (NilZero.uint_of_string (string_of_list_ascii d))
    | _ => NilZero.int_of_string (string_of_list_ascii x)
    end in
  match parsed with
  | Some d => Ret (Z.of_int d)
  | None => Raise ValueError
  end.


(** ** board.py *)

Module Board.

Definition N : Z := 13.
Definition W : Z := N + 2.
Definition W2 : Z := W * W.
Definition MAX_GAME_LEN : Z := N * N * 3.

(** ["\n".join([(N+1)*' '] + N*[' ' + N*'.'] + [(N+2)*' '])] *)
Definition empty : str :=
  Eval cbv in
    (repeat " " (Z.to_nat (N + 1)) ++ ["010"]) ++
    concat (repeat ((" " :: repeat "." (Z.to_nat N)) ++ ["010"]) (Z.to_nat N)) ++
    repeat " " (Z.to_nat (N + 2)).

Record t : Set := mk { board : str }.

(** [Board.__init__]: [self.board = board_data or self.empty]; the
    empty string is falsy. *)
Definition init (board_data : option str) : t :=
  match board_data with
  | None | Some [] => mk empty
  | Some d => mk d
  end.

Definition neighbors (c : Z) : list Z := [c - 1; c + 1; c - W; c + W].

(** The [for d in neighbors(c)] loop of [floodfill]: the pair is the
    bytearray and the fringe, whose top of stack is the head. *)
Fixpoint fill_neighbors (p : ascii) (ds : list Z) (bb : str) (fringe : list Z)
  : result (str * list Z) :=
  match ds with
  | [] => Ret (bb, fringe)
  | d :: ds' =>
      x ← getitem bb d;
      if Ascii.eqb x p then
        bb' ← setitem bb d "#";
        fill_neighbors p ds' bb' (d :: fringe)
      else fill_neighbors p ds' bb fringe
  end.

(** [while fringe: c = fringe.pop(); ...]. Every pass pops one cell and a
    cell is pushed only when it turns from [p] into the marker, so the
    loop makes at most as many passes as the bytearray has cells, unless
    [p] is the marker itself. *)
Fixpoint fill_loop (fuel : nat) (p : ascii) (bb : str) (fringe : list Z)
  : result str :=
  match fringe with
  | [] => Ret bb
  | c :: fringe' =>
      match fuel with
      | O => Diverge
      | S fuel' =>
          '(bb', fringe'') ← fill_neighbors p (neighbors c) bb fringe';
          fill_loop fuel' p bb' fringe''
      end
  end.

Definition floodfill (self : t) (c : Z) : result t :=
  let byteboard := board self in
  p ← getitem byteboard c;
  byteboard ← setitem byteboard c "#";
  byteboard ← fill_loop (length byteboard) p byteboard [c];
  Ret (init (Some byteboard)).

Definition swapcase (self : t) : t :=
  init (Some (map swapcase_char (board self))).

(** The loop of [is_eyeish] over the remaining neighbours. *)
Fixpoint eyeish_loop (b : str) (ds : list Z) (eyecolor : option ascii)
  : result (option ascii) :=
  match ds with
  | [] => Ret eyecolor
  | d :: ds' =>
      x ← getitem b d;
      if isspace x then eyeish_loop b ds' eyecolor
      else if Ascii.eqb x "." then Ret None
      else match eyecolor with
           | None => eyeish_loop b ds' (Some x)
           | Some e =>
               if Ascii.eqb x (swapcase_char e) then Ret None
               else eyeish_loop b ds' eyecolor
           end
  end.

Definition is_eyeish (self : t) (c : Z) : result (option ascii) :=
  eyeish_loop (board self) (neighbors c) None.

(** [contact_res[p].search(self.board)] for the pattern
    [#p | p# | #.{W-1}p | p.{W-1}#] under DOTALL: the leftmost start,
    then the first alternative that matches there; the value returned is
    the index of the [p] of the match. *)
Fixpoint contact_search (p : ascii) (l : str) (i : Z) : option Z :=
  match l with
  | [] => None
  | a :: t =>
      let right := t !! 0%nat in
      let below := t !! Z.to_nat (W - 1) in
      if Ascii.eqb a "#" then
        if bool_decide (right = Some p) then Some (i + 1)
        else if bool_decide (below = Some p) then Some (i + W)
        else contact_search p t (i + 1)
      else if Ascii.eqb a p then
        if bool_decide (right = Some "#") || bool_decide (below = Some "#")
        then Some i
        else contact_search p t (i + 1)
      else contact_search p t (i + 1)
  end.

(** [contact_res] has the keys ['.'], ['x'] and ['X'] only. *)
Definition contact (self : t) (p : ascii) : result (option Z) :=
  if Ascii.eqb p "." || Ascii.eqb p "x" || Ascii.eqb p "X"
  then Ret (contact_search p (board self) 0)
  else Raise KeyError.

(** [board_put]: a [None] coordinate gives [None]; slicing never raises. *)
Definition board_put (self : t) (c : option Z) (p : str) : option t :=
  match c with
  | None => None
  | Some c =>
      Some (init (Some (slice_to (board self) c ++ p ++ slice_from (board self) (c + 1))))
  end.

(** [parse_coord]: the column is [ord(s[0].upper()) - ord("A")]. *)
Definition parse_coord (x : str) : result (option Z) :=
  if bool_decide (x = lit "pass") then Ret None
  else
    row ← int_of_str (slice_from x 1);
    x0 ← getitem x 0;
    Ret (Some (W + 1 + (N - row) * W + (ord (upper_char x0) - ord "A"))).

(** [str_coord]: the column letter is [chr(col + ord("A"))]. *)
Definition str_coord (c : option Z) : str :=
  match c with
  | None => lit "pass"
  | Some c =>
      let row := (c - (W + 1)) `div` W in
      let col := (c - (W + 1)) `mod` W in
      chr (col + ord "A") :: str_of_int (N - row)
  end.

(** [line_height]: [divmod] rounds to the floor, as [Z.div] does. *)
Definition line_height (c : Z) : Z :=
  let row := (c - (W + 1)) `div` W in
  let col := (c - (W + 1)) `mod` W in
  Z.min (Z.min (Z.min row col) (N - 1 - row)) (N - 1 - col).

Definition diag_neighbors (c : Z) : list Z :=
  [c - W - 1; c - W + 1; c + W - 1; c + W + 1].

(** The loop of [is_eye] over the diagonal neighbours: the count of
    stones of [falsecolor] and whether a blank was met. *)
Fixpoint eye_loop (b : str) (ds : list Z) (falsecolor : ascii)
    (false_count : Z) (at_edge : bool) : result (Z * bool) :=
  match ds with
  | [] => Ret (false_count, at_edge)
  | d :: ds' =>
      x ← getitem b d;
      if isspace x then eye_loop b ds' falsecolor false_count true
      else if Ascii.eqb x falsecolor
           then eye_loop b ds' falsecolor (false_count + 1) at_edge
           else eye_loop b ds' falsecolor false_count at_edge
  end.

Definition is_eye (self : t) (c : Z) : result (option ascii) :=
  eyecolor ← is_eyeish self c;
  match eyecolor with
  | None => Ret None
  | Some e =>
      '(false_count, at_edge) ←
        eye_loop (board self) (diag_neighbors c) (swapcase_char e) 0 false;
      let false_count := if at_edge : bool then false_count + 1 else false_count in
      if 2 <=? false_count then Ret None else Ret (Some e)
  end.

(** The [for d in neighbors(c)] loop of [empty_area]; [rec d] is the call
    [self.empty_area(d, dist - 1)]. *)
Fixpoint empty_area_loop (rec : Z -> result bool) (b : str) (dist : Z)
    (ds : list Z) : result bool :=
  match ds with
  | [] => Ret true
  | d :: ds' =>
      x ← getitem b d;
      if Ascii.eqb x "X" || Ascii.eqb x "x" then Ret false
      else if Ascii.eqb x "." && (1 <? dist) then
        r ← rec d;
        if negb r then Ret false else empty_area_loop rec b dist ds'
      else empty_area_loop rec b dist ds'
  end.

(** [empty_area] calls itself only with [dist > 1] and with [dist - 1]:
    the depth of the calls is at most [dist]. *)
Fixpoint empty_area_depth (depth : nat) (b : str) (c dist : Z) : result bool :=
  match depth with
  | O => Diverge
  | S depth' =>
      empty_area_loop (fun d => empty_area_depth depth' b d (dist - 1)) b dist
        (neighbors c)
  end.

Definition empty_area (self : t) (c : Z) (dist : Z) : result bool :=
  empty_area_depth (S (Z.to_nat dist)) (board self) c dist.

Definition neighborhood_33 (self : t) (c : Z) : str :=
  replace "010" " "
    (slice (board self) (c - W - 1) (c - W + 2) ++
     slice (board self) (c - 1) (c + 2) ++
     slice (board self) (c + W - 1) (c + W + 2)).

End Board.

(** ** position.py *)

Module Position.

Record t : Set := mk {
  board : Board.t;
  captures : Z * Z;
  n : Z;
  ko : option Z;
  last : option Z;
  last2 : option Z;
  komi : Q
}.

(** [Position.__init__]: [self.board = board or Board()]. *)
Definition init (board : option Board.t) (captures : Z * Z) (n : Z)
    (ko last last2 : option Z) (komi : Q) : t :=
  mk (default (Board.init None) board) captures n ko last last2 komi.

(** The capture loop of [move]: [board.board = ...] rebinds the string of
    the board that [board_put] made. *)
Fixpoint capture_loop (ds : list Z) (board : Board.t) (capt_X : Z)
    (singlecaps : list Z) : result (Board.t * Z * list Z) :=
  match ds with
  | [] => Ret (board, capt_X, singlecaps)
  | d :: ds' =>
      x ← getitem (Board.board board) d;
      if negb (Ascii.eqb x "x") then capture_loop ds' board capt_X singlecaps
      else
        fboard ← Board.floodfill board d;
        l ← Board.contact fboard ".";
        match l with
        | Some _ => capture_loop ds' board capt_X singlecaps
        | None =>
            let capcount := count "#" (Board.board fboard) in
            capture_loop ds'
              (Board.mk (replace "#" "." (Board.board fboard)))
              (capt_X + capcount)
              (if capcount =? 1 then singlecaps ++ [d] else singlecaps)
        end
  end.

(** [move]: the first test compares [c] with [self.komi]. *)
Definition move (self : t) (c : Z) : result (option t) :=
  if Qeq_bool (inject_Z c) (komi self) then Ret None
  else
    e ← Board.is_eyeish (board self) c;
    let in_enemy_eye := bool_decide (e = Some "x") in
    match Board.board_put (board self) (Some c) ["X"] with
    | None => Raise AttributeError
    | Some board0 =>
        '(board1, capt_X, singlecaps) ←
          capture_loop (Board.neighbors c) board0 (fst (captures self)) [];
        let ko' :=
          match singlecaps with
          | [d] => if in_enemy_eye then Some d else None
          | _ => None
          end in
        sfboard ← Board.floodfill board1 c;
        l ← Board.contact sfboard ".";
        match l with
        | None => Ret None
        | Some _ =>
            Ret (Some (init (Some (Board.swapcase board1))
                         (snd (captures self), capt_X)
                         (n self + 1) ko' (Some c) (last self) (komi self)))
        end
    end.

Definition pass_move (self : t) : t :=
  init (Some (Board.swapcase (board self)))
    (snd (captures self), fst (captures self))
    (n self + 1) None None (last self) (komi self).

(** The [while True] loop of [score]. The local [board] starts as the
    Board object ([None] here) and is rebound to a labelled string. The
    index [i] grows with every pass, so the loop makes at most one pass
    more than the board has characters. *)
Fixpoint score_loop (fuel : nat) (self : t) (i : Z) (lboard : option str)
  : result (option str) :=
  match fuel with
  | O => Diverge
  | S fuel' =>
      let i := find "." (Board.board (board self)) (i + 1) in
      if i =? -1 then Ret lboard
      else
        fboard ← Board.floodfill (board self) i;
        tX ← Board.contact fboard "X";
        tx ← Board.contact fboard "x";
        let touches_X := bool_decide (tX <> None) in
        let touches_x := bool_decide (tx <> None) in
        let lboard :=
          if touches_X && negb touches_x then replace "#" "X" (Board.board fboard)
          else if touches_x && negb touches_X then replace "#" "x" (Board.board fboard)
          else replace "#" ":" (Board.board fboard) in
        score_loop fuel' self i (Some lboard)
  end.

(** The label [score] gives to the region a flood fill has marked. *)
Definition label (fboard : Board.t) : result str :=
  tX ← Board.contact fboard "X";
  tx ← Board.contact fboard "x";
  let touches_X := bool_decide (tX <> None) in
  let touches_x := bool_decide (tx <> None) in
  Ret (if touches_X && negb touches_x then replace "#" "X" (Board.board fboard)
       else if touches_x && negb touches_X then replace "#" "x" (Board.board fboard)
       else replace "#" ":" (Board.board fboard)).

(** [for c in range(W * W): owner_map[c] += ...] *)
Fixpoint owner_loop (cs : list Z) (lboard : str) (n : Z) (owner_map : list Z)
  : result (list Z) :=
  match cs with
  | [] => Ret owner_map
  | c :: cs' =>
      x ← getitem lboard c;
      let k := if Ascii.eqb x "X" then 1 else if Ascii.eqb x "x" then -1 else 0 in
      old ← getitem owner_map c;
      owner_map ← setitem owner_map c (old + k * (if n mod 2 =? 0 then 1 else -1));
      owner_loop cs' lboard n owner_map
  end.

(** The komi term of [score]. *)
Definition score_komi (self : t) : Q :=
  if n self mod 2 =? 1 then komi self else (- komi self)%Q.

(** [score]: the value and the owner map after the in-place updates.
    Indexing or counting on the Board object itself raises. *)
Definition score (self : t) (owner_map : option (list Z))
  : result (Q * option (list Z)) :=
  lboard ← score_loop (S (length (Board.board (board self)))) self 0 None;
  let komi := score_komi self in
  owner_map ←
    match owner_map with
    | None => Ret None
    | Some om =>
        match lboard with
        | None => Raise TypeError
        | Some lb =>
            om ← owner_loop (seqZ 0 (Board.W * Board.W)) lb (n self) om;
            Ret (Some om)
        end
    end;
  match lboard with
  | None => Raise AttributeError
  | Some lb => Ret ((inject_Z (count "X" lb - count "x" lb) + komi)%Q, owner_map)
  end.

(** The [while True] loop of [moves]. The index grows with every pass of
    the loop but the one that starts over, so the loop makes at most two
    passes per character and two more. *)
Fixpoint moves_loop (fuel : nat) (self : t) (i0 i passes : Z) : gen Z :=
  match fuel with
  | O => ([], Diverge)
  | S fuel' =>
      let i := find_from "." (Board.board (board self)) (i + 1) in
      if (0 <? passes) && ((i =? -1) || (i0 <=? i)) then ([], Ret tt)
      else if i =? -1 then moves_loop fuel' self i0 0 (passes + 1)
      else
        match Board.is_eye (board self) i with
        | Ret e =>
            if bool_decide (e = Some "X") then moves_loop fuel' self i0 i passes
            else let g := moves_loop fuel' self i0 i passes in (i :: g.1, g.2)
        | Raise e => ([], Raise e)
        | Diverge => ([], Diverge)
        end
  end.

Definition moves (self : t) (i0 : Z) : gen Z :=
  moves_loop (2 * length (Board.board (board self)) + 3) self i0 (i0 - 1) 0.

Section Shuffle.

(** [random.shuffle]: the list it leaves in place of its argument. *)
Variable shuffle : list Z -> list Z.

(** One pass of the loop of [last_moves_neighbors]. *)
Definition add_neighbors (coord_list : list Z) (c : option Z) : list Z :=
  match c with
  | None => coord_list
  | Some c =>
      let diag_list :=
        shuffle (c :: Board.neighbors c ++ Board.diag_neighbors c) in
      coord_list ++ filter (fun d => d ∉ coord_list) diag_list
  end.

Definition last_moves_neighbors (self : t) : list Z :=
  add_neighbors (add_neighbors [] (last self)) (last2 self).

End Shuffle.

Definition empty_position : t :=
  init (Some (Board.init None)) (0, 0) 0 None None None (75 # 10).

(** The positions of a game: from the empty position by [move] and
    [pass_move]. *)
Inductive reachable : t -> Prop :=
| reach_empty : reachable empty_position
| reach_move p c p' : reachable p -> move p c = Ret (Some p') -> reachable p'
| reach_pass p : reachable p -> reachable (pass_move p).

(** The positions of a game in which every stone goes on an empty point,
    as the callers of [move] see to. *)
Inductive played : t -> Prop :=
| played_empty : played empty_position
| played_move p c p' :
    played p -> 0 <= c -> Board.board (board p) !! Z.to_nat c = Some "." ->
    move p c = Ret (Some p') -> played p'
| played_pass p : played p -> played (pass_move p).

(** A game record replayed from the empty position; [None] is a pass, and
    a rejected move stops the replay. *)
Fixpoint replay_from (p : t) (record : list (option Z)) : result t :=
  match record with
  | [] => Ret p
  | None :: rest => replay_from (pass_move p) rest
  | Some c :: rest =>
      r ← move p c;
      match r with
      | Some p' => replay_from p' rest
      | None => Raise ValueError
      end
  end.
Definition replay : list (option Z) -> result t := replay_from empty_position.

(** Area scoring as the specification words it: every empty region is
    flood-filled once, on the board labelled so far, and takes the label
    ["X"], ["x"] or [":"]; the score counts the board with all regions
    labelled. *)
Fixpoint label_regions (fuel : nat) (lboard : str) : result str :=
  match fuel with
  | O => Diverge
  | S fuel' =>
      let i := find "." lboard 0 in
      if i =? -1 then Ret lboard
      else
        fboard ← Board.floodfill (Board.mk lboard) i;
        tX ← Board.contact fboard "X";
        tx ← Board.contact fboard "x";
        let touches_X := bool_decide (tX <> None) in
        let touches_x := bool_decide (tx <> None) in
        label_regions fuel'
          (if touches_X && negb touches_x then replace "#" "X" (Board.board fboard)
           else if touches_x && negb touches_X then replace "#" "x" (Board.board fboard)
           else replace "#" ":" (Board.board fboard))
  end.

Definition score_all_regions (self : t) : result Q :=
  lb ← label_regions (S (length (Board.board (board self)))) (Board.board (board self));
  Ret (inject_Z (count "X" lb - count "x" lb) + score_komi self)%Q.

End Position.

(** ** The object store

    The same methods over a store of Python objects, where a Board is an
    object with a rebindable attribute [board], a Position is an object
    whose attribute [board] refers to a Board object, every constructor
    call allocates, and [board.board = ...] in [move] is an in-place write.
    The string computations are those of [Board]. *)

Module Obj.

Abbreviation ref := nat.

Record position : Set := mk_position {
  board : ref;
  captures : Z * Z;
  n : Z;
  ko : option Z;
  last : option Z;
  last2 : option Z;
  komi : Q
}.

Inductive obj : Set :=
| OBoard (b : Board.t)
| OPosition (p : position).

Abbreviation heap := (list obj).

(** A computation on the store; the store survives an exception. *)
Definition M (A : Type) : Type := heap -> result A * heap.

Definition ret {A} (a : A) : M A := fun h => (Ret a, h).
Definition lift {A} (m : result A) : M A := fun h => (m, h).
Definition bindM {A B} (m : M A) (k : A -> M B) : M B := fun h =>
  match m h with
  | (Ret a, h') => k a h'
  | (Raise e, h') => (Raise e, h')
  | (Diverge, h') => (Diverge, h')
  end.
#[global] Instance M_ret : MRet M := @ret.
#[global] Instance M_bind : MBind M := fun A B k m => bindM m k.

Definition alloc (o : obj) : M ref := fun h => (Ret (length h), h ++ [o]).

(** Reading [r.board] of a Board object; a reference to anything else has
    no such attribute. *)
Definition get_board (r : ref) : M Board.t := fun h =>
  match h !! r with
  | Some (OBoard b) => (Ret b, h)
  | _ => (Raise AttributeError, h)
  end.

(** The assignment [r.board = v]. *)
Definition set_board (r : ref) (v : str) : M unit := fun h =>
  match h !! r with
  | Some (OBoard _) => (Ret tt, <[r := OBoard (Board.mk v)]> h)
  | _ => (Raise AttributeError, h)
  end.

Definition get_position (r : ref) : M position := fun h =>
  match h !! r with
  | Some (OPosition p) => (Ret p, h)
  | _ => (Raise AttributeError, h)
  end.

Definition floodfill (self : ref) (c : Z) : M ref :=
  b ← get_board self;
  fb ← lift (Board.floodfill b c);
  alloc (OBoard fb).

Definition swapcase (self : ref) : M ref :=
  b ← get_board self;
  alloc (OBoard (Board.swapcase b)).

Definition board_put (self : ref) (c : option Z) (p : str) : M (option ref) :=
  b ← get_board self;
  match Board.board_put b c p with
  | None => ret None
  | Some b' => r ← alloc (OBoard b'); ret (Some r)
  end.

Definition is_eyeish (self : ref) (c : Z) : M (option ascii) :=
  b ← get_board self; lift (Board.is_eyeish b c).

Definition contact (self : ref) (p : ascii) : M (option Z) :=
  b ← get_board self; lift (Board.contact b p).

(** [Position(board=..., ...)] with a board argument. *)
Definition new_position (board : ref) (captures : Z * Z) (n : Z)
    (ko last last2 : option Z) (komi : Q) : M ref :=
  alloc (OPosition (mk_position board captures n ko last last2 komi)).

Fixpoint capture_loop (ds : list Z) (board : ref) (capt_X : Z)
    (singlecaps : list Z) : M (Z * list Z) :=
  match ds with
  | [] => ret (capt_X, singlecaps)
  | d :: ds' =>
      b ← get_board board;
      x ← lift (getitem (Board.board b) d);
      if negb (Ascii.eqb x "x") then capture_loop ds' board capt_X singlecaps
      else
        fboard ← floodfill board d;
        l ← contact fboard ".";
        match l with
        | Some _ => capture_loop ds' board capt_X singlecaps
        | None =>
            fb ← get_board fboard;
            let capcount := count "#" (Board.board fb) in
            _ ← set_board board (replace "#" "." (Board.board fb));
            capture_loop ds' board (capt_X + capcount)
              (if capcount =? 1 then singlecaps ++ [d] else singlecaps)
        end
  end.

Definition move (self : ref) (c : Z) : M (option ref) :=
  p ← get_position self;
  if Qeq_bool (inject_Z c) (komi p) then ret None
  else
    e ← is_eyeish (board p) c;
    let in_enemy_eye := bool_decide (e = Some "x") in
    board0 ← board_put (board p) (Some c) ["X"];
    match board0 with
    | None => lift (Raise AttributeError)
    | Some board0 =>
        '(capt_X, singlecaps) ←
          capture_loop (Board.neighbors c) board0 (fst (captures p)) [];
        let ko' :=
          match singlecaps with
          | [d] => if in_enemy_eye then Some d else None
          | _ => None
          end in
        sfboard ← floodfill board0 c;
        l ← contact sfboard ".";
        match l with
        | None => ret None
        | Some _ =>
            sw ← swapcase board0;
            r ← new_position sw (snd (captures p), capt_X) (n p + 1) ko'
                  (Some c) (last p) (komi p);
            ret (Some r)
        end
    end.

Definition pass_move (self : ref) : M ref :=
  p ← get_position self;
  sw ← swapcase (board p);
  new_position sw (snd (captures p), fst (captures p)) (n p + 1) None None
    (last p) (komi p).

(** The Position value an object of the store stands for. *)
Definition position_at (h : heap) (r : ref) : option Position.t :=
  match h !! r with
  | Some (OPosition p) =>
      match h !! board p with
      | Some (OBoard b) =>
          Some (Position.mk b (captures p) (n p) (ko p) (last p) (last2 p) (komi p))
      | _ => None
      end
  | _ => None
  end.

(** [m] leaves the first [k] objects of the store as they are, never
    shrinks the store, and its value satisfies [Q]. *)
Definition preserves {A} (k : nat) (m : M A) (Q : A -> Prop) : Prop :=
  forall h : heap, (k <= length h)%nat ->
    take k (m h).2 = take k h /\
    (length h <= length (m h).2)%nat /\
    forall a, (m h).1 = Ret a -> Q a.

End Obj.

(** ** heuristics.py: the playout loop *)

Module Heuristics.

(** [cfg_distances], the [for d in neighbors(c)] loop: the map and the
    fringe, whose top of stack is the head. The tests read the board and
    the map in the order of the source, [or], [and] and the chained
    comparison stopping at their first decisive operand; [new] is what
    [cfg_map[d]] holds once it has been assigned. *)
Fixpoint cfg_neighbors (b : str) (c : Z) (ds : list Z) (cfg_map fringe : list Z)
  : result (list Z * list Z) :=
  match ds with
  | [] => Ret (cfg_map, fringe)
  | d :: ds' =>
      bd ← getitem b d;
      skip ← (if isspace bd then Ret true
              else
                md ← getitem cfg_map d;
                if 0 <=? md then mc ← getitem cfg_map c; Ret (md <=? mc)
                else Ret false);
      if skip : bool then cfg_neighbors b c ds' cfg_map fringe
      else
        cfg_before ← getitem cfg_map d;
        same ← (if negb (Ascii.eqb bd ".") then bc ← getitem b c; Ret (Ascii.eqb bd bc)
                else Ret false);
        mc ← getitem cfg_map c;
        let new := if same : bool then mc else mc + 1 in
        cfg_map ← setitem cfg_map d new;
        cfg_neighbors b c ds' cfg_map
          (if (cfg_before <? 0) || (new <? cfg_before) then d :: fringe else fringe)
  end.

(** [while fringe]. An entry of the map is lowered, or set for the first
    time, whenever a coordinate is pushed, so the fuel [cfg_distances]
    gives is never used up. *)
Fixpoint cfg_loop (fuel : nat) (b : str) (cfg_map fringe : list Z) : result (list Z) :=
  match fringe with
  | [] => Ret cfg_map
  | c :: fringe' =>
      match fuel with
      | O => Diverge
      | S fuel' =>
          '(cfg_map, fringe) ← cfg_neighbors b c (Board.neighbors c) cfg_map fringe';
          cfg_loop fuel' b cfg_map fringe
      end
  end.

Definition cfg_distances (board : Board.t) (c : Z) : result (list Z) :=
  let cfg_map := replicate (Z.to_nat (Board.W * Board.W)) (-1) in
  cfg_map ← setitem cfg_map c 0;
  cfg_loop (Z.to_nat (Board.W2 * Board.W2)) (Board.board board) cfg_map [c].

(** [read_ladder_attack], the loop [for l in [l1, l2]]; [rec pos_l c] is
    the call [fix_atari(pos_l, c, twolib_test=False)]. *)
Fixpoint ladder_loop (rec : Position.t -> Z -> result (bool * list Z))
    (pos : Position.t) (c : Z) (ls : list Z) : result (option Z) :=
  match ls with
  | [] => Ret None
  | l :: ls' =>
      pos_l ← Position.move pos l;
      match pos_l with
      | None => ladder_loop rec pos c ls'
      | Some pos_l =>
          '(is_atari, atari_escape) ← rec pos_l c;
          if (is_atari : bool) && bool_decide (atari_escape = []) then Ret (Some l)
          else ladder_loop rec pos c ls'
      end
  end.

Definition read_ladder_attack (rec : Position.t -> Z -> result (bool * list Z))
    (pos : Position.t) (c l1 l2 : Z) : result (option Z) :=
  ladder_loop rec pos c [l1; l2].

(** The [while True] loop of [fix_atari] over the neighbouring groups:
    every pass turns an ["x"] of [ccboard] into ["%"], so the loop makes
    at most one pass per character and one more. *)
Fixpoint counter_captures (rec : Position.t -> Z -> result (bool * list Z))
    (fuel : nat) (pos : Position.t) (ccboard : Board.t) (solutions : list Z)
  : result (list Z) :=
  match fuel with
  | O => Diverge
  | S fuel' =>
      othergroup ← Board.contact ccboard "x";
      match othergroup with
      | None => Ret solutions
      | Some g =>
          '(a, ccls) ← rec pos g;
          let solutions :=
            if (a : bool) && negb (bool_decide (ccls = [])) then solutions ++ ccls
            else solutions in
          match Board.board_put ccboard (Some g) (lit "%") with
          | Some ccboard => counter_captures rec fuel' pos ccboard solutions
          | None => Raise AttributeError
          end
      end
  end.

(** The body of [fix_atari]. A liberty that is [None] makes [board_put]
    return [None], on which [contact] is an AttributeError; [if
    ladder_attack] is false of [None] and of 0. *)
Definition fix_atari_body (rec : Position.t -> Z -> result (bool * list Z))
    (pos : Position.t) (c : Z) (singlept_ok twolib_test twolib_edgeonly : bool)
  : result (bool * list Z) :=
  fboard ← Board.floodfill (Position.board pos) c;
  let group_size := count "#" (Board.board fboard) in
  if singlept_ok && (group_size =? 1) then Ret (false, [])
  else
    l ← Board.contact fboard ".";
    match l, Board.board_put fboard l (lit "L") with
    | Some l, Some fboard =>
        l2 ← Board.contact fboard ".";
        match l2 with
        | Some l2 =>
            if twolib_test && (1 <? group_size) &&
               (negb twolib_edgeonly ||
                (Board.line_height l =? 0) && (Board.line_height l2 =? 0))
            then
              match Board.board_put fboard (Some l2) (lit "L") with
              | Some l_board =>
                  l3 ← Board.contact l_board ".";
                  match l3 with
                  | None =>
                      ladder_attack ← read_ladder_attack rec pos c l l2;
                      match ladder_attack with
                      | Some la => if la =? 0 then Ret (false, []) else Ret (false, [la])
                      | None => Ret (false, [])
                      end
                  | Some _ => Ret (false, [])
                  end
              | None => Raise AttributeError
              end
            else Ret (false, [])
        | None =>
            x ← getitem (Board.board (Position.board pos)) c;
            if Ascii.eqb x "x" then Ret (true, [l])
            else
              solutions ←
                counter_captures rec (S (length (Board.board fboard))) pos
                  (Board.init (Some (Board.board fboard))) [];
              escpos ← Position.move pos l;
              match escpos with
              | None => Ret (true, solutions)
              | Some escpos =>
                  fboard ← Board.floodfill (Position.board escpos) l;
                  l_new ← Board.contact fboard ".";
                  match l_new, Board.board_put fboard l_new (lit "L") with
                  | Some l_new, Some fboard =>
                      l_new_2 ← Board.contact fboard ".";
                      match l_new_2 with
                      | Some l_new_2 =>
                          if negb (bool_decide (solutions = [])) then
                            Ret (true, solutions ++ [l])
                          else
                            match Board.board_put fboard (Some l_new_2) (lit "L") with
                            | Some l_board =>
                                l3 ← Board.contact l_board ".";
                                caught ←
                                  match l3 with
                                  | None =>
                                      la ← read_ladder_attack rec escpos l l_new l_new_2;
                                      Ret (bool_decide (la <> None))
                                  | Some _ => Ret false
                                  end;
                                if caught : bool then Ret (true, solutions)
                                else Ret (true, solutions ++ [l])
                            | None => Raise AttributeError
                            end
                      | None => Ret (true, solutions)
                      end
                  | _, _ => Raise AttributeError
                  end
              end
        end
    | _, _ => Raise AttributeError
    end.

(** [fix_atari]: every recursive call is made with
    [singlept_ok=False, twolib_test=False, twolib_edgeonly=False]. *)
Fixpoint fix_atari (fuel : nat) (pos : Position.t) (c : Z)
    (singlept_ok twolib_test twolib_edgeonly : bool) : result (bool * list Z) :=
  match fuel with
  | O => Diverge
  | S fuel' =>
      fix_atari_body (fun pos' c' => fix_atari fuel' pos' c' false false false)
        pos c singlept_ok twolib_test twolib_edgeonly
  end.

(** The depth the callers of [fix_atari] give it: on a position in play
    the group under attack gains a stone at every level of the recursion
    through [read_ladder_attack], so this depth is never used up. *)
Definition fix_atari_depth : nat := Z.to_nat (Board.W2 + 2).

(** One generator after another. *)
Definition gen_then {A} (g1 g2 : gen A) : gen A :=
  match g1.2 with
  | Ret _ => (g1.1 ++ g2.1, g2.2)
  | _ => g1
  end.

(** [for d in ds: if d not in already_suggested: yield d, ...;
    already_suggested.add(d)]: the coordinates yielded. *)
Fixpoint fresh (ds already : list Z) : list Z :=
  match ds with
  | [] => []
  | d :: ds' =>
      if bool_decide (d ∈ already) then fresh ds' already
      else d :: fresh ds' (d :: already)
  end.

(** The capture heuristic of [gen_playout_moves]: [shuffle i] is what
    [random.shuffle] makes of [ds] at the coordinate of index [i] of
    [heuristic_set]. *)
Fixpoint capture_moves (pos : Position.t) (shuffle : nat -> list Z -> list Z)
    (twolib_edgeonly : bool) (heuristic_set : list Z) (i : nat) (already : list Z)
  : gen (Z * str) :=
  match heuristic_set with
  | [] => ([], Ret tt)
  | c :: rest =>
      match getitem (Board.board (Position.board pos)) c with
      | Ret x =>
          if Ascii.eqb x "X" || Ascii.eqb x "x" then
            match fix_atari fix_atari_depth pos c false true twolib_edgeonly with
            | Ret (_, ds) =>
                let yielded := fresh (shuffle i ds) already in
                let g := capture_moves pos shuffle twolib_edgeonly rest (S i)
                           (yielded ++ already) in
                (map (fun d => (d, lit "capture " ++ str_of_int c)) yielded ++ g.1, g.2)
            | Raise e => ([], Raise e)
            | Diverge => ([], Diverge)
            end
          else capture_moves pos shuffle twolib_edgeonly rest (S i) already
      | Raise e => ([], Raise e)
      | Diverge => ([], Diverge)
      end
  end.

(** The 3x3 pattern heuristic; [pat3set] (board_patterns) is not in the
    sources and is taken as the test of membership in it. *)
Fixpoint pat3_moves (pat3set : str -> bool) (pos : Position.t)
    (heuristic_set already : list Z) : gen (Z * str) :=
  match heuristic_set with
  | [] => ([], Ret tt)
  | c :: rest =>
      match getitem (Board.board (Position.board pos)) c with
      | Ret x =>
          if Ascii.eqb x "." && negb (bool_decide (c ∈ already)) &&
             pat3set (Board.neighborhood_33 (Position.board pos) c)
          then
            let g := pat3_moves pat3set pos rest (c :: already) in
            ((c, lit "pat3") :: g.1, g.2)
          else pat3_moves pat3set pos rest already
      | Raise e => ([], Raise e)
      | Diverge => ([], Diverge)
      end
  end.

(** What the module [random] of the standard library hands out during one
    call of [gen_playout_moves] and the loop that consumes it: the values
    of [random.random()] at its three places (the third once per
    candidate, by the index of the candidate), the lists [random.shuffle]
    leaves, and the two values of [random.randint(1, N)]. *)
Record draws : Type := mk_draws {
  capture_draw : Q;
  ds_shuffle : nat -> list Z -> list Z;
  pat3_draw : Q;
  x_draw : Z;
  y_draw : Z;
  reject_draw : nat -> Q;
  last_shuffle : list Z -> list Z
}.

(** [gen_playout_moves]: [probs] is the pair of the entries ['capture']
    and ['pat3'] of the dictionary. *)
Definition gen_playout_moves (pat3set : str -> bool) (rnd : draws)
    (pos : Position.t) (heuristic_set : list Z) (probs : option (Q * Q))
    (expensive_ok : bool) : gen (Z * str) :=
  let probs := default (1, 1)%Q probs in
  gen_then
    (if Qle_bool (capture_draw rnd) probs.1
     then capture_moves pos (ds_shuffle rnd) (negb expensive_ok) heuristic_set 0 []
     else ([], Ret tt))
    (gen_then
       (if Qle_bool (pat3_draw rnd) probs.2
        then pat3_moves pat3set pos heuristic_set []
        else ([], Ret tt))
       (let g := Position.moves pos (y_draw rnd * Board.W + x_draw rnd) in
        (map (fun c => (c, lit "random")) g.1, g.2))).

Section Playout.

(** The loop of [mcplayout] over any stream of candidates: one pass of
    the [for] loop at iteration [k] of the playout runs over the finite
    stream [suggest k pos] of candidates, each with the outcome of its
    self-atari test. What the loop does to the amaf map is stated for
    every such stream; [Playout] below runs the loop over
    [gen_playout_moves] and [fix_atari] themselves. *)
Variable suggest : nat -> Position.t -> list (Z * bool).

(** [for c, kind in gen_playout_moves(...)]: the result is [pos2] and
    the amaf map when the loop is left. *)
Fixpoint try_moves (pos : Position.t) (amaf_map : list Z)
    (cands : list (Z * bool)) : result (option Position.t * list Z) :=
  match cands with
  | [] => Ret (None, amaf_map)
  | (c, rejected) :: rest =>
      pos2 ← Position.move pos c;
      match pos2 with
      | None => try_moves pos amaf_map rest
      | Some p2 =>
          if rejected then try_moves pos amaf_map rest
          else
            a ← getitem amaf_map c;
            amaf_map ←
              (if a =? 0
               then setitem amaf_map c (if Position.n pos mod 2 =? 0 then 1 else -1)
               else Ret amaf_map);
            Ret (Some p2, amaf_map)
      end
  end.

(** [while passes < 2 and pos.n < Board.MAX_GAME_LEN] *)
Fixpoint playout_loop (fuel k : nat) (pos : Position.t) (passes : Z)
    (amaf_map : list Z) : result (Position.t * list Z) :=
  if (passes <? 2) && (Position.n pos <? Board.MAX_GAME_LEN) then
    match fuel with
    | O => Diverge
    | S fuel' =>
        '(pos2, amaf_map) ← try_moves pos amaf_map (suggest k pos);
        match pos2 with
        | None =>
            playout_loop fuel' (S k) (Position.pass_move pos) (passes + 1) amaf_map
        | Some p2 => playout_loop fuel' (S k) p2 0 amaf_map
        end
    end
  else Ret (pos, amaf_map).

(** [mcplayout]: [score] is called with an owner map and hands it back. *)
Definition mcplayout (pos : Position.t) (amaf_map : list Z)
  : result (Q * list Z * list Z) :=
  let start_n := Position.n pos in
  '(pos', amaf_map) ←
    playout_loop (Z.to_nat (Board.MAX_GAME_LEN - Position.n pos)) 0 pos 0 amaf_map;
  let owner_map := replicate (Z.to_nat (Board.W * Board.W)) 0 in
  '(score, owner_map) ← Position.score pos' (Some owner_map);
  let score :=
    if negb (start_n mod 2 =? Position.n pos' mod 2) then (- score)%Q else score in
  Ret (score, amaf_map, default [] owner_map).

End Playout.

End Heuristics.

(** ** heuristics.py: [mcplayout] over [gen_playout_moves] *)

Module Playout.

Section Playout.

(** [const.py] and [board_patterns.py] are not in the sources: the two
    entries of [PROB_HEURISTIC], the two rejection probabilities and
    membership in [pat3set] are parameters. [random k] is what the
    module [random] hands out during pass [k] of the loop of [mcplayout]. *)
Variable PROB_HEURISTIC : Q * Q.
Variables PROB_RSAREJECT PROB_SSAREJECT : Q.
Variable pat3set : str -> bool.
Variable random : nat -> Heuristics.draws.

(** [for c, kind in gen_playout_moves(...)] over the candidates the
    generator yields and the way it stops; [j] is the index of the
    candidate. The result is [pos2] and the amaf map when the loop is
    left. *)
Fixpoint for_moves (rnd : Heuristics.draws) (pos : Position.t) (amaf_map : list Z)
    (cands : list (Z * str)) (stop : result unit) (j : nat)
  : result (option Position.t * list Z) :=
  match cands with
  | [] => _ ← stop; Ret (None, amaf_map)
  | (c, kind) :: rest =>
      pos2 ← Position.move pos c;
      match pos2 with
      | None => for_moves rnd pos amaf_map rest stop (S j)
      | Some p2 =>
          rejected ←
            (if Qle_bool (Heuristics.reject_draw rnd j)
                  (if bool_decide (kind = lit "random") then PROB_RSAREJECT
                   else PROB_SSAREJECT)
             then
               '(_, ds) ← Heuristics.fix_atari Heuristics.fix_atari_depth p2 c
                            true true true;
               Ret (negb (bool_decide (ds = [])))
             else Ret false);
          if rejected : bool then for_moves rnd pos amaf_map rest stop (S j)
          else
            a ← getitem amaf_map c;
            amaf_map ←
              (if a =? 0
               then setitem amaf_map c (if Position.n pos mod 2 =? 0 then 1 else -1)
               else Ret amaf_map);
            Ret (Some p2, amaf_map)
      end
  end.

(** [while passes < 2 and pos.n < Board.MAX_GAME_LEN] *)
Fixpoint playout_loop (fuel k : nat) (pos : Position.t) (passes : Z)
    (amaf_map : list Z) : result (Position.t * list Z) :=
  if (passes <? 2) && (Position.n pos <? Board.MAX_GAME_LEN) then
    match fuel with
    | O => Diverge
    | S fuel' =>
        let rnd := random k in
        let g :=
          Heuristics.gen_playout_moves pat3set rnd pos
            (Position.last_moves_neighbors (Heuristics.last_shuffle rnd) pos)
            (Some PROB_HEURISTIC) false in
        '(pos2, amaf_map) ← for_moves rnd pos amaf_map g.1 g.2 0;
        match pos2 with
        | None =>
            playout_loop fuel' (S k) (Position.pass_move pos) (passes + 1) amaf_map
        | Some p2 => playout_loop fuel' (S k) p2 0 amaf_map
        end
    end
  else Ret (pos, amaf_map).

(** [mcplayout]: [score] is called with an owner map and hands it back. *)
Definition mcplayout (pos : Position.t) (amaf_map : list Z)
  : result (Q * list Z * list Z) :=
  let start_n := Position.n pos in
  '(pos', amaf_map) ←
    playout_loop (Z.to_nat (Board.MAX_GAME_LEN - Position.n pos)) 0 pos 0 amaf_map;
  let owner_map := replicate (Z.to_nat (Board.W * Board.W)) 0 in
  '(score, owner_map) ← Position.score pos' (Some owner_map);
  let score :=
    if negb (start_n mod 2 =? Position.n pos' mod 2) then (- score)%Q else score in
  Ret (score, amaf_map, default [] owner_map).

End Playout.

End Playout.

(** ** tree_node.py *)

Module TreeNode.

Definition PRIOR_EVEN : Z := 10.
Definition PRIOR_SELFATARI : Z := 10.
Definition PRIOR_CAPTURE_ONE : Z := 15.
Definition PRIOR_CAPTURE_MANY : Z := 30.
Definition PRIOR_PAT3 : Z := 10.
Definition PRIOR_LARGEPATTERN : Z := 100.
Definition PRIOR_CFG : list Z := [24; 22; 8].
Definition PRIOR_EMPTYAREA : Z := 10.

Abbreviation ref := nat.

(** A node object; [children] holds references into the tree store. *)
Record t : Type := mk {
  pos : Position.t;
  v : Z;
  w : Z;
  pv : Q;
  pw : Q;
  av : Z;
  aw : Z;
  children : option (list ref)
}.

Definition init (pos : Position.t) : t :=
  mk pos 0 0 (inject_Z PRIOR_EVEN) (inject_Z PRIOR_EVEN / 2) 0 0 None.

(** Python's [/]: a zero divisor raises. *)
Definition div (x y : Q) : result Q :=
  if Qeq_bool y 0 then Raise ZeroDivisionError else Ret (x / y)%Q.

Definition rave_urgency (RAVE_EQUIV : Q) (self : t) : result Q :=
  let v := (inject_Z (v self) + pv self)%Q in
  expectation ← div (inject_Z (w self) + pw self) v;
  if av self =? 0 then Ret expectation
  else
    rave_expectation ← div (inject_Z (aw self)) (inject_Z (av self));
    x ← div (v * inject_Z (av self)) RAVE_EQUIV;
    beta ← div (inject_Z (av self)) (inject_Z (av self) + v + x);
    Ret (beta * rave_expectation + (1 - beta) * expectation)%Q.

(** The attribute writes the engine makes on a node after
    [TreeNode.__init__]: the prior increments of [expand]
    (tree_node.py), [v += 1] of [tree_descend], and [w], [aw], [av] of
    [tree_update] (tree.py). *)
Inductive write : t -> t -> Prop :=
| w_prior nd (k : Z) (both : bool) :
    k ∈ [PRIOR_CAPTURE_MANY; PRIOR_CAPTURE_ONE; PRIOR_PAT3;
         PRIOR_EMPTYAREA; PRIOR_SELFATARI] ++ PRIOR_CFG ->
    write nd (mk (pos nd) (v nd) (w nd) (pv nd + inject_Z k)
                (pw nd + (if both then inject_Z k else 0))
                (av nd) (aw nd) (children nd))
| w_pattern nd (pattern_prior : Q) :
    (0 <= pattern_prior)%Q ->
    write nd (mk (pos nd) (v nd) (w nd)
                (pv nd + pattern_prior * inject_Z PRIOR_LARGEPATTERN)
                (pw nd + pattern_prior * inject_Z PRIOR_LARGEPATTERN)
                (av nd) (aw nd) (children nd))
| w_children nd (l : list ref) :
    write nd (mk (pos nd) (v nd) (w nd) (pv nd) (pw nd) (av nd) (aw nd) (Some l))
| w_visit nd :
    write nd (mk (pos nd) (v nd + 1) (w nd) (pv nd) (pw nd) (av nd) (aw nd)
                (children nd))
| w_win nd (won : bool) :
    write nd (mk (pos nd) (v nd) (w nd + (if won then 1 else 0)) (pv nd) (pw nd)
                (av nd) (aw nd) (children nd))
| w_amaf nd (won : bool) :
    write nd (mk (pos nd) (v nd) (w nd) (pv nd) (pw nd) (av nd + 1)
                (aw nd + (if won then 1 else 0)) (children nd)).

(** The nodes of the engine: made by the constructor, then written to. *)
Inductive created : t -> Prop :=
| created_init pos : created (init pos)
| created_write nd nd' : created nd -> write nd nd' -> created nd'.

End TreeNode.

(** ** tree.py: [tree_update] *)

Module Tree.

(** The nodes of the tree, by reference. *)
Abbreviation store := (gmap TreeNode.ref TreeNode.t).

(** Reading a node; a reference with no node behind it has no counterpart
    in Python and is an error here. *)
Definition get (st : store) (r : TreeNode.ref) : result TreeNode.t :=
  match st !! r with
  | Some nd => Ret nd
  | None => Raise AttributeError
  end.

Definition add_w (k : Z) (nd : TreeNode.t) : TreeNode.t :=
  TreeNode.mk (TreeNode.pos nd) (TreeNode.v nd) (TreeNode.w nd + k)
    (TreeNode.pv nd) (TreeNode.pw nd) (TreeNode.av nd) (TreeNode.aw nd)
    (TreeNode.children nd).

Definition add_amaf (k : Z) (nd : TreeNode.t) : TreeNode.t :=
  TreeNode.mk (TreeNode.pos nd) (TreeNode.v nd) (TreeNode.w nd)
    (TreeNode.pv nd) (TreeNode.pw nd) (TreeNode.av nd + 1) (TreeNode.aw nd + k)
    (TreeNode.children nd).

(** Python's [x += cond] for a boolean [cond]. *)
Definition Z_of_bool (b : bool) : Z := if b then 1 else 0.
Definition Qltb (x y : Q) : bool := (Qnum x * QDen y <? Qnum y * QDen x)%Z.

(** [for child in node.children] *)
Fixpoint update_children (children : list TreeNode.ref) (amaf_map : list Z)
    (amaf_map_value : Z) (score : Q) (st : store) : result store :=
  match children with
  | [] => Ret st
  | child :: rest =>
      ch ← get st child;
      match Position.last (TreeNode.pos ch) with
      | None => update_children rest amaf_map amaf_map_value score st
      | Some l =>
          a ← getitem amaf_map l;
          if a =? amaf_map_value then
            update_children rest amaf_map amaf_map_value score
              (alter (add_amaf (Z_of_bool (Qltb 0 score))) child st)
          else update_children rest amaf_map amaf_map_value score st
      end
  end.

(** [for node in reversed(nodes)], on the reversed path. *)
Fixpoint update_path (rnodes : list TreeNode.ref) (amaf_map : list Z)
    (score : Q) (st : store) : result store :=
  match rnodes with
  | [] => Ret st
  | node :: rest =>
      nd ← get st node;
      let st := alter (add_w (Z_of_bool (Qltb score 0))) node st in
      let amaf_map_value :=
        if Position.n (TreeNode.pos nd) mod 2 =? 0 then 1 else -1 in
      st ← match TreeNode.children nd with
           | None => Ret st
           | Some children =>
               update_children children amaf_map amaf_map_value score st
           end;
      update_path rest amaf_map (- score)%Q st
  end.

Definition tree_update (nodes : list TreeNode.ref) (amaf_map : list Z)
    (score : Q) (st : store) : result store :=
  update_path (reverse nodes) amaf_map score st.

(** [max(self.children, key=lambda node: node.v)] of [best_move]: the
    first child among those of greatest [v]. *)
Fixpoint max_by_v (st : store) (rest : list TreeNode.ref) (best : TreeNode.ref)
    (best_v : Z) : result TreeNode.ref :=
  match rest with
  | [] => Ret best
  | c :: rest' =>
      nd ← get st c;
      if best_v <? TreeNode.v nd then max_by_v st rest' c (TreeNode.v nd)
      else max_by_v st rest' best best_v
  end.

(** [TreeNode.best_move], on the store: [max] of an empty list raises. *)
Definition best_move (st : store) (self : TreeNode.ref)
  : result (option TreeNode.ref) :=
  nd ← get st self;
  match TreeNode.children nd with
  | None => Ret None
  | Some [] => Raise ValueError
  | Some (c :: rest) =>
      c0 ← get st c;
      r ← max_by_v st rest c (TreeNode.v c0);
      Ret (Some r)
  end.

(** The writes of one [tree_update], listed in the order they are made:
    which node, which counters, by how much. *)
Inductive action : Set :=
| AddW (r : TreeNode.ref) (k : Z)
| AddAmaf (r : TreeNode.ref) (k : Z).

Definition act (st : store) (a : action) : store :=
  match a with
  | AddW r k => alter (add_w k) r st
  | AddAmaf r k => alter (add_amaf k) r st
  end.

Definition apply (acts : list action) (st : store) : store := foldl act st acts.

Fixpoint plan_children (children : list TreeNode.ref) (amaf_map : list Z)
    (amaf_map_value : Z) (score : Q) (st : store) : result (list action) :=
  match children with
  | [] => Ret []
  | child :: rest =>
      ch ← get st child;
      match Position.last (TreeNode.pos ch) with
      | None => plan_children rest amaf_map amaf_map_value score st
      | Some l =>
          a ← getitem amaf_map l;
          acts ← plan_children rest amaf_map amaf_map_value score st;
          Ret (if a =? amaf_map_value
               then AddAmaf child (Z_of_bool (Qltb 0 score)) :: acts
               else acts)
      end
  end.

Fixpoint plan_path (rnodes : list TreeNode.ref) (amaf_map : list Z)
    (score : Q) (st : store) : result (list action) :=
  match rnodes with
  | [] => Ret []
  | node :: rest =>
      nd ← get st node;
      let amaf_map_value :=
        if Position.n (TreeNode.pos nd) mod 2 =? 0 then 1 else -1 in
      acts ← match TreeNode.children nd with
             | None => Ret []
             | Some children =>
                 plan_children children amaf_map amaf_map_value score st
             end;
      more ← plan_path rest amaf_map (- score)%Q st;
      Ret (AddW node (Z_of_bool (Qltb score 0)) :: acts ++ more)
  end.

(** The writes of [tree_update] add a boolean. *)
Definition counting (a : action) : Prop :=
  match a with
  | AddW _ k | AddAmaf _ k => exists b : bool, k = Z_of_bool b
  end.

(** What [tree_update] reads of a node and never writes. *)
Definition shape (nd : TreeNode.t) : Position.t * option (list TreeNode.ref) :=
  (TreeNode.pos nd, TreeNode.children nd).

Definition same_shape (st st' : store) : Prop :=
  forall r, shape <$> st !! r = shape <$> st' !! r.

End Tree.

(** ** Invariants *)

(** The characters a Position's board may hold: a point, a stone of either
    side, or whitespace. *)
Definition cell_ok (a : ascii) : bool :=
  Ascii.eqb a "." || Ascii.eqb a "X" || Ascii.eqb a "x" || isspace a.

(** A board of a Position, and a scratch board after a flood fill. *)
Abbreviation clean := (Forall (fun a => cell_ok a = true)).
Abbreviation filled := (Forall (fun a => cell_ok a = true \/ a = "#")).

(** What the writes of the engine keep true of a node. *)
Definition counters_ok (nd : TreeNode.t) : Prop :=
  0 <= TreeNode.v nd /\ (inject_Z TreeNode.PRIOR_EVEN <= TreeNode.pv nd)%Q /\
  0 <= TreeNode.av nd.

(** What a flood fill from a cell that holds [p] does to a board: a cell
    keeps its character or, if it held [p], turns into the marker. *)
Definition fills (p : ascii) (b b' : str) : Prop :=
  length b' = length b /\
  forall i : nat, b' !! i = b !! i \/ (b !! i = Some p /\ b' !! i = Some "#").

(** The first and the last row of the board string are blank. *)
Definition rim (b : str) : Prop :=
  forall (i : nat) a, b !! i = Some a ->
    (i < Z.to_nat Board.W \/ Z.to_nat (Board.W2 - Board.W) <= i)%nat ->
    isspace a = true.

(** The coordinates between the first and the last row. *)
Definition on_board (d : Z) : Prop := Board.W <= d < Board.W2 - Board.W.

(** The boards of play: W * W characters of the board alphabet, blank
    rim, at least one empty point. *)
Definition playable (b : str) : Prop :=
  length b = Z.to_nat Board.W2 /\ clean b /\ rim b /\ "." ∈ b.

(** The candidates of a playout are empty points of the board. *)
Definition suggests_empty_points (suggest : nat -> Position.t -> list (Z * bool)) : Prop :=
  forall k pos c rejected,
    (c, rejected) ∈ suggest k pos ->
    0 <= c /\ Board.board (Position.board pos) !! Z.to_nat c = Some ".".

(** Candidates that are empty points of the board of [pos]. *)
Definition empty_points (pos : Position.t) (cands : list (Z * bool)) : Prop :=
  Forall (fun cr => 0 <= cr.1 /\
                    Board.board (Position.board pos) !! Z.to_nat cr.1 = Some ".") cands.

(** The cells that hold [p] and are joined to [c] by a chain of
    neighbours that hold [p]: the group, or the empty region, of [c]. *)
Inductive component (b : str) (p : ascii) (c : Z) : Z -> Prop :=
| component_start : component b p c c
| component_step k d :
    component b p c k -> d ∈ Board.neighbors k -> 0 <= d ->
    b !! Z.to_nat d = Some p -> component b p c d.

(** The cells that a flood fill of [b0] from a cell holding [p] has
    turned into the marker on the scratch board [bb]. *)
Definition marked (b0 : str) (p : ascii) (bb : str) (k : nat) : Prop :=
  b0 !! k = Some p /\ bb !! k = Some "#".

(** What holds of a cell on the fringe of the fill from [c]. *)
Definition fringe_ok (b0 : str) (p : ascii) (c : Z) (bb : str) (d : Z) : Prop :=
  on_board d /\ component b0 p c d /\ marked b0 p bb (Z.to_nat d).

(** Every neighbour of [k] that held [p] is marked. *)
Definition closed_at (b0 : str) (p : ascii) (bb : str) (k : nat) : Prop :=
  forall d, d ∈ Board.neighbors (Z.of_nat k) -> 0 <= d ->
            b0 !! Z.to_nat d = Some p -> bb !! Z.to_nat d = Some "#".

(** What the capture loop of [move] does to a board: a cell keeps its
    character or, if it held an "x" stone, is empty. *)
Definition captures_of (b b' : str) : Prop :=
  Forall2 (fun x y => y = x \/ (x = "x" /\ y = ".")) b b'.

(** No cell holds the marker of the flood fill. *)
Abbreviation unmarked := (Forall (fun a : ascii => a <> "#")).

(** The boards of a game: the empty board but for its points, which hold
    ".", "X" or "x". *)
Definition on_grid (b : str) : Prop :=
  Forall2 (fun a e => if isspace e then a = e else a = "." \/ a = "X" \/ a = "x")
    b Board.empty.

(** What one pass of the owner loop of [score] adds at a cell labelled
    [x] on ply [n]. *)
Definition owner_delta (x : ascii) (n : Z) : Z :=
  (if Ascii.eqb x "X" then 1 else if Ascii.eqb x "x" then -1 else 0) *
  (if n mod 2 =? 0 then 1 else -1).

(** The empty points of [b] with an index in [lo, hi), in increasing
    order. *)
Definition empty_between (b : str) (lo hi : Z) : list Z :=
  filter (fun j => b !! Z.to_nat j = Some ".") (seqZ lo (hi - lo)).

(** The points [moves] does not skip: those that are not a one-point eye
    of the side to move. *)
Definition keeps (b : Board.t) (j : Z) : bool :=
  match Board.is_eye b j with
  | Ret (Some e) => negb (Ascii.eqb e "X")
  | _ => true
  end.

(** The nine cells of the 3 x 3 square around [c], as
    [last_moves_neighbors] lists them before shuffling. *)
Definition around (c : Z) : list Z :=
  c :: Board.neighbors c ++ Board.diag_neighbors c.

(** What a playout may do to the amaf map: an entry that is not zero is
    kept, and a zero entry is kept or set to 1 or -1. *)
Definition amaf_kept (a a' : list Z) : Prop :=
  length a' = length a /\
  forall (k : nat) v, a !! k = Some v ->
    a' !! k = Some v \/ (v = 0 /\ (a' !! k = Some 1 \/ a' !! k = Some (-1))).

(** What a backup may do to a node: the position, the visits, the priors
    and the children stay, the wins do not shrink, and the amaf wins grow
    by at most what the amaf visits grow by. *)
Definition grows (nd nd' : TreeNode.t) : Prop :=
  TreeNode.pos nd' = TreeNode.pos nd /\ TreeNode.v nd' = TreeNode.v nd /\
  TreeNode.pv nd' = TreeNode.pv nd /\ TreeNode.pw nd' = TreeNode.pw nd /\
  TreeNode.children nd' = TreeNode.children nd /\
  TreeNode.w nd <= TreeNode.w nd' /\
  0 <= TreeNode.aw nd' - TreeNode.aw nd <= TreeNode.av nd' - TreeNode.av nd.

(** The wins a list of writes adds to the node [r]. *)
Definition w_gain (r : TreeNode.ref) (acts : list Tree.action) : Z :=
  foldr (fun a s => match a with
                    | Tree.AddW r' k => if decide (r' = r) then k + s else s
                    | Tree.AddAmaf _ _ => s
                    end) 0 acts.

(** The nodes a backup of the path [rnodes] may write to: those of the
    path and their children. *)
Definition in_reach (st : Tree.store) (rnodes : list TreeNode.ref) (r : TreeNode.ref)
  : Prop :=
  r ∈ rnodes \/
  exists node nd children, node ∈ rnodes /\ st !! node = Some nd /\
    TreeNode.children nd = Some children /\ r ∈ children.

(** The score after [i] passes of the loop of [tree_update], each of
    which ends with [score = -score]. *)
Fixpoint flip (i : nat) (score : Q) : Q :=
  match i with
  | O => score
  | S i' => flip i' (- score)
  end.

(** A stone is reached from [c] in at most [dist] steps (one step, when
    [dist] is below 1), every step but the last through an empty point. *)
Inductive near_stone (b : str) : Z -> Z -> Prop :=
| near_here dist c d a :
    d ∈ Board.neighbors c -> b !! Z.to_nat d = Some a -> a = "X" \/ a = "x" ->
    near_stone b dist c
| near_step dist c d :
    d ∈ Board.neighbors c -> b !! Z.to_nat d = Some "." -> 1 < dist ->
    near_stone b (dist - 1) d -> near_stone b dist c.

(** The diagonal neighbours of [c] that hold a stone of the colour other
    than [e], and whether a diagonal neighbour of [c] is blank. *)
Definition diag_enemies (b : str) (e : ascii) (c : Z) : list Z :=
  filter (fun d => b !! Z.to_nat d = Some (swapcase_char e)) (Board.diag_neighbors c).

Definition diag_at_edge (b : str) (c : Z) : bool :=
  existsb (fun d => match b !! Z.to_nat d with
                    | Some a => isspace a
                    | None => false
                    end) (Board.diag_neighbors c).

(** A cell of the group of [c] has an empty neighbour. *)
Definition has_liberty (b : str) (p : ascii) (c : Z) : Prop :=
  exists k d, component b p c k /\ d ∈ Board.neighbors k /\ 0 <= d /\
              b !! Z.to_nat d = Some ".".

(** Every stone on the board belongs to a group with a liberty. *)
Definition alive (b : str) : Prop :=
  forall c a, 0 <= c -> b !! Z.to_nat c = Some a -> a = "X" \/ a = "x" ->
              has_liberty b a c.

(** From [b] to [b'] a group of "x" stones stays as a whole or goes as a
    whole. *)
Definition whole_groups (b b' : str) : Prop :=
  forall k j, 0 <= k -> component b "x" k j ->
              b' !! Z.to_nat k = Some "x" -> b' !! Z.to_nat j = Some "x".

(** [c] is the only empty point next to the group of [k]. *)
Definition sole_liberty (b : str) (p : ascii) (k c : Z) : Prop :=
  forall j d, component b p k j -> d ∈ Board.neighbors j -> 0 <= d ->
              b !! Z.to_nat d = Some "." -> d = c.

(** The cost of a step of the common fate graph from [k] to its neighbour
    [d]: nothing between two stones of one colour, one otherwise. *)
Definition cfg_step (b : str) (k d : Z) : Z :=
  match b !! Z.to_nat k, b !! Z.to_nat d with
  | Some x, Some y => if negb (Ascii.eqb y ".") && Ascii.eqb y x then 0 else 1
  | _, _ => 1
  end.

(** [cfg_path b c k n]: a walk from [c] to [k] over cells that are not
    blank, of cost [n]. *)
Inductive cfg_path (b : str) (c : Z) : Z -> Z -> Prop :=
| cfg_path_start : cfg_path b c c 0
| cfg_path_step k n d y :
    cfg_path b c k n -> d ∈ Board.neighbors k -> 0 <= d ->
    b !! Z.to_nat d = Some y -> isspace y = false ->
    cfg_path b c d (n + cfg_step b k d).

(** The sum of [f] over a list. *)
Definition sumZ (f : Z -> Z) (l : list Z) : Z := foldr (fun v s => f v + s) 0 l.

(** What an entry of the map of [cfg_distances] can still lose, and
    whether it has been reached. *)
Definition cfg_slack (v : Z) : Z := if v <? 0 then Board.W2 else v.
Definition cfg_reached (v : Z) : Z := if v <? 0 then 0 else 1.

(** In the map [m], the entries of the neighbours [ds] of [k] are within
    a step of the entry [v] of [k]. *)
Definition cfg_relaxed (b : str) (m : list Z) (k v : Z) (ds : list Z) : Prop :=
  forall d y, d ∈ ds -> 0 <= d -> b !! Z.to_nat d = Some y -> isspace y = false ->
    exists u, m !! Z.to_nat d = Some u /\ 0 <= u <= v + cfg_step b k d.

(** What the loop of [cfg_distances] keeps of the map [m] and the fringe:
    the start holds 0, an entry that is not negative is the cost of a walk
    and is smaller than the number of such entries, and a cell whose entry
    is not negative waits in the fringe or is within a step of all its
    neighbours. *)
Definition cfg_inv (b : str) (c0 : Z) (m fringe : list Z) : Prop :=
  length m = Z.to_nat Board.W2 /\
  m !! Z.to_nat c0 = Some 0 /\
  (forall (k : nat) v, m !! k = Some v -> -1 <= v < sumZ cfg_reached m) /\
  (forall (k : nat) v, m !! k = Some v -> 0 <= v -> cfg_path b c0 (Z.of_nat k) v) /\
  (forall f, f ∈ fringe -> on_board f /\ exists v, m !! Z.to_nat f = Some v /\ 0 <= v) /\
  (forall (k : nat) v, m !! k = Some v -> 0 <= v ->
     Z.of_nat k ∈ fringe \/
     cfg_relaxed b m (Z.of_nat k) v (Board.neighbors (Z.of_nat k))).

(** [l] is a liberty of the group of [c]: an empty point next to a cell
    of the group. *)
Definition liberty_of (b : str) (p : ascii) (c l : Z) : Prop :=
  0 <= l /\ b !! Z.to_nat l = Some "." /\
  exists j, component b p c j /\ l ∈ Board.neighbors j.

(** A scratch board of [fix_atari] for the group of [c] on [b]: its
    markers are cells of the group, and its cells are those of [b] but
    for the markers and the liberties found. *)
Definition scratch_of (b : str) (p : ascii) (c : Z) (m : str) : Prop :=
  length m = Z.to_nat Board.W2 /\
  (forall k : nat, m !! k = Some "#" -> component b p c (Z.of_nat k)) /\
  (forall (k : nat) a, m !! k = Some a -> a <> "#" -> a <> "L" -> b !! k = Some a).

(** A coordinate of the grid of points. *)
Definition point (c : Z) : Prop := 0 <= c /\ Board.empty !! Z.to_nat c = Some ".".

(** The positions a game is played on: the board is a grid on which every
    group has a liberty, and the last two moves are points. *)
Definition in_play (pos : Position.t) : Prop :=
  on_grid (Board.board (Position.board pos)) /\
  alive (Board.board (Position.board pos)) /\
  forall c, Position.last pos = Some c \/ Position.last2 pos = Some c -> point c.

(** What the standard library says of [random.shuffle] and of
    [random.randint(1, N)]. *)
Definition stdlib_random (rnd : Heuristics.draws) : Prop :=
  (forall l, Heuristics.last_shuffle rnd l ≡ₚ l) /\
  (forall i l, Heuristics.ds_shuffle rnd i l ≡ₚ l) /\
  1 <= Heuristics.x_draw rnd <= Board.N /\ 1 <= Heuristics.y_draw rnd <= Board.N.

(** The candidates are empty points of the board of [pos]. *)
Definition empty_cands (pos : Position.t) (cands : list (Z * str)) : Prop :=
  Forall (fun ck => 0 <= ck.1 /\
                    Board.board (Position.board pos) !! Z.to_nat ck.1 = Some ".") cands.

(** An empty point of the board. *)
Definition empty_point (b : str) (d : Z) : Prop := 0 <= d /\ b !! Z.to_nat d = Some ".".

(** The call returns, with empty points of the board of [pos]. *)
Definition fix_ok (rec : Position.t -> Z -> result (bool * list Z))
    (pos : Position.t) (c : Z) : Prop :=
  exists a ds, rec pos c = Ret (a, ds) /\
               Forall (empty_point (Board.board (Position.board pos))) ds.

(** ** Fixtures *)

(** ["\n".join(rows)] *)
Fixpoint join_rows (rows : list string) : str :=
  match rows with
  | [] => []
  | [r] => lit r
  | r :: rest => lit r ++ "010" :: join_rows rest
  end.

(** Black took the ko at B12 with C12 (index 33); White, to move, finds its
    own stones as [X] and the ko point at index 32. *)
Definition ko_record : list (option Z) :=
  [Some 17; Some 18; Some 31; Some 34; Some 47; Some 48; None; Some 32; Some 33].

Definition ko_position : Position.t :=
  Position.mk
    (Board.mk (join_rows
       ["              ";
        " .xX..........";
        " x.xX.........";
        " .xX..........";
        " .............";
        " .............";
        " .............";
        " .............";
        " .............";
        " .............";
        " .............";
        " .............";
        " .............";
        " .............";
        "               "]%string))
    (0, 1) 9 (Some 32) (Some 33) (Some 32) (75 # 10).

(** Black has played at index 100 and White has passed: Black, to move,
    finds its own stone as [X] at index 100. *)
Definition own_stone_record : list (option Z) := [Some 100; None].

Definition own_stone_position : Position.t :=
  Position.mk
    (Board.mk (join_rows
       ["              ";
        " .............";
        " .............";
        " .............";
        " .............";
        " .............";
        " .........X...";
        " .............";
        " .............";
        " .............";
        " .............";
        " .............";
        " .............";
        " .............";
        "               "]%string))
    (0, 0) 2 None None (Some 100) (75 # 10).

(** A store with the empty board at 0 and the empty position at 1. *)
Definition start_heap : Obj.heap :=
  [Obj.OBoard (Board.init None);
   Obj.OPosition (Obj.mk_position 0 (0, 0) 0 None None None (75 # 10))].

(** A root at the empty position with two expanded children, the moves
    at 100 and at 101. *)
Definition child_position (c : Z) : Position.t :=
  match Position.move Position.empty_position c with
  | Ret (Some p) => p
  | _ => Position.empty_position
  end.

Definition sample_tree : Tree.store :=
  {[ 0%nat := TreeNode.mk Position.empty_position 2 0 10 5 0 0 (Some [1%nat; 2%nat]);
     1%nat := TreeNode.mk (child_position 100) 1 0 10 5 0 0 None;
     2%nat := TreeNode.mk (child_position 101) 1 0 10 5 0 0 None ]}.

(** The amaf map of a playout in which Black played first at [c]. *)
Definition amaf_black_at (c : Z) : list Z :=
  <[Z.to_nat c := 1]> (replicate (Z.to_nat Board.W2) 0).

(** Black holds the top left corner point and White the bottom right one;
    the rest of the board is one empty region that touches both. *)
Definition two_corners_record : list (option Z) :=
  [Some 17; Some 207; Some 31; Some 193].

Definition two_corners_position : Position.t :=
  Position.mk
    (Board.mk (join_rows
       ["              ";
        " .X...........";
        " X............";
        " .............";
        " .............";
        " .............";
        " .............";
        " .............";
        " .............";
        " .............";
        " .............";
        " .............";
        " ............x";
        " ...........x.";
        "               "]%string))
    (0, 0) 4 None (Some 193) (Some 31) (75 # 10).

(** A candidate generator: the first empty point of the board, never
    rejected; nothing when the board is full. *)
Definition first_empty_point (k : nat) (pos : Position.t) : list (Z * bool) :=
  let i := find "." (Board.board (Position.board pos)) 0 in
  if i =? -1 then [] else [(i, false)].

(** White stones on both sides of the empty corner point 16; Black to
    move. *)
Definition corner_record : list (option Z) := [None; Some 17; None; Some 31].

(** After Black 16, White 17, Black 100: White to move, and the Black
    corner stone at 16 has the single liberty 31. *)
Definition atari_position : Position.t :=
  Position.mk
    (Board.mk (join_rows
       ["              ";
        " xX...........";
        " .............";
        " .............";
        " .............";
        " .............";
        " .........x...";
        " .............";
        " .............";
        " .............";
        " .............";
        " .............";
        " .............";
        " .............";
        "               "]%string))
    (0, 0) 3 None (Some 100) (Some 17) (75 # 10).

(** The position [corner_record] leads to. *)
Definition corner_position : Position.t :=
  Position.mk
    (Board.mk (join_rows
       ["              ";
        " .x...........";
        " x............";
        " .............";
        " .............";
        " .............";
        " .............";
        " .............";
        " .............";
        " .............";
        " .............";
        " .............";
        " .............";
        " .............";
        "               "]%string))
    (0, 0) 4 None (Some 31) None (75 # 10).

(** A run of [random] in which every [random.random()] is 0.0 (each
    heuristic is tried and each candidate is tested for self-atari),
    [random.shuffle] leaves its list as it is and [random.randint] gives
    1. *)
Definition low_draws : Heuristics.draws :=
  Heuristics.mk_draws 0%Q (fun _ l => l) 0%Q 1 1 (fun _ => 0%Q) (fun l => l).

(** * Properties *)

#[global] Arguments Board.floodfill : simpl never.
#[global] Arguments Board.contact : simpl never.
#[global] Arguments Board.is_eyeish : simpl never.
#[global] Arguments Board.board_put : simpl never.
#[global] Arguments Board.swapcase : simpl never.
#[global] Arguments Position.move : simpl never.
#[global] Arguments Position.pass_move : simpl never.
#[global] Arguments Position.score : simpl never.
#[global] Arguments Position.empty_position : simpl never.
#[global] Arguments find : simpl never.
#[global] Arguments getitem : simpl never.
#[global] Arguments setitem : simpl never.

(** ** Indexing *)

Lemma index_of_Some {A} (l : list A) i k :
  index_of l i = Some k ->
  (k < length l)%nat /\
  (0 <= i -> k = Z.to_nat i) /\
  (i < 0 -> k = Z.to_nat (Z.of_nat (length l) + i)).
Proof.
  unfold index_of.
  destruct ((0 <=? i) && (i <? Z.of_nat (length l))) eqn:E1.
  - apply andb_true_iff in E1 as [H1%Z.leb_le H2%Z.ltb_lt]. intros [= <-]. lia.
  - destruct ((- Z.of_nat (length l) <=? i) && (i <? 0)) eqn:E2; [|discriminate].
    apply andb_true_iff in E2 as [H1%Z.leb_le H2%Z.ltb_lt]. intros [= <-]. lia.
Qed.

Lemma index_of_nonneg {A} (l : list A) i :
  0 <= i < Z.of_nat (length l) -> index_of l i = Some (Z.to_nat i).
Proof.
  intros H. unfold index_of.
  replace ((0 <=? i) && (i <? Z.of_nat (length l))) with true; [reflexivity|].
  symmetry. apply andb_true_iff. split; [apply Z.leb_le|apply Z.ltb_lt]; lia.
Qed.

Lemma index_of_in_range {A} (l : list A) i :
  - Z.of_nat (length l) <= i < Z.of_nat (length l) -> exists k, index_of l i = Some k.
Proof.
  intros H. unfold index_of.
  destruct ((0 <=? i) && (i <? Z.of_nat (length l))) eqn:E1; [eauto|].
  replace ((- Z.of_nat (length l) <=? i) && (i <? 0)) with true; [eauto|].
  symmetry. apply andb_true_iff. apply andb_false_iff in E1.
  split; [apply Z.leb_le|apply Z.ltb_lt]; [lia|].
  destruct E1 as [E%Z.leb_gt|E%Z.ltb_ge]; lia.
Qed.

Lemma getitem_Ret {A} (l : list A) i a :
  getitem l i = Ret a <-> exists k, index_of l i = Some k /\ l !! k = Some a.
Proof.
  unfold getitem. split.
  - destruct (index_of l i) as [k|]; [|discriminate].
    destruct (l !! k) eqn:E; [|discriminate]. intros [= <-]. eauto.
  - intros (k & -> & ->). reflexivity.
Qed.

Lemma getitem_in_range {A} (l : list A) i :
  - Z.of_nat (length l) <= i < Z.of_nat (length l) -> exists a, getitem l i = Ret a.
Proof.
  intros H. destruct (index_of_in_range l i H) as [k Hk].
  destruct (index_of_Some l i k Hk) as (Hlt & _).
  destruct (lookup_lt_is_Some_2 l k Hlt) as [a Ha].
  exists a. apply getitem_Ret. eauto.
Qed.

Lemma getitem_nonneg {A} (l : list A) i a :
  0 <= i -> l !! Z.to_nat i = Some a -> getitem l i = Ret a.
Proof.
  intros Hi Ha. apply getitem_Ret. exists (Z.to_nat i). split; [|exact Ha].
  apply index_of_nonneg. apply lookup_lt_Some in Ha. lia.
Qed.

Lemma getitem_not_Diverge {A} (l : list A) i : getitem l i <> Diverge.
Proof. unfold getitem. by repeat case_match. Qed.

Lemma setitem_Ret {A} (l l' : list A) i a :
  setitem l i a = Ret l' <-> exists k, index_of l i = Some k /\ l' = <[k := a]> l.
Proof.
  unfold setitem. split.
  - destruct (index_of l i) as [k|]; [|discriminate]. intros [= <-]. eauto.
  - intros (k & -> & ->). reflexivity.
Qed.

Lemma setitem_not_Diverge {A} (l : list A) i a : setitem l i a <> Diverge.
Proof. unfold setitem. by case_match. Qed.

Lemma getitem_setitem {A} (l : list A) i a x :
  getitem l i = Ret x -> exists k, index_of l i = Some k /\ l !! k = Some x /\
                                   setitem l i a = Ret (<[k := a]> l).
Proof.
  intros (k & Hk & Hx)%getitem_Ret. exists k. repeat split; try assumption.
  apply setitem_Ret. eauto.
Qed.

(** ** Counting *)

Lemma count_nonneg a l : 0 <= count a l.
Proof. induction l as [|b l IH]; cbn; [lia|]. destruct (Ascii.eqb b a); lia. Qed.

Lemma count_le_length a l : count a l <= Z.of_nat (length l).
Proof.
  induction l as [|b l IH]; cbn [count length]; [lia|]. destruct (Ascii.eqb b a); lia.
Qed.

Lemma count_insert p b (l : str) : forall k,
  l !! k = Some p -> b <> p -> count p (<[k := b]> l) = count p l - 1.
Proof.
  induction l as [|x l IH]; intros [|k] Hk Hb; try discriminate.
  - injection Hk as ->. change (<[0%nat := b]> (p :: l)) with (b :: l).
    cbn [count]. rewrite Ascii.eqb_refl.
    destruct (Ascii.eqb_spec b p); [contradiction|lia].
  - change (<[S k := b]> (x :: l)) with (x :: <[k := b]> l).
    cbn [count]. rewrite (IH k Hk Hb). lia.
Qed.

Lemma count_pos_elem a l : a ∈ l -> 0 < count a l.
Proof.
  induction l as [|b l IH]; [by intros ?%elem_of_nil|].
  intros [<-|H]%elem_of_cons; cbn [count].
  - rewrite Ascii.eqb_refl. pose proof (count_nonneg a l). lia.
  - specialize (IH H). destruct (Ascii.eqb b a); lia.
Qed.

(** ** Coordinate strings *)

Lemma to_int_not_nil k :
  Z.to_int k <> Decimal.Pos Decimal.Nil /\ Z.to_int k <> Decimal.Neg Decimal.Nil.
Proof.
  destruct k as [|q|q]; simpl; split; try discriminate;
    intros [= H]; revert H; apply DecimalPos.Unsigned.to_uint_nonnil.
Qed.

Lemma int_of_str_of_int k : int_of_str (str_of_int k) = Ret k.
Proof.
  unfold int_of_str, str_of_int.
  destruct (to_int_not_nil k) as [Hp Hn].
  pose proof (NilZero.isi (Z.to_int k) Hp Hn) as Hisi.
  destruct (NilZero.string_of_int (Z.to_int k)) as [|a rest] eqn:E.
  - discriminate Hisi.
  - simpl list_ascii_of_string.
    destruct (Ascii.eqb_spec a "+") as [->|Hne].
    + exfalso. revert Hisi. unfold NilZero.int_of_string, NilZero.uint_of_string.
      simpl. destruct (NilEmpty.uint_of_string rest); discriminate.
    + assert (Hparse :
        match a :: list_ascii_of_string rest with
        | "+" :: d =>
            option_map Decimal.Pos (NilZero.uint_of_string (string_of_list_ascii d))
        | _ => NilZero.int_of_string
                 (string_of_list_ascii (a :: list_ascii_of_string rest))
        end = Some (Z.to_int k)).
      { simpl string_of_list_ascii. rewrite string_of_list_ascii_of_string.
        destruct a as [[] [] [] [] [] [] [] []]; try exact Hisi.
        exfalso. by apply Hne. }
      rewrite Hparse. by rewrite DecimalZ.of_to.
Qed.

Lemma column_cases col :
  0 <= col < 15 -> col ∈ seqZ 0 15.
Proof. intros H. apply elem_of_seqZ. lia. Qed.

Lemma column_letter col :
  0 <= col < 15 ->
  ord (upper_char (chr (col + ord "A"))) - ord "A" = col /\
  chr (col + ord "A") <> "p".
Proof.
  intros H%column_cases. revert H. vm_compute seqZ.
  rewrite !elem_of_cons, elem_of_nil.
  intros H; repeat (destruct H as [->|H]; [split; [reflexivity|discriminate]|]).
  destruct H.
Qed.

Lemma parse_str_coord c :
  Board.parse_coord (Board.str_coord (Some c)) = Ret (Some c).
Proof.
  unfold Board.parse_coord, Board.str_coord.
  set (row := (c - (Board.W + 1)) `div` Board.W).
  set (col := (c - (Board.W + 1)) `mod` Board.W).
  assert (Hcol : 0 <= col < 15) by (apply Z.mod_pos_bound; reflexivity).
  destruct (column_letter col Hcol) as [Hord Hp].
  rewrite bool_decide_eq_false_2 by (intros [= E _]; by apply Hp).
  assert (Hslice : forall a (l : str), slice_from (a :: l) 1 = l).
  { intros a l. unfold slice_from, slice_bound. simpl length.
    replace (Z.to_nat (1 `min` Z.of_nat (S (length l)))) with 1%nat by lia.
    reflexivity. }
  rewrite Hslice, int_of_str_of_int. simpl.
  unfold getitem, index_of. simpl length.
  replace ((0 <=? 0) && (0 <? Z.of_nat (S (length (str_of_int (Board.N - row))))))
    with true by (symmetry; apply andb_true_iff; split; [reflexivity|apply Z.ltb_lt; lia]).
  simpl. rewrite Hord. do 2 f_equal.
  pose proof (Z.div_mod (c - (Board.W + 1)) Board.W ltac:(discriminate)) as Hdm.
  fold row col in Hdm. unfold Board.W, Board.N in *. lia.
Qed.

(** C5, the claim as stated fails: the ninth column of the top row is
    lettered "I". *)
Lemma str_coord_ninth_column :
  Board.str_coord (Some (Board.W + 1 + 0 * Board.W + 8)) = lit "I13".
Proof. reflexivity. Qed.

(** C5, amended. The column letters are consecutive, "A" to "M" on the 13
    columns, with no letter skipped (the ninth is "I"); [parse_coord]
    inverts [str_coord] at every coordinate, [parse_coord("pass")] is
    [None] and [str_coord(None)] is ["pass"]. *)
Theorem coord_letters_consecutive (row col : Z) (Hcol : 0 <= col < Board.N) :
  let c := Board.W + 1 + row * Board.W + col in
  Board.str_coord (Some c) = chr (ord "A" + col) :: str_of_int (Board.N - row) /\
  lit "ABCDEFGHIJKLM" !! Z.to_nat col = Some (chr (ord "A" + col)) /\
  Board.parse_coord (Board.str_coord (Some c)) = Ret (Some c) /\
  Board.parse_coord (lit "pass") = Ret None /\
  Board.str_coord None = lit "pass".
Proof.
  intros c. split; [|split; [|split; [apply parse_str_coord|split; reflexivity]]].
  - unfold Board.str_coord, c.
    replace (Board.W + 1 + row * Board.W + col - (Board.W + 1))
      with (col + row * Board.W) by lia.
    rewrite Z.div_add, Z.mod_add by discriminate.
    change Board.W with 15. change Board.N with 13 in *.
    rewrite (Z.div_small col 15), (Z.mod_small col 15) by lia.
    change (ord "A") with 65.
    do 2 f_equal; lia.
  - unfold Board.N in Hcol.
    assert (H : col ∈ seqZ 0 13) by (apply elem_of_seqZ; lia).
    revert H. vm_compute seqZ. rewrite !elem_of_cons, elem_of_nil.
    intros H; repeat (destruct H as [->|H]; [reflexivity|]). destruct H.
Qed.

Lemma coord_letters_consecutive_witness :
  Board.str_coord (Some 24) = chr (ord "A" + 8) :: str_of_int (Board.N - 0) /\
  lit "ABCDEFGHIJKLM" !! Z.to_nat 8 = Some (chr (ord "A" + 8)) /\
  Board.parse_coord (Board.str_coord (Some 24)) = Ret (Some 24) /\
  Board.parse_coord (lit "pass") = Ret None /\
  Board.str_coord None = lit "pass".
Proof. apply (coord_letters_consecutive 0 8). unfold Board.N. lia. Defined.

(** ** Flood fill: effect and termination *)

Lemma fills_refl p b : fills p b b.
Proof. split; [reflexivity|]. by left. Qed.

Lemma fills_trans p b1 b2 b3 : fills p b1 b2 -> fills p b2 b3 -> fills p b1 b3.
Proof.
  intros [L1 H1] [L2 H2]. split; [congruence|]. intros i.
  destruct (H1 i) as [E1|[E1 E1']], (H2 i) as [E2|[E2 E2']].
  - left. congruence.
  - right. split; congruence.
  - right. split; congruence.
  - right. split; congruence.
Qed.

Lemma fills_insert p (b : str) k :
  b !! k = Some p -> fills p b (<[k := "#"]> b).
Proof.
  intros Hk. split; [apply length_insert|]. intros i.
  destruct (decide (i = k)) as [->|Hne].
  - right. split; [exact Hk|]. apply list_lookup_insert_eq. by eapply lookup_lt_Some.
  - left. by apply list_lookup_insert_ne.
Qed.

Lemma fill_neighbors_spec p ds : forall bb fringe bb' fringe',
  p <> "#" ->
  Board.fill_neighbors p ds bb fringe = Ret (bb', fringe') ->
  fills p bb bb' /\
  count p bb' + Z.of_nat (length fringe') = count p bb + Z.of_nat (length fringe).
Proof.
  induction ds as [|d ds IH]; intros bb fringe bb' fringe' Hp; cbn [Board.fill_neighbors].
  - intros [= <- <-]. split; [apply fills_refl|reflexivity].
  - destruct (getitem bb d) as [x| |] eqn:Ex; [|discriminate..]. cbn [mbind result_bind].
    destruct (Ascii.eqb_spec x p) as [->|Hne]; [|by apply IH].
    destruct (getitem_setitem bb d "#" p Ex) as (k & Hk & Hx & ->).
    cbn [mbind result_bind]. intros H.
    destruct (IH _ _ _ _ Hp H) as (Hf & Hc).
    split; [eapply fills_trans; [by apply fills_insert|exact Hf]|].
    rewrite Hc, (count_insert p "#" bb k Hx) by congruence.
    cbn [length]. lia.
Qed.

Lemma fill_neighbors_not_Diverge p ds : forall bb fringe,
  Board.fill_neighbors p ds bb fringe <> Diverge.
Proof.
  induction ds as [|d ds IH]; intros bb fringe; cbn [Board.fill_neighbors]; [discriminate|].
  pose proof (getitem_not_Diverge bb d).
  destruct (getitem bb d) as [x| |]; [|discriminate|contradiction].
  cbn [mbind result_bind]. destruct (Ascii.eqb x p); [|apply IH].
  pose proof (setitem_not_Diverge bb d "#").
  destruct (setitem bb d "#"); [|discriminate|contradiction].
  cbn [mbind result_bind]. apply IH.
Qed.

Lemma fill_loop_terminates fuel p : forall bb fringe,
  p <> "#" ->
  count p bb + Z.of_nat (length fringe) <= Z.of_nat fuel ->
  Board.fill_loop fuel p bb fringe <> Diverge.
Proof.
  induction fuel as [|fuel IH]; intros bb [|c fringe] Hp Hm; cbn [Board.fill_loop];
    try discriminate.
  - pose proof (count_nonneg p bb). cbn [length] in Hm. lia.
  - pose proof (fill_neighbors_not_Diverge p (Board.neighbors c) bb fringe).
    destruct (Board.fill_neighbors _ _ _ _) as [[bb' fringe']| |] eqn:E;
      [|discriminate|contradiction].
    cbn [mbind result_bind]. apply IH; [exact Hp|].
    destruct (fill_neighbors_spec _ _ _ _ _ _ Hp E) as (_ & Hc).
    cbn [length] in Hm. lia.
Qed.

Lemma fill_loop_fills fuel p : forall bb fringe bb',
  p <> "#" -> Board.fill_loop fuel p bb fringe = Ret bb' -> fills p bb bb'.
Proof.
  induction fuel as [|fuel IH]; intros bb [|c fringe] bb' Hp; cbn [Board.fill_loop];
    try discriminate; try (intros [= <-]; apply fills_refl).
  destruct (Board.fill_neighbors _ _ _ _) as [[bb1 fringe1]| |] eqn:E; [|discriminate..].
  cbn [mbind result_bind]. intros H.
  destruct (fill_neighbors_spec _ _ _ _ _ _ Hp E) as (Hf & _).
  eapply fills_trans; [exact Hf|]. by eapply IH.
Qed.

Lemma init_nonempty (l : str) : l <> [] -> Board.init (Some l) = Board.mk l.
Proof. by destruct l. Qed.

Lemma fills_nonempty p b b' : fills p b b' -> b <> [] -> b' <> [].
Proof. intros [L _] Hb ->. destruct b; [contradiction|discriminate]. Qed.

(** [floodfill] from a cell that does not hold the marker finishes. *)
Lemma floodfill_terminates b c :
  (forall p, getitem (Board.board b) c = Ret p -> p <> "#") ->
  Board.floodfill b c <> Diverge.
Proof.
  intros Hp. unfold Board.floodfill.
  pose proof (getitem_not_Diverge (Board.board b) c).
  destruct (getitem (Board.board b) c) as [p| |] eqn:Ep; [|discriminate|contradiction].
  specialize (Hp p eq_refl). cbn [mbind result_bind].
  destruct (getitem_setitem _ c "#" p Ep) as (k & Hk & Hx & ->). cbn [mbind result_bind].
  pose proof (fill_loop_terminates (length (<[k:="#"]> (Board.board b))) p
                (<[k:="#"]> (Board.board b)) [c] Hp) as Ht.
  destruct (Board.fill_loop _ _ _ _); [discriminate|discriminate|].
  exfalso. apply Ht; [|reflexivity].
  rewrite (count_insert p "#" _ k Hx) by congruence. rewrite length_insert.
  pose proof (count_le_length p (Board.board b)). cbn [length]. lia.
Qed.

(** What [floodfill] returns. *)
Lemma floodfill_fills b c fb :
  Board.floodfill b c = Ret fb ->
  exists p, getitem (Board.board b) c = Ret p /\
            (p <> "#" -> fills p (Board.board b) (Board.board fb)).
Proof.
  unfold Board.floodfill.
  destruct (getitem (Board.board b) c) as [p| |] eqn:Ep; [|discriminate..].
  cbn [mbind result_bind].
  destruct (getitem_setitem _ c "#" p Ep) as (k & Hk & Hx & ->). cbn [mbind result_bind].
  destruct (Board.fill_loop _ _ _ _) as [bb'| |] eqn:E; [|discriminate..].
  cbn [mbind result_bind]. intros [= <-]. exists p. split; [reflexivity|]. intros Hp.
  assert (Hf : fills p (Board.board b) bb').
  { eapply fills_trans; [by apply fills_insert|]. by eapply fill_loop_fills. }
  assert (Hne : bb' <> []).
  { eapply fills_nonempty; [exact Hf|]. intros Hb. by rewrite Hb in Hx. }
  by destruct bb'.
Qed.

(** ** Flood fill on a board with a blank rim *)

Lemma rim_fills p b b' : isspace p = false -> fills p b b' -> rim b -> rim b'.
Proof.
  intros Hp [_ Hf] Hr i a Ha Hi. destruct (Hf i) as [E|[E _]].
  - rewrite E in Ha. by eapply Hr.
  - rewrite (Hr i p E Hi) in Hp. discriminate.
Qed.

Lemma rim_on_board (b : str) (k : nat) p :
  length b = Z.to_nat Board.W2 -> rim b -> b !! k = Some p -> isspace p = false ->
  on_board (Z.of_nat k).
Proof.
  intros Hlen Hr Hk Hp. unfold on_board. change Board.W with 15. change Board.W2 with 225.
  pose proof (lookup_lt_Some _ _ _ Hk) as Hlt. rewrite Hlen in Hlt.
  change (Z.to_nat Board.W2) with 225%nat in Hlt.
  destruct (decide (k < 15 \/ 210 <= k)%nat) as [Hrim|Hin]; [|lia].
  rewrite (Hr k p Hk) in Hp; [discriminate|].
  change (Z.to_nat Board.W) with 15%nat.
  change (Z.to_nat (Board.W2 - Board.W)) with 210%nat. exact Hrim.
Qed.

Lemma neighbors_in_range c :
  on_board c -> Forall (fun d => 0 <= d < Board.W2) (Board.neighbors c).
Proof.
  unfold on_board, Board.neighbors. change Board.W with 15. change Board.W2 with 225.
  intros H. repeat constructor; lia.
Qed.

Lemma fill_neighbors_returns p ds : forall bb fringe,
  isspace p = false -> p <> "#" ->
  length bb = Z.to_nat Board.W2 -> rim bb ->
  Forall (fun d => 0 <= d < Board.W2) ds -> Forall on_board fringe ->
  exists bb' fringe',
    Board.fill_neighbors p ds bb fringe = Ret (bb', fringe') /\ Forall on_board fringe'.
Proof.
  induction ds as [|d ds IH]; intros bb fringe Hsp Hp Hlen Hr Hds Hfr;
    cbn [Board.fill_neighbors]; [eauto|].
  apply Forall_cons in Hds as [Hd Hds].
  assert (Hk : index_of bb d = Some (Z.to_nat d)).
  { apply index_of_nonneg. rewrite Hlen. lia. }
  destruct (lookup_lt_is_Some_2 bb (Z.to_nat d)) as [x Hx]; [rewrite Hlen; lia|].
  assert (Hg : getitem bb d = Ret x) by (apply getitem_Ret; eauto).
  rewrite Hg. cbn [mbind result_bind].
  destruct (Ascii.eqb_spec x p) as [->|Hne]; [|by apply IH].
  assert (Hs : setitem bb d "#" = Ret (<[Z.to_nat d := "#"]> bb)) by (apply setitem_Ret; eauto).
  rewrite Hs. cbn [mbind result_bind].
  apply IH; try assumption.
  - by rewrite length_insert.
  - eapply rim_fills; [exact Hsp|by apply fills_insert|exact Hr].
  - constructor; [|exact Hfr].
    pose proof (rim_on_board bb _ p Hlen Hr Hx Hsp) as Hon. by rewrite Z2Nat.id in Hon by lia.
Qed.

Lemma fill_loop_returns fuel p : forall bb fringe,
  isspace p = false -> p <> "#" ->
  length bb = Z.to_nat Board.W2 -> rim bb -> Forall on_board fringe ->
  count p bb + Z.of_nat (length fringe) <= Z.of_nat fuel ->
  exists bb', Board.fill_loop fuel p bb fringe = Ret bb'.
Proof.
  induction fuel as [|fuel IH]; intros bb [|c fringe] Hsp Hp Hlen Hr Hfr Hm;
    cbn [Board.fill_loop]; eauto.
  - pose proof (count_nonneg p bb). cbn [length] in Hm. lia.
  - apply Forall_cons in Hfr as [Hc Hfr].
    destruct (fill_neighbors_returns p (Board.neighbors c) bb fringe Hsp Hp Hlen Hr
                (neighbors_in_range c Hc) Hfr) as (bb' & fringe' & E & Hfr').
    rewrite E. cbn [mbind result_bind].
    destruct (fill_neighbors_spec _ _ _ _ _ _ Hp E) as (Hf & Hcount).
    apply IH; try assumption.
    + destruct Hf as [-> _]. exact Hlen.
    + by eapply rim_fills.
    + cbn [length] in Hm. lia.
Qed.

(** On a board of play, [floodfill] from a point or a stone returns. *)
Lemma floodfill_returns (b : str) c p :
  length b = Z.to_nat Board.W2 -> rim b ->
  0 <= c -> b !! Z.to_nat c = Some p -> isspace p = false -> p <> "#" ->
  exists fb, Board.floodfill (Board.mk b) c = Ret fb /\
             fills p b (Board.board fb).
Proof.
  intros Hlen Hr Hc Hx Hsp Hp.
  assert (Hg : getitem b c = Ret p) by (by apply getitem_nonneg).
  assert (Hon : on_board c).
  { pose proof (rim_on_board b _ p Hlen Hr Hx Hsp) as Hon. by rewrite Z2Nat.id in Hon. }
  destruct (fill_loop_returns (length (<[Z.to_nat c := "#"]> b)) p
              (<[Z.to_nat c := "#"]> b) [c] Hsp Hp) as [bb' E].
  - by rewrite length_insert.
  - eapply rim_fills; [exact Hsp|by apply fills_insert|exact Hr].
  - by constructor.
  - rewrite (count_insert p "#" _ _ Hx) by congruence. rewrite length_insert.
    pose proof (count_le_length p b). cbn [length]. lia.
  - assert (Hfl : exists fb, Board.floodfill (Board.mk b) c = Ret fb).
    { unfold Board.floodfill. cbn [Board.board]. rewrite Hg. cbn [mbind result_bind].
      destruct (getitem_setitem b c "#" p Hg) as (k & Hk & _ & ->).
      cbn [mbind result_bind].
      destruct (index_of_Some b c k Hk) as (_ & Hk0 & _).
      rewrite (Hk0 Hc), E. cbn [mbind result_bind]. eauto. }
    destruct Hfl as [fb Hfb]. exists fb. split; [exact Hfb|].
    destruct (floodfill_fills _ _ _ Hfb) as (p' & Hg' & Hf).
    cbn [Board.board] in Hg', Hf. rewrite Hg in Hg'. injection Hg' as <-. by apply Hf.
Qed.

(** ** The ko test of [move] *)

Lemma ko_position_replayed : Position.replay ko_record = Ret ko_position.
Proof. vm_compute. reflexivity. Qed.

Lemma replay_from_reachable record : forall p q,
  Position.reachable p -> Position.replay_from p record = Ret q ->
  Position.reachable q.
Proof.
  induction record as [|[c|] rest IH]; intros p q Hp; simpl.
  - intros [= <-]. exact Hp.
  - destruct (Position.move p c) as [[p'|]| |] eqn:E; simpl; try discriminate.
    intros H. apply (IH p'); [|exact H].
    eapply Position.reach_move; eauto.
  - apply IH. by apply Position.reach_pass.
Qed.

Lemma replay_reachable record q :
  Position.replay record = Ret q -> Position.reachable q.
Proof.
  unfold Position.replay. apply replay_from_reachable, Position.reach_empty.
Qed.

Lemma ko_position_reachable : Position.reachable ko_position.
Proof. exact (replay_reachable _ _ ko_position_replayed). Qed.

(** C1. In the position after Black has taken a ko, the stored ko
    coordinate is 32 and it is not the komi; [move] at the ko coordinate
    is nevertheless accepted and returns the position in which the ko is
    taken back, because the guard of [move] compares [c] with [self.komi]
    and never reads [self.ko]: whatever ko a position stores, [move]
    returns the same. *)
Theorem move_at_ko_accepted :
  Position.reachable ko_position /\
  Position.ko ko_position = Some 32 /\
  (exists p', Position.move ko_position 32 = Ret (Some p') /\
              Position.last p' = Some 32 /\
              Position.captures p' = (1, 1) /\
              Position.ko p' = Some 33) /\
  (forall p ko c,
     Position.move
       (Position.mk (Position.board p) (Position.captures p) (Position.n p) ko
          (Position.last p) (Position.last2 p) (Position.komi p)) c
     = Position.move p c).
Proof.
  split; [exact ko_position_reachable|]. split; [reflexivity|]. split.
  - eexists. split; [vm_compute; reflexivity|]. repeat split.
  - intros p ko c. reflexivity.
Qed.

(** ** What [move] rejects *)

Lemma own_stone_position_replayed :
  Position.replay own_stone_record = Ret own_stone_position.
Proof. vm_compute. reflexivity. Qed.

(** C4, the claim as stated fails: a move on the player's own stone, and a
    move on the off-board column left of the first row, both return a new
    position. *)
Lemma move_on_occupied_and_off_board_accepted :
  (Position.reachable own_stone_position /\
   getitem (Board.board (Position.board own_stone_position)) 100 = Ret "X" /\
   exists p', Position.move own_stone_position 100 = Ret (Some p')) /\
  (getitem (Board.board (Position.board Position.empty_position)) 15 = Ret " " /\
   exists p', Position.move Position.empty_position 15 = Ret (Some p')).
Proof.
  split; [split; [|split]|split].
  - exact (replay_reachable _ _ own_stone_position_replayed).
  - reflexivity.
  - eexists. vm_compute. reflexivity.
  - reflexivity.
  - eexists. vm_compute. reflexivity.
Qed.

Lemma index_of_insert {A} (l : list A) k a i :
  index_of (<[k := a]> l) i = index_of l i.
Proof. unfold index_of. by rewrite length_insert. Qed.

Lemma getitem_insert_ne {A} (l : list A) k a i :
  index_of l i <> Some k -> getitem (<[k := a]> l) i = getitem l i.
Proof.
  intros H. unfold getitem. rewrite index_of_insert.
  destruct (index_of l i) as [j|]; [|reflexivity].
  rewrite list_lookup_insert_ne; [reflexivity|congruence].
Qed.

Lemma eyeish_loop_insert_ne (b : str) k a ds : forall eyecolor,
  Forall (fun d => index_of b d <> Some k) ds ->
  Board.eyeish_loop (<[k := a]> b) ds eyecolor = Board.eyeish_loop b ds eyecolor.
Proof.
  induction ds as [|d ds IH]; intros eyecolor Hds; [reflexivity|].
  apply Forall_cons in Hds as [Hd Hds].
  cbn [Board.eyeish_loop]. rewrite getitem_insert_ne by exact Hd.
  destruct (getitem b d) as [x| |]; [|reflexivity..]. cbn [mbind result_bind].
  destruct (isspace x); [by apply IH|].
  destruct (Ascii.eqb x "."); [reflexivity|].
  destruct eyecolor as [e|]; [|by apply IH].
  destruct (Ascii.eqb x (swapcase_char e)); [reflexivity|by apply IH].
Qed.

Lemma neighbors_not_self (b : str) c :
  length b = Z.to_nat Board.W2 -> 0 <= c < Board.W2 ->
  Forall (fun d => index_of b d <> Some (Z.to_nat c)) (Board.neighbors c).
Proof.
  intros Hlen Hc. change Board.W2 with 225 in *.
  unfold Board.neighbors. change Board.W with 15.
  repeat apply Forall_cons_2; [..|apply Forall_nil_2];
    unfold index_of; rewrite Hlen;
    repeat case_match; try discriminate; intros [= E]; lia.
Qed.

(** C4, amended. [move] never reads the cell at [c]. Past its first guard
    it returns [None] exactly when, X placed at [c] and the captured groups
    removed, the group at [c] touches no empty point; and on a board of
    W * W characters the outcome of [move] at [c] is the same whatever the
    cell at [c] holds (a point, a stone of either colour, off-board
    whitespace). *)
Theorem move_rejects_only_suicide (p : Position.t) (c : Z) :
  (Qeq_bool (inject_Z c) (Position.komi p) = false ->
   (Position.move p c = Ret None <->
    exists e b0 b1 k sc sf,
      Board.is_eyeish (Position.board p) c = Ret e /\
      Board.board_put (Position.board p) (Some c) ["X"] = Some b0 /\
      Position.capture_loop (Board.neighbors c) b0 (fst (Position.captures p)) []
        = Ret (b1, k, sc) /\
      Board.floodfill b1 c = Ret sf /\
      Board.contact sf "." = Ret None)) /\
  (forall a,
     length (Board.board (Position.board p)) = Z.to_nat Board.W2 ->
     0 <= c < Board.W2 ->
     Position.move
       (Position.mk (Board.mk (<[Z.to_nat c := a]> (Board.board (Position.board p))))
          (Position.captures p) (Position.n p) (Position.ko p) (Position.last p)
          (Position.last2 p) (Position.komi p)) c
     = Position.move p c).
Proof.
  split.
  - intros Hk. unfold Position.move. rewrite Hk. split.
    + intros H.
      destruct (Board.is_eyeish _ c) as [e| |] eqn:He; [|discriminate..].
      cbn [mbind result_bind] in H.
      destruct (Board.board_put _ _ _) as [b0|] eqn:Hp; [|discriminate].
      destruct (Position.capture_loop _ _ _ _) as [[[b1 k] sc]| |] eqn:Hc;
        [|discriminate..].
      cbn [mbind result_bind] in H.
      destruct (Board.floodfill b1 c) as [sf| |] eqn:Hf; [|discriminate..].
      cbn [mbind result_bind] in H.
      destruct (Board.contact sf ".") as [[l|]| |] eqn:Hl; try discriminate.
      exists e, b0, b1, k, sc, sf. repeat split; assumption || reflexivity.
    + intros (e & b0 & b1 & k & sc & sf & -> & -> & Hc & Hf & Hl).
      cbn [mbind result_bind]. rewrite Hc. cbn [mbind result_bind].
      rewrite Hf. cbn [mbind result_bind]. by rewrite Hl.
  - intros a Hlen Hc. unfold Position.move.
    cbn [Position.board Position.captures Position.n Position.ko Position.last
         Position.last2 Position.komi].
    destruct (Qeq_bool _ _); [reflexivity|].
    assert (He : Board.is_eyeish
                   (Board.mk (<[Z.to_nat c := a]> (Board.board (Position.board p)))) c
                 = Board.is_eyeish (Position.board p) c).
    { unfold Board.is_eyeish. cbn [Board.board].
      by apply eyeish_loop_insert_ne, neighbors_not_self. }
    assert (Hp : Board.board_put
                   (Board.mk (<[Z.to_nat c := a]> (Board.board (Position.board p))))
                   (Some c) ["X"]
                 = Board.board_put (Position.board p) (Some c) ["X"]).
    { unfold Board.board_put, slice_to, slice_from, slice_bound. cbn [Board.board].
      rewrite length_insert, Hlen. change Board.W2 with 225 in *.
      replace (c <? 0) with false by (symmetry; apply Z.ltb_ge; lia).
      replace (c + 1 <? 0) with false by (symmetry; apply Z.ltb_ge; lia).
      rewrite take_insert_ge by lia. rewrite drop_insert_lt by lia. reflexivity. }
    by rewrite He, Hp.
Qed.

Lemma move_rejects_only_suicide_witness :
  (Position.move Position.empty_position 100 = Ret None <->
   exists e b0 b1 k sc sf,
     Board.is_eyeish (Position.board Position.empty_position) 100 = Ret e /\
     Board.board_put (Position.board Position.empty_position) (Some 100) ["X"] = Some b0 /\
     Position.capture_loop (Board.neighbors 100) b0
       (fst (Position.captures Position.empty_position)) [] = Ret (b1, k, sc) /\
     Board.floodfill b1 100 = Ret sf /\
     Board.contact sf "." = Ret None) /\
  Position.move
    (Position.mk (Board.mk (<[Z.to_nat 100 := "x"]> Board.empty)) (0, 0) 0 None None None
       (75 # 10)) 100
  = Position.move Position.empty_position 100.
Proof.
  split.
  - apply (proj1 (move_rejects_only_suicide Position.empty_position 100)).
    reflexivity.
  - apply (proj2 (move_rejects_only_suicide Position.empty_position 100) "x").
    + reflexivity.
    + unfold Board.W2, Board.W, Board.N. lia.
Defined.

(** The suicide test at work: Black on the corner point between two White
    stones is rejected. *)
Example move_suicide_rejected :
  exists p, Position.replay corner_record = Ret p /\ Position.move p 16 = Ret None.
Proof. eexists. split; vm_compute; reflexivity. Qed.

(** ** The alphabet of a Position's board *)

Section Alphabet.

Variable P : ascii -> Prop.
Hypothesis P_empty : Forall P Board.empty.

Lemma init_Forall (l : str) : Forall P l -> Forall P (Board.board (Board.init (Some l))).
Proof. destruct l; [intros _; exact P_empty|trivial]. Qed.

Lemma setitem_Forall (l l' : str) i a :
  P a -> Forall P l -> setitem l i a = Ret l' -> Forall P l'.
Proof.
  unfold setitem. intros Ha Hl. destruct (index_of l i); [|discriminate].
  intros [= <-]. by apply Forall_insert.
Qed.

Lemma fill_neighbors_Forall p ds : forall bb fringe bb' fringe',
  P "#" -> Forall P bb ->
  Board.fill_neighbors p ds bb fringe = Ret (bb', fringe') -> Forall P bb'.
Proof.
  induction ds as [|d ds IH]; intros bb fringe bb' fringe' Hm Hbb; cbn [Board.fill_neighbors].
  - by intros [= <- _].
  - destruct (getitem bb d) as [x| |]; [|discriminate..]. cbn [mbind result_bind].
    destruct (Ascii.eqb x p); [|by apply IH].
    destruct (setitem bb d "#") as [bb1| |] eqn:E; [|discriminate..].
    cbn [mbind result_bind]. apply IH; [exact Hm|].
    by eapply setitem_Forall.
Qed.

Lemma fill_loop_Forall fuel p : forall bb fringe bb',
  P "#" -> Forall P bb ->
  Board.fill_loop fuel p bb fringe = Ret bb' -> Forall P bb'.
Proof.
  induction fuel as [|fuel IH]; intros bb [|c fringe] bb' Hm Hbb;
    cbn [Board.fill_loop]; try discriminate; try by intros [= <-].
  destruct (Board.fill_neighbors _ _ _ _) as [[bb1 fr1]| |] eqn:E; [|discriminate..].
  cbn [mbind result_bind]. apply IH; [exact Hm|]. by eapply fill_neighbors_Forall.
Qed.

Lemma floodfill_Forall b c fb :
  P "#" -> Forall P (Board.board b) ->
  Board.floodfill b c = Ret fb -> Forall P (Board.board fb).
Proof.
  unfold Board.floodfill. intros Hm Hb.
  destruct (getitem _ c) as [p| |]; [|discriminate..]. cbn [mbind result_bind].
  destruct (setitem _ c "#") as [bb| |] eqn:E; [|discriminate..].
  cbn [mbind result_bind].
  destruct (Board.fill_loop _ _ _ _) as [bb'| |] eqn:E'; [|discriminate..].
  cbn [mbind result_bind]. intros [= <-]. apply init_Forall.
  eapply fill_loop_Forall; [exact Hm| |exact E']. by eapply setitem_Forall.
Qed.

Lemma board_put_Forall b c (p : str) b' :
  Forall P p -> Forall P (Board.board b) ->
  Board.board_put b c p = Some b' -> Forall P (Board.board b').
Proof.
  unfold Board.board_put. intros Hp Hb. destruct c as [c|]; [|discriminate].
  intros [= <-]. apply init_Forall.
  repeat apply Forall_app_2; [by apply Forall_take|exact Hp|by apply Forall_drop].
Qed.

End Alphabet.

Lemma cell_ok_swapcase a : cell_ok a = true -> cell_ok (swapcase_char a) = true.
Proof. destruct a as [[] [] [] [] [] [] [] []]; vm_compute; trivial. Qed.

Lemma cell_ok_no_marker a :
  cell_ok a = true -> a ∉ ["#"; "L"; "%"; ":"].
Proof.
  intros H Hin. rewrite !elem_of_cons, elem_of_nil in Hin.
  destruct Hin as [->|[->|[->|[->|[]]]]]; discriminate H.
Qed.

Lemma clean_empty : clean Board.empty.
Proof. unfold Board.empty. repeat (constructor; [reflexivity|]). constructor. Qed.

Lemma swapcase_clean b : clean (Board.board b) -> clean (Board.board (Board.swapcase b)).
Proof.
  intros H. unfold Board.swapcase. apply init_Forall; [exact clean_empty|].
  apply Forall_fmap. eapply Forall_impl; [exact H|]. intros a. apply cell_ok_swapcase.
Qed.

Lemma replace_filled l : filled l -> clean (replace "#" "." l).
Proof.
  intros H. unfold replace. apply Forall_fmap. eapply Forall_impl; [exact H|].
  intros a [Ha| ->]; cbn; [|reflexivity].
  destruct (Ascii.eqb a "#"); [reflexivity|exact Ha].
Qed.

Lemma clean_filled l : clean l -> filled l.
Proof. intros H. eapply Forall_impl; [exact H|]. intros a Ha. by left. Qed.

Lemma capture_loop_clean ds : forall b k sc b' k' sc',
  clean (Board.board b) ->
  Position.capture_loop ds b k sc = Ret (b', k', sc') -> clean (Board.board b').
Proof.
  induction ds as [|d ds IH]; intros b k sc b' k' sc' Hb; cbn [Position.capture_loop].
  - by intros [= <- _ _].
  - destruct (getitem _ d) as [x| |]; [|discriminate..]. cbn [mbind result_bind].
    destruct (negb _); [by apply IH|].
    destruct (Board.floodfill b d) as [fb| |] eqn:Ef; [|discriminate..].
    cbn [mbind result_bind].
    destruct (Board.contact fb ".") as [[l|]| |]; cbn [mbind result_bind];
      try discriminate; [by apply IH|].
    apply IH. cbn [Board.board]. apply replace_filled.
    eapply (floodfill_Forall _ (clean_filled _ clean_empty)); [by right| |exact Ef].
    by apply clean_filled.
Qed.

Lemma move_clean p c p' :
  clean (Board.board (Position.board p)) ->
  Position.move p c = Ret (Some p') -> clean (Board.board (Position.board p')).
Proof.
  intros Hp. unfold Position.move.
  destruct (Qeq_bool _ _); [discriminate|].
  destruct (Board.is_eyeish _ c) as [e| |]; [|discriminate..]. cbn [mbind result_bind].
  destruct (Board.board_put _ _ _) as [b0|] eqn:E0; [|discriminate].
  destruct (Position.capture_loop _ _ _ _) as [[[b1 k] sc]| |] eqn:E1; [|discriminate..].
  cbn [mbind result_bind].
  destruct (Board.floodfill b1 c) as [sf| |]; [|discriminate..]. cbn [mbind result_bind].
  destruct (Board.contact sf ".") as [[l|]| |]; try discriminate.
  cbn [mbind result_bind]. intros [= <-]. cbn [Position.init Position.board default].
  apply swapcase_clean. eapply capture_loop_clean; [|exact E1].
  eapply (board_put_Forall _ clean_empty); [|exact Hp|exact E0].
  by repeat constructor.
Qed.

(** C7. The board of every position reachable from [empty_position] by
    [move] and [pass_move] holds only ".", "X", "x" and whitespace; none of
    the markers "#", "L", "%", ":" occurs in it. *)
Theorem reachable_board_alphabet (p : Position.t) (Hp : Position.reachable p) :
  Forall (fun a => a = "." \/ a = "X" \/ a = "x" \/ isspace a = true)
    (Board.board (Position.board p)) /\
  Forall (fun a => a ∉ ["#"; "L"; "%"; ":"]) (Board.board (Position.board p)).
Proof.
  assert (H : clean (Board.board (Position.board p))).
  { induction Hp as [|p c p' _ IH Hm|p _ IH].
    - exact clean_empty.
    - by eapply move_clean.
    - unfold Position.pass_move. cbn [Position.init Position.board default].
      by apply swapcase_clean. }
  split; (eapply Forall_impl; [exact H|]); intros a Ha.
  - unfold cell_ok in Ha. rewrite !orb_true_iff in Ha.
    destruct Ha as [[[Ha|Ha]|Ha]|Ha]; auto; apply Ascii.eqb_eq in Ha; auto.
  - by apply cell_ok_no_marker.
Qed.

Lemma reachable_board_alphabet_witness :
  Forall (fun a => a = "." \/ a = "X" \/ a = "x" \/ isspace a = true)
    (Board.board (Position.board ko_position)) /\
  Forall (fun a => a ∉ ["#"; "L"; "%"; ":"]) (Board.board (Position.board ko_position)).
Proof.
  apply (reachable_board_alphabet ko_position).
  apply (replay_reachable ko_record). vm_compute. reflexivity.
Defined.

(** ** [move] finishes and keeps the board playable *)

Lemma eyeish_loop_not_Diverge b ds : forall e, Board.eyeish_loop b ds e <> Diverge.
Proof.
  induction ds as [|d ds IH]; intros e; cbn [Board.eyeish_loop]; [discriminate|].
  pose proof (getitem_not_Diverge b d).
  destruct (getitem b d) as [x| |]; [|discriminate|contradiction].
  cbn [mbind result_bind]. destruct (isspace x); [apply IH|].
  destruct (Ascii.eqb x "."); [discriminate|].
  destruct e as [e|]; [|apply IH].
  destruct (Ascii.eqb x (swapcase_char e)); [discriminate|apply IH].
Qed.

Lemma eyeish_loop_returns (b : str) ds : forall e,
  Forall (fun d => - Z.of_nat (length b) <= d < Z.of_nat (length b)) ds ->
  exists r, Board.eyeish_loop b ds e = Ret r.
Proof.
  induction ds as [|d ds IH]; intros e Hds; cbn [Board.eyeish_loop]; [eauto|].
  apply Forall_cons in Hds as [Hd Hds].
  destruct (getitem_in_range b d Hd) as [x ->]. cbn [mbind result_bind].
  destruct (isspace x); [by apply IH|].
  destruct (Ascii.eqb x "."); [eauto|].
  destruct e as [e|]; [|by apply IH].
  destruct (Ascii.eqb x (swapcase_char e)); [eauto|by apply IH].
Qed.

Lemma contact_search_elem p l : forall i j,
  Board.contact_search p l i = Some j -> p ∈ l.
Proof.
  induction l as [|a t IH]; intros i j; cbn [Board.contact_search]; [discriminate|].
  destruct (Ascii.eqb_spec a "#") as [->|Ha].
  - case_bool_decide as E1.
    { intros _. right. by eapply list_elem_of_lookup_2. }
    case_bool_decide as E2.
    { intros _. right. by eapply list_elem_of_lookup_2. }
    intros H. right. by eapply IH.
  - destruct (Ascii.eqb_spec a p) as [->|Hp].
    + intros _. by left.
    + intros H. right. by eapply IH.
Qed.

Lemma contact_point b : Board.contact b "." = Ret (Board.contact_search "." (Board.board b) 0).
Proof. reflexivity. Qed.

Lemma fills_lookup_other p b b' (i : nat) a :
  fills p b b' -> a <> p -> b !! i = Some a -> b' !! i = Some a.
Proof. intros [_ H] Hne Hb. destruct (H i) as [->|[E _]]; congruence. Qed.

Lemma fills_lookup_back p b b' (i : nat) a :
  fills p b b' -> a <> "#" -> b' !! i = Some a -> b !! i = Some a.
Proof. intros [_ H] Hne Hb. destruct (H i) as [<-|[_ E]]; congruence. Qed.

Lemma replace_lookup a b (l : str) (i : nat) x :
  l !! i = Some x -> replace a b l !! i = Some (if Ascii.eqb x a then b else x).
Proof. intros H. unfold replace. by rewrite list_lookup_fmap, H. Qed.

Lemma replace_length a b (l : str) : length (replace a b l) = length l.
Proof. apply length_map. Qed.

Lemma rim_replace b (l : str) : rim l -> rim (replace "#" b l).
Proof.
  intros Hr i a Ha Hi. unfold replace in Ha. rewrite list_lookup_fmap in Ha.
  destruct (l !! i) as [x|] eqn:Ex; [|discriminate]. injection Ha as <-.
  pose proof (Hr i x Ex Hi) as Hx.
  destruct (Ascii.eqb_spec x "#") as [->|]; [discriminate|exact Hx].
Qed.

Lemma filled_fills p b b' : fills p b b' -> clean b -> filled b'.
Proof.
  intros [Hl Hf] Hb. apply Forall_lookup. intros i a Ha.
  destruct (Hf i) as [E|[_ E]].
  - left. rewrite E in Ha. exact (Forall_lookup_1 _ _ _ _ Hb Ha).
  - right. congruence.
Qed.

(** The capture loop finishes, whatever the board. *)
Lemma capture_loop_not_Diverge ds : forall b k sc,
  Position.capture_loop ds b k sc <> Diverge.
Proof.
  induction ds as [|d ds IH]; intros b k sc; cbn [Position.capture_loop]; [discriminate|].
  pose proof (getitem_not_Diverge (Board.board b) d).
  destruct (getitem (Board.board b) d) as [x| |] eqn:Ex; [|discriminate|contradiction].
  cbn [mbind result_bind].
  destruct (Ascii.eqb_spec x "x") as [->|Hx]; cbn [negb]; [|apply IH].
  pose proof (floodfill_terminates b d) as Ht.
  destruct (Board.floodfill b d) as [fb| |]; [|discriminate|].
  - cbn [mbind result_bind]. rewrite contact_point. cbn [mbind result_bind].
    destruct (Board.contact_search _ _ _); apply IH.
  - exfalso. apply Ht; [|reflexivity]. intros p. rewrite Ex. by intros [= <-].
Qed.

(** The capture loop leaves the stone just placed where it is. *)
Lemma capture_loop_keeps ds (c : nat) : forall b k sc b' k' sc',
  Board.board b !! c = Some "X" ->
  Position.capture_loop ds b k sc = Ret (b', k', sc') ->
  Board.board b' !! c = Some "X".
Proof.
  induction ds as [|d ds IH]; intros b k sc b' k' sc' Hc; cbn [Position.capture_loop].
  - by intros [= <- _ _].
  - destruct (getitem (Board.board b) d) as [x| |] eqn:Ex; [|discriminate..].
    cbn [mbind result_bind].
    destruct (Ascii.eqb_spec x "x") as [->|Hx]; cbn [negb]; [|by apply IH].
    destruct (Board.floodfill b d) as [fb| |] eqn:Ef; [|discriminate..].
    cbn [mbind result_bind]. rewrite contact_point. cbn [mbind result_bind].
    destruct (Board.contact_search _ _ _); [by apply IH|].
    apply IH. cbn [Board.board].
    destruct (floodfill_fills _ _ _ Ef) as (p & Hp & Hf).
    rewrite Ex in Hp. injection Hp as <-.
    rewrite (replace_lookup _ _ _ c "X"); [reflexivity|].
    eapply fills_lookup_other; [by apply Hf|discriminate|exact Hc].
Qed.

(** On a board of play the capture loop returns a board of play (less the
    empty point, which the suicide test provides). *)
Lemma capture_loop_returns ds : forall (b : Board.t) k sc,
  length (Board.board b) = Z.to_nat Board.W2 -> clean (Board.board b) ->
  rim (Board.board b) ->
  Forall (fun d => 0 <= d < Board.W2) ds ->
  exists b' k' sc',
    Position.capture_loop ds b k sc = Ret (b', k', sc') /\
    length (Board.board b') = Z.to_nat Board.W2 /\ clean (Board.board b') /\
    rim (Board.board b').
Proof.
  induction ds as [|d ds IH]; intros b k sc Hlen Hcl Hr Hds; cbn [Position.capture_loop].
  { exists b, k, sc. eauto. }
  apply Forall_cons in Hds as [Hd Hds].
  destruct (lookup_lt_is_Some_2 (Board.board b) (Z.to_nat d)) as [x Hx]; [rewrite Hlen; lia|].
  rewrite (getitem_nonneg _ d x) by (lia || exact Hx). cbn [mbind result_bind].
  destruct (Ascii.eqb_spec x "x") as [->|Hne]; cbn [negb]; [|by apply IH].
  destruct b as [b]. cbn [Board.board] in *.
  destruct (floodfill_returns b d "x" Hlen Hr) as (fb & -> & Hf);
    [lia|exact Hx|reflexivity|discriminate|].
  cbn [mbind result_bind]. rewrite contact_point. cbn [mbind result_bind].
  destruct (Board.contact_search _ _ _); [by apply IH|].
  apply IH; cbn [Board.board]; try assumption.
  - rewrite replace_length. destruct Hf as [-> _]. exact Hlen.
  - apply replace_filled. by eapply filled_fills.
  - apply rim_replace. eapply rim_fills; [|exact Hf|exact Hr]. reflexivity.
Qed.

Lemma board_put_stone (b : str) c :
  0 <= c -> (Z.to_nat c < length b)%nat ->
  Board.board_put (Board.mk b) (Some c) ["X"] = Some (Board.mk (<[Z.to_nat c := "X"]> b)).
Proof.
  intros Hc Hlt. unfold Board.board_put, slice_to, slice_from, slice_bound.
  cbn [Board.board].
  replace (c <? 0) with false by (symmetry; apply Z.ltb_ge; lia).
  replace (c + 1 <? 0) with false by (symmetry; apply Z.ltb_ge; lia).
  replace (Z.to_nat (c `min` Z.of_nat (length b))) with (Z.to_nat c) by lia.
  replace (Z.to_nat ((c + 1) `min` Z.of_nat (length b))) with (S (Z.to_nat c)) by lia.
  rewrite (insert_take_drop b (Z.to_nat c) "X" Hlt).
  f_equal. destruct (take (Z.to_nat c) b); reflexivity.
Qed.

(** [move] at a coordinate of the board string finishes. *)
Lemma move_not_Diverge p c :
  0 <= c -> (Z.to_nat c < length (Board.board (Position.board p)))%nat ->
  Position.move p c <> Diverge.
Proof.
  intros Hc Hlt. unfold Position.move.
  destruct (Qeq_bool _ _); [discriminate|].
  pose proof (eyeish_loop_not_Diverge (Board.board (Position.board p)) (Board.neighbors c) None).
  unfold Board.is_eyeish.
  destruct (Board.eyeish_loop _ _ _) as [e| |]; [|discriminate|contradiction].
  cbn [mbind result_bind].
  destruct (Position.board p) as [b]. cbn [Board.board] in *.
  rewrite (board_put_stone b c Hc Hlt).
  pose proof (capture_loop_not_Diverge (Board.neighbors c)
                (Board.mk (<[Z.to_nat c:="X"]> b)) (Position.captures p).1 []) as Hcap.
  destruct (Position.capture_loop _ _ _ _) as [[[b1 k] sc]| |] eqn:E1;
    [|discriminate|contradiction].
  cbn [mbind result_bind].
  assert (Hx : Board.board b1 !! Z.to_nat c = Some "X").
  { eapply capture_loop_keeps; [|exact E1]. cbn [Board.board].
    by apply list_lookup_insert_eq. }
  pose proof (floodfill_terminates b1 c) as Ht.
  destruct (Board.floodfill b1 c) as [sf| |]; [|discriminate|].
  - cbn [mbind result_bind]. rewrite contact_point. cbn [mbind result_bind].
    by destruct (Board.contact_search _ _ _).
  - exfalso. apply Ht; [|reflexivity]. intros q.
    rewrite (getitem_nonneg _ c "X" Hc Hx). by intros [= <-].
Qed.

Lemma isspace_swapcase a : isspace a = true -> swapcase_char a = a.
Proof. destruct a as [[] [] [] [] [] [] [] []]; vm_compute; trivial; discriminate. Qed.

Lemma swapcase_board b :
  Board.board b <> [] ->
  Board.board (Board.swapcase b) = map swapcase_char (Board.board b).
Proof. unfold Board.swapcase. by destruct (Board.board b). Qed.

Lemma playable_nonempty b : playable b -> b <> [].
Proof. intros (_ & _ & _ & H) ->. by apply elem_of_nil in H. Qed.

Lemma playable_swapcase b :
  playable (Board.board b) -> playable (Board.board (Board.swapcase b)).
Proof.
  intros Hp. pose proof (playable_nonempty _ Hp) as Hne.
  destruct Hp as (Hlen & Hcl & Hr & Hdot).
  split; [|split; [|split]].
  - rewrite swapcase_board by exact Hne. by rewrite length_map.
  - by apply swapcase_clean.
  - rewrite swapcase_board by exact Hne. intros i a Ha Hi.
    rewrite list_lookup_fmap in Ha.
    destruct (Board.board b !! i) as [x|] eqn:Ex; [|discriminate]. injection Ha as <-.
    pose proof (Hr i x Ex Hi) as Hx. by rewrite (isspace_swapcase x Hx).
  - rewrite swapcase_board by exact Hne.
    change "." with (swapcase_char "."). by apply list_elem_of_fmap_2.
Qed.

Lemma rim_insert (b : str) (k : nat) a :
  on_board (Z.of_nat k) -> rim b -> rim (<[k := a]> b).
Proof.
  unfold on_board. change Board.W with 15. change Board.W2 with 225.
  intros Hk Hr i x Hx Hi.
  change (Z.to_nat Board.W) with 15%nat in Hi.
  change (Z.to_nat (Board.W2 - Board.W)) with 210%nat in Hi.
  rewrite list_lookup_insert_ne in Hx by lia. by eapply Hr.
Qed.

Lemma move_n p c p' : Position.move p c = Ret (Some p') -> Position.n p' = Position.n p + 1.
Proof.
  unfold Position.move. destruct (Qeq_bool _ _); [discriminate|].
  destruct (Board.is_eyeish _ c) as [e| |]; [|discriminate..]. cbn [mbind result_bind].
  destruct (Board.board_put _ _ _) as [b0|]; [|discriminate].
  destruct (Position.capture_loop _ _ _ _) as [[[b1 k] sc]| |]; [|discriminate..].
  cbn [mbind result_bind].
  destruct (Board.floodfill b1 c) as [sf| |]; [|discriminate..]. cbn [mbind result_bind].
  destruct (Board.contact sf ".") as [[l|]| |]; try discriminate.
  cbn [mbind result_bind]. by intros [= <-].
Qed.

(** On a board of play, [move] at an empty point returns, and the new
    position has a board of play. *)
Lemma move_returns p c :
  playable (Board.board (Position.board p)) ->
  0 <= c -> Board.board (Position.board p) !! Z.to_nat c = Some "." ->
  exists r, Position.move p c = Ret r /\
            forall p', r = Some p' -> playable (Board.board (Position.board p')).
Proof.
  intros (Hlen & Hcl & Hr & Hdot) Hc Hx. unfold Position.move.
  destruct (Qeq_bool _ _); [exists None; split; [reflexivity|discriminate]|].
  destruct (Position.board p) as [b]. cbn [Board.board] in *.
  assert (Hon : on_board c).
  { pose proof (rim_on_board b _ "." Hlen Hr Hx eq_refl) as Hon.
    by rewrite Z2Nat.id in Hon. }
  pose proof (lookup_lt_Some _ _ _ Hx) as Hlt.
  assert (Hnb : Forall (fun d => 0 <= d < Board.W2) (Board.neighbors c))
    by (by apply neighbors_in_range).
  destruct (eyeish_loop_returns b (Board.neighbors c) None) as [e He].
  { eapply Forall_impl; [exact Hnb|]. cbn. intros d. rewrite Hlen.
    change Board.W2 with 225. lia. }
  unfold Board.is_eyeish. cbn [Board.board]. rewrite He. cbn [mbind result_bind].
  rewrite (board_put_stone b c Hc Hlt).
  destruct (capture_loop_returns (Board.neighbors c) (Board.mk (<[Z.to_nat c:="X"]> b))
              (Position.captures p).1 []) as (b1 & k & sc & E1 & Hlen1 & Hcl1 & Hr1);
    cbn [Board.board].
  { by rewrite length_insert. }
  { by apply Forall_insert. }
  { apply rim_insert; [|exact Hr]. by rewrite Z2Nat.id. }
  { exact Hnb. }
  rewrite E1. cbn [mbind result_bind].
  assert (HX : Board.board b1 !! Z.to_nat c = Some "X").
  { eapply capture_loop_keeps; [|exact E1]. cbn [Board.board].
    by apply list_lookup_insert_eq. }
  destruct b1 as [b1]. cbn [Board.board] in *.
  destruct (floodfill_returns b1 c "X" Hlen1 Hr1 Hc HX) as (sf & -> & Hf);
    [reflexivity|discriminate|].
  cbn [mbind result_bind]. rewrite contact_point. cbn [mbind result_bind].
  destruct (Board.contact_search "." (Board.board sf) 0) as [j|] eqn:Ej.
  - eexists. split; [reflexivity|]. intros p' [= <-].
    cbn [Position.init Position.board default].
    apply playable_swapcase. cbn [Board.board].
    split; [exact Hlen1|]. split; [exact Hcl1|]. split; [exact Hr1|].
    apply contact_search_elem in Ej. apply list_elem_of_lookup in Ej as [i Hi].
    apply list_elem_of_lookup. exists i.
    eapply fills_lookup_back; [exact Hf|discriminate|exact Hi].
  - exists None. split; [reflexivity|discriminate].
Qed.

Lemma playable_pass p :
  playable (Board.board (Position.board p)) ->
  playable (Board.board (Position.board (Position.pass_move p))).
Proof. apply playable_swapcase. Qed.

Lemma playable_empty : playable (Board.board (Position.board Position.empty_position)).
Proof.
  split; [reflexivity|]. split; [exact clean_empty|]. split.
  - intros i a Ha Hi.
    change (Z.to_nat Board.W) with 15%nat in Hi.
    change (Z.to_nat (Board.W2 - Board.W)) with 210%nat in Hi.
    change (Board.board (Position.board Position.empty_position)) with Board.empty in Ha.
    pose proof (lookup_lt_Some _ _ _ Ha) as Hlt.
    change (length Board.empty) with 225%nat in Hlt.
    destruct Hi as [Hi|Hi].
    + do 15 (destruct i as [|i]; [by injection Ha as <-|]). lia.
    + rewrite <- (Nat.sub_add 210 i Hi) in Ha.
      rewrite Nat.add_comm in Ha. rewrite <- lookup_drop in Ha.
      remember (i - 210)%nat as j eqn:Ej.
      assert (j < 15)%nat by lia.
      do 15 (destruct j as [|j]; [by injection Ha as <-|]). lia.
  - apply list_elem_of_lookup. by exists 16%nat.
Qed.

(** ** The komi term of [score] *)

Lemma score_loop_board fuel : forall p q i lb,
  Position.board p = Position.board q ->
  Position.score_loop fuel p i lb = Position.score_loop fuel q i lb.
Proof.
  induction fuel as [|fuel IH]; intros p q i lb Hb; [reflexivity|].
  cbn [Position.score_loop]. rewrite <- Hb.
  destruct (find "." _ _ =? -1); [reflexivity|].
  destruct (Board.floodfill _ _) as [fb| |]; [|reflexivity..].
  cbn [mbind result_bind].
  destruct (Board.contact fb "X") as [tX| |]; [|reflexivity..].
  destruct (Board.contact fb "x") as [tx| |]; [|reflexivity..].
  by apply IH.
Qed.

Lemma score_loop_empty_board :
  Position.score_loop (S (length Board.empty)) Position.empty_position 0 None
  = Ret (Some (replace "." ":" Board.empty)).
Proof. vm_compute. reflexivity. Qed.

Lemma score_empty_board caps n ko last last2 komi :
  Position.score (Position.mk (Board.mk Board.empty) caps n ko last last2 komi) None
  = Ret ((inject_Z 0 + (if n mod 2 =? 1 then komi else - komi))%Q, None).
Proof.
  unfold Position.score, Position.score_komi.
  cbn [Position.board Position.n Position.komi Board.board].
  rewrite (score_loop_board _ _ Position.empty_position) by reflexivity.
  rewrite score_loop_empty_board. reflexivity.
Qed.

Lemma pass_empty_position :
  Position.pass_move Position.empty_position
  = Position.mk (Board.mk Board.empty) (0, 0) 1 None None None (75 # 10).
Proof. reflexivity. Qed.

(** C3, the claim as stated fails: after one pass on the empty board the
    ply is odd and [score] is +7.5. *)
Lemma score_empty_board_odd_ply :
  Position.n (Position.pass_move Position.empty_position) mod 2 = 1 /\
  exists v,
    Position.score (Position.pass_move Position.empty_position) None = Ret (v, None) /\
    (v == 75 # 10)%Q /\ ~ (v == - (75 # 10))%Q.
Proof.
  split; [reflexivity|]. rewrite pass_empty_position, score_empty_board.
  eexists. split; [reflexivity|]. split; [reflexivity|discriminate].
Qed.

(** C3, amended. [score] returns count('X') - count('x') over the labelled
    board plus komi on odd plies and minus komi on even plies; on the
    all-empty board it returns +komi when the move count is odd and -komi
    when it is even (-7.5 for komi 7.5 at ply 0, +7.5 at ply 1). *)
Theorem score_komi_parity :
  (forall p om v om',
     Position.score p om = Ret (v, om') ->
     exists lb,
       Position.score_loop (S (length (Board.board (Position.board p)))) p 0 None
         = Ret (Some lb) /\
       v = (inject_Z (count "X" lb - count "x" lb) +
            (if Position.n p mod 2 =? 1 then Position.komi p else - Position.komi p))%Q) /\
  (forall caps n ko last last2 komi,
     Position.score (Position.mk (Board.mk Board.empty) caps n ko last last2 komi) None
       = Ret ((inject_Z 0 + (if n mod 2 =? 1 then komi else - komi))%Q, None)).
Proof.
  split.
  - intros p om v om'. unfold Position.score, Position.score_komi.
    destruct (Position.score_loop _ p 0 None) as [[lb|]| |];
      cbn [mbind result_bind]; try discriminate.
    + destruct om as [om|]; cbn [mbind result_bind].
      * destruct (Position.owner_loop _ _ _ _); cbn [mbind result_bind]; try discriminate.
        intros [= <- _]. by exists lb.
      * intros [= <- _]. by exists lb.
    + destruct om; discriminate.
  - apply score_empty_board.
Qed.

Lemma score_komi_parity_witness :
  exists lb,
    Position.score_loop (S (length Board.empty)) Position.empty_position 0 None
      = Ret (Some lb) /\
    (inject_Z 0 + - (75 # 10))%Q = (inject_Z (count "X" lb - count "x" lb) + - (75 # 10))%Q.
Proof.
  apply (proj1 score_komi_parity Position.empty_position None _ None).
  exact (score_empty_board (0, 0) 0 None None None (75 # 10)).
Defined.

(** ** The regions [score] labels *)

Lemma two_corners_position_replayed :
  Position.replay two_corners_record = Ret two_corners_position.
Proof. vm_compute. reflexivity. Qed.

Lemma score_loop_two_corners :
  Position.score_loop (S (length (Board.board (Position.board two_corners_position))))
    two_corners_position 0 None
  = Ret (Some (<[208%nat := "x"]> (Board.board (Position.board two_corners_position)))).
Proof. vm_compute. reflexivity. Qed.

(** C2. With three empty regions (the corner owned by X, the corner owned
    by x, the shared middle), the board [score] counts has only the region
    of the last empty point labelled: the 164 other empty points are still
    ".", X's corner point is not counted, and the value is -1 - 7.5. With
    every region labelled, as the claim has it, the counts are 3 and 3 and
    the value is 0 - 7.5. *)
Theorem score_counts_last_region_only :
  Position.reachable two_corners_position /\
  (exists lb,
     Position.score_loop (S (length (Board.board (Position.board two_corners_position))))
       two_corners_position 0 None = Ret (Some lb) /\
     count "." lb = 164 /\ count "X" lb = 2 /\ count "x" lb = 3 /\ count ":" lb = 0) /\
  (exists v,
     Position.score two_corners_position None = Ret (v, None) /\ (v == - (85 # 10))%Q) /\
  (exists lb,
     Position.label_regions (S (length (Board.board (Position.board two_corners_position))))
       (Board.board (Position.board two_corners_position)) = Ret lb /\
     count "." lb = 0 /\ count "X" lb = 3 /\ count "x" lb = 3 /\ count ":" lb = 163) /\
  (exists v,
     Position.score_all_regions two_corners_position = Ret v /\ (v == - (75 # 10))%Q).
Proof.
  split; [exact (replay_reachable _ _ two_corners_position_replayed)|].
  split; [eexists; split; [exact score_loop_two_corners|repeat split]|].
  split.
  { unfold Position.score. rewrite score_loop_two_corners.
    eexists. split; [reflexivity|reflexivity]. }
  split; [eexists; split; [vm_compute; reflexivity|repeat split]|].
  eexists; split; [vm_compute; reflexivity|reflexivity].
Qed.

(** ** [score] finishes; on a board of play it returns *)

Lemma find_at_spec a l : forall i start,
  find_at a l i start = -1 \/
  (start <= find_at a l i start /\ i <= find_at a l i start < i + Z.of_nat (length l) /\
   l !! Z.to_nat (find_at a l i start - i) = Some a).
Proof.
  induction l as [|b l IH]; intros i start; cbn [find_at]; [by left|].
  destruct ((start <=? i) && Ascii.eqb b a) eqn:E.
  - apply andb_true_iff in E as [H1%Z.leb_le H2%Ascii.eqb_eq]. subst b. right.
    split; [exact H1|]. split; [cbn [length]; lia|].
    by replace (i - i) with 0 by lia.
  - destruct (IH (i + 1) start) as [H|(H1 & H2 & H3)]; [by left|right].
    split; [exact H1|]. split; [cbn [length]; lia|].
    replace (Z.to_nat (find_at a l (i + 1) start - i))
      with (S (Z.to_nat (find_at a l (i + 1) start - (i + 1)))) by lia.
    exact H3.
Qed.

Lemma find_at_found a l : forall i start (k : nat),
  0 <= i -> l !! k = Some a -> start <= i + Z.of_nat k -> find_at a l i start <> -1.
Proof.
  induction l as [|b l IH]; intros i start k Hi Hk Hs; [discriminate|].
  cbn [find_at]. destruct ((start <=? i) && Ascii.eqb b a) eqn:E; [lia|].
  destruct k as [|k].
  - injection Hk as ->. rewrite Ascii.eqb_refl, andb_true_r in E.
    apply Z.leb_gt in E. lia.
  - apply (IH (i + 1) start k); [lia|exact Hk|lia].
Qed.

Lemma find_spec a l start (j := find a l start) :
  0 <= start ->
  j = -1 \/ (start <= j < Z.of_nat (length l) /\ l !! Z.to_nat j = Some a).
Proof.
  intros Hs. subst j. unfold find.
  destruct (find_at_spec a l 0 start) as [H|(H1 & H2 & H3)]; [by left|right].
  split; [lia|]. by rewrite Z.sub_0_r in H3.
Qed.

Lemma contact_stone b p :
  p = "X" \/ p = "x" ->
  Board.contact b p = Ret (Board.contact_search p (Board.board b) 0).
Proof. by intros [->| ->]. Qed.

Lemma score_loop_not_Diverge p fuel : forall i lb,
  0 <= i <= Z.of_nat (length (Board.board (Position.board p))) ->
  Z.of_nat (length (Board.board (Position.board p))) + 1 <= Z.of_nat fuel + i ->
  Position.score_loop fuel p i lb <> Diverge.
Proof.
  induction fuel as [|fuel IH]; intros i lb Hi Hm; [lia|].
  cbn [Position.score_loop].
  destruct (find_spec "." (Board.board (Position.board p)) (i + 1)) as [->|(Hj & Hx)];
    [lia|discriminate|].
  destruct (Z.eqb_spec (find "." (Board.board (Position.board p)) (i + 1)) (-1));
    [discriminate|].
  set (j := find "." (Board.board (Position.board p)) (i + 1)) in *.
  pose proof (floodfill_terminates (Position.board p) j) as Ht.
  destruct (Board.floodfill (Position.board p) j) as [fb| |]; [|discriminate|].
  - cbn [mbind result_bind]. rewrite !contact_stone by auto. cbn [mbind result_bind].
    apply IH; lia.
  - exfalso. apply Ht; [|reflexivity]. intros q.
    rewrite (getitem_nonneg _ j ".") by (lia || exact Hx). by intros [= <-].
Qed.

Lemma owner_loop_not_Diverge cs lb n : forall om,
  Position.owner_loop cs lb n om <> Diverge.
Proof.
  induction cs as [|c cs IH]; intros om; cbn [Position.owner_loop]; [discriminate|].
  pose proof (getitem_not_Diverge lb c).
  destruct (getitem lb c) as [x| |]; [|discriminate|contradiction]. cbn [mbind result_bind].
  pose proof (getitem_not_Diverge om c).
  destruct (getitem om c) as [old| |]; [|discriminate|contradiction].
  cbn [mbind result_bind].
  pose proof (setitem_not_Diverge om c
    (old + (if Ascii.eqb x "X" then 1 else if Ascii.eqb x "x" then -1 else 0) *
           (if n mod 2 =? 0 then 1 else -1))).
  destruct (setitem om c _) as [om'| |]; [|discriminate|contradiction].
  cbn [mbind result_bind]. apply IH.
Qed.

(** [score] finishes on every position. *)
Lemma score_not_Diverge p om : Position.score p om <> Diverge.
Proof.
  unfold Position.score.
  pose proof (score_loop_not_Diverge p (S (length (Board.board (Position.board p)))) 0 None)
    as Hl.
  destruct (Position.score_loop _ p 0 None) as [lb| |]; [|discriminate|].
  - cbn [mbind result_bind]. destruct om as [om|]; cbn [mbind result_bind].
    + destruct lb as [lb|]; [|discriminate].
      pose proof (owner_loop_not_Diverge (seqZ 0 (Board.W * Board.W)) lb (Position.n p) om).
      destruct (Position.owner_loop _ _ _ _); [|discriminate|contradiction].
      cbn [mbind result_bind]. discriminate.
    + by destruct lb.
  - exfalso. apply Hl; [lia|lia|reflexivity].
Qed.

Lemma score_loop_returns p fuel :
  playable (Board.board (Position.board p)) ->
  forall i lb0,
  0 <= i <= Z.of_nat (length (Board.board (Position.board p))) ->
  Z.of_nat (length (Board.board (Position.board p))) + 1 <= Z.of_nat fuel + i ->
  (lb0 = None -> find "." (Board.board (Position.board p)) (i + 1) <> -1) ->
  (forall l, lb0 = Some l -> length l = Z.to_nat Board.W2) ->
  exists lb, Position.score_loop fuel p i lb0 = Ret (Some lb) /\
             length lb = Z.to_nat Board.W2.
Proof.
  intros Hp. destruct (Position.board p) as [b] eqn:Eb. cbn [Board.board] in *.
  destruct Hp as (Hlen & Hcl & Hr & Hdot).
  revert Eb. induction fuel as [|fuel IH]; intros Eb i lb0 Hi Hm Hnone Hsome; [lia|].
  cbn [Position.score_loop]. rewrite Eb. cbn [Board.board].
  destruct (find_spec "." b (i + 1)) as [E|(Hj & Hx)]; [lia| |].
  - rewrite E. cbn. destruct lb0 as [l|]; [eauto|]. by destruct Hnone.
  - destruct (Z.eqb_spec (find "." b (i + 1)) (-1)); [lia|].
    set (j := find "." b (i + 1)) in *.
    destruct (floodfill_returns b j "." Hlen Hr) as (fb & -> & Hf);
      [lia|exact Hx|reflexivity|discriminate|].
    cbn [mbind result_bind]. rewrite !contact_stone by auto. cbn [mbind result_bind].
    apply IH; [exact Eb|lia|lia|discriminate|].
    intros l [= <-]. destruct Hf as [Hfl _].
    repeat case_match; rewrite replace_length; congruence.
Qed.

Lemma owner_loop_returns cs (lb : str) n : forall om : list Z,
  Forall (fun c => 0 <= c < Z.of_nat (length lb)) cs ->
  length om = length lb ->
  exists om', Position.owner_loop cs lb n om = Ret om' /\ length om' = length lb.
Proof.
  induction cs as [|c cs IH]; intros om Hcs Hom; cbn [Position.owner_loop]; [eauto|].
  apply Forall_cons in Hcs as [Hc Hcs].
  destruct (lookup_lt_is_Some_2 lb (Z.to_nat c)) as [x Hx]; [lia|].
  destruct (lookup_lt_is_Some_2 om (Z.to_nat c)) as [old Hold]; [lia|].
  rewrite (getitem_nonneg lb c x) by (lia || exact Hx). cbn [mbind result_bind].
  rewrite (getitem_nonneg om c old) by (lia || exact Hold). cbn [mbind result_bind].
  unfold setitem. rewrite index_of_nonneg by lia. cbn [mbind result_bind].
  apply IH; [exact Hcs|]. by rewrite length_insert.
Qed.

(** On a board of play [score] returns a value and the updated owner map. *)
Lemma score_returns p (om : list Z) :
  playable (Board.board (Position.board p)) -> length om = Z.to_nat Board.W2 ->
  exists v om', Position.score p (Some om) = Ret (v, Some om') /\
                length om' = Z.to_nat Board.W2.
Proof.
  intros Hp Hom. unfold Position.score.
  destruct (score_loop_returns p (S (length (Board.board (Position.board p)))) Hp 0 None)
    as (lb & -> & Hlb); [lia|lia| |discriminate|].
  { intros _. destruct Hp as (Hlen & _ & Hr & Hdot).
    apply list_elem_of_lookup in Hdot as [k Hk].
    pose proof (rim_on_board _ k "." Hlen Hr Hk eq_refl) as Hon.
    unfold on_board in Hon. change Board.W with 15 in Hon.
    apply (find_at_found "." _ 0 (0 + 1) k); [lia|exact Hk|lia]. }
  cbn [mbind result_bind].
  destruct (owner_loop_returns (seqZ 0 (Board.W * Board.W)) lb (Position.n p) om)
    as (om' & -> & Hom'); [|congruence|].
  { apply Forall_forall. intros c Hc%elem_of_seqZ. rewrite Hlb.
    change (Board.W * Board.W) with 225 in Hc. change Board.W2 with 225. lia. }
  cbn [mbind result_bind]. eexists _, om'. split; [reflexivity|congruence].
Qed.

(** Whenever the loop of [score] returns a labelled board, it is the flood
    fill of the position's board from its last empty point, relabelled:
    the labels of the passes before are gone. *)
Lemma score_loop_last_region p fuel : forall i lb0 lb,
  0 <= i ->
  Position.score_loop fuel p i lb0 = Ret lb ->
  (lb = lb0 /\ find "." (Board.board (Position.board p)) (i + 1) = -1) \/
  exists j fb l,
    i < j /\ Board.board (Position.board p) !! Z.to_nat j = Some "." /\
    find "." (Board.board (Position.board p)) (j + 1) = -1 /\
    Board.floodfill (Position.board p) j = Ret fb /\
    Position.label fb = Ret l /\ lb = Some l.
Proof.
  induction fuel as [|fuel IH]; intros i lb0 lb Hi; [discriminate|].
  cbn [Position.score_loop].
  destruct (find_spec "." (Board.board (Position.board p)) (i + 1)) as [E|(Hj & Hx)]; [lia| |].
  - rewrite E. cbn. intros [= <-]. by left.
  - destruct (Z.eqb_spec (find "." (Board.board (Position.board p)) (i + 1)) (-1)); [lia|].
    set (j := find "." (Board.board (Position.board p)) (i + 1)) in *.
    destruct (Board.floodfill (Position.board p) j) as [fb| |] eqn:Ef; [|discriminate..].
    cbn [mbind result_bind]. rewrite !contact_stone by auto. cbn [mbind result_bind].
    intros H. right.
    destruct (IH j _ lb ltac:(lia) H) as [[-> Hlast]|(j' & fb' & l & Hlt & Hrest)].
    + exists j, fb. eexists. split; [lia|]. split; [exact Hx|]. split; [exact Hlast|].
      split; [exact Ef|]. split; [|reflexivity].
      unfold Position.label. rewrite !contact_stone by auto. reflexivity.
    + exists j', fb', l. split; [lia|exact Hrest].
Qed.

(** ** The playout *)

Section PlayoutProperties.

Import Heuristics.

Variable suggest : nat -> Position.t -> list (Z * bool).

Lemma suggest_empty_points k pos :
  suggests_empty_points suggest -> empty_points pos (suggest k pos).
Proof.
  intros H. apply Forall_forall. intros [c r] Hin. by apply (H k pos c r).
Qed.

Lemma try_moves_not_Diverge pos cands : forall amaf,
  empty_points pos cands -> try_moves pos amaf cands <> Diverge.
Proof.
  induction cands as [|[c r] cands IH]; intros amaf Hc; cbn [try_moves]; [discriminate|].
  apply Forall_cons in Hc as [[Hc0 Hx] Hc]. cbn [fst] in *.
  pose proof (move_not_Diverge pos c Hc0 (lookup_lt_Some _ _ _ Hx)).
  destruct (Position.move pos c) as [[p2|]| |]; [| |discriminate|contradiction];
    cbn [mbind result_bind]; [|by apply IH].
  destruct r; [by apply IH|].
  pose proof (getitem_not_Diverge amaf c).
  destruct (getitem amaf c) as [a| |]; [|discriminate|contradiction].
  cbn [mbind result_bind].
  destruct (a =? 0); [|discriminate].
  pose proof (setitem_not_Diverge amaf c (if Position.n pos mod 2 =? 0 then 1 else -1)).
  destruct (setitem amaf c _); [discriminate|discriminate|contradiction].
Qed.

Lemma try_moves_n pos cands : forall amaf p2 amaf',
  try_moves pos amaf cands = Ret (Some p2, amaf') ->
  Position.n p2 = Position.n pos + 1.
Proof.
  induction cands as [|[c r] cands IH]; intros amaf p2 amaf'; cbn [try_moves];
    [discriminate|].
  destruct (Position.move pos c) as [[q|]| |] eqn:E; [| |discriminate..];
    cbn [mbind result_bind]; [|by apply IH].
  destruct r; [by apply IH|].
  destruct (getitem amaf c) as [a| |]; [|discriminate..]. cbn [mbind result_bind].
  destruct (a =? 0).
  - destruct (setitem amaf c _); [|discriminate..]. cbn [mbind result_bind].
    intros [= <- _]. by eapply move_n.
  - cbn [mbind result_bind]. intros [= <- _]. by eapply move_n.
Qed.

Lemma try_moves_returns pos cands : forall amaf : list Z,
  playable (Board.board (Position.board pos)) ->
  length amaf = Z.to_nat Board.W2 ->
  empty_points pos cands ->
  exists o amaf',
    try_moves pos amaf cands = Ret (o, amaf') /\
    length amaf' = Z.to_nat Board.W2 /\
    forall p2, o = Some p2 -> playable (Board.board (Position.board p2)).
Proof.
  induction cands as [|[c r] cands IH]; intros amaf Hp Ha Hc; cbn [try_moves].
  { exists None, amaf. split; [reflexivity|]. split; [exact Ha|discriminate]. }
  apply Forall_cons in Hc as [[Hc0 Hx] Hc]. cbn [fst] in *.
  destruct (move_returns pos c Hp Hc0 Hx) as ([p2|] & -> & Hp2); cbn [mbind result_bind];
    [|by apply IH].
  destruct r; [by apply IH|].
  pose proof (lookup_lt_Some _ _ _ Hx) as Hlt.
  destruct Hp as (Hlen & _). rewrite Hlen in Hlt.
  destruct (lookup_lt_is_Some_2 amaf (Z.to_nat c)) as [a Hamaf]; [lia|].
  rewrite (getitem_nonneg amaf c a Hc0 Hamaf). cbn [mbind result_bind].
  destruct (a =? 0).
  - unfold setitem. rewrite index_of_nonneg by lia. cbn [mbind result_bind].
    eexists _, _. split; [reflexivity|]. split; [by rewrite length_insert|].
    intros ? [= <-]. by apply Hp2.
  - cbn [mbind result_bind]. eexists _, _. split; [reflexivity|]. split; [exact Ha|].
    intros ? [= <-]. by apply Hp2.
Qed.

Hypothesis suggest_ok : suggests_empty_points suggest.

Lemma playout_loop_not_Diverge fuel : forall k pos passes amaf,
  Board.MAX_GAME_LEN - Position.n pos <= Z.of_nat fuel ->
  playout_loop suggest fuel k pos passes amaf <> Diverge.
Proof.
  induction fuel as [|fuel IH]; intros k pos passes amaf Hm; cbn [playout_loop].
  - destruct (passes <? 2); [|discriminate]. cbn [andb].
    destruct (Z.ltb_spec (Position.n pos) Board.MAX_GAME_LEN); [lia|discriminate].
  - destruct ((passes <? 2) && (Position.n pos <? Board.MAX_GAME_LEN)); [|discriminate].
    pose proof (try_moves_not_Diverge pos (suggest k pos) amaf (suggest_empty_points k pos suggest_ok)).
    destruct (try_moves pos amaf (suggest k pos)) as [[[p2|] amaf']| |] eqn:E;
      [| |discriminate|contradiction]; cbn [mbind result_bind].
    + apply IH. rewrite (try_moves_n _ _ _ _ _ E). lia.
    + apply IH. unfold Position.pass_move. cbn [Position.init Position.n]. lia.
Qed.

Lemma playout_loop_returns fuel : forall k pos passes (amaf : list Z),
  playable (Board.board (Position.board pos)) ->
  length amaf = Z.to_nat Board.W2 ->
  Board.MAX_GAME_LEN - Position.n pos <= Z.of_nat fuel ->
  exists pos' amaf',
    playout_loop suggest fuel k pos passes amaf = Ret (pos', amaf') /\
    playable (Board.board (Position.board pos')) /\
    length amaf' = Z.to_nat Board.W2 /\
    Position.n pos <= Position.n pos' <= Z.max (Position.n pos) Board.MAX_GAME_LEN.
Proof.
  induction fuel as [|fuel IH]; intros k pos passes amaf Hp Ha Hm; cbn [playout_loop].
  - destruct (passes <? 2); cbn [andb].
    + destruct (Z.ltb_spec (Position.n pos) Board.MAX_GAME_LEN); [lia|].
      exists pos, amaf. split; [reflexivity|]. split; [exact Hp|]. split; [exact Ha|]. lia.
    + exists pos, amaf. split; [reflexivity|]. split; [exact Hp|]. split; [exact Ha|]. lia.
  - destruct ((passes <? 2) && (Position.n pos <? Board.MAX_GAME_LEN)) eqn:Eg.
    + apply andb_true_iff in Eg as [_ Hn%Z.ltb_lt].
      destruct (try_moves_returns pos (suggest k pos) amaf Hp Ha
                  (suggest_empty_points k pos suggest_ok))
        as ([p2|] & amaf' & E & Ha' & Hp2); rewrite E; cbn [mbind result_bind].
      * pose proof (try_moves_n _ _ _ _ _ E) as Hn2.
        destruct (IH (S k) p2 0 amaf' (Hp2 p2 eq_refl) Ha') as (pos' & amaf'' & E' & H1 & H2 & H3);
          [lia|].
        exists pos', amaf''. split; [exact E'|]. split; [exact H1|]. split; [exact H2|]. lia.
      * destruct (IH (S k) (Position.pass_move pos) (passes + 1) amaf'
                    (playable_pass pos Hp) Ha') as (pos' & amaf'' & E' & H1 & H2 & H3).
        { unfold Position.pass_move. cbn [Position.init Position.n]. lia. }
        unfold Position.pass_move in H3. cbn [Position.init Position.n] in H3.
        exists pos', amaf''. split; [exact E'|]. split; [exact H1|]. split; [exact H2|]. lia.
    + exists pos, amaf. split; [reflexivity|]. split; [exact Hp|]. split; [exact Ha|]. lia.
Qed.

Lemma mcplayout_not_Diverge pos amaf : mcplayout suggest pos amaf <> Diverge.
Proof.
  unfold mcplayout.
  pose proof (playout_loop_not_Diverge
                (Z.to_nat (Board.MAX_GAME_LEN - Position.n pos)) 0 pos 0 amaf) as Hl.
  destruct (playout_loop _ _ _ _ _ _) as [[pos' amaf']| |]; [|discriminate|].
  - cbn [mbind result_bind].
    pose proof (score_not_Diverge pos'
      (Some (replicate (Z.to_nat (Board.W * Board.W)) 0))) as Hs.
    destruct (Position.score pos' _) as [[v om]| |]; [discriminate|discriminate|contradiction].
  - exfalso. apply Hl; [lia|reflexivity].
Qed.

Lemma mcplayout_empty_returns :
  exists pos' amaf' score owner_map,
    playout_loop suggest (Z.to_nat Board.MAX_GAME_LEN) 0 Position.empty_position 0
      (replicate (Z.to_nat Board.W2) 0) = Ret (pos', amaf') /\
    0 <= Position.n pos' <= 3 * Board.N * Board.N /\
    mcplayout suggest Position.empty_position (replicate (Z.to_nat Board.W2) 0)
      = Ret (score, amaf', owner_map) /\
    length amaf' = Z.to_nat Board.W2 /\ length owner_map = Z.to_nat Board.W2.
Proof.
  destruct (playout_loop_returns (Z.to_nat Board.MAX_GAME_LEN) 0 Position.empty_position 0
              (replicate (Z.to_nat Board.W2) 0) playable_empty)
    as (pos' & amaf' & E & Hp & Ha & Hn); [apply length_replicate|reflexivity|].
  destruct (score_returns pos' (replicate (Z.to_nat (Board.W * Board.W)) 0) Hp)
    as (v & om & Es & Hom); [apply length_replicate|].
  eexists pos', amaf', _, om. split; [exact E|]. split.
  { change (Position.n Position.empty_position) with 0 in Hn.
    change Board.MAX_GAME_LEN with 507 in Hn. change (3 * Board.N * Board.N) with 507. lia. }
  split; [|split; assumption].
  unfold mcplayout. change (Position.n Position.empty_position) with 0.
  change (Board.MAX_GAME_LEN - 0) with Board.MAX_GAME_LEN.
  rewrite E. cbn [mbind result_bind]. rewrite Es. cbn [mbind result_bind]. reflexivity.
Qed.

End PlayoutProperties.

Lemma first_empty_point_ok : suggests_empty_points first_empty_point.
Proof.
  intros k pos c rejected. unfold first_empty_point.
  destruct (find_spec "." (Board.board (Position.board pos)) 0) as [E|(Hj & Hx)]; [lia| |].
  - rewrite E. cbn. by intros ?%elem_of_nil.
  - destruct (Z.eqb_spec (find "." (Board.board (Position.board pos)) 0) (-1)).
    + by intros ?%elem_of_nil.
    + intros [= -> ->]%list_elem_of_singleton. split; [lia|exact Hx].
Qed.

(** ** The store model computes the same moves *)

Section Refinement.

Import Obj.

Lemma lookup_snoc {A} (l : list A) x : (l ++ [x]) !! length l = Some x.
Proof. by rewrite lookup_app_r, Nat.sub_diag. Qed.

Lemma lookup_snoc_old {A} (l : list A) x i y : l !! i = Some y -> (l ++ [x]) !! i = Some y.
Proof. intros H. rewrite lookup_app_l; [exact H|]. by eapply lookup_lt_Some. Qed.

Lemma bind_run {A B} (m : M A) (f : A -> M B) (h : heap) :
  (m ≫= f) h =
  match m h with
  | (Ret a, h') => f a h'
  | (Raise e, h') => (Raise e, h')
  | (Diverge, h') => (Diverge, h')
  end.
Proof. reflexivity. Qed.

Lemma get_board_at (h : heap) r b : h !! r = Some (OBoard b) -> get_board r h = (Ret b, h).
Proof. intros H. unfold get_board. by rewrite H. Qed.

Lemma floodfill_run (h : heap) r b c :
  h !! r = Some (OBoard b) ->
  floodfill r c h =
  match Board.floodfill b c with
  | Ret fb => (Ret (length h), h ++ [OBoard fb])
  | Raise e => (Raise e, h)
  | Diverge => (Diverge, h)
  end.
Proof.
  intros H. unfold floodfill. rewrite bind_run, (get_board_at h r b H). cbv beta iota.
  rewrite bind_run. unfold lift. by destruct (Board.floodfill b c).
Qed.

Lemma contact_run (h : heap) r b p :
  h !! r = Some (OBoard b) -> contact r p h = (Board.contact b p, h).
Proof.
  intros H. unfold contact. by rewrite bind_run, (get_board_at h r b H).
Qed.

Lemma is_eyeish_run (h : heap) r b c :
  h !! r = Some (OBoard b) -> is_eyeish r c h = (Board.is_eyeish b c, h).
Proof.
  intros H. unfold is_eyeish. by rewrite bind_run, (get_board_at h r b H).
Qed.

Lemma board_put_run (h : heap) r b c p :
  h !! r = Some (OBoard b) ->
  board_put r c p h =
  match Board.board_put b c p with
  | Some b' => (Ret (Some (length h)), h ++ [OBoard b'])
  | None => (Ret None, h)
  end.
Proof.
  intros H. unfold board_put. rewrite bind_run, (get_board_at h r b H). cbv beta iota.
  by destruct (Board.board_put b c p).
Qed.

Lemma swapcase_run (h : heap) r b :
  h !! r = Some (OBoard b) ->
  swapcase r h = (Ret (length h), h ++ [OBoard (Board.swapcase b)]).
Proof.
  intros H. unfold swapcase. by rewrite bind_run, (get_board_at h r b H).
Qed.

(** The capture loop of the store writes to the Board at [board] what the
    capture loop on values computes. *)
Lemma capture_loop_refines ds board : forall (h : heap) b k sc,
  h !! board = Some (OBoard b) ->
  match Position.capture_loop ds b k sc with
  | Ret (b', k', sc') =>
      exists h', capture_loop ds board k sc h = (Ret (k', sc'), h') /\
                 h' !! board = Some (OBoard b')
  | Raise e => (capture_loop ds board k sc h).1 = Raise e
  | Diverge => (capture_loop ds board k sc h).1 = Diverge
  end.
Proof.
  induction ds as [|d ds IH]; intros h b k sc Hb;
    cbn [Position.capture_loop capture_loop]; [eauto|].
  rewrite bind_run, (get_board_at h board b Hb). cbv beta iota.
  rewrite bind_run. unfold lift.
  destruct (getitem (Board.board b) d) as [x| |]; cbn [mbind result_bind fst];
    [|reflexivity..].
  destruct (negb (Ascii.eqb x "x")); [by apply IH|].
  rewrite bind_run, (floodfill_run h board b d Hb).
  destruct (Board.floodfill b d) as [fb| |]; cbn [mbind result_bind fst];
    [|reflexivity..].
  rewrite bind_run, (contact_run _ _ fb "." (lookup_snoc h _)).
  destruct (Board.contact fb ".") as [[l|]| |]; cbn [mbind result_bind fst];
    [| |reflexivity..].
  - apply IH. by apply lookup_snoc_old.
  - rewrite bind_run, (get_board_at _ _ fb (lookup_snoc h _)). cbv beta iota.
    rewrite bind_run. unfold set_board.
    rewrite (lookup_snoc_old h _ board _ Hb).
    apply IH. apply list_lookup_insert_eq. rewrite length_app. cbn.
    apply lookup_lt_Some in Hb. lia.
Qed.

(** [Obj.move] on a store returns what [Position.move] returns on the
    Position value the receiver stands for. *)
Lemma move_refines (h : heap) self p c :
  position_at h self = Some p ->
  match Position.move p c with
  | Ret None => (move self c h).1 = Ret None
  | Ret (Some p') =>
      exists r, (move self c h).1 = Ret (Some r) /\
                position_at (move self c h).2 r = Some p'
  | Raise e => (move self c h).1 = Raise e
  | Diverge => (move self c h).1 = Diverge
  end.
Proof.
  unfold position_at.
  destruct (h !! self) as [[|po]|] eqn:Eself; try discriminate.
  destruct (h !! Obj.board po) as [[b|]|] eqn:Eb; try discriminate.
  intros [= <-]. unfold Position.move, move.
  cbn [Position.komi Position.board Position.captures Position.n Position.last].
  rewrite bind_run. unfold get_position. rewrite Eself.
  destruct (Qeq_bool (inject_Z c) (komi po)); [reflexivity|].
  rewrite bind_run, (is_eyeish_run h _ b c Eb).
  destruct (Board.is_eyeish b c) as [e| |]; cbn [mbind result_bind fst]; [|reflexivity..].
  rewrite bind_run, (board_put_run h _ b (Some c) ["X"] Eb).
  destruct (Board.board_put b (Some c) ["X"]) as [b0|]; [|reflexivity].
  rewrite bind_run.
  pose proof (capture_loop_refines (Board.neighbors c) (length h) (h ++ [OBoard b0]) b0
                (captures po).1 [] (lookup_snoc h _)) as Hcap.
  destruct (Position.capture_loop (Board.neighbors c) b0 (captures po).1 [])
    as [[[b1 k] sc]| |]; cbn [mbind result_bind].
  - destruct Hcap as (h1 & -> & Hb1).
    rewrite bind_run, (floodfill_run h1 _ b1 c Hb1).
    destruct (Board.floodfill b1 c) as [sf| |]; cbn [mbind result_bind fst];
      [|reflexivity..].
    rewrite bind_run, (contact_run _ _ sf "." (lookup_snoc h1 _)).
    destruct (Board.contact sf ".") as [[l|]| |]; cbn [mbind result_bind fst];
      [|reflexivity..].
    rewrite bind_run, (swapcase_run (h1 ++ [OBoard sf]) (length h) b1)
      by (by apply lookup_snoc_old).
    rewrite bind_run. unfold new_position, alloc, ret. cbn [fst snd].
    eexists. split; [reflexivity|].
    rewrite lookup_snoc. cbn [Obj.board].
    rewrite (lookup_snoc_old _ _ _ _ (lookup_snoc (h1 ++ [OBoard sf]) _)).
    reflexivity.
  - destruct (capture_loop _ _ _ _ _) as [[a|e'|] h']; cbn [fst] in Hcap;
      try discriminate. by injection Hcap as ->.
  - destruct (capture_loop _ _ _ _ _) as [[a|e'|] h']; cbn [fst] in Hcap;
      try discriminate. reflexivity.
Qed.

End Refinement.

(** ** Receivers are not written to *)

Section Frame.

Import Obj.

Lemma preserves_weaken {A} k (m : M A) (Q R : A -> Prop) :
  preserves k m Q -> (forall a, Q a -> R a) -> preserves k m R.
Proof.
  intros Hm HQ h Hk. destruct (Hm h Hk) as (H1 & H2 & H3). eauto.
Qed.

Lemma preserves_ret {A} k (a : A) (Q : A -> Prop) : Q a -> preserves k (mret a) Q.
Proof. intros HQ h Hk. cbn. repeat split; [lia|]. by intros ? [= <-]. Qed.

Lemma preserves_lift {A} k (m : result A) : preserves k (lift m) (fun _ => True).
Proof. intros h Hk. cbn. repeat split. lia. Qed.

Lemma preserves_raise {A} k e (Q : A -> Prop) : preserves k (lift (Raise e)) Q.
Proof. intros h Hk. cbn. repeat split; [lia|discriminate]. Qed.

Lemma preserves_bind {A B} k (m : M A) (f : A -> M B) (Q : A -> Prop) (R : B -> Prop) :
  preserves k m Q -> (forall a, Q a -> preserves k (f a) R) ->
  preserves k (m ≫= f) R.
Proof.
  intros Hm Hf h Hk. destruct (Hm h Hk) as (H1 & H2 & H3).
  unfold mbind, M_bind, bindM. destruct (m h) as [[a| |] h1]; cbn in *.
  - destruct (Hf a (H3 a eq_refl) h1 ltac:(lia)) as (G1 & G2 & G3).
    repeat split; [congruence|lia|exact G3].
  - repeat split; [exact H1|exact H2|discriminate].
  - repeat split; [exact H1|exact H2|discriminate].
Qed.

Lemma preserves_alloc k o : preserves k (alloc o) (fun r => (k <= r)%nat).
Proof.
  intros h Hk. unfold alloc. cbn. repeat split.
  - by rewrite take_app_le.
  - rewrite length_app. lia.
  - by intros a [= <-].
Qed.

Lemma preserves_get_board k r : preserves k (get_board r) (fun _ => True).
Proof.
  intros h Hk. unfold get_board. destruct (h !! r) as [[b|q]|]; cbn; repeat split; lia.
Qed.

Lemma preserves_get_position k r : preserves k (get_position r) (fun _ => True).
Proof.
  intros h Hk. unfold get_position. destruct (h !! r) as [[b|q]|]; cbn; repeat split; lia.
Qed.

Lemma preserves_set_board k r v :
  (k <= r)%nat -> preserves k (set_board r v) (fun _ => True).
Proof.
  intros Hr h Hk. unfold set_board.
  destruct (h !! r) as [[b|q]|]; cbn [fst snd]; repeat split; try lia.
  - by rewrite take_insert_ge.
  - by rewrite length_insert.
Qed.

Lemma preserves_floodfill k self c :
  preserves k (floodfill self c) (fun r => (k <= r)%nat).
Proof.
  unfold floodfill.
  eapply preserves_bind; [apply preserves_get_board|]. intros b _.
  eapply preserves_bind; [apply preserves_lift|]. intros fb _.
  apply preserves_alloc.
Qed.

Lemma preserves_swapcase k self :
  preserves k (swapcase self) (fun r => (k <= r)%nat).
Proof.
  unfold swapcase.
  eapply preserves_bind; [apply preserves_get_board|]. intros b _.
  apply preserves_alloc.
Qed.

Lemma preserves_board_put k self c p :
  preserves k (board_put self c p) (fun o => forall r, o = Some r -> (k <= r)%nat).
Proof.
  unfold board_put.
  eapply preserves_bind; [apply preserves_get_board|]. intros b _.
  destruct (Board.board_put b c p) as [b'|].
  - eapply preserves_bind; [apply preserves_alloc|]. intros r Hr.
    apply preserves_ret. by intros ? [= <-].
  - by apply preserves_ret.
Qed.

Lemma preserves_is_eyeish k self c : preserves k (is_eyeish self c) (fun _ => True).
Proof.
  unfold is_eyeish. eapply preserves_bind; [apply preserves_get_board|].
  intros b _. apply preserves_lift.
Qed.

Lemma preserves_contact k self p : preserves k (contact self p) (fun _ => True).
Proof.
  unfold contact. eapply preserves_bind; [apply preserves_get_board|].
  intros b _. apply preserves_lift.
Qed.

Lemma preserves_capture_loop k ds board : forall capt_X singlecaps,
  (k <= board)%nat ->
  preserves k (capture_loop ds board capt_X singlecaps) (fun _ => True).
Proof.
  induction ds as [|d ds IH]; intros capt_X singlecaps Hb; cbn [capture_loop].
  - by apply preserves_ret.
  - eapply preserves_bind; [apply preserves_get_board|]. intros b _.
    eapply preserves_bind; [apply preserves_lift|]. intros x _.
    destruct (negb _); [by apply IH|].
    eapply preserves_bind; [apply preserves_floodfill|]. intros fboard _.
    eapply preserves_bind; [apply preserves_contact|]. intros [l|] _; [by apply IH|].
    eapply preserves_bind; [apply preserves_get_board|]. intros fb _.
    eapply preserves_bind; [by apply preserves_set_board|]. intros _ _.
    by apply IH.
Qed.

Lemma preserves_move k self c :
  preserves k (move self c) (fun o => forall r, o = Some r -> (k <= r)%nat).
Proof.
  unfold move.
  eapply preserves_bind; [apply preserves_get_position|]. intros p _.
  destruct (Qeq_bool _ _); [by apply preserves_ret|].
  eapply preserves_bind; [apply preserves_is_eyeish|]. intros e _.
  eapply preserves_bind; [apply preserves_board_put|]. intros [board0|] Hb.
  - eapply preserves_bind; [apply preserves_capture_loop; by apply Hb|].
    intros [capt_X singlecaps] _.
    eapply preserves_bind; [apply preserves_floodfill|]. intros sfboard _.
    eapply preserves_bind; [apply preserves_contact|]. intros [l|] _.
    + eapply preserves_bind; [apply preserves_swapcase|]. intros sw _.
      eapply preserves_bind; [apply preserves_alloc|]. intros r Hr.
      apply preserves_ret. by intros ? [= <-].
    + by apply preserves_ret.
  - apply preserves_raise.
Qed.

Lemma preserves_pass_move k self :
  preserves k (pass_move self) (fun r => (k <= r)%nat).
Proof.
  unfold pass_move.
  eapply preserves_bind; [apply preserves_get_position|]. intros p _.
  eapply preserves_bind; [apply preserves_swapcase|]. intros sw _.
  apply preserves_alloc.
Qed.

End Frame.

(** C9. In the store of objects, [move], [pass_move], [floodfill],
    [swapcase] and [board_put] leave every object that exists at the call
    as it is: the receiver Position keeps its board reference, captures,
    n, ko, last, last2 and komi, the Board it refers to keeps its string,
    and each Board or Position that is returned is a new object. *)
Theorem receiver_unchanged (h : Obj.heap) (self : Obj.ref) (c : Z) (oc : option Z)
    (p : str) :
  (take (length h) (Obj.move self c h).2 = h /\
   forall r, (Obj.move self c h).1 = Ret (Some r) -> (length h <= r)%nat) /\
  (take (length h) (Obj.pass_move self h).2 = h /\
   forall r, (Obj.pass_move self h).1 = Ret r -> (length h <= r)%nat) /\
  (take (length h) (Obj.floodfill self c h).2 = h /\
   forall r, (Obj.floodfill self c h).1 = Ret r -> (length h <= r)%nat) /\
  (take (length h) (Obj.swapcase self h).2 = h /\
   forall r, (Obj.swapcase self h).1 = Ret r -> (length h <= r)%nat) /\
  (take (length h) (Obj.board_put self oc p h).2 = h /\
   forall r, (Obj.board_put self oc p h).1 = Ret (Some r) -> (length h <= r)%nat).
Proof.
  repeat apply conj.
  - destruct (preserves_move (length h) self c h (le_n _)) as (H & _ & _).
    by rewrite H, firstn_all.
  - intros r Hr.
    destruct (preserves_move (length h) self c h (le_n _)) as (_ & _ & H). eauto.
  - destruct (preserves_pass_move (length h) self h (le_n _)) as (H & _ & _).
    by rewrite H, firstn_all.
  - destruct (preserves_pass_move (length h) self h (le_n _)) as (_ & _ & H). eauto.
  - destruct (preserves_floodfill (length h) self c h (le_n _)) as (H & _ & _).
    by rewrite H, firstn_all.
  - destruct (preserves_floodfill (length h) self c h (le_n _)) as (_ & _ & H). eauto.
  - destruct (preserves_swapcase (length h) self h (le_n _)) as (H & _ & _).
    by rewrite H, firstn_all.
  - destruct (preserves_swapcase (length h) self h (le_n _)) as (_ & _ & H). eauto.
  - destruct (preserves_board_put (length h) self oc p h (le_n _)) as (H & _ & _).
    by rewrite H, firstn_all.
  - intros r Hr.
    destruct (preserves_board_put (length h) self oc p h (le_n _)) as (_ & _ & H). eauto.
Qed.

Lemma receiver_unchanged_witness :
  take 2 (Obj.move 1 100 start_heap).2 = start_heap /\ (2 <= 5)%nat.
Proof.
  split.
  - apply (receiver_unchanged start_heap 1 100 None []).
  - apply (proj2 (proj1 (receiver_unchanged start_heap 1 100 None [])) 5%nat).
    vm_compute. reflexivity.
Defined.

(** ** [tree_update] in either order *)

Section TreeUpdate.

Import Tree.

Lemma same_shape_refl st : same_shape st st.
Proof. by intros r. Qed.

Lemma same_shape_act st0 st a : same_shape st0 st -> same_shape st0 (act st a).
Proof.
  intros H r. rewrite (H r). destruct a as [i k|i k]; cbn [act];
    rewrite lookup_alter; case_decide; subst; try reflexivity;
    by destruct (st !! r).
Qed.

Lemma same_shape_apply acts : forall st0 st,
  same_shape st0 st -> same_shape st0 (apply acts st).
Proof.
  induction acts as [|a acts IH]; intros st0 st H; [exact H|].
  apply IH. by apply same_shape_act.
Qed.

Lemma get_same_shape st0 st r :
  same_shape st0 st ->
  match get st0 r, get st r with
  | Ret nd0, Ret nd => shape nd0 = shape nd
  | Raise e0, Raise e => e0 = e
  | _, _ => False
  end.
Proof.
  intros H. specialize (H r). unfold get.
  destruct (st0 !! r), (st !! r); cbn in H; congruence.
Qed.

Lemma apply_app acts more st : apply (acts ++ more) st = apply more (apply acts st).
Proof. apply foldl_app. Qed.

Lemma update_children_plan children amaf v score : forall st0 st,
  same_shape st0 st ->
  update_children children amaf v score st
  = (acts ← plan_children children amaf v score st0; Ret (apply acts st)).
Proof.
  induction children as [|child rest IH]; intros st0 st H; [reflexivity|].
  cbn [update_children plan_children].
  pose proof (get_same_shape st0 st child H) as Hg.
  destruct (get st0 child) as [ch0|e0|], (get st child) as [ch|e|];
    try contradiction.
  - cbn [mbind result_bind].
    injection Hg as Hpos _. rewrite Hpos.
    destruct (Position.last (TreeNode.pos ch)) as [l|]; [|by apply IH].
    destruct (getitem amaf l) as [a| |]; [|reflexivity..]. cbn [mbind result_bind].
    destruct (a =? v).
    + rewrite (IH st0) by (by apply (same_shape_act _ _ (AddAmaf child _))).
      by destruct (plan_children rest amaf v score st0).
    + rewrite (IH st0) by exact H.
      by destruct (plan_children rest amaf v score st0).
  - by subst.
Qed.

Lemma update_path_plan rnodes amaf : forall score st0 st,
  same_shape st0 st ->
  update_path rnodes amaf score st
  = (acts ← plan_path rnodes amaf score st0; Ret (apply acts st)).
Proof.
  induction rnodes as [|node rest IH]; intros score st0 st H; [reflexivity|].
  cbn [update_path plan_path].
  pose proof (get_same_shape st0 st node H) as Hg.
  destruct (get st0 node) as [nd0|e0|], (get st node) as [nd|e|];
    try contradiction; [|by subst].
  cbn [mbind result_bind]. injection Hg as Hpos Hch. rewrite Hpos, Hch.
  set (st1 := alter _ node st).
  assert (H1 : same_shape st0 st1) by apply (same_shape_act _ _ (AddW node _)), H.
  destruct (TreeNode.children nd) as [children|].
  - rewrite (update_children_plan _ _ _ _ st0 st1 H1).
    destruct (plan_children children amaf _ score st0) as [acts| |];
      [|reflexivity..].
    cbn [mbind result_bind].
    rewrite (IH _ st0) by (by apply same_shape_apply).
    destruct (plan_path rest amaf _ st0) as [more| |]; [|reflexivity..].
    cbn [mbind result_bind]. unfold apply. cbn [foldl act]. by rewrite foldl_app.
  - cbn [mbind result_bind]. rewrite (IH _ st0) by exact H1.
    by destruct (plan_path rest amaf _ st0).
Qed.

Lemma act_comm st a b : act (act st a) b = act (act st b) a.
Proof.
  destruct a as [i k|i k], b as [j m|j m]; cbn [act];
    rewrite (alter_alter _ _ st j i); case_decide as E; try reflexivity; subst;
    rewrite alter_alter_eq; apply alter_ext; intros nd _;
    unfold add_w, add_amaf; cbn; f_equal; lia.
Qed.

Lemma act_apply_comm acts : forall st a, apply acts (act st a) = act (apply acts st) a.
Proof.
  induction acts as [|b acts IH]; intros st a; [reflexivity|].
  cbn [apply foldl]. rewrite (act_comm st a b). apply IH.
Qed.

Lemma apply_comm acts : forall more st,
  apply more (apply acts st) = apply acts (apply more st).
Proof.
  induction acts as [|a acts IH]; intros more st; [reflexivity|].
  change (apply (a :: acts) st) with (apply acts (act st a)).
  change (apply (a :: acts) (apply more st)) with (apply acts (act (apply more st) a)).
  by rewrite IH, act_apply_comm.
Qed.

Lemma tree_update_plan nodes amaf score st0 st :
  same_shape st0 st ->
  tree_update nodes amaf score st
  = (acts ← plan_path (reverse nodes) amaf score st0; Ret (apply acts st)).
Proof. apply update_path_plan. Qed.

End TreeUpdate.

(** C8. On a store of tree nodes, two backups that both complete from the
    same tree complete in either order and leave the same store: every
    node has the same [w], [v], [aw] and [av] (and everything else). *)
Theorem tree_update_commutes (st st1 st2 : Tree.store)
    (nodes1 nodes2 : list TreeNode.ref) (amaf1 amaf2 : list Z) (score1 score2 : Q)
    (H1 : Tree.tree_update nodes1 amaf1 score1 st = Ret st1)
    (H2 : Tree.tree_update nodes2 amaf2 score2 st = Ret st2) :
  exists st',
    Tree.tree_update nodes2 amaf2 score2 st1 = Ret st' /\
    Tree.tree_update nodes1 amaf1 score1 st2 = Ret st'.
Proof.
  rewrite (tree_update_plan nodes1 _ _ st st (same_shape_refl st)) in H1.
  rewrite (tree_update_plan nodes2 _ _ st st (same_shape_refl st)) in H2.
  destruct (Tree.plan_path (reverse nodes1) amaf1 score1 st) as [acts1| |] eqn:E1;
    [|discriminate..].
  destruct (Tree.plan_path (reverse nodes2) amaf2 score2 st) as [acts2| |] eqn:E2;
    [|discriminate..].
  cbn [mbind result_bind] in H1, H2. injection H1 as <-. injection H2 as <-.
  exists (Tree.apply acts2 (Tree.apply acts1 st)). split.
  - rewrite (tree_update_plan _ _ _ st) by apply same_shape_apply, same_shape_refl.
    by rewrite E2.
  - rewrite (tree_update_plan _ _ _ st) by apply same_shape_apply, same_shape_refl.
    rewrite E1. cbn [mbind result_bind]. by rewrite apply_comm.
Qed.

Lemma tree_update_commutes_witness :
  exists st1 st2 st',
    Tree.tree_update [0%nat; 1%nat] (amaf_black_at 100) (35 # 10) sample_tree = Ret st1 /\
    Tree.tree_update [0%nat; 2%nat] (amaf_black_at 101) (- (15 # 10)) sample_tree = Ret st2 /\
    Tree.tree_update [0%nat; 2%nat] (amaf_black_at 101) (- (15 # 10)) st1 = Ret st' /\
    Tree.tree_update [0%nat; 1%nat] (amaf_black_at 100) (35 # 10) st2 = Ret st'.
Proof.
  assert (H1 : exists st1,
    Tree.tree_update [0%nat; 1%nat] (amaf_black_at 100) (35 # 10) sample_tree = Ret st1)
    by (eexists; vm_compute; reflexivity).
  assert (H2 : exists st2,
    Tree.tree_update [0%nat; 2%nat] (amaf_black_at 101) (- (15 # 10)) sample_tree = Ret st2)
    by (eexists; vm_compute; reflexivity).
  destruct H1 as [st1 H1], H2 as [st2 H2].
  destruct (tree_update_commutes _ _ _ _ _ _ _ _ _ H1 H2) as (st' & Ha & Hb).
  exists st1, st2, st'. auto.
Defined.

(** ** [tree_update] keeps the nodes among those the engine creates *)

Section TreeUpdateWrites.

Import Tree.

Lemma plan_children_counting children amaf v score st : forall acts,
  plan_children children amaf v score st = Ret acts -> Forall counting acts.
Proof.
  induction children as [|child rest IH]; intros acts; cbn [plan_children].
  - intros [= <-]. constructor.
  - destruct (get st child) as [ch| |]; [|discriminate..]. cbn [mbind result_bind].
    destruct (Position.last (TreeNode.pos ch)) as [l|]; [|apply IH].
    destruct (getitem amaf l) as [a| |]; [|discriminate..]. cbn [mbind result_bind].
    destruct (plan_children rest amaf v score st) as [more| |]; [|discriminate..].
    cbn [mbind result_bind]. intros [= <-]. specialize (IH more eq_refl).
    destruct (a =? v); [|exact IH]. constructor; [|exact IH]. cbn. eauto.
Qed.

Lemma plan_path_counting rnodes amaf st : forall score acts,
  plan_path rnodes amaf score st = Ret acts -> Forall counting acts.
Proof.
  induction rnodes as [|node rest IH]; intros score acts; cbn [plan_path].
  - intros [= <-]. constructor.
  - destruct (get st node) as [nd| |]; [|discriminate..]. cbn [mbind result_bind].
    assert (Hch : forall l,
      match TreeNode.children nd with
      | Some children =>
          plan_children children amaf
            (if Position.n (TreeNode.pos nd) mod 2 =? 0 then 1 else -1) score st
      | None => Ret []
      end = Ret l -> Forall counting l).
    { intros l. destruct (TreeNode.children nd).
      - apply plan_children_counting.
      - intros [= <-]. constructor. }
    destruct (match TreeNode.children nd with Some _ => _ | None => _ end)
      as [l| |]; [|discriminate..].
    cbn [mbind result_bind].
    destruct (plan_path rest amaf (- score) st) as [more| |] eqn:E; [|discriminate..].
    cbn [mbind result_bind]. intros [= <-].
    constructor; [cbn; eauto|]. apply Forall_app. split; [by apply Hch|by eapply IH].
Qed.

Lemma act_created st a :
  counting a -> map_Forall (fun _ nd => TreeNode.created nd) st ->
  map_Forall (fun _ nd => TreeNode.created nd) (act st a).
Proof.
  intros Ha Hst r nd'. destruct a as [i k|i k]; destruct Ha as [b ->]; cbn [act];
    rewrite lookup_alter; case_decide as E; try apply Hst; subst;
    destruct (st !! r) as [nd|] eqn:Er; try discriminate; intros [= <-];
    (eapply TreeNode.created_write; [by eapply Hst|]).
  - apply (TreeNode.w_win nd b).
  - apply (TreeNode.w_amaf nd b).
Qed.

Lemma apply_created acts : forall st,
  Forall counting acts -> map_Forall (fun _ nd => TreeNode.created nd) st ->
  map_Forall (fun _ nd => TreeNode.created nd) (apply acts st).
Proof.
  induction acts as [|a acts IH]; intros st Ha Hst; [exact Hst|].
  apply Forall_cons in Ha as [Ha Hacts]. apply IH; [exact Hacts|]. by apply act_created.
Qed.

(** A backup on a tree of nodes the engine created leaves such a tree. *)
Lemma tree_update_created nodes amaf score st st' :
  map_Forall (fun _ nd => TreeNode.created nd) st ->
  tree_update nodes amaf score st = Ret st' ->
  map_Forall (fun _ nd => TreeNode.created nd) st'.
Proof.
  intros Hst. rewrite (tree_update_plan nodes amaf score st st (same_shape_refl st)).
  destruct (plan_path (reverse nodes) amaf score st) as [acts| |] eqn:E; [|discriminate..].
  cbn [mbind result_bind]. intros [= <-]. apply apply_created; [|exact Hst].
  by eapply plan_path_counting.
Qed.

End TreeUpdateWrites.

(** ** [rave_urgency] never divides by zero *)

Lemma div_returns x y : (0 < y)%Q -> TreeNode.div x y = Ret (x / y)%Q.
Proof.
  intros Hy. unfold TreeNode.div.
  destruct (Qeq_bool y 0) eqn:E; [|reflexivity].
  apply Qeq_bool_eq in E. rewrite E in Hy. by apply Qlt_irrefl in Hy.
Qed.

Lemma inject_Z_nonneg k : 0 <= k -> (0 <= inject_Z k)%Q.
Proof. intros H. change 0%Q with (inject_Z 0). by rewrite <- Zle_Qle. Qed.

Lemma write_counters_ok nd nd' :
  TreeNode.write nd nd' -> counters_ok nd -> counters_ok nd'.
Proof.
  intros Hw (Hv & Hpv & Hav). destruct Hw as [nd k both Hk|nd q Hq|nd l|nd|nd won|nd won];
    unfold counters_ok; cbn; repeat split; try assumption; try lia.
  - assert (0 <= k).
    { revert Hk. unfold TreeNode.PRIOR_CFG. cbn [app].
      rewrite !elem_of_cons, elem_of_nil.
      intros H; repeat (destruct H as [->|H]; [discriminate|]). destruct H. }
    assert (0 <= inject_Z k)%Q by (by apply inject_Z_nonneg).
    rewrite <- (Qplus_0_r (inject_Z TreeNode.PRIOR_EVEN)).
    by apply Qplus_le_compat.
  - rewrite <- (Qplus_0_r (inject_Z TreeNode.PRIOR_EVEN)).
    apply Qplus_le_compat; [exact Hpv|].
    apply Qmult_le_0_compat; [exact Hq|discriminate].
Qed.

Lemma created_counters_ok nd : TreeNode.created nd -> counters_ok nd.
Proof.
  induction 1 as [pos|nd nd' _ IH Hw].
  - unfold counters_ok. cbn. repeat split; try lia. apply Qle_refl.
  - by eapply write_counters_ok.
Qed.

(** C10. On every node the engine creates, [v >= 0], [pv >= PRIOR_EVEN = 10]
    and [av >= 0], so the divisor [v + pv] is positive and [rave_urgency]
    returns a value; with [av = 0] it returns the expectation and divides
    by nothing else, so the AMAF ratio and the beta denominator are reached
    only with [av != 0], where they are positive. *)
Theorem rave_urgency_total (RAVE_EQUIV : Q) (nd : TreeNode.t)
    (HR : (0 < RAVE_EQUIV)%Q) (Hnd : TreeNode.created nd) :
  (0 < inject_Z (TreeNode.v nd) + TreeNode.pv nd)%Q /\
  returns (TreeNode.rave_urgency RAVE_EQUIV nd) /\
  (TreeNode.av nd = 0 ->
   TreeNode.rave_urgency RAVE_EQUIV nd
   = Ret ((inject_Z (TreeNode.w nd) + TreeNode.pw nd)
          / (inject_Z (TreeNode.v nd) + TreeNode.pv nd))%Q).
Proof.
  destruct (created_counters_ok nd Hnd) as (Hv & Hpv & Hav).
  assert (Hpos : (0 < inject_Z (TreeNode.v nd) + TreeNode.pv nd)%Q).
  { apply Qlt_le_trans with (0 + inject_Z TreeNode.PRIOR_EVEN)%Q; [reflexivity|].
    apply Qplus_le_compat; [|exact Hpv]. by apply inject_Z_nonneg. }
  split; [exact Hpos|].
  unfold returns, TreeNode.rave_urgency.
  rewrite (div_returns _ _ Hpos). cbn [mbind result_bind].
  destruct (TreeNode.av nd =? 0) eqn:E.
  - split; [eauto|reflexivity].
  - split; [|intros H0; rewrite H0 in E; discriminate].
    apply Z.eqb_neq in E.
    assert (Hav' : (0 < inject_Z (TreeNode.av nd))%Q).
    { change 0%Q with (inject_Z 0). rewrite <- Zlt_Qlt. lia. }
    rewrite (div_returns _ _ Hav'). cbn [mbind result_bind].
    rewrite (div_returns _ _ HR). cbn [mbind result_bind].
    rewrite div_returns; [cbn [mbind result_bind]; eauto|].
    apply Qlt_le_trans with (inject_Z (TreeNode.av nd) + 0 + 0)%Q.
    { by rewrite !Qplus_0_r. }
    repeat apply Qplus_le_compat; [apply Qle_refl|by apply Qlt_le_weak|].
    apply Qle_shift_div_l; [exact HR|]. rewrite Qmult_0_l.
    apply Qmult_le_0_compat; by apply Qlt_le_weak.
Qed.

Lemma rave_urgency_total_witness :
  returns
    (TreeNode.rave_urgency 3500
       (TreeNode.mk Position.empty_position (0 + 1) 0 (inject_Z TreeNode.PRIOR_EVEN)
          (inject_Z TreeNode.PRIOR_EVEN / 2) 0 0 None)).
Proof.
  apply (rave_urgency_total 3500
           (TreeNode.mk Position.empty_position (0 + 1) 0 (inject_Z TreeNode.PRIOR_EVEN)
              (inject_Z TreeNode.PRIOR_EVEN / 2) 0 0 None)).
  - reflexivity.
  - apply (TreeNode.created_write (TreeNode.init Position.empty_position)).
    + apply TreeNode.created_init.
    + apply (TreeNode.w_visit (TreeNode.init Position.empty_position)).
Defined.

(** ** [floodfill] marks the group of its starting cell *)

Section FloodFillComponent.

Variables (b0 : str) (p : ascii) (c : Z).
Hypothesis Hlen : length b0 = Z.to_nat Board.W2.
Hypothesis Hrim : rim b0.
Hypothesis Hc : 0 <= c.
Hypothesis Hstart : b0 !! Z.to_nat c = Some p.
Hypothesis Hsp : isspace p = false.
Hypothesis Hp : p <> "#".

Lemma component_holds d : component b0 p c d -> 0 <= d /\ b0 !! Z.to_nat d = Some p.
Proof. induction 1; auto. Qed.

Lemma component_on_board d : component b0 p c d -> on_board d.
Proof.
  intros [Hd Hx]%component_holds.
  pose proof (rim_on_board b0 _ p Hlen Hrim Hx Hsp) as Hon. by rewrite Z2Nat.id in Hon.
Qed.

Lemma fills_marker bb bb' (k : nat) :
  fills p bb bb' -> bb !! k = Some "#" -> bb' !! k = Some "#".
Proof. intros [_ Hf] Hk. destruct (Hf k) as [E|[_ E]]; congruence. Qed.

Lemma marked_fills bb bb' k : fills p bb bb' -> marked b0 p bb k -> marked b0 p bb' k.
Proof. intros Hf [H1 H2]. split; [exact H1|by eapply fills_marker]. Qed.

Lemma fills_from_start bb (k : nat) :
  fills p b0 bb -> b0 !! k = Some p -> bb !! k = Some p \/ bb !! k = Some "#".
Proof. intros [_ Hf] Hk. destruct (Hf k) as [E|[_ E]]; [left|right]; congruence. Qed.

Lemma fill_neighbors_marks k ds : forall bb fringe bb' fringe',
  fills p b0 bb -> component b0 p c (Z.of_nat k) ->
  Forall (fun d => 0 <= d < Board.W2 /\ d ∈ Board.neighbors (Z.of_nat k)) ds ->
  Board.fill_neighbors p ds bb fringe = Ret (bb', fringe') ->
  fills p b0 bb' /\ fills p bb bb' /\
  (forall d, d ∈ ds -> b0 !! Z.to_nat d = Some p -> bb' !! Z.to_nat d = Some "#") /\
  exists new,
    fringe' = new ++ fringe /\ Forall (fringe_ok b0 p c bb') new /\
    forall j : nat, bb' !! j = Some "#" -> bb !! j = Some "#" \/ Z.of_nat j ∈ new.
Proof.
  induction ds as [|d ds IH]; intros bb fringe bb' fringe' Hf Hk Hds;
    cbn [Board.fill_neighbors].
  - intros [= <- <-]. split; [exact Hf|]. split; [apply fills_refl|].
    split; [intros d Hd; by apply elem_of_nil in Hd|].
    exists []. split; [reflexivity|]. split; [constructor|]. auto.
  - apply Forall_cons in Hds as [[Hd Hn] Hds].
    assert (Hbl : length bb = Z.to_nat Board.W2) by (destruct Hf as [-> _]; exact Hlen).
    destruct (lookup_lt_is_Some_2 bb (Z.to_nat d)) as [x Hx]; [rewrite Hbl; lia|].
    assert (Hg : getitem bb d = Ret x).
    { apply getitem_Ret. exists (Z.to_nat d). split; [|exact Hx].
      apply index_of_nonneg. rewrite Hbl. lia. }
    rewrite Hg. cbn [mbind result_bind].
    destruct (Ascii.eqb_spec x p) as [->|Hne].
    + assert (Hs : setitem bb d "#" = Ret (<[Z.to_nat d := "#"]> bb)).
      { apply setitem_Ret. exists (Z.to_nat d). split; [|reflexivity].
        apply index_of_nonneg. rewrite Hbl. lia. }
      rewrite Hs. cbn [mbind result_bind]. intros H.
      assert (Hf1 : fills p bb (<[Z.to_nat d := "#"]> bb)) by (by apply fills_insert).
      assert (Hd0 : b0 !! Z.to_nat d = Some p).
      { destruct Hf as [_ Hf]. destruct (Hf (Z.to_nat d)) as [E|[E E']]; congruence. }
      destruct (IH _ _ _ _ (fills_trans _ _ _ _ Hf Hf1) Hk Hds H)
        as (Hf' & Hf2 & Hall & new & -> & Hnew & Hback).
      split; [exact Hf'|]. split; [by eapply fills_trans|]. split.
      * intros d' [->|Hd']%elem_of_cons E.
        -- eapply fills_marker; [exact Hf2|]. apply list_lookup_insert_eq. rewrite Hbl. lia.
        -- by apply Hall.
      * exists (new ++ [d]). split; [by rewrite <- app_assoc|]. split.
        -- apply Forall_app. split; [exact Hnew|]. constructor; [|constructor].
           assert (Hcomp : component b0 p c d).
           { eapply component_step; [exact Hk|exact Hn|lia|exact Hd0]. }
           split; [by apply component_on_board|]. split; [exact Hcomp|].
           split; [exact Hd0|]. eapply fills_marker; [exact Hf2|].
           apply list_lookup_insert_eq. rewrite Hbl. lia.
        -- intros j Hj. destruct (Hback j Hj) as [E|E].
           ++ destruct (decide (j = Z.to_nat d)) as [->|Hjd].
              ** right. apply elem_of_app. right. apply list_elem_of_singleton. lia.
              ** left. by rewrite list_lookup_insert_ne in E.
           ++ right. apply elem_of_app. by left.
    + intros H.
      destruct (IH _ _ _ _ Hf Hk Hds H) as (Hf' & Hf2 & Hall & new & -> & Hnew & Hback).
      split; [exact Hf'|]. split; [exact Hf2|]. split.
      * intros d' [->|Hd']%elem_of_cons E; [|by apply Hall].
        destruct (fills_from_start bb _ Hf E) as [E'|E']; [congruence|].
        by eapply fills_marker.
      * exists new. auto.
Qed.

Lemma fill_loop_component fuel : forall bb fringe bb',
  fills p b0 bb -> Forall (fringe_ok b0 p c bb) fringe ->
  (forall k, marked b0 p bb k -> component b0 p c (Z.of_nat k)) ->
  (forall k, marked b0 p bb k -> Z.of_nat k ∈ fringe \/ closed_at b0 p bb k) ->
  Board.fill_loop fuel p bb fringe = Ret bb' ->
  fills p b0 bb' /\
  (forall k, marked b0 p bb' k -> component b0 p c (Z.of_nat k)) /\
  (forall k, marked b0 p bb' k -> closed_at b0 p bb' k).
Proof.
  induction fuel as [|fuel IH]; intros bb [|c1 fringe] bb' Hf Hfr Hsound Hclosed;
    cbn [Board.fill_loop]; try discriminate.
  - intros [= <-]. split; [exact Hf|]. split; [exact Hsound|].
    intros k Hk. destruct (Hclosed k Hk) as [E|E]; [by apply elem_of_nil in E|exact E].
  - intros [= <-]. split; [exact Hf|]. split; [exact Hsound|].
    intros k Hk. destruct (Hclosed k Hk) as [E|E]; [by apply elem_of_nil in E|exact E].
  - apply Forall_cons in Hfr as [(Hon & Hcomp & Hm) Hfr].
    assert (Hc1 : 0 <= c1) by (unfold on_board, Board.W in Hon; unfold Board.N in Hon; lia).
    destruct (Board.fill_neighbors _ _ _ _) as [[bb1 fringe1]| |] eqn:E; [|discriminate..].
    cbn [mbind result_bind]. intros H.
    rewrite <- (Z2Nat.id c1 Hc1) in E, Hcomp.
    assert (Hds : Forall (fun d => 0 <= d < Board.W2 /\
                                   d ∈ Board.neighbors (Z.of_nat (Z.to_nat c1)))
                    (Board.neighbors (Z.of_nat (Z.to_nat c1)))).
    { apply Forall_forall. intros d Hd. split; [|exact Hd].
      pose proof (neighbors_in_range c1 Hon) as Hr. rewrite Z2Nat.id in Hd by lia.
      rewrite Forall_forall in Hr. by apply Hr. }
    destruct (fill_neighbors_marks _ _ _ _ _ _ Hf Hcomp Hds E)
      as (Hf1 & Hf2 & Hall & new & -> & Hnew & Hback).
    apply (IH bb1 (new ++ fringe) bb' Hf1); [| | |exact H].
    + apply Forall_app. split; [exact Hnew|].
      eapply Forall_impl; [exact Hfr|]. intros d (? & ? & ?).
      split; [assumption|]. split; [assumption|]. by eapply marked_fills.
    + intros k [Hk0 Hk1]. destruct (Hback k Hk1) as [E1|E1].
      * apply Hsound. by split.
      * rewrite Forall_forall in Hnew. by destruct (Hnew _ E1) as (_ & ? & _).
    + intros k [Hk0 Hk1]. destruct (Hback k Hk1) as [E1|E1].
      * destruct (Hclosed k (conj Hk0 E1)) as [[Ek|Hin]%elem_of_cons|Hcl].
        -- right. intros d Hd Hd0 Hdp. apply Hall; [|exact Hdp].
           by rewrite <- Ek, Nat2Z.id.
        -- left. apply elem_of_app. by right.
        -- right. intros d Hd Hd0 Hdp. eapply fills_marker; [exact Hf2|]. by apply Hcl.
      * left. apply elem_of_app. by left.
Qed.

Lemma floodfill_component_aux :
  exists fb, Board.floodfill (Board.mk b0) c = Ret fb /\
    length (Board.board fb) = length b0 /\
    forall k : nat,
      (component b0 p c (Z.of_nat k) -> Board.board fb !! k = Some "#") /\
      (~ component b0 p c (Z.of_nat k) -> Board.board fb !! k = b0 !! k) /\
      (Board.board fb !! k = Some "#" -> b0 !! k <> Some "#" ->
       component b0 p c (Z.of_nat k)).
Proof.
  destruct (floodfill_returns b0 c p Hlen Hrim Hc Hstart Hsp Hp) as (fb & Hfb & Hfills).
  exists fb. split; [exact Hfb|]. split; [by destruct Hfills|].
  assert (Hg : getitem b0 c = Ret p) by (by apply getitem_nonneg).
  pose proof Hfb as Hrun. unfold Board.floodfill in Hrun. cbn [Board.board] in Hrun.
  rewrite Hg in Hrun. cbn [mbind result_bind] in Hrun.
  assert (Hs : setitem b0 c "#" = Ret (<[Z.to_nat c := "#"]> b0)).
  { apply setitem_Ret. exists (Z.to_nat c). split; [|reflexivity].
    apply index_of_nonneg. apply lookup_lt_Some in Hstart. lia. }
  rewrite Hs in Hrun. cbn [mbind result_bind] in Hrun.
  destruct (Board.fill_loop _ _ _ _) as [bb'| |] eqn:E; [|discriminate..].
  cbn [mbind result_bind] in Hrun.
  assert (Hcl : (Z.to_nat c < length b0)%nat) by (by eapply lookup_lt_Some).
  assert (Hself : component b0 p c c) by constructor.
  assert (Hin : <[Z.to_nat c := "#"]> b0 !! Z.to_nat c = Some "#")
    by (by apply list_lookup_insert_eq).
  assert (H1 : Forall (fringe_ok b0 p c (<[Z.to_nat c := "#"]> b0)) [c]).
  { constructor; [|constructor]. split; [by apply component_on_board|].
    split; [exact Hself|]. by split. }
  assert (H2 : forall k, marked b0 p (<[Z.to_nat c := "#"]> b0) k ->
                         component b0 p c (Z.of_nat k)).
  { intros k [Hk0 Hk1]. destruct (decide (k = Z.to_nat c)) as [->|Hne].
    - by rewrite Z2Nat.id by lia.
    - rewrite list_lookup_insert_ne in Hk1 by done. congruence. }
  assert (H3 : forall k, marked b0 p (<[Z.to_nat c := "#"]> b0) k ->
                         Z.of_nat k ∈ [c] \/ closed_at b0 p (<[Z.to_nat c := "#"]> b0) k).
  { intros k [Hk0 Hk1]. destruct (decide (k = Z.to_nat c)) as [->|Hne].
    - left. rewrite Z2Nat.id by lia. by apply list_elem_of_singleton.
    - rewrite list_lookup_insert_ne in Hk1 by done. congruence. }
  destruct (fill_loop_component _ _ _ _ (fills_insert p b0 _ Hstart) H1 H2 H3 E)
    as (Hf & Hsound & Hclosed).
  assert (Hbb : Board.board fb = bb').
  { assert (Hne : bb' <> []).
    { eapply fills_nonempty; [exact Hf|]. intros Hb. by rewrite Hb in Hstart. }
    rewrite init_nonempty in Hrun by exact Hne. by injection Hrun as <-. }
  rewrite Hbb.
  assert (Hmark : forall d, component b0 p c d -> bb' !! Z.to_nat d = Some "#").
  { induction 1 as [|k d Hk IHk Hd Hd0 Hdp].
    - eapply fills_marker; [eapply fill_loop_fills; [exact Hp|exact E]|].
      by apply list_lookup_insert_eq.
    - apply component_holds in Hk as [Hk0 Hkp].
      apply (Hclosed (Z.to_nat k)); [by split| |exact Hd0|exact Hdp].
      by rewrite Z2Nat.id. }
  intros k. split; [|split].
  - intros Hk. specialize (Hmark _ Hk). by rewrite Nat2Z.id in Hmark.
  - intros Hk. destruct Hf as [_ Hf]. destruct (Hf k) as [E1|[E1 E2]]; [exact E1|].
    exfalso. apply Hk. apply Hsound. by split.
  - intros Hk Hnot. destruct Hf as [_ Hf]. destruct (Hf k) as [E1|[E1 E2]].
    + exfalso. apply Hnot. by rewrite <- E1.
    + apply Hsound. by split.
Qed.

End FloodFillComponent.

(** X1. On a board of W * W cells with a blank rim, [floodfill] from a cell
    [c] that holds a point or a stone [p] returns, keeps the length of the
    board, turns exactly the cells of the group of [c] (the cells holding
    [p] that a chain of neighbours holding [p] joins to [c]) into the
    marker, and leaves every other cell as it was: a cell that holds the
    marker afterwards and did not before is a cell of the group. *)
Theorem floodfill_marks_component (b : str) (p : ascii) (c : Z)
    (Hlen : length b = Z.to_nat Board.W2) (Hrim : rim b) (Hc : 0 <= c)
    (Hstart : b !! Z.to_nat c = Some p) (Hsp : isspace p = false) (Hp : p <> "#") :
  exists fb, Board.floodfill (Board.mk b) c = Ret fb /\
    length (Board.board fb) = length b /\
    forall k : nat,
      (component b p c (Z.of_nat k) -> Board.board fb !! k = Some "#") /\
      (~ component b p c (Z.of_nat k) -> Board.board fb !! k = b !! k) /\
      (Board.board fb !! k = Some "#" -> b !! k <> Some "#" ->
       component b p c (Z.of_nat k)).
Proof.
  destruct (floodfill_component_aux b p c Hlen Hrim Hc Hstart Hsp Hp)
    as (fb & Hrun & Hl & Hcells).
  exists fb. split; [exact Hrun|]. split; [exact Hl|exact Hcells].
Qed.

Lemma rim_empty : rim Board.empty.
Proof. destruct playable_empty as (_ & _ & H & _). exact H. Qed.

Lemma floodfill_marks_component_witness :
  exists fb, Board.floodfill (Board.mk Board.empty) 16 = Ret fb /\
    length (Board.board fb) = length Board.empty /\
    forall k : nat,
      (component Board.empty "." 16 (Z.of_nat k) -> Board.board fb !! k = Some "#") /\
      (~ component Board.empty "." 16 (Z.of_nat k) ->
       Board.board fb !! k = Board.empty !! k) /\
      (Board.board fb !! k = Some "#" -> Board.empty !! k <> Some "#" ->
       component Board.empty "." 16 (Z.of_nat k)).
Proof.
  apply (floodfill_marks_component Board.empty "." 16).
  - reflexivity.
  - exact rim_empty.
  - lia.
  - reflexivity.
  - reflexivity.
  - discriminate.
Defined.

(** ** [contact] finds a cell next to the marker *)

Lemma contact_search_sound p l : forall i j,
  p <> "#" ->
  Board.contact_search p l i = Some j ->
  exists k : nat,
    j = i + Z.of_nat k /\ l !! k = Some p /\
    (l !! S k = Some "#" \/ l !! (k + 15)%nat = Some "#" \/
     (exists k', k = S k' /\ l !! k' = Some "#") \/
     (exists k', k = (k' + 15)%nat /\ l !! k' = Some "#")).
Proof.
  induction l as [|a t IH]; intros i j Hp; cbn [Board.contact_search]; [discriminate|].
  change (Z.to_nat (Board.W - 1)) with 14%nat.
  assert (Hrest : Board.contact_search p t (i + 1) = Some j ->
    exists k : nat,
      j = i + Z.of_nat k /\ (a :: t) !! k = Some p /\
      ((a :: t) !! S k = Some "#" \/ (a :: t) !! (k + 15)%nat = Some "#" \/
       (exists k', k = S k' /\ (a :: t) !! k' = Some "#") \/
       (exists k', k = (k' + 15)%nat /\ (a :: t) !! k' = Some "#"))).
  { intros H. destruct (IH _ _ Hp H) as (k & -> & Hk & Hadj). exists (S k).
    split; [lia|]. split; [exact Hk|].
    destruct Hadj as [H1|[H1|[(k' & -> & H1)|(k' & -> & H1)]]].
    - by left.
    - right. by left.
    - right. right. left. by exists (S k').
    - right. right. right. by exists (S k'). }
  destruct (Ascii.eqb_spec a "#") as [->|Ha].
  - case_bool_decide as E1.
    + intros [= <-]. exists 1%nat. split; [lia|]. split; [exact E1|].
      right. right. left. by exists 0%nat.
    + case_bool_decide as E2; [|exact Hrest].
      intros [= <-]. exists 15%nat. split; [reflexivity|]. split; [exact E2|].
      right. right. right. by exists 0%nat.
  - destruct (Ascii.eqb_spec a p) as [->|Hap]; [|exact Hrest].
    destruct (bool_decide (t !! 0%nat = Some "#") || bool_decide (t !! 14%nat = Some "#"))
      eqn:E; [|exact Hrest].
    intros [= <-]. exists 0%nat. split; [lia|]. split; [reflexivity|].
    apply orb_true_iff in E as [E%bool_decide_eq_true|E%bool_decide_eq_true].
    + by left.
    + right. by left.
Qed.

Lemma contact_search_complete p l : forall i,
  p <> "#" ->
  Board.contact_search p l i = None ->
  forall j d : nat, l !! j = Some p -> l !! d = Some "#" ->
    d <> S j /\ j <> S d /\ d <> (j + 15)%nat /\ j <> (d + 15)%nat.
Proof.
  induction l as [|a t IH]; intros i Hp; cbn [Board.contact_search].
  - intros _ j d Hj. by rewrite lookup_nil in Hj.
  - change (Z.to_nat (Board.W - 1)) with 14%nat.
    assert (Hrest : forall j d : nat,
              Board.contact_search p t (i + 1) = None ->
              t !! j = Some p -> t !! d = Some "#" ->
              S d <> S (S j) /\ S j <> S (S d) /\
              S d <> (S j + 15)%nat /\ S j <> (S d + 15)%nat).
    { intros j d H Hj Hd. destruct (IH _ Hp H j d Hj Hd) as (? & ? & ? & ?). lia. }
    destruct (Ascii.eqb_spec a "#") as [->|Ha].
    + case_bool_decide as E1; [discriminate|].
      case_bool_decide as E2; [discriminate|].
      intros H [|j] [|d] Hj Hd; cbn in Hj, Hd.
      * congruence.
      * congruence.
      * repeat split; try lia; intros [= ->]; [apply E1|apply E2]; exact Hj.
      * by apply Hrest.
    + destruct (Ascii.eqb_spec a p) as [->|Hap].
      * destruct (bool_decide (t !! 0%nat = Some "#") || bool_decide (t !! 14%nat = Some "#"))
          eqn:E; [discriminate|].
        apply orb_false_iff in E as [E1%bool_decide_eq_false E2%bool_decide_eq_false].
        intros H [|j] [|d] Hj Hd; cbn in Hj, Hd.
        -- congruence.
        -- repeat split; try lia; intros [= ->]; [apply E1|apply E2]; exact Hd.
        -- congruence.
        -- by apply Hrest.
      * intros H [|j] [|d] Hj Hd; cbn in Hj, Hd; try congruence.
        by apply Hrest.
Qed.

(** X2. [contact(p)] for [p] one of ".", "x", "X": an index it returns
    holds [p] and has the marker at distance 1 or W in the board string;
    it returns none only when no cell that holds [p] has the marker at
    distance 1 or W. Any other [p] raises [KeyError]. *)
Theorem contact_adjacent (b : Board.t) (p : ascii) :
  if bool_decide (p ∈ ["."; "x"; "X"]) then
    exists r, Board.contact b p = Ret r /\
      match r with
      | Some j =>
          0 <= j /\ Board.board b !! Z.to_nat j = Some p /\
          exists d, d ∈ Board.neighbors j /\ 0 <= d /\
                    Board.board b !! Z.to_nat d = Some "#"
      | None =>
          forall j d : nat,
            Board.board b !! j = Some p -> Board.board b !! d = Some "#" ->
            Z.of_nat d ∉ Board.neighbors (Z.of_nat j)
      end
  else Board.contact b p = Raise KeyError.
Proof.
  case_bool_decide as Hk; unfold Board.contact.
  - assert (Hp : p <> "#").
    { intros ->. revert Hk. rewrite !elem_of_cons, elem_of_nil.
      intros [H|[H|[H|[]]]]; discriminate. }
    assert (Hkey : Ascii.eqb p "." || Ascii.eqb p "x" || Ascii.eqb p "X" = true).
    { revert Hk. rewrite !elem_of_cons, elem_of_nil.
      intros [->|[->|[->|[]]]]; reflexivity. }
    rewrite Hkey. eexists. split; [reflexivity|].
    destruct (Board.contact_search p (Board.board b) 0) as [j|] eqn:E.
    + destruct (contact_search_sound _ _ _ _ Hp E) as (k & -> & Hkp & Hadj).
      rewrite Z.add_0_l, Nat2Z.id. split; [lia|]. split; [exact Hkp|].
      unfold Board.neighbors. change Board.W with 15.
      destruct Hadj as [H1|[H1|[(k' & -> & H1)|(k' & -> & H1)]]].
      * exists (Z.of_nat k + 1). split; [rewrite !elem_of_cons; lia|]. split; [lia|].
        by replace (Z.to_nat (Z.of_nat k + 1)) with (S k) by lia.
      * exists (Z.of_nat k + 15). split; [rewrite !elem_of_cons; lia|]. split; [lia|].
        by replace (Z.to_nat (Z.of_nat k + 15)) with (k + 15)%nat by lia.
      * exists (Z.of_nat (S k') - 1). split; [rewrite !elem_of_cons; lia|]. split; [lia|].
        by replace (Z.to_nat (Z.of_nat (S k') - 1)) with k' by lia.
      * exists (Z.of_nat (k' + 15) - 15). split; [rewrite !elem_of_cons; lia|]. split; [lia|].
        by replace (Z.to_nat (Z.of_nat (k' + 15)%nat - 15)) with k' by lia.
    + intros j d Hj Hd.
      destruct (contact_search_complete _ _ _ Hp E j d Hj Hd) as (H1 & H2 & H3 & H4).
      unfold Board.neighbors. change Board.W with 15.
      rewrite !elem_of_cons, elem_of_nil. lia.
  - assert (Hkey : Ascii.eqb p "." || Ascii.eqb p "x" || Ascii.eqb p "X" = false).
    { apply not_true_is_false. intros H. apply Hk.
      rewrite !elem_of_cons.
      apply orb_true_iff in H as [H|H%Ascii.eqb_eq]; [|tauto].
      apply orb_true_iff in H as [H%Ascii.eqb_eq|H%Ascii.eqb_eq]; tauto. }
    by rewrite Hkey.
Qed.

(** ** [is_eyeish] on the board alphabet *)

Lemma cell_ok_cases a :
  cell_ok a = true -> a = "." \/ a = "X" \/ a = "x" \/ isspace a = true.
Proof.
  unfold cell_ok. rewrite !orb_true_iff.
  intros [[[H%Ascii.eqb_eq|H%Ascii.eqb_eq]|H%Ascii.eqb_eq]|H]; auto.
Qed.

Lemma eyeish_loop_spec (b : str) ds : forall acc,
  clean b ->
  Forall (fun d => 0 <= d < Z.of_nat (length b)) ds ->
  acc = None \/ acc = Some "X" \/ acc = Some "x" ->
  exists r, Board.eyeish_loop b ds acc = Ret r /\
    forall e, r = Some e <->
      (e = "X" \/ e = "x") /\
      (acc = Some e \/
       (acc = None /\ exists d, d ∈ ds /\ b !! Z.to_nat d = Some e)) /\
      (forall d, d ∈ ds ->
         exists a, b !! Z.to_nat d = Some a /\ (a = e \/ isspace a = true)).
Proof.
  intros acc Hclean Hds. revert acc.
  induction Hds as [|d ds Hd Hds IH]; intros acc Hacc; cbn [Board.eyeish_loop].
  - eexists. split; [reflexivity|]. intros e. split.
    + intros ->. split; [destruct Hacc as [?|[[= ->]|[= ->]]]; [discriminate|auto..]|].
      split; [by left|]. intros d Hd. by apply elem_of_nil in Hd.
    + intros (_ & [->|(-> & d & Hd & _)] & _); [reflexivity|by apply elem_of_nil in Hd].
  - destruct (lookup_lt_is_Some_2 b (Z.to_nat d)) as [x Hx]; [lia|].
    rewrite (getitem_nonneg b d x) by (lia || exact Hx). cbn [mbind result_bind].
    assert (Hok : cell_ok x = true).
    { rewrite Forall_forall in Hclean. apply Hclean. apply list_elem_of_lookup. eauto. }
    destruct (isspace x) eqn:Esp.
    { destruct (IH acc Hacc) as (r & -> & Hr). exists r. split; [reflexivity|].
      intros e. rewrite Hr. split.
      - intros (He & Hex & Hall). split; [exact He|]. split.
        + destruct Hex as [?|(? & d' & ? & ?)]; [by left|right].
          split; [assumption|]. exists d'. split; [by apply elem_of_cons; right|assumption].
        + intros d' [->|Hd']%elem_of_cons; [eauto|by apply Hall].
      - intros (He & Hex & Hall). split; [exact He|]. split.
        + destruct Hex as [?|(? & d' & [->|Hd']%elem_of_cons & Hd'e)]; [by left| |].
          * exfalso. rewrite Hx in Hd'e. injection Hd'e as ->.
            destruct He as [->| ->]; discriminate.
          * right. eauto.
        + intros d' Hd'. apply Hall. by apply elem_of_cons; right. }
    destruct (Ascii.eqb_spec x ".") as [->|Hpt].
    { eexists. split; [reflexivity|]. intros e. split; [discriminate|].
      intros (He & _ & Hall). exfalso.
      destruct (Hall d ltac:(by apply elem_of_cons; left)) as (a & Ha & [->|Ha']).
      - rewrite Hx in Ha. injection Ha as <-. destruct He; discriminate.
      - rewrite Hx in Ha. injection Ha as <-. discriminate. }
    assert (Hst : x = "X" \/ x = "x").
    { destruct (cell_ok_cases x Hok) as [?|[?|[?|?]]]; [contradiction|auto|auto|congruence]. }
    destruct acc as [e0|].
    + assert (He0 : e0 = "X" \/ e0 = "x") by (destruct Hacc as [?|[[= ->]|[= ->]]]; [discriminate|auto..]).
      destruct (Ascii.eqb_spec x (swapcase_char e0)) as [Esw|Esw].
      * eexists. split; [reflexivity|]. intros e. split; [discriminate|].
        intros (He & [[= ->]|[? _]] & Hall); [|discriminate]. exfalso.
        destruct (Hall d ltac:(by apply elem_of_cons; left)) as (a & Ha & [->|Ha']).
        -- rewrite Hx in Ha. injection Ha as ->. destruct He as [->| ->]; discriminate.
        -- rewrite Hx in Ha. injection Ha as <-. congruence.
      * assert (x = e0).
        { destruct Hst as [->| ->], He0 as [->| ->]; try reflexivity; exfalso; by apply Esw. }
        subst x.
        destruct (IH (Some e0) Hacc) as (r & -> & Hr). exists r. split; [reflexivity|].
        intros e. rewrite Hr. split.
        -- intros (He & [[= ->]|[? _]] & Hall); [|discriminate].
           split; [exact He|]. split; [by left|].
           intros d' [->|Hd']%elem_of_cons; [eauto|by apply Hall].
        -- intros (He & [[= ->]|[? _]] & Hall); [|discriminate].
           split; [exact He|]. split; [by left|].
           intros d' Hd'. apply Hall. by apply elem_of_cons; right.
    + destruct (IH (Some x)) as (r & -> & Hr).
      { destruct Hst as [->| ->]; auto. }
      exists r. split; [reflexivity|]. intros e. rewrite Hr. split.
      * intros (He & [[= ->]|[? _]] & Hall); [|discriminate].
        split; [exact He|]. split.
        -- right. split; [reflexivity|]. exists d. split; [by apply elem_of_cons; left|exact Hx].
        -- intros d' [->|Hd']%elem_of_cons; [eauto|by apply Hall].
      * intros (He & [?|(_ & Hex)] & Hall); [discriminate|].
        assert (x = e).
        { destruct (Hall d ltac:(by apply elem_of_cons; left)) as (a & Ha & [->|Ha']).
          - rewrite Hx in Ha. by injection Ha.
          - rewrite Hx in Ha. injection Ha as <-. congruence. }
        subst e. split; [exact He|]. split; [by left|].
        intros d' Hd'. apply Hall. by apply elem_of_cons; right.
Qed.

(** X3. On a board of W * W cells of the board alphabet, [is_eyeish] at a
    coordinate between the first and the last row returns, and the colour
    it returns is "X" or "x", is held by a neighbour, and every neighbour
    holds it or is blank; in every other case it returns none. *)
Theorem is_eyeish_spec (b : str) (c : Z)
    (Hlen : length b = Z.to_nat Board.W2) (Hclean : clean b) (Hc : on_board c) :
  exists r, Board.is_eyeish (Board.mk b) c = Ret r /\
    forall e, r = Some e <->
      (e = "X" \/ e = "x") /\
      (exists d, d ∈ Board.neighbors c /\ b !! Z.to_nat d = Some e) /\
      (forall d, d ∈ Board.neighbors c ->
         exists a, b !! Z.to_nat d = Some a /\ (a = e \/ isspace a = true)).
Proof.
  unfold Board.is_eyeish. cbn [Board.board].
  destruct (eyeish_loop_spec b (Board.neighbors c) None Hclean) as (r & Hr & Hspec).
  - eapply Forall_impl; [apply neighbors_in_range; exact Hc|].
    intros d Hd. cbn beta in Hd. rewrite Hlen. lia.
  - by left.
  - exists r. split; [exact Hr|]. intros e. rewrite Hspec. split.
    + intros (He & [?|[_ Hex]] & Hall); [discriminate|auto].
    + intros (He & Hex & Hall). auto.
Qed.

Lemma is_eyeish_spec_witness :
  exists r, Board.is_eyeish (Board.mk Board.empty) 100 = Ret r /\
    forall e, r = Some e <->
      (e = "X" \/ e = "x") /\
      (exists d, d ∈ Board.neighbors 100 /\ Board.empty !! Z.to_nat d = Some e) /\
      (forall d, d ∈ Board.neighbors 100 ->
         exists a, Board.empty !! Z.to_nat d = Some a /\ (a = e \/ isspace a = true)).
Proof.
  apply (is_eyeish_spec Board.empty 100).
  - reflexivity.
  - exact clean_empty.
  - unfold on_board, Board.W2, Board.W, Board.N. lia.
Defined.

(** ** [board_put] at any index *)

(** X4. [board_put(c, p)] with a one-character [p] checks no bound. For
    [0 <= c < len] it replaces the cell at [c]; for [c >= len] it appends
    [p]; for [c = -1] it returns the board without its last cell, then
    [p], then the whole board again; for [-len <= c < -1] it replaces the
    cell at [len + c]; below [-len] it puts [p] in front of the board. *)
Theorem board_put_cases (b : str) (c : Z) (p : ascii) :
  let len := Z.of_nat (length b) in
  Board.board_put (Board.mk b) (Some c) [p] =
  Some (Board.mk
    (if (0 <=? c) && (c <? len) then <[Z.to_nat c := p]> b
     else if len <=? c then b ++ [p]
     else if c =? -1 then take (length b - 1) b ++ p :: b
     else if - len <=? c then <[Z.to_nat (len + c) := p]> b
     else p :: b)).
Proof.
  intros len. unfold Board.board_put. cbn [Board.board]. f_equal.
  assert (Hinit : forall l1 l2 : str, Board.init (Some (l1 ++ [p] ++ l2)) = Board.mk (l1 ++ p :: l2)).
  { intros l1 l2. apply init_nonempty. by destruct l1. }
  rewrite Hinit. f_equal. unfold slice_to, slice_from, slice_bound. fold len.
  destruct (Z.leb_spec 0 c) as [H0|H0]; cbn [andb].
  - replace (c <? 0) with false by (symmetry; apply Z.ltb_ge; lia).
    replace (c + 1 <? 0) with false by (symmetry; apply Z.ltb_ge; lia).
    destruct (Z.ltb_spec c len) as [H1|H1].
    + replace (Z.to_nat (c `min` len)) with (Z.to_nat c) by lia.
      replace (Z.to_nat ((c + 1) `min` len)) with (S (Z.to_nat c)) by lia.
      symmetry. apply insert_take_drop. lia.
    + replace (len <=? c) with true by (symmetry; apply Z.leb_le; lia).
      rewrite take_ge, drop_ge by lia. reflexivity.
  - replace (c <? 0) with true by (symmetry; apply Z.ltb_lt; lia).
    replace (len <=? c) with false by (symmetry; apply Z.leb_gt; lia).
    destruct (Z.eqb_spec c (-1)) as [->|Hm1].
    + change (-1 + 1 <? 0) with false. cbv iota.
      replace (Z.to_nat (0 `max` (len + -1))) with (length b - 1)%nat by lia.
      replace (Z.to_nat ((-1 + 1) `min` len)) with 0%nat by lia.
      reflexivity.
    + replace (c + 1 <? 0) with true by (symmetry; apply Z.ltb_lt; lia).
      destruct (Z.leb_spec (- len) c) as [H2|H2].
      * replace (Z.to_nat (0 `max` (len + c))) with (Z.to_nat (len + c)) by lia.
        replace (Z.to_nat (0 `max` (len + (c + 1)))) with (S (Z.to_nat (len + c))) by lia.
        symmetry. apply insert_take_drop. lia.
      * replace (Z.to_nat (0 `max` (len + c))) with 0%nat by lia.
        replace (Z.to_nat (0 `max` (len + (c + 1)))) with 0%nat by lia.
        reflexivity.
Qed.

(** ** Coordinate strings: reading back and errors *)

Lemma slice_from_tail {A} (a : A) (l : list A) : slice_from (a :: l) 1 = l.
Proof.
  unfold slice_from, slice_bound. simpl length.
  replace (Z.to_nat (1 `min` Z.of_nat (S (length l)))) with 1%nat by lia.
  reflexivity.
Qed.

Lemma column_letter_lower col :
  0 <= col < 15 ->
  ord (upper_char (chr (ord "a" + col))) - ord "A" = col /\
  chr (ord "a" + col) <> "p".
Proof.
  intros H%column_cases. revert H. vm_compute seqZ.
  rewrite !elem_of_cons, elem_of_nil.
  intros H; repeat (destruct H as [->|H]; [split; [reflexivity|discriminate]|]).
  destruct H.
Qed.

Lemma parse_coord_letter (x : ascii) (r : Z) :
  x <> "p" ->
  Board.parse_coord (x :: str_of_int r) =
  Ret (Some (Board.W + 1 + (Board.N - r) * Board.W + (ord (upper_char x) - ord "A"))).
Proof.
  intros Hx. unfold Board.parse_coord.
  rewrite bool_decide_eq_false_2 by (intros [= E _]; by apply Hx).
  rewrite slice_from_tail, int_of_str_of_int. cbn [mbind result_bind].
  unfold getitem, index_of. simpl length.
  replace ((0 <=? 0) && (0 <? Z.of_nat (S (length (str_of_int r)))))
    with true by (symmetry; apply andb_true_iff; split; [reflexivity|apply Z.ltb_lt; lia]).
  reflexivity.
Qed.

(** X5. A column letter "A" to "O", in either case, followed by the
    decimal digits of any row number [r] is read by [parse_coord] without
    a range check as the coordinate [W + 1 + (N - r) * W + col], and
    [str_coord] of that coordinate is the upper-case string again. *)
Theorem str_parse_coord (col r : Z) (Hcol : 0 <= col < Board.W) :
  let c := Board.W + 1 + (Board.N - r) * Board.W + col in
  Board.parse_coord (chr (ord "A" + col) :: str_of_int r) = Ret (Some c) /\
  Board.parse_coord (chr (ord "a" + col) :: str_of_int r) = Ret (Some c) /\
  Board.str_coord (Some c) = chr (ord "A" + col) :: str_of_int r.
Proof.
  intros c. change Board.W with 15 in Hcol.
  destruct (column_letter col Hcol) as [Hord Hp].
  destruct (column_letter_lower col Hcol) as [Hup Hp'].
  rewrite (Z.add_comm (ord "A") col). split; [|split].
  - rewrite parse_coord_letter by exact Hp. by rewrite Hord.
  - rewrite parse_coord_letter by exact Hp'. by rewrite Hup.
  - unfold Board.str_coord, c.
    replace (Board.W + 1 + (Board.N - r) * Board.W + col - (Board.W + 1))
      with (col + (Board.N - r) * Board.W) by lia.
    rewrite Z.div_add, Z.mod_add by discriminate.
    change Board.W with 15.
    rewrite (Z.div_small col 15), (Z.mod_small col 15) by lia.
    do 2 f_equal. lia.
Qed.

Lemma str_parse_coord_witness :
  Board.parse_coord (chr (ord "A" + 3) :: str_of_int 4) = Ret (Some 154) /\
  Board.parse_coord (chr (ord "a" + 3) :: str_of_int 4) = Ret (Some 154) /\
  Board.str_coord (Some 154) = chr (ord "A" + 3) :: str_of_int 4.
Proof. apply (str_parse_coord 3 4). unfold Board.W, Board.N. lia. Defined.

(** X6. [parse_coord] reads the row number before the column letter: a
    string of at most one character raises [ValueError], and no string
    raises [IndexError]. *)
Theorem parse_coord_errors (x : str) :
  ((length x <= 1)%nat -> Board.parse_coord x = Raise ValueError) /\
  Board.parse_coord x <> Raise IndexError.
Proof.
  split.
  - intros Hx. destruct x as [|a [|b x]]; [reflexivity| |simpl in Hx; lia].
    unfold Board.parse_coord. rewrite bool_decide_eq_false_2 by discriminate.
    rewrite slice_from_tail. reflexivity.
  - unfold Board.parse_coord. case_bool_decide; [discriminate|].
    destruct x as [|a x]; [discriminate|].
    rewrite slice_from_tail.
    destruct (int_of_str x) as [k|e|] eqn:E; cbn [mbind result_bind].
    + unfold getitem, index_of. simpl length.
      replace ((0 <=? 0) && (0 <? Z.of_nat (S (length x))))
        with true by (symmetry; apply andb_true_iff; split; [reflexivity|apply Z.ltb_lt; lia]).
      discriminate.
    + unfold int_of_str in E. destruct x as [|[[] [] [] [] [] [] [] []] x];
        cbn in E; repeat (destruct (_ : option _) in E); try discriminate; congruence.
    + discriminate.
Qed.

Lemma parse_coord_errors_witness :
  Board.parse_coord (lit "A") = Raise ValueError.
Proof. apply (proj1 (parse_coord_errors (lit "A"))). simpl. lia. Defined.

(** ** Two passes *)

Lemma swapcase_char_involutive a : swapcase_char (swapcase_char a) = a.
Proof. destruct a as [[] [] [] [] [] [] [] []]; reflexivity. Qed.

Lemma swapcase_involutive b :
  Board.board b <> [] -> Board.swapcase (Board.swapcase b) = b.
Proof.
  intros Hb. destruct b as [l]. cbn [Board.board] in Hb.
  assert (Hm : map swapcase_char l <> []) by (by destruct l).
  unfold Board.swapcase. cbn [Board.board].
  rewrite (init_nonempty _ Hm). cbn [Board.board].
  rewrite map_map, (map_ext _ id), map_id by apply swapcase_char_involutive.
  by apply init_nonempty.
Qed.

(** X7. Two passes in a row give the position back: the same board and
    captures and the same komi, two plies later, with no ko and no last
    moves recorded. (A position whose board string is empty is the
    exception: its pass has the empty W * W board.) *)
Theorem pass_move_twice (p : Position.t) :
  (Board.board (Position.board p) <> [] ->
   Position.pass_move (Position.pass_move p) =
   Position.mk (Position.board p) (Position.captures p) (Position.n p + 2)
     None None None (Position.komi p)) /\
  (Board.board (Position.board p) = [] ->
   Position.board (Position.pass_move p) = Board.mk Board.empty).
Proof.
  split; intros Hb.
  - unfold Position.pass_move, Position.init. cbn.
    rewrite (swapcase_involutive _ Hb).
    destruct (Position.captures p). cbn. f_equal. lia.
  - unfold Position.pass_move, Position.init, Board.swapcase. cbn. by rewrite Hb.
Qed.

Lemma pass_move_twice_witness :
  Position.pass_move (Position.pass_move Position.empty_position) =
  Position.mk (Position.board Position.empty_position)
    (Position.captures Position.empty_position) (Position.n Position.empty_position + 2)
    None None None (Position.komi Position.empty_position).
Proof. apply (proj1 (pass_move_twice Position.empty_position)). discriminate. Defined.

(** ** What [move] changes *)

Lemma fills_Forall2 p (b b' : str) :
  fills p b b' -> Forall2 (fun x y => y = x \/ (x = p /\ y = "#")) b b'.
Proof.
  intros [Hl Hf]. apply Forall2_same_length_lookup_2; [done|].
  intros i x y Hx Hy. destruct (Hf i) as [E|[E1 E2]].
  - left. congruence.
  - right. split; congruence.
Qed.

Lemma count_cons a x l : count a (x :: l) = (if Ascii.eqb x a then 1 else 0) + count a l.
Proof. reflexivity. Qed.

Lemma count_app a (l1 l2 : str) : count a (l1 ++ l2) = count a l1 + count a l2.
Proof. induction l1 as [|x l1 IH]; [reflexivity|]. cbn [app]. rewrite !count_cons, IH. lia. Qed.

Lemma count_insert_any a (l : str) : forall k x y,
  l !! k = Some x ->
  count a (<[k := y]> l) =
  count a l - (if Ascii.eqb x a then 1 else 0) + (if Ascii.eqb y a then 1 else 0).
Proof.
  induction l as [|z l IH]; intros [|k] x y H; try discriminate.
  - injection H as ->. cbn [insert list_insert]. rewrite !count_cons. lia.
  - change (<[S k := y]> (z :: l)) with (z :: <[k := y]> l).
    rewrite !count_cons, (IH k x y H). lia.
Qed.

Lemma capture_step (b fb : str) :
  Forall2 (fun x y => y = x \/ (x = "x" /\ y = "#")) b fb -> unmarked b ->
  captures_of b (replace "#" "." fb) /\ unmarked (replace "#" "." fb) /\
  count "x" (replace "#" "." fb) + count "#" fb = count "x" b /\
  count "X" (replace "#" "." fb) = count "X" b /\
  count "." (replace "#" "." fb) = count "." b + count "#" fb.
Proof.
  induction 1 as [|x y b fb Hxy Hrest IH]; intros Hb.
  - repeat split; constructor.
  - apply Forall_cons in Hb as [Hx Hb].
    destruct (IH Hb) as (H1 & H2 & H3 & H4 & H5).
    unfold replace in *. cbn [map]. rewrite !count_cons.
    destruct Hxy as [->|[-> ->]].
    + destruct (Ascii.eqb_spec x "#") as [?|_]; [contradiction|].
      split; [constructor; [by left|exact H1]|].
      split; [constructor; [exact Hx|exact H2]|].
      destruct (Ascii.eqb x "x"), (Ascii.eqb x "X"), (Ascii.eqb x "."); lia.
    + cbn. split; [constructor; [by right|exact H1]|].
      split; [constructor; [discriminate|exact H2]|]. lia.
Qed.

Lemma captures_of_refl b : captures_of b b.
Proof. apply Forall2_same_length_lookup_2; [done|]. intros i x y ? ?. left. congruence. Qed.

Lemma captures_of_trans b1 b2 b3 :
  captures_of b1 b2 -> captures_of b2 b3 -> captures_of b1 b3.
Proof.
  intros [L12 H12]%Forall2_same_length_lookup [L23 H23]%Forall2_same_length_lookup.
  apply Forall2_same_length_lookup_2; [congruence|].
  intros i x z Hx Hz.
  destruct (lookup_lt_is_Some_2 b2 i) as [y Hy].
  { rewrite <- L12. by eapply lookup_lt_Some. }
  pose proof (H12 i x y Hx Hy) as H1. pose proof (H23 i y z Hy Hz) as H2.
  destruct H1 as [->|[-> ->]], H2 as [->|[E ->]]; auto; discriminate.
Qed.

Lemma capture_loop_captures ds : forall b k sc b' k' sc',
  unmarked (Board.board b) ->
  Position.capture_loop ds b k sc = Ret (b', k', sc') ->
  captures_of (Board.board b) (Board.board b') /\ unmarked (Board.board b') /\
  k' = k + (count "x" (Board.board b) - count "x" (Board.board b')) /\
  k <= k' /\
  count "X" (Board.board b') = count "X" (Board.board b) /\
  count "." (Board.board b') = count "." (Board.board b) + (k' - k).
Proof.
  induction ds as [|d ds IH]; intros b k sc b' k' sc' Hb; cbn [Position.capture_loop].
  - intros [= <- <- _]. split; [apply captures_of_refl|]. split; [exact Hb|]. lia.
  - destruct (getitem (Board.board b) d) as [x| |] eqn:Ex; [|discriminate..].
    cbn [mbind result_bind].
    destruct (Ascii.eqb_spec x "x") as [->|Hx]; cbn [negb]; [|by apply IH].
    destruct (Board.floodfill b d) as [fb| |] eqn:Ef; [|discriminate..].
    cbn [mbind result_bind]. rewrite contact_point. cbn [mbind result_bind].
    destruct (Board.contact_search _ _ _); [by apply IH|].
    destruct (floodfill_fills _ _ _ Ef) as (p & Hp & Hf).
    rewrite Ex in Hp. injection Hp as <-.
    specialize (Hf ltac:(discriminate)).
    destruct (capture_step _ _ (fills_Forall2 _ _ _ Hf) Hb) as (C1 & C2 & C3 & C4 & C5).
    intros H.
    destruct (IH (Board.mk (replace "#" "." (Board.board fb))) _ _ _ _ _ C2 H)
      as (D1 & D2 & D3 & D4 & D5 & D6).
    cbn [Board.board] in *. pose proof (count_nonneg "#" (Board.board fb)).
    split; [by eapply captures_of_trans|]. split; [exact D2|]. lia.
Qed.

Lemma count_swapcase a (l : str) :
  count (swapcase_char a) (map swapcase_char l) = count a l.
Proof.
  induction l as [|x l IH]; [reflexivity|]. cbn [map]. rewrite !count_cons, IH. f_equal.
  destruct (Ascii.eqb_spec x a) as [->|Hne].
  - by rewrite Ascii.eqb_refl.
  - destruct (Ascii.eqb_spec (swapcase_char x) (swapcase_char a)) as [E|_]; [|reflexivity].
    exfalso. apply Hne. by rewrite <- (swapcase_char_involutive x), E, swapcase_char_involutive.
Qed.

Lemma move_runs p c p' :
  0 <= c < Z.of_nat (length (Board.board (Position.board p))) ->
  Position.move p c = Ret (Some p') ->
  exists b1 k sc,
    Position.capture_loop (Board.neighbors c)
      (Board.mk (<[Z.to_nat c := "X"]> (Board.board (Position.board p))))
      (fst (Position.captures p)) [] = Ret (b1, k, sc) /\
    Board.board (Position.board p') = map swapcase_char (Board.board b1) /\
    Position.captures p' = (snd (Position.captures p), k) /\
    Position.n p' = Position.n p + 1 /\
    Position.last p' = Some c /\ Position.last2 p' = Position.last p /\
    Position.komi p' = Position.komi p /\
    exists sf j, Board.floodfill b1 c = Ret sf /\ Board.contact sf "." = Ret (Some j).
Proof.
  intros Hc. unfold Position.move.
  destruct (Qeq_bool _ _); [discriminate|].
  destruct (Board.is_eyeish _ c) as [e| |]; [|discriminate..]. cbn [mbind result_bind].
  destruct (Position.board p) as [b]. cbn [Board.board] in *.
  rewrite (board_put_stone b c) by lia.
  destruct (Position.capture_loop _ _ _ _) as [[[b1 k] sc]| |] eqn:E1; [|discriminate..].
  cbn [mbind result_bind].
  destruct (Board.floodfill b1 c) as [sf| |] eqn:Esf; [|discriminate..].
  cbn [mbind result_bind].
  destruct (Board.contact sf ".") as [[l|]| |] eqn:El; try discriminate.
  cbn [mbind result_bind]. intros [= <-]. cbn [Position.init Position.board default].
  exists b1, k, sc. split; [reflexivity|]. split.
  - apply swapcase_board. destruct (floodfill_fills _ _ _ Esf) as (x & Hx & _).
    intros Hnil. rewrite Hnil in Hx. apply getitem_Ret in Hx as (i & _ & Hi).
    by rewrite lookup_nil in Hi.
  - cbn. repeat split. eauto.
Qed.

Lemma move_frame_aux (p p' : Position.t) (c : Z)
    (Hum : unmarked (Board.board (Position.board p)))
    (Hc : 0 <= c < Z.of_nat (length (Board.board (Position.board p))))
    (Hmove : Position.move p c = Ret (Some p')) :
  let old := Board.board (Position.board p) in
  let new := Board.board (Position.board p') in
  length new = length old /\
  new !! Z.to_nat c = Some "x" /\
  (forall (k : nat) a, k <> Z.to_nat c -> old !! k = Some a ->
     new !! k = Some (swapcase_char a) \/ (a = "x" /\ new !! k = Some ".")).
Proof.
  intros old new.
  destruct (move_runs p c p' Hc Hmove) as (b1 & k & sc & E1 & Hnew & _).
  assert (Hum0 : unmarked (<[Z.to_nat c := "X"]> old)).
  { apply Forall_insert; [exact Hum|discriminate]. }
  destruct (capture_loop_captures _ (Board.mk (<[Z.to_nat c := "X"]> old)) _ _ _ _ _ Hum0 E1) as (Hcap & _).
  cbn [Board.board] in Hcap.
  apply Forall2_same_length_lookup in Hcap as [Hlen Hcap].
  rewrite length_insert in Hlen.
  unfold new. rewrite Hnew.
  split; [by rewrite length_map|]. split.
  - rewrite list_lookup_fmap.
    erewrite (capture_loop_keeps _ (Z.to_nat c)); [reflexivity| |exact E1].
    cbn [Board.board]. apply list_lookup_insert_eq. unfold old. lia.
  - intros j a Hj Ha.
    destruct (lookup_lt_is_Some_2 (Board.board b1) j) as [y Hy].
    { rewrite <- Hlen. by eapply lookup_lt_Some. }
    rewrite list_lookup_fmap, Hy. cbn.
    destruct (Hcap j a y) as [->|[-> ->]]; [by rewrite list_lookup_insert_ne|exact Hy|auto..].
Qed.

(** X8. A stone put by [move] on a cell of a board that holds no flood
    fill marker: the new board has the length of the old one, holds the
    stone at [c] as "x", and every other cell holds the old character with
    its case swapped, or is empty where an "x" stone was captured. The
    ply counter grows by one, the move is recorded as the last one, and
    the komi is kept. *)
Theorem move_frame (p p' : Position.t) (c : Z)
    (Hum : unmarked (Board.board (Position.board p)))
    (Hc : 0 <= c < Z.of_nat (length (Board.board (Position.board p))))
    (Hmove : Position.move p c = Ret (Some p')) :
  let old := Board.board (Position.board p) in
  let new := Board.board (Position.board p') in
  length new = length old /\
  new !! Z.to_nat c = Some "x" /\
  (forall (k : nat) a, k <> Z.to_nat c -> old !! k = Some a ->
     new !! k = Some (swapcase_char a) \/ (a = "x" /\ new !! k = Some ".")) /\
  Position.n p' = Position.n p + 1 /\
  Position.last p' = Some c /\ Position.last2 p' = Position.last p /\
  Position.komi p' = Position.komi p.
Proof.
  intros old new.
  destruct (move_frame_aux p p' c Hum Hc Hmove) as (Hlen & Hat & Hother).
  destruct (move_runs p c p' Hc Hmove) as (_ & _ & _ & _ & _ & _ & Hn & Hl & Hl2 & Hk & _).
  split; [exact Hlen|]. split; [exact Hat|]. split; [exact Hother|].
  split; [exact Hn|]. split; [exact Hl|]. split; [exact Hl2|exact Hk].
Qed.

Lemma unmarked_clean b : clean b -> unmarked b.
Proof.
  intros H. eapply Forall_impl; [exact H|]. intros a Ha ->. discriminate.
Qed.

Lemma move_frame_witness :
  exists p',
    Position.move Position.empty_position 100 = Ret (Some p') /\
    Board.board (Position.board p') !! Z.to_nat 100 = Some "x".
Proof.
  destruct (Position.move Position.empty_position 100) as [[p'|]| |] eqn:E;
    [|exfalso; revert E; vm_compute; discriminate..].
  exists p'. split; [reflexivity|].
  apply (move_frame Position.empty_position p' 100).
  - apply unmarked_clean. exact clean_empty.
  - vm_compute. split; [discriminate|reflexivity].
  - exact E.
Defined.

(** X9. A stone put by [move] on an empty point of a board that holds no
    marker: the board then holds one stone more of the side that moved,
    the stones the other side has lost are exactly what is added to the
    captures of the side that moved, and they are empty points now. *)
Theorem move_counts (p p' : Position.t) (c : Z)
    (Hum : unmarked (Board.board (Position.board p)))
    (Hc : 0 <= c)
    (Hempty : Board.board (Position.board p) !! Z.to_nat c = Some ".")
    (Hmove : Position.move p c = Ret (Some p')) :
  let old := Board.board (Position.board p) in
  let new := Board.board (Position.board p') in
  let gained := snd (Position.captures p') - fst (Position.captures p) in
  fst (Position.captures p') = snd (Position.captures p) /\
  0 <= gained /\
  count "x" new = count "X" old + 1 /\
  count "X" new + gained = count "x" old /\
  count "." new + 1 = count "." old + gained.
Proof.
  intros old new gained.
  pose proof (lookup_lt_Some _ _ _ Hempty) as Hlt.
  destruct (move_runs p c p' ltac:(lia) Hmove)
    as (b1 & k & sc & E1 & Hnew & Hcaps & _).
  assert (Hum0 : unmarked (<[Z.to_nat c := "X"]> old)).
  { apply Forall_insert; [exact Hum|discriminate]. }
  destruct (capture_loop_captures _ (Board.mk (<[Z.to_nat c := "X"]> old)) _ _ _ _ _ Hum0 E1) as (_ & _ & Hk & Hle & HX & Hdot).
  cbn [Board.board] in *.
  assert (Hx0 : count "x" (<[Z.to_nat c := "X"]> old) = count "x" old /\
               count "X" (<[Z.to_nat c := "X"]> old) = count "X" old + 1 /\
               count "." (<[Z.to_nat c := "X"]> old) = count "." old - 1).
  { rewrite !(count_insert_any _ old _ "." "X" Hempty). cbn. lia. }
  destruct Hx0 as (Hx0 & HX0 & Hd0).
  unfold gained, new. rewrite Hcaps, Hnew. cbn [fst snd].
  pose proof (count_swapcase "X" (Board.board b1)) as S1.
  pose proof (count_swapcase "x" (Board.board b1)) as S2.
  pose proof (count_swapcase "." (Board.board b1)) as S3.
  change (swapcase_char "X") with "x" in S1.
  change (swapcase_char "x") with "X" in S2.
  change (swapcase_char ".") with "." in S3.
  rewrite S1, S2, S3. repeat split; lia.
Qed.

Lemma move_counts_witness :
  exists p',
    Position.move Position.empty_position 100 = Ret (Some p') /\
    count "x" (Board.board (Position.board p')) =
    count "X" (Board.board (Position.board Position.empty_position)) + 1.
Proof.
  destruct (Position.move Position.empty_position 100) as [[p'|]| |] eqn:E;
    [|exfalso; revert E; vm_compute; discriminate..].
  exists p'. split; [reflexivity|].
  apply (move_counts Position.empty_position p' 100).
  - apply unmarked_clean. exact clean_empty.
  - lia.
  - reflexivity.
  - exact E.
Defined.

(** ** The positions of a game *)

Lemma on_grid_lookup b (k : nat) a :
  on_grid b -> b !! k = Some a ->
  exists e, Board.empty !! k = Some e /\
            if isspace e then a = e else a = "." \/ a = "X" \/ a = "x".
Proof. intros Hg Ha. destruct (Forall2_lookup_l _ _ _ _ _ Hg Ha) as (e & ? & ?). eauto. Qed.

Lemma on_grid_length b : on_grid b -> length b = Z.to_nat Board.W2.
Proof. intros H%Forall2_length. exact H. Qed.

Lemma on_grid_clean b : on_grid b -> clean b.
Proof.
  intros Hg. apply Forall_forall. intros a [k Hk]%list_elem_of_lookup.
  destruct (on_grid_lookup _ _ _ Hg Hk) as (e & He & Hae).
  destruct (isspace e) eqn:Esp.
  - subst a. unfold cell_ok. rewrite Esp. by rewrite !orb_true_r.
  - destruct Hae as [->|[->| ->]]; reflexivity.
Qed.

Lemma on_grid_rim b : on_grid b -> rim b.
Proof.
  intros Hg k a Hk Hrim.
  destruct (on_grid_lookup _ _ _ Hg Hk) as (e & He & Hae).
  pose proof (rim_empty k e He Hrim) as Esp. rewrite Esp in Hae. by subst a.
Qed.

Lemma on_grid_empty : on_grid Board.empty.
Proof.
  apply Forall2_same_length_lookup_2; [reflexivity|].
  intros k x y Hx Hy. assert (x = y) by congruence. subst y.
  destruct (isspace x) eqn:Esp; [reflexivity|].
  assert (Hok : cell_ok x = true).
  { pose proof clean_empty as Hc. rewrite Forall_forall in Hc. apply Hc.
    apply list_elem_of_lookup. eauto. }
  destruct (cell_ok_cases x Hok) as [?|[?|[?|?]]]; auto. congruence.
Qed.

Lemma on_grid_swapcase b : on_grid (Board.board b) -> on_grid (Board.board (Board.swapcase b)).
Proof.
  intros Hg. rewrite swapcase_board.
  2:{ intros Hnil. apply on_grid_length in Hg. rewrite Hnil in Hg. discriminate. }
  apply Forall2_fmap_l. eapply Forall2_impl; [exact Hg|].
  intros a e Hae. unfold compose. cbn beta in Hae |- *. destruct (isspace e) eqn:Esp.
  - subst a. by apply isspace_swapcase.
  - destruct Hae as [->|[->| ->]]; cbn; auto.
Qed.

Lemma on_grid_playable b : on_grid b -> "." ∈ b -> playable b.
Proof.
  intros Hg Hdot. split; [by apply on_grid_length|]. split; [by apply on_grid_clean|].
  split; [by apply on_grid_rim|exact Hdot].
Qed.

Lemma move_on_grid p c p' :
  on_grid (Board.board (Position.board p)) -> 0 <= c ->
  Board.board (Position.board p) !! Z.to_nat c = Some "." ->
  Position.move p c = Ret (Some p') ->
  on_grid (Board.board (Position.board p')).
Proof.
  intros Hg Hc Hdot Hmove.
  pose proof (lookup_lt_Some _ _ _ Hdot) as Hlt.
  destruct (move_frame_aux p p' c (unmarked_clean _ (on_grid_clean _ Hg)) ltac:(lia) Hmove)
    as (Hlen & Hat & Hother).
  apply Forall2_same_length_lookup_2.
  { rewrite Hlen. by apply Forall2_length in Hg. }
  intros k y e Hy He.
  destruct (lookup_lt_is_Some_2 (Board.board (Position.board p)) k) as [a Ha].
  { rewrite <- Hlen. by eapply lookup_lt_Some. }
  destruct (on_grid_lookup _ _ _ Hg Ha) as (e' & He' & Hae).
  rewrite He in He'. injection He' as <-.
  destruct (decide (k = Z.to_nat c)) as [->|Hk].
  - rewrite Hat in Hy. injection Hy as <-. rewrite Hdot in Ha. injection Ha as <-.
    destruct (isspace e) eqn:Esp; [subst e; discriminate Esp|auto].
  - destruct (Hother k a Hk Ha) as [E|[-> E]]; rewrite E in Hy; injection Hy as <-.
    + destruct (isspace e) eqn:Esp.
      * subst a. by apply isspace_swapcase.
      * destruct Hae as [->|[->| ->]]; cbn; auto.
    + destruct (isspace e) eqn:Esp; [subst e; discriminate Esp|auto].
Qed.

Lemma played_on_grid p :
  Position.played p ->
  on_grid (Board.board (Position.board p)) /\ "." ∈ Board.board (Position.board p).
Proof.
  induction 1 as [|p c p' Hp [IH1 IH2] Hc Hdot Hmove|p Hp [IH1 IH2]].
  - split; [exact on_grid_empty|]. by destruct playable_empty as (_ & _ & _ & ?).
  - split; [by eapply move_on_grid|].
    destruct (move_returns p c (on_grid_playable _ IH1 IH2) Hc Hdot) as (r & Hr & Hpl).
    rewrite Hmove in Hr. injection Hr as <-.
    by destruct (Hpl p' eq_refl) as (_ & _ & _ & ?).
  - pose proof (playable_pass p (on_grid_playable _ IH1 IH2)) as (_ & _ & _ & Hdot).
    split; [|exact Hdot]. unfold Position.pass_move, Position.init.
    cbn [Position.board default]. by apply on_grid_swapcase.
Qed.

(** X10. In a game in which every stone goes on an empty point, every
    position has a board of W * W cells that is the empty board but for
    its points, which hold ".", "X" or "x"; it has an empty point, and
    every move on an empty point returns (a position or none) without
    raising. *)
Theorem played_board (p : Position.t) (Hp : Position.played p) :
  on_grid (Board.board (Position.board p)) /\
  "." ∈ Board.board (Position.board p) /\
  forall c, 0 <= c -> Board.board (Position.board p) !! Z.to_nat c = Some "." ->
            exists r, Position.move p c = Ret r.
Proof.
  destruct (played_on_grid p Hp) as [Hg Hdot]. split; [exact Hg|]. split; [exact Hdot|].
  intros c Hc Hx.
  destruct (move_returns p c (on_grid_playable _ Hg Hdot) Hc Hx) as (r & Hr & _). eauto.
Qed.

Lemma played_board_witness :
  on_grid (Board.board (Position.board Position.empty_position)) /\
  "." ∈ Board.board (Position.board Position.empty_position) /\
  forall c, 0 <= c ->
            Board.board (Position.board Position.empty_position) !! Z.to_nat c = Some "." ->
            exists r, Position.move Position.empty_position c = Ret r.
Proof. apply (played_board Position.empty_position). constructor. Defined.

(** ** [score] in a game, and on a board with no empty point *)

Lemma owner_loop_spec cs (lb : str) n : forall om om' : list Z,
  NoDup cs -> Forall (fun c => 0 <= c < Z.of_nat (length lb)) cs ->
  length om = length lb ->
  Position.owner_loop cs lb n om = Ret om' ->
  length om' = length om /\
  forall (k : nat) old x, om !! k = Some old -> lb !! k = Some x ->
    om' !! k = Some (if decide (Z.of_nat k ∈ cs) then old + owner_delta x n else old).
Proof.
  induction cs as [|c cs IH]; intros om om' Hnd Hcs Hom; cbn [Position.owner_loop].
  - intros [= <-]. split; [reflexivity|]. intros k old x Hk _.
    rewrite decide_False by (by intros ?%elem_of_nil). exact Hk.
  - apply NoDup_cons in Hnd as [Hc Hnd]. apply Forall_cons in Hcs as [Hr Hcs].
    destruct (lookup_lt_is_Some_2 lb (Z.to_nat c)) as [x Hx]; [lia|].
    destruct (lookup_lt_is_Some_2 om (Z.to_nat c)) as [old Hold]; [lia|].
    rewrite (getitem_nonneg lb c x) by (lia || exact Hx). cbn [mbind result_bind].
    rewrite (getitem_nonneg om c old) by (lia || exact Hold). cbn [mbind result_bind].
    unfold setitem. rewrite index_of_nonneg by lia. cbn [mbind result_bind].
    fold (owner_delta x n). intros H.
    destruct (IH _ _ Hnd Hcs ltac:(by rewrite length_insert) H) as [Hlen Hspec].
    split; [by rewrite Hlen, length_insert|].
    intros k old' x' Hk Hx'.
    destruct (decide (k = Z.to_nat c)) as [->|Hne].
    + rewrite Hold in Hk. injection Hk as <-. rewrite Hx in Hx'. injection Hx' as <-.
      rewrite (Hspec (Z.to_nat c) (old + owner_delta x n) x);
        [|apply list_lookup_insert_eq; lia|exact Hx].
      rewrite Z2Nat.id by lia.
      rewrite decide_False by exact Hc.
      rewrite decide_True by (apply elem_of_cons; by left). reflexivity.
    + rewrite (Hspec k old' x'); [|by rewrite list_lookup_insert_ne|exact Hx'].
      f_equal. destruct (decide (Z.of_nat k ∈ cs)) as [Hin|Hin].
      * rewrite decide_True by (apply elem_of_cons; by right). reflexivity.
      * rewrite decide_False; [reflexivity|].
        intros [E|E]%elem_of_cons; [lia|contradiction].
Qed.

Lemma score_loop_stones p fuel : forall i lb0 lb (k : nat) a,
  0 <= i ->
  Position.score_loop fuel p i lb0 = Ret (Some lb) ->
  (forall l, lb0 = Some l -> l !! k = Some a) ->
  Board.board (Position.board p) !! k = Some a -> a = "X" \/ a = "x" ->
  lb !! k = Some a.
Proof.
  intros i lb0 lb k a Hi Hrun H0 Hk Ha.
  destruct (score_loop_last_region p fuel i lb0 (Some lb) Hi Hrun)
    as [[<- _]|(j & fb & l & Hij & Hj & _ & Hfb & Hl & [= ->])]; [by apply H0|].
  destruct (floodfill_fills _ _ _ Hfb) as (q & Hq & Hf).
  rewrite (getitem_nonneg _ j ".") in Hq by (lia || exact Hj). injection Hq as <-.
  specialize (Hf ltac:(discriminate)).
  assert (Hfk : Board.board fb !! k = Some a).
  { eapply fills_lookup_other; [exact Hf| |exact Hk]. destruct Ha as [->| ->]; discriminate. }
  unfold Position.label in Hl. rewrite !contact_stone in Hl by auto.
  cbn [mbind result_bind] in Hl. injection Hl as <-.
  repeat case_match; rewrite (replace_lookup _ _ _ k a Hfk);
    destruct Ha as [->| ->]; reflexivity.
Qed.

Lemma owner_delta_bound x n : -1 <= owner_delta x n <= 1.
Proof. unfold owner_delta. repeat case_match; lia. Qed.

(** X11. On every position of a game in which every stone goes on an
    empty point, [score] returns, with or without an owner map of W * W
    entries, and the value is the same. The owner map keeps its length,
    each entry changes by at most one, and the entry of a stone moves by
    one: up for a stone of the side that moves on even plies, down for a
    stone of the other side. *)
Theorem score_in_play (p : Position.t) (om : list Z)
    (Hp : Position.played p) (Hom : length om = Z.to_nat Board.W2) :
  exists v om',
    Position.score p (Some om) = Ret (v, Some om') /\
    Position.score p None = Ret (v, None) /\
    length om' = Z.to_nat Board.W2 /\
    forall (k : nat) old, om !! k = Some old ->
      exists new, om' !! k = Some new /\ -1 <= new - old <= 1 /\
        let s := if Position.n p mod 2 =? 0 then 1 else -1 in
        (Board.board (Position.board p) !! k = Some "X" -> new = old + s) /\
        (Board.board (Position.board p) !! k = Some "x" -> new = old - s).
Proof.
  destruct (played_on_grid p Hp) as [Hg Hdot].
  pose proof (on_grid_playable _ Hg Hdot) as Hpl.
  unfold Position.score.
  destruct (score_loop_returns p (S (length (Board.board (Position.board p)))) Hpl 0 None)
    as (lb & Hrun & Hlb); [lia|lia| |discriminate|].
  { intros _. destruct Hpl as (Hlen & _ & Hr & _).
    apply list_elem_of_lookup in Hdot as [k Hk].
    pose proof (rim_on_board _ k "." Hlen Hr Hk eq_refl) as Hon.
    unfold on_board in Hon. change Board.W with 15 in Hon.
    apply (find_at_found "." _ 0 (0 + 1) k); [lia|exact Hk|lia]. }
  rewrite Hrun. cbn [mbind result_bind].
  destruct (owner_loop_returns (seqZ 0 (Board.W * Board.W)) lb (Position.n p) om)
    as (om' & Hown & Hom'); [|congruence|].
  { apply Forall_forall. intros c Hc%elem_of_seqZ. rewrite Hlb.
    change (Board.W * Board.W) with 225 in Hc. change Board.W2 with 225. lia. }
  rewrite Hown. cbn [mbind result_bind].
  eexists _, om'. split; [reflexivity|]. split; [reflexivity|]. split; [congruence|].
  assert (Hcs : Forall (fun c => 0 <= c < Z.of_nat (length lb)) (seqZ 0 (Board.W * Board.W))).
  { apply Forall_forall. intros c Hc%elem_of_seqZ. rewrite Hlb.
    change (Board.W * Board.W) with 225 in Hc. change Board.W2 with 225. lia. }
  assert (Hol : length om = length lb) by congruence.
  destruct (owner_loop_spec _ lb _ om om' (NoDup_seqZ 0 (Board.W * Board.W)) Hcs Hol Hown)
    as [_ Hspec].
  intros k old Hk.
  pose proof (lookup_lt_Some _ _ _ Hk) as Hlt. rewrite Hom in Hlt.
  destruct (lookup_lt_is_Some_2 lb k) as [x Hx]; [by rewrite Hlb|].
  rewrite (Hspec k old x Hk Hx).
  rewrite decide_True.
  2:{ apply elem_of_seqZ. change (Board.W * Board.W) with 225.
      change (Z.to_nat Board.W2) with 225%nat in Hlt. lia. }
  eexists. split; [reflexivity|]. split.
  { pose proof (owner_delta_bound x (Position.n p)). lia. }
  cbn zeta. split; intros Hb.
  - rewrite (score_loop_stones p _ 0 None lb k "X" ltac:(lia) Hrun) in Hx;
      [|discriminate|exact Hb|by left].
    injection Hx as <-. unfold owner_delta. cbn. destruct (_ =? 0); lia.
  - rewrite (score_loop_stones p _ 0 None lb k "x" ltac:(lia) Hrun) in Hx;
      [|discriminate|exact Hb|by right].
    injection Hx as <-. unfold owner_delta. cbn. destruct (_ =? 0); lia.
Qed.

Lemma score_in_play_witness :
  exists v om',
    Position.score Position.empty_position (Some (replicate 225 0)) = Ret (v, Some om') /\
    Position.score Position.empty_position None = Ret (v, None) /\
    length om' = Z.to_nat Board.W2 /\
    forall (k : nat) old, replicate 225 0 !! k = Some old ->
      exists new, om' !! k = Some new /\ -1 <= new - old <= 1 /\
        let s := if Position.n Position.empty_position mod 2 =? 0 then 1 else -1 in
        (Board.board (Position.board Position.empty_position) !! k = Some "X" ->
         new = old + s) /\
        (Board.board (Position.board Position.empty_position) !! k = Some "x" ->
         new = old - s).
Proof.
  apply (score_in_play Position.empty_position (replicate 225 0)).
  - constructor.
  - reflexivity.
Defined.

(** X12. On a position whose board has no empty point past index 0,
    the loop of [score] never runs and the local [board] is still the
    Board object: [score] raises [AttributeError] on [board.count], and
    [TypeError] on [board[c]] when it is given an owner map. *)
Theorem score_without_empty_point (p : Position.t) (om : list Z)
    (Hfull : forall k : nat, (1 <= k)%nat ->
               Board.board (Position.board p) !! k <> Some ".") :
  Position.score p None = Raise AttributeError /\
  Position.score p (Some om) = Raise TypeError.
Proof.
  assert (Hfind : find "." (Board.board (Position.board p)) (0 + 1) = -1).
  { destruct (find_spec "." (Board.board (Position.board p)) (0 + 1)) as [E|[Hj Hx]];
      [lia|exact E|].
    exfalso. apply (Hfull (Z.to_nat (find "." (Board.board (Position.board p)) (0 + 1))));
      [lia|exact Hx]. }
  unfold Position.score. cbn [Position.score_loop]. rewrite Hfind.
  split; reflexivity.
Qed.

Lemma score_without_empty_point_witness :
  Position.score (Position.mk (Board.mk ["X"]) (0, 0) 0 None None None (75 # 10)) None
    = Raise AttributeError /\
  Position.score (Position.mk (Board.mk ["X"]) (0, 0) 0 None None None (75 # 10)) (Some [])
    = Raise TypeError.
Proof.
  apply (score_without_empty_point
           (Position.mk (Board.mk ["X"]) (0, 0) 0 None None None (75 # 10)) []).
  intros [|[|k]] Hk; [lia|discriminate..].
Defined.

(** ** [moves]: every empty point but the eyes, once, from [i0] around *)

Lemma find_at_le a l : forall i start (k : nat),
  l !! k = Some a -> start <= i + Z.of_nat k ->
  find_at a l i start <= i + Z.of_nat k.
Proof.
  induction l as [|x l IH]; intros i start [|k] Hk Hs; try discriminate; cbn [find_at].
  - injection Hk as ->. rewrite Ascii.eqb_refl.
    replace (start <=? i) with true by (symmetry; apply Z.leb_le; lia). cbn. lia.
  - destruct ((start <=? i) && Ascii.eqb x a); [lia|].
    cbn in Hk. specialize (IH (i + 1) start k Hk). lia.
Qed.

Lemma find_first a l start (k : nat) :
  0 <= start -> start <= Z.of_nat k ->
  (find a l start = -1 \/ Z.of_nat k < find a l start) ->
  l !! k <> Some a.
Proof.
  intros H0 Hs Hf Hk. unfold find in Hf.
  pose proof (find_at_le a l 0 start k Hk ltac:(lia)).
  pose proof (find_at_found a l 0 start k ltac:(lia) Hk ltac:(lia)). lia.
Qed.

Lemma filter_seqZ_nil (P : Z -> Prop) `{!forall j, Decision (P j)} lo n :
  (forall j, lo <= j < lo + n -> ~ P j) -> filter P (seqZ lo n) = [].
Proof.
  intros Hnone. destruct (filter P (seqZ lo n)) as [|j l] eqn:E; [reflexivity|].
  assert (Hj : j ∈ filter P (seqZ lo n)) by (rewrite E; by apply elem_of_cons; left).
  apply list_elem_of_filter in Hj as [Hp Hj%elem_of_seqZ]. by destruct (Hnone j).
Qed.

Lemma empty_between_find (b : str) s hi (j := find "." b s) :
  0 <= s ->
  empty_between b s hi =
  if (j =? -1) || (hi <=? j) then [] else j :: empty_between b (j + 1) hi.
Proof.
  intros Hs. unfold empty_between.
  destruct (find_spec "." b s Hs) as [E|[Hj Hx]]; fold j in E || fold j in Hj, Hx.
  - rewrite E. cbn. apply filter_seqZ_nil. intros k Hk.
    replace k with (Z.of_nat (Z.to_nat k)) at 1 by lia. rewrite Nat2Z.id.
    apply (find_first "." b s); [lia|lia|]. left. exact E.
  - replace (j =? -1) with false by (symmetry; apply Z.eqb_neq; lia). cbn.
    destruct (Z.leb_spec hi j) as [Hhi|Hhi].
    + apply filter_seqZ_nil. intros k Hk.
      apply (find_first "." b s); [lia|lia|]. right. fold j. lia.
    + replace (hi - s) with ((j - s) + (1 + (hi - (j + 1)))) by lia.
      rewrite seqZ_app by lia. rewrite filter_app.
      rewrite filter_seqZ_nil.
      2:{ intros k Hk. apply (find_first "." b s); [lia|lia|]. right. fold j. lia. }
      replace (s + (j - s)) with j by lia.
      rewrite seqZ_cons by lia. rewrite filter_cons_True by exact Hx.
      cbn [app]. f_equal. by replace (Z.succ j) with (j + 1) by lia; replace (Z.pred (1 + (hi - (j + 1)))) with (hi - (j + 1)) by lia.
Qed.

Lemma empty_point_range (k : nat) a :
  Board.empty !! k = Some a -> isspace a = false -> (16 <= k <= 208)%nat.
Proof.
  intros Hk Ha.
  assert (Hlt : (k < 225)%nat) by (apply lookup_lt_Some in Hk; exact Hk).
  assert (Hall : forallb (fun i => match Board.empty !! i with
                                   | Some x => isspace x || ((16 <=? i)%nat && (i <=? 208)%nat)
                                   | None => true
                                   end) (seq 0 225) = true) by (vm_compute; reflexivity).
  rewrite forallb_forall in Hall. specialize (Hall k). rewrite Hk, Ha in Hall.
  cbn [orb] in Hall.
  assert (Hin : In k (seq 0 225)) by (apply in_seq; lia).
  apply Hall in Hin. apply andb_true_iff in Hin as [H1%Nat.leb_le H2%Nat.leb_le]. lia.
Qed.

Lemma on_grid_point (b : str) (k : nat) a :
  on_grid b -> b !! k = Some a -> isspace a = false -> (16 <= k <= 208)%nat.
Proof.
  intros Hg Hk Ha. destruct (on_grid_lookup _ _ _ Hg Hk) as (e & He & Hae).
  apply (empty_point_range k e He).
  destruct (isspace e) eqn:Esp; [|reflexivity]. subst a. congruence.
Qed.

Lemma eye_loop_returns (b : str) ds fc : forall k e,
  Forall (fun d => 0 <= d < Z.of_nat (length b)) ds ->
  exists r, Board.eye_loop b ds fc k e = Ret r.
Proof.
  induction ds as [|d ds IH]; intros k e Hds; cbn [Board.eye_loop]; [eauto|].
  apply Forall_cons in Hds as [Hd Hds].
  destruct (lookup_lt_is_Some_2 b (Z.to_nat d)) as [x Hx]; [lia|].
  rewrite (getitem_nonneg b d x) by (lia || exact Hx). cbn [mbind result_bind].
  repeat case_match; by apply IH.
Qed.

Lemma is_eye_returns (b : str) j :
  length b = Z.to_nat Board.W2 -> 16 <= j <= 208 ->
  exists e, Board.is_eye (Board.mk b) j = Ret e.
Proof.
  intros Hlen Hj. unfold Board.is_eye, Board.is_eyeish. cbn [Board.board].
  destruct (eyeish_loop_returns b (Board.neighbors j) None) as [e He].
  { rewrite Hlen. unfold Board.neighbors. change Board.W with 15.
    change (Z.of_nat (Z.to_nat Board.W2)) with 225. repeat constructor; lia. }
  rewrite He. cbn [mbind result_bind]. destruct e as [e|]; [|eauto].
  destruct (eye_loop_returns b (Board.diag_neighbors j) (swapcase_char e) 0 false)
    as [[fc edge] Hr].
  { rewrite Hlen. unfold Board.diag_neighbors. change Board.W with 15.
    change (Z.of_nat (Z.to_nat Board.W2)) with 225. repeat constructor; lia. }
  rewrite Hr. cbn [mbind result_bind]. destruct (2 <=? _); eauto.
Qed.

Section Moves.

Variables (p : Position.t) (i0 : Z).
Hypothesis Hg : on_grid (Board.board (Position.board p)).
Hypothesis Hi0 : 0 <= i0.

Let b := Board.board (Position.board p).
Let len := Z.of_nat (length b).

Lemma moves_step j :
  b !! Z.to_nat j = Some "." -> 0 <= j ->
  exists e, Board.is_eye (Position.board p) j = Ret e /\
            keeps (Position.board p) j = negb (bool_decide (e = Some "X")).
Proof.
  intros Hj Hj0.
  pose proof (on_grid_point b _ "." Hg Hj eq_refl) as Hr.
  destruct (is_eye_returns b j (on_grid_length _ Hg) ltac:(lia)) as [e He].
  assert (Hb : Position.board p = Board.mk b) by (unfold b; by destruct (Position.board p)).
  rewrite Hb. exists e. split; [exact He|]. unfold keeps. rewrite He.
  destruct e as [e|]; [|reflexivity].
  destruct (Ascii.eqb_spec e "X") as [->|Hne]; [reflexivity|].
  rewrite bool_decide_eq_false_2; [reflexivity|]. by intros [= ->].
Qed.

Lemma moves_second fuel : forall i passes,
  0 <= i -> 0 < passes -> (1 <= fuel)%nat -> len - i <= Z.of_nat fuel ->
  Position.moves_loop fuel p i0 i passes =
  (filter (fun j => keeps (Position.board p) j = true) (empty_between b (i + 1) i0), Ret tt).
Proof.
  induction fuel as [|fuel IH]; intros i passes Hi Hp Hf1 Hf2; [lia|].
  cbn [Position.moves_loop]. fold b. unfold find_from.
  replace (i + 1 <? 0) with false by (symmetry; apply Z.ltb_ge; lia).
  rewrite (empty_between_find b (i + 1) i0) by lia.
  replace (0 <? passes) with true by (symmetry; apply Z.ltb_lt; lia). cbn [andb].
  replace (i0 <=? find "." b (i + 1)) with (i0 <=? find "." b (i + 1)) by reflexivity.
  destruct ((find "." b (i + 1) =? -1) || (i0 <=? find "." b (i + 1))) eqn:E; [reflexivity|].
  apply orb_false_iff in E as [E1%Z.eqb_neq E2%Z.leb_gt].
  replace (find "." b (i + 1) =? -1) with false by (symmetry; by apply Z.eqb_neq).
  destruct (find_spec "." b (i + 1) ltac:(lia)) as [E|[Hj Hx]]; [contradiction|].
  set (j := find "." b (i + 1)) in *.
  destruct (moves_step j Hx ltac:(lia)) as (e & He & Hk).
  rewrite He. fold len in Hj.
  rewrite (IH j passes) by lia.
  case_bool_decide as Ee; cbn [negb] in Hk.
  - rewrite filter_cons_False by (rewrite Hk; discriminate). reflexivity.
  - rewrite filter_cons_True by exact Hk. reflexivity.
Qed.

Lemma moves_first fuel : forall i,
  -1 <= i -> len + 2 <= Z.of_nat fuel -> 2 * len - i + 1 <= Z.of_nat fuel ->
  Position.moves_loop fuel p i0 i 0 =
  (filter (fun j => keeps (Position.board p) j = true) (empty_between b (i + 1) len) ++
   filter (fun j => keeps (Position.board p) j = true) (empty_between b 1 i0), Ret tt).
Proof.
  induction fuel as [|fuel IH]; intros i Hi Hf1 Hf2; [lia|].
  cbn [Position.moves_loop]. fold b. unfold find_from.
  replace (i + 1 <? 0) with false by (symmetry; apply Z.ltb_ge; lia).
  rewrite (empty_between_find b (i + 1) len) by lia.
  cbn [Z.ltb Z.compare andb].
  destruct (find_spec "." b (i + 1) ltac:(lia)) as [E|[Hj Hx]].
  - rewrite E. cbn [Z.eqb orb app].
    apply (moves_second fuel 0 (0 + 1)); lia.
  - set (j := find "." b (i + 1)) in *. fold len in Hj.
    replace (j =? -1) with false by (symmetry; apply Z.eqb_neq; lia).
    replace (len <=? j) with false by (symmetry; apply Z.leb_gt; lia). cbn [orb].
    destruct (moves_step j Hx ltac:(lia)) as (e & He & Hk).
    rewrite He. rewrite (IH j) by lia.
    case_bool_decide as Ee; cbn [negb] in Hk.
    + rewrite filter_cons_False by (rewrite Hk; discriminate). reflexivity.
    + rewrite filter_cons_True by exact Hk. reflexivity.
Qed.

Lemma moves_spec :
  Position.moves p i0 =
  (filter (fun j => keeps (Position.board p) j = true) (empty_between b i0 len) ++
   filter (fun j => keeps (Position.board p) j = true) (empty_between b 1 i0), Ret tt).
Proof.
  unfold Position.moves. fold b.
  rewrite (moves_first _ (i0 - 1)) by (unfold len; lia).
  by replace (i0 - 1 + 1) with i0 by lia.
Qed.

End Moves.

Lemma elem_of_empty_between (b : str) lo hi j :
  j ∈ empty_between b lo hi <-> lo <= j < hi /\ b !! Z.to_nat j = Some ".".
Proof.
  unfold empty_between. rewrite list_elem_of_filter, elem_of_seqZ. split.
  - intros [H1 H2]. split; [lia|exact H1].
  - intros [H1 H2]. split; [exact H2|lia].
Qed.

(** X13. On a board of a game, [moves(i0)] for [i0 >= 0] is exhausted
    after yielding the empty points from index [i0] to the end of the
    board and then those from index 1 up to [i0], each in increasing
    order, without those at which [is_eye] finds an eye of the side to
    move. So it yields exactly the empty points that are not such an eye,
    and none of them twice. *)
Theorem moves_yields (p : Position.t) (i0 : Z)
    (Hg : on_grid (Board.board (Position.board p))) (Hi0 : 0 <= i0) :
  let b := Board.board (Position.board p) in
  let kept := filter (fun j => keeps (Position.board p) j = true) in
  Position.moves p i0 =
    (kept (empty_between b i0 (Z.of_nat (length b))) ++ kept (empty_between b 1 i0), Ret tt) /\
  NoDup (Position.moves p i0).1 /\
  forall j, j ∈ (Position.moves p i0).1 <->
            b !! Z.to_nat j = Some "." /\ keeps (Position.board p) j = true.
Proof.
  intros b kept. pose proof (moves_spec p i0 Hg Hi0) as Hm. fold b in Hm.
  split; [exact Hm|]. rewrite Hm. cbn [fst]. split.
  - apply NoDup_app. split; [|split].
    + apply NoDup_filter. unfold empty_between. apply NoDup_filter, NoDup_seqZ.
    + intros j [_ H1%elem_of_empty_between]%list_elem_of_filter
               [_ H2%elem_of_empty_between]%list_elem_of_filter. lia.
    + apply NoDup_filter. unfold empty_between. apply NoDup_filter, NoDup_seqZ.
  - intros j. unfold kept. rewrite elem_of_app, !list_elem_of_filter, !elem_of_empty_between.
    split.
    + intros [(Hk & Hr & Hx)|(Hk & Hr & Hx)]; auto.
    + intros [Hx Hk].
      pose proof (on_grid_point b _ "." Hg Hx eq_refl).
      pose proof (lookup_lt_Some _ _ _ Hx).
      destruct (Z.le_gt_cases i0 j); [left|right]; (split; [exact Hk|]); (split; [lia|exact Hx]).
Qed.

Lemma moves_yields_witness :
  let p := Position.empty_position in
  let b := Board.board (Position.board p) in
  let kept := filter (fun j => keeps (Position.board p) j = true) in
  Position.moves p 100 =
    (kept (empty_between b 100 (Z.of_nat (length b))) ++ kept (empty_between b 1 100), Ret tt) /\
  NoDup (Position.moves p 100).1 /\
  forall j, j ∈ (Position.moves p 100).1 <->
            b !! Z.to_nat j = Some "." /\ keeps (Position.board p) j = true.
Proof.
  apply (moves_yields Position.empty_position 100).
  - exact on_grid_empty.
  - lia.
Defined.

(** ** [last_moves_neighbors] *)

Lemma NoDup_around c : NoDup (around c).
Proof.
  unfold around, Board.neighbors, Board.diag_neighbors. change Board.W with 15. cbn [app].
  repeat (apply NoDup_cons; split; [rewrite ?elem_of_cons, elem_of_nil; lia|]).
  apply NoDup_nil_2.
Qed.

Section LastMoves.

Variable shuffle : list Z -> list Z.
Hypothesis shuffle_perm : forall l, shuffle l ≡ₚ l.

Lemma add_neighbors_spec l c :
  NoDup l ->
  NoDup (Position.add_neighbors shuffle l c) /\
  forall d, d ∈ Position.add_neighbors shuffle l c <->
            d ∈ l \/ exists c', c = Some c' /\ d ∈ around c'.
Proof.
  intros Hl. destruct c as [c|]; cbn [Position.add_neighbors].
  - fold (around c). split.
    + apply NoDup_app. split; [exact Hl|]. split.
      * intros d Hd [Hnot _]%list_elem_of_filter. contradiction.
      * apply NoDup_filter. rewrite shuffle_perm. apply NoDup_around.
    + intros d. rewrite elem_of_app, list_elem_of_filter, shuffle_perm. split.
      * intros [?|[_ ?]]; [by left|right; eauto].
      * intros [?|(c' & [= <-] & ?)]; [by left|].
        destruct (decide (d ∈ l)); [by left|by right].
  - split; [exact Hl|]. intros d. split; [by left|].
    intros [?|(c' & ? & _)]; [assumption|discriminate].
Qed.

(** X14. Whatever permutation [random.shuffle] applies,
    [last_moves_neighbors] returns a list without duplicates that holds
    exactly the cells of the 3 x 3 squares around the last move and the
    move before it, at most 18 of them; when there is a last move, the
    first nine are its square. *)
Theorem last_moves_neighbors_square (p : Position.t) :
  let r := Position.last_moves_neighbors shuffle p in
  NoDup r /\
  (forall d, d ∈ r <->
     exists c, (Position.last p = Some c \/ Position.last2 p = Some c) /\ d ∈ around c) /\
  (forall c, Position.last p = Some c -> take 9 r ≡ₚ around c) /\
  (length r <= 18)%nat.
Proof.
  intros r. unfold r, Position.last_moves_neighbors.
  destruct (add_neighbors_spec [] (Position.last p) (NoDup_nil_2 (A:=Z))) as [N1 E1].
  destruct (add_neighbors_spec _ (Position.last2 p) N1) as [N2 E2].
  split; [exact N2|]. split; [|split].
  - intros d. rewrite E2, E1. split.
    + intros [[Hd|(c & Hc & Hd)]|(c & Hc & Hd)]; [by apply elem_of_nil in Hd|eauto..].
    + intros (c & [Hc|Hc] & Hd); [left; right|right]; eauto.
  - intros c Hc. rewrite Hc. cbn [Position.add_neighbors app]. fold (around c).
    assert (Hf : filter (fun d => d ∉ []) (shuffle (around c)) = shuffle (around c)).
    { clear. induction (shuffle (around c)) as [|x l IH]; [reflexivity|].
      rewrite filter_cons_True by (by intros ?%elem_of_nil). by rewrite IH. }
    rewrite Hf.
    assert (Hlen : length (shuffle (around c)) = 9%nat).
    { by rewrite shuffle_perm. }
    destruct (Position.last2 p) as [c2|]; cbn [Position.add_neighbors].
    + rewrite take_app_length' by (symmetry; exact Hlen). apply shuffle_perm.
    + rewrite take_ge by lia. apply shuffle_perm.
  - assert (Hlen : forall l c, (length (Position.add_neighbors shuffle l c) <= length l + 9)%nat).
    { intros l [c|]; cbn [Position.add_neighbors]; [|lia].
      rewrite length_app. pose proof (length_filter (fun d => d ∉ l)
        (shuffle (c :: Board.neighbors c ++ Board.diag_neighbors c))) as Hle.
      assert (H9 : length (shuffle (c :: Board.neighbors c ++ Board.diag_neighbors c)) = 9%nat)
        by (by rewrite shuffle_perm).
      lia. }
    pose proof (Hlen [] (Position.last p)).
    pose proof (Hlen (Position.add_neighbors shuffle [] (Position.last p)) (Position.last2 p)).
    cbn [length] in *. lia.
Qed.

End LastMoves.

Lemma last_moves_neighbors_square_witness :
  let r := Position.last_moves_neighbors reverse two_corners_position in
  NoDup r /\
  (forall d, d ∈ r <->
     exists c, (Position.last two_corners_position = Some c \/
                Position.last2 two_corners_position = Some c) /\ d ∈ around c) /\
  (forall c, Position.last two_corners_position = Some c -> take 9 r ≡ₚ around c) /\
  (length r <= 18)%nat.
Proof.
  apply (last_moves_neighbors_square reverse).
  intros l. apply reverse_Permutation.
Defined.

(** ** The maps [mcplayout] hands back *)

Lemma amaf_kept_refl a : amaf_kept a a.
Proof. split; [reflexivity|]. intros k v Hk. by left. Qed.

Lemma amaf_kept_trans a1 a2 a3 : amaf_kept a1 a2 -> amaf_kept a2 a3 -> amaf_kept a1 a3.
Proof.
  intros [L1 H1] [L2 H2]. split; [congruence|]. intros k v Hk.
  destruct (H1 k v Hk) as [E|(-> & [E|E])].
  - by apply H2.
  - destruct (H2 k 1 E) as [E'|(? & _)]; [|lia]. right. auto.
  - destruct (H2 k (-1) E) as [E'|(? & _)]; [|lia]. right. auto.
Qed.

Lemma try_moves_amaf pos cands : forall amaf o amaf',
  Heuristics.try_moves pos amaf cands = Ret (o, amaf') -> amaf_kept amaf amaf'.
Proof.
  induction cands as [|[c rejected] cands IH]; intros amaf o amaf';
    cbn [Heuristics.try_moves].
  - intros [= _ <-]. apply amaf_kept_refl.
  - destruct (Position.move pos c) as [[p2|]| |]; cbn [mbind result_bind];
      try discriminate; [|by apply IH].
    destruct rejected; [by apply IH|].
    destruct (getitem amaf c) as [a| |] eqn:Ea; [|discriminate..].
    cbn [mbind result_bind].
    destruct (Z.eqb_spec a 0) as [->|Hne].
    + destruct (getitem_setitem amaf c (if Position.n pos mod 2 =? 0 then 1 else -1) 0 Ea)
        as (k & Hk & Hx & ->).
      cbn [mbind result_bind]. intros [= _ <-].
      split; [apply length_insert|]. intros j v Hj.
      destruct (decide (j = k)) as [->|Hjk].
      * right. rewrite Hx in Hj. injection Hj as <-. split; [reflexivity|].
        rewrite list_lookup_insert_eq by (by eapply lookup_lt_Some).
        destruct (_ =? 0); auto.
      * left. by rewrite list_lookup_insert_ne.
    + cbn [mbind result_bind]. intros [= _ <-]. apply amaf_kept_refl.
Qed.

Lemma playout_loop_amaf suggest fuel : forall k pos passes amaf pos' amaf',
  Heuristics.playout_loop suggest fuel k pos passes amaf = Ret (pos', amaf') ->
  amaf_kept amaf amaf'.
Proof.
  induction fuel as [|fuel IH]; intros k pos passes amaf pos' amaf';
    cbn [Heuristics.playout_loop].
  - destruct (_ && _); [discriminate|]. intros [= _ <-]. apply amaf_kept_refl.
  - destruct (_ && _); [|intros [= _ <-]; apply amaf_kept_refl].
    destruct (Heuristics.try_moves pos amaf (suggest k pos)) as [[o amaf1]| |] eqn:E;
      [|discriminate..].
    cbn [mbind result_bind]. intros H.
    eapply amaf_kept_trans; [by eapply try_moves_amaf|].
    destruct o as [p2|]; by eapply IH.
Qed.

(** X15. The amaf map a playout returns has the length of the one it was
    given; an entry that was not zero is as it was (the first side to
    play at a point stays recorded), and an entry that was zero is zero,
    1 or -1. *)
Theorem mcplayout_amaf (suggest : nat -> Position.t -> list (Z * bool))
    (pos : Position.t) (amaf amaf' owner_map : list Z) (score : Q)
    (Hrun : Heuristics.mcplayout suggest pos amaf = Ret (score, amaf', owner_map)) :
  length amaf' = length amaf /\
  forall (k : nat) v, amaf !! k = Some v ->
    (v <> 0 -> amaf' !! k = Some v) /\
    (v = 0 -> amaf' !! k = Some 0 \/ amaf' !! k = Some 1 \/ amaf' !! k = Some (-1)).
Proof.
  unfold Heuristics.mcplayout in Hrun.
  destruct (Heuristics.playout_loop _ _ _ _ _ _) as [[pos1 amaf1]| |] eqn:E;
    [|discriminate..].
  cbn [mbind result_bind] in Hrun.
  destruct (Position.score pos1 _) as [[sv om]| |]; [|discriminate..].
  cbn [mbind result_bind] in Hrun. injection Hrun as _ <- _.
  destruct (playout_loop_amaf _ _ _ _ _ _ _ _ E) as [Hlen Hk].
  split; [exact Hlen|]. intros k v Hv.
  destruct (Hk k v Hv) as [E1|(-> & E1)].
  - split; [auto|]. intros ->. by left.
  - split; [congruence|]. intros _. by right.
Qed.

Lemma mcplayout_amaf_witness :
  exists score amaf' owner_map,
    Heuristics.mcplayout first_empty_point Position.empty_position
      (replicate (Z.to_nat Board.W2) 0) = Ret (score, amaf', owner_map) /\
    length amaf' = length (replicate (Z.to_nat Board.W2) 0).
Proof.
  destruct (mcplayout_empty_returns first_empty_point first_empty_point_ok)
    as (pos' & amaf' & score & om & _ & _ & Hrun & _).
  exists score, amaf', om. split; [exact Hrun|].
  apply (mcplayout_amaf first_empty_point Position.empty_position _ amaf' om score Hrun).
Defined.

Lemma owner_loop_bound cs (lb : str) n : forall om om' : list Z,
  NoDup cs -> Forall (fun c => 0 <= c) cs ->
  Position.owner_loop cs lb n om = Ret om' ->
  length om' = length om /\
  forall (k : nat) old, om !! k = Some old ->
    exists new, om' !! k = Some new /\ (Z.of_nat k ∉ cs -> new = old) /\
                -1 <= new - old <= 1.
Proof.
  induction cs as [|c cs IH]; intros om om' Hnd Hcs; cbn [Position.owner_loop].
  - intros [= <-]. split; [reflexivity|]. intros k old Hk. exists old.
    split; [exact Hk|]. split; [auto|lia].
  - apply NoDup_cons in Hnd as [Hc Hnd]. apply Forall_cons in Hcs as [Hc0 Hcs].
    destruct (getitem lb c) as [x| |]; [|discriminate..]. cbn [mbind result_bind].
    destruct (getitem om c) as [old| |] eqn:Eo; [|discriminate..].
    cbn [mbind result_bind]. fold (owner_delta x n).
    destruct (getitem_setitem om c (old + owner_delta x n) old Eo) as (i & Hi & Hx & ->).
    cbn [mbind result_bind]. intros H.
    destruct (index_of_Some om c i Hi) as (_ & Hi0 & _). specialize (Hi0 Hc0). subst i.
    destruct (IH _ _ Hnd Hcs H) as [Hlen Hspec].
    split; [by rewrite Hlen, length_insert|].
    intros k old' Hk. destruct (decide (k = Z.to_nat c)) as [->|Hne].
    + rewrite Hx in Hk. injection Hk as <-.
      destruct (Hspec (Z.to_nat c) (old + owner_delta x n)) as (new & Hn & Hkeep & _).
      { apply list_lookup_insert_eq. by eapply lookup_lt_Some. }
      exists new. split; [exact Hn|]. split.
      * intros Hnot. exfalso. apply Hnot. apply elem_of_cons. left. lia.
      * rewrite Hkeep by (by rewrite Z2Nat.id by lia).
        pose proof (owner_delta_bound x n). lia.
    + destruct (Hspec k old') as (new & Hn & Hkeep & Hb).
      { by rewrite list_lookup_insert_ne. }
      exists new. split; [exact Hn|]. split; [|exact Hb].
      intros Hnot. apply Hkeep. intros Hin. apply Hnot. apply elem_of_cons. by right.
Qed.

(** X16. The owner map a playout returns has W * W entries, each of them
    -1, 0 or 1. *)
Theorem mcplayout_owner_map (suggest : nat -> Position.t -> list (Z * bool))
    (pos : Position.t) (amaf amaf' owner_map : list Z) (score : Q)
    (Hrun : Heuristics.mcplayout suggest pos amaf = Ret (score, amaf', owner_map)) :
  length owner_map = Z.to_nat (Board.W * Board.W) /\
  Forall (fun v => v = -1 \/ v = 0 \/ v = 1) owner_map.
Proof.
  unfold Heuristics.mcplayout in Hrun.
  destruct (Heuristics.playout_loop _ _ _ _ _ _) as [[pos1 amaf1]| |]; [|discriminate..].
  cbn [mbind result_bind] in Hrun.
  destruct (Position.score pos1 _) as [[v om]| |] eqn:Es; [|discriminate..].
  cbn [mbind result_bind] in Hrun. injection Hrun as _ _ <-.
  unfold Position.score in Es.
  destruct (Position.score_loop _ _ _ _) as [[lb|]| |]; cbn [mbind result_bind] in Es;
    try discriminate.
  destruct (Position.owner_loop _ _ _ _) as [om1| |] eqn:Eo; [|discriminate..].
  cbn [mbind result_bind] in Es. injection Es as _ <-. cbn [default]. unfold id.
  assert (Hcs : Forall (fun c => 0 <= c) (seqZ 0 (Board.W * Board.W))).
  { apply Forall_forall. intros c Hc%elem_of_seqZ. lia. }
  destruct (owner_loop_bound _ _ _ _ _ (NoDup_seqZ 0 (Board.W * Board.W)) Hcs Eo)
    as [Hlen Hb].
  rewrite length_replicate in Hlen. split; [exact Hlen|].
  apply Forall_forall. intros x [k Hk]%list_elem_of_lookup.
  assert (Hz : replicate (Z.to_nat (Board.W * Board.W)) 0 !! k = Some 0).
  { apply lookup_replicate_2. apply lookup_lt_Some in Hk. by rewrite Hlen in Hk. }
  destruct (Hb k 0 Hz) as (new & Hn & _ & Hr). rewrite Hk in Hn. injection Hn as <-. lia.
Qed.

Lemma mcplayout_owner_map_witness :
  exists score amaf' owner_map,
    Heuristics.mcplayout first_empty_point Position.empty_position
      (replicate (Z.to_nat Board.W2) 0) = Ret (score, amaf', owner_map) /\
    length owner_map = Z.to_nat (Board.W * Board.W) /\
    Forall (fun v => v = -1 \/ v = 0 \/ v = 1) owner_map.
Proof.
  destruct (mcplayout_empty_returns first_empty_point first_empty_point_ok)
    as (pos' & amaf' & score & om & _ & _ & Hrun & _).
  exists score, amaf', om. split; [exact Hrun|].
  apply (mcplayout_owner_map first_empty_point Position.empty_position _ amaf' om score Hrun).
Defined.

(** ** What a backup writes *)

Section TreeUpdateGrows.

Import Tree.

Lemma grows_refl nd : grows nd nd.
Proof. unfold grows. repeat split; lia. Qed.

Lemma grows_trans nd1 nd2 nd3 : grows nd1 nd2 -> grows nd2 nd3 -> grows nd1 nd3.
Proof.
  unfold grows. intros (A1 & A2 & A3 & A4 & A5 & A6 & A7) (B1 & B2 & B3 & B4 & B5 & B6 & B7).
  repeat split; try congruence; lia.
Qed.

Lemma act_grows st a r :
  counting a -> option_Forall2 grows (st !! r) (act st a !! r).
Proof.
  intros Ha. destruct a as [i k|i k]; destruct Ha as [b ->]; cbn [act];
    rewrite lookup_alter; case_decide as E; subst;
    destruct (st !! r) as [nd|]; constructor; try apply grows_refl;
    unfold grows, add_w, add_amaf; cbn; destruct b; cbn; repeat split; lia.
Qed.

Lemma apply_grows acts : forall st r,
  Forall counting acts -> option_Forall2 grows (st !! r) (apply acts st !! r).
Proof.
  induction acts as [|a acts IH]; intros st r Ha.
  - cbn. destruct (st !! r); constructor. apply grows_refl.
  - apply Forall_cons in Ha as [Ha Hacts].
    change (apply (a :: acts) st) with (apply acts (act st a)).
    pose proof (act_grows st a r Ha) as H1. pose proof (IH (act st a) r Hacts) as H2.
    destruct H1 as [nd nd1 H1|]; inversion H2; subst; constructor.
    by eapply grows_trans.
Qed.

Lemma plan_children_touches children amaf v score st : forall acts,
  plan_children children amaf v score st = Ret acts ->
  Forall (fun a => match a with AddW _ _ => False | AddAmaf r _ => r ∈ children end) acts.
Proof.
  induction children as [|child rest IH]; intros acts; cbn [plan_children].
  - intros [= <-]. constructor.
  - destruct (get st child) as [ch| |]; [|discriminate..]. cbn [mbind result_bind].
    assert (Hw : forall l,
      Forall (fun a => match a with AddW _ _ => False | AddAmaf r _ => r ∈ rest end) l ->
      Forall (fun a => match a with AddW _ _ => False | AddAmaf r _ => r ∈ child :: rest end) l).
    { intros l Hl. eapply Forall_impl; [exact Hl|].
      intros [?|r ?]; [auto|]. intros ?. apply elem_of_cons. by right. }
    destruct (Position.last (TreeNode.pos ch)) as [l|]; [|intros H; by apply Hw, IH].
    destruct (getitem amaf l) as [a| |]; [|discriminate..]. cbn [mbind result_bind].
    destruct (plan_children rest amaf v score st) as [more| |]; [|discriminate..].
    cbn [mbind result_bind]. intros [= <-]. specialize (IH more eq_refl).
    destruct (a =? v); [|by apply Hw]. constructor; [|by apply Hw].
    apply elem_of_cons. by left.
Qed.

Lemma plan_path_touches rnodes amaf st : forall score acts,
  plan_path rnodes amaf score st = Ret acts ->
  Forall (fun a => match a with AddW r _ | AddAmaf r _ => in_reach st rnodes r end) acts.
Proof.
  induction rnodes as [|node rest IH]; intros score acts; cbn [plan_path].
  - intros [= <-]. constructor.
  - unfold get at 1. destruct (st !! node) as [nd|] eqn:En; [|discriminate].
    cbn [mbind result_bind].
    assert (Hw : forall l,
      Forall (fun a => match a with AddW r _ | AddAmaf r _ => in_reach st rest r end) l ->
      Forall (fun a => match a with AddW r _ | AddAmaf r _ => in_reach st (node :: rest) r end) l).
    { intros l Hl. eapply Forall_impl; [exact Hl|].
      assert (Hr : forall r, in_reach st rest r -> in_reach st (node :: rest) r).
      { intros r [H|(n' & nd' & ch & H & ?)]; [left|right].
        - apply elem_of_cons. by right.
        - exists n', nd', ch. split; [apply elem_of_cons; by right|assumption]. }
      intros [r ?|r ?]; apply Hr. }
    destruct (TreeNode.children nd) as [children|] eqn:Ech.
    + destruct (plan_children children amaf _ score st) as [l| |] eqn:El; [|discriminate..].
      cbn [mbind result_bind].
      destruct (plan_path rest amaf (- score) st) as [more| |] eqn:E; [|discriminate..].
      cbn [mbind result_bind]. intros [= <-].
      constructor; [left; apply elem_of_cons; by left|].
      apply Forall_app. split; [|by eapply Hw, IH].
      eapply Forall_impl; [by eapply plan_children_touches|].
      intros [?|r ?]; [contradiction|]. intros Hr. right.
      exists node, nd, children. split; [apply elem_of_cons; by left|auto].
    + cbn [mbind result_bind].
      destruct (plan_path rest amaf (- score) st) as [more| |] eqn:E; [|discriminate..].
      cbn [mbind result_bind]. intros [= <-].
      constructor; [left; apply elem_of_cons; by left|]. by eapply Hw, IH.
Qed.

Lemma apply_untouched acts r : forall st,
  Forall (fun a => match a with AddW r' _ | AddAmaf r' _ => r' <> r end) acts ->
  apply acts st !! r = st !! r.
Proof.
  induction acts as [|a acts IH]; intros st Ha; [reflexivity|].
  apply Forall_cons in Ha as [Ha Hacts].
  change (apply (a :: acts) st) with (apply acts (act st a)).
  rewrite (IH _ Hacts). destruct a as [i k|i k]; cbn [act]; by rewrite lookup_alter_ne.
Qed.

(** X17. A backup that completes keeps every node of the tree and adds
    none; of a node it keeps the position, the visits, the priors and the
    children, never lowers the wins, and raises the amaf wins by at most
    what it raises the amaf visits by. A node that is neither on the path
    nor a child of a node of the path is not written to at all. *)
Theorem tree_update_grows (nodes : list TreeNode.ref) (amaf : list Z) (score : Q)
    (st st' : Tree.store)
    (r : TreeNode.ref) :
  Tree.tree_update nodes amaf score st = Ret st' ->
  option_Forall2 grows (st !! r) (st' !! r) /\
  (~ in_reach st nodes r -> st' !! r = st !! r).
Proof.
  rewrite (tree_update_plan nodes amaf score st st (same_shape_refl st)).
  destruct (plan_path (reverse nodes) amaf score st) as [acts| |] eqn:E; [|discriminate..].
  cbn [mbind result_bind]. intros [= <-]. split.
  - apply apply_grows. by eapply plan_path_counting.
  - intros Hr. apply apply_untouched.
    eapply Forall_impl; [by eapply plan_path_touches|].
    assert (Hrev : forall r', in_reach st (reverse nodes) r' -> in_reach st nodes r').
    { intros r' [H|(n' & nd' & ch & H & ?)]; [left|right].
      - rewrite elem_of_reverse in H. exact H.
      - exists n', nd', ch. rewrite elem_of_reverse in H. split; assumption. }
    intros [r' ?|r' ?] Hin ->; apply Hr, Hrev, Hin.
Qed.

End TreeUpdateGrows.

Lemma tree_update_grows_witness :
  exists st',
    Tree.tree_update [0%nat; 1%nat] (amaf_black_at 100) (35 # 10) sample_tree = Ret st' /\
    option_Forall2 grows (sample_tree !! 2%nat) (st' !! 2%nat) /\
    (~ in_reach sample_tree [0%nat; 1%nat] 2%nat -> st' !! 2%nat = sample_tree !! 2%nat).
Proof.
  assert (H1 : exists st1,
    Tree.tree_update [0%nat; 1%nat] (amaf_black_at 100) (35 # 10) sample_tree = Ret st1)
    by (eexists; vm_compute; reflexivity).
  destruct H1 as [st1 H1]. exists st1. split; [exact H1|].
  apply (tree_update_grows _ _ _ _ _ 2%nat H1).
Defined.

Section TreeUpdateWins.

Import Tree.

Lemma w_gain_app r acts more : w_gain r (acts ++ more) = w_gain r acts + w_gain r more.
Proof.
  induction acts as [|a acts IH]; [reflexivity|]. cbn [app].
  unfold w_gain in *. cbn [foldr]. destruct a as [r' k|r' k]; [|exact IH].
  case_decide; lia.
Qed.

Lemma apply_w_gain acts r : forall st nd,
  st !! r = Some nd ->
  exists nd', apply acts st !! r = Some nd' /\
              TreeNode.w nd' = TreeNode.w nd + w_gain r acts.
Proof.
  induction acts as [|a acts IH]; intros st nd Hr.
  - exists nd. split; [exact Hr|]. cbn. lia.
  - change (apply (a :: acts) st) with (apply acts (act st a)).
    destruct a as [r' k|r' k]; cbn [act].
    + destruct (decide (r' = r)) as [->|Hne].
      * destruct (IH (alter (add_w k) r st) (add_w k nd)) as (nd' & E & Hw).
        { by rewrite lookup_alter_eq, Hr. }
        exists nd'. split; [exact E|]. rewrite Hw. unfold w_gain. cbn [foldr].
        rewrite decide_True by reflexivity. cbn. lia.
      * destruct (IH (alter (add_w k) r' st) nd) as (nd' & E & Hw).
        { by rewrite lookup_alter_ne. }
        exists nd'. split; [exact E|]. rewrite Hw. unfold w_gain. cbn [foldr].
        by rewrite decide_False.
    + destruct (decide (r' = r)) as [->|Hne].
      * destruct (IH (alter (add_amaf k) r st) (add_amaf k nd)) as (nd' & E & Hw).
        { by rewrite lookup_alter_eq, Hr. }
        exists nd'. split; [exact E|]. rewrite Hw. reflexivity.
      * destruct (IH (alter (add_amaf k) r' st) nd) as (nd' & E & Hw).
        { by rewrite lookup_alter_ne. }
        exists nd'. split; [exact E|]. rewrite Hw. reflexivity.
Qed.

Lemma w_gain_amaf r acts :
  Forall (fun a => match a with AddW _ _ => False | AddAmaf _ _ => True end) acts ->
  w_gain r acts = 0.
Proof.
  induction 1 as [|a acts Ha _ IH]; [reflexivity|].
  destruct a; [contradiction|exact IH].
Qed.

Lemma plan_path_gain rnodes amaf st : forall score acts,
  plan_path rnodes amaf score st = Ret acts -> NoDup rnodes ->
  (forall r, r ∉ rnodes -> w_gain r acts = 0) /\
  (forall (i : nat) r, rnodes !! i = Some r ->
     w_gain r acts = Z_of_bool (Qltb (flip i score) 0)).
Proof.
  induction rnodes as [|node rest IH]; intros score acts; cbn [plan_path].
  - intros [= <-] _. split; [reflexivity|]. intros i r Hi. by rewrite lookup_nil in Hi.
  - destruct (get st node) as [nd| |]; [|discriminate..]. cbn [mbind result_bind].
    destruct (match TreeNode.children nd with Some _ => _ | None => _ end)
      as [l| |] eqn:El; [|discriminate..].
    cbn [mbind result_bind].
    destruct (plan_path rest amaf (- score) st) as [more| |] eqn:E; [|discriminate..].
    cbn [mbind result_bind]. intros [= <-] [Hnode Hnd]%NoDup_cons.
    destruct (IH _ _ E Hnd) as [IH0 IHi].
    assert (Hl : forall r, w_gain r l = 0).
    { intros r. apply w_gain_amaf. destruct (TreeNode.children nd) as [children|].
      - eapply Forall_impl; [by eapply plan_children_touches|]. by intros [].
      - injection El as <-. constructor. }
    assert (Hcons : forall r,
      w_gain r (AddW node (Z_of_bool (Qltb score 0)) :: l ++ more) =
      (if decide (node = r) then Z_of_bool (Qltb score 0) else 0) + w_gain r more).
    { intros r. change (w_gain r (AddW node (Z_of_bool (Qltb score 0)) :: l ++ more))
        with (if decide (node = r) then Z_of_bool (Qltb score 0) + w_gain r (l ++ more)
              else w_gain r (l ++ more)).
      rewrite w_gain_app, Hl. case_decide; lia. }
    split.
    + intros r Hr. rewrite Hcons, decide_False, IH0; [reflexivity| |].
      * intros Hin. apply Hr. apply elem_of_cons. by right.
      * intros ->. apply Hr. apply elem_of_cons. by left.
    + intros [|i] r Hi; cbn in Hi.
      * injection Hi as ->. rewrite Hcons, decide_True, IH0 by done. cbn [flip]. lia.
      * rewrite Hcons, decide_False, (IHi i r Hi); [reflexivity|].
        intros ->. apply Hnode. apply list_elem_of_lookup. eauto.
Qed.

Lemma Qltb_opp s : Qltb (- s) 0 = Qltb 0 s /\ Qltb 0 (- s) = Qltb s 0.
Proof.
  unfold Qltb. destruct s as [n d]. cbn.
  split; [destruct (Z.ltb_spec (- n * 1) 0), (Z.ltb_spec 0 (n * 1))
         |destruct (Z.ltb_spec 0 (- n * 1)), (Z.ltb_spec (n * 1) 0)]; lia.
Qed.

Lemma Qltb_flip i : forall s,
  Qltb (flip i s) 0 = (if Nat.even i then Qltb s 0 else Qltb 0 s) /\
  Qltb 0 (flip i s) = (if Nat.even i then Qltb 0 s else Qltb s 0).
Proof.
  induction i as [i IH] using (well_founded_induction lt_wf). intros s.
  destruct i as [|[|i]]; cbn [flip Nat.even].
  - auto.
  - apply Qltb_opp.
  - destruct (IH i ltac:(lia) (- - s)%Q) as [H1 H2]. rewrite H1, H2.
    destruct (Qltb_opp (- s)) as [A B], (Qltb_opp s) as [C D].
    rewrite A, B, C, D. auto.
Qed.

(** X18. A backup along a path without repeated nodes credits the wins
    alternately: the last node of the path gains a win when the score is
    negative, the node before it when the score is positive, and so on up
    the path; with a score of zero nobody gains a win. *)
Theorem tree_update_wins (nodes : list TreeNode.ref) (amaf : list Z) (score : Q)
    (st st' : Tree.store) (i : nat) (r : TreeNode.ref) (nd : TreeNode.t) :
  NoDup nodes ->
  Tree.tree_update nodes amaf score st = Ret st' ->
  reverse nodes !! i = Some r -> st !! r = Some nd ->
  exists nd', st' !! r = Some nd' /\
    TreeNode.w nd' = TreeNode.w nd +
      Tree.Z_of_bool (if Nat.even i then Tree.Qltb score 0 else Tree.Qltb 0 score).
Proof.
  intros Hnd. rewrite (tree_update_plan nodes amaf score st st (same_shape_refl st)).
  destruct (plan_path (reverse nodes) amaf score st) as [acts| |] eqn:E; [|discriminate..].
  cbn [mbind result_bind]. intros [= <-] Hi Hr.
  destruct (apply_w_gain acts r st nd Hr) as (nd' & E' & Hw).
  exists nd'. split; [exact E'|]. rewrite Hw. f_equal.
  assert (Hrev : NoDup (reverse nodes)) by (by rewrite reverse_Permutation).
  destruct (plan_path_gain _ _ _ _ _ E Hrev) as [_ Hg].
  rewrite (Hg i r Hi). f_equal. apply Qltb_flip.
Qed.

End TreeUpdateWins.

Lemma tree_update_wins_witness :
  exists st' nd',
    Tree.tree_update [0%nat; 1%nat] (amaf_black_at 100) (35 # 10) sample_tree = Ret st' /\
    st' !! 0%nat = Some nd' /\
    TreeNode.w nd' = 0 + Tree.Z_of_bool (Tree.Qltb 0 (35 # 10)).
Proof.
  assert (H1 : exists st1,
    Tree.tree_update [0%nat; 1%nat] (amaf_black_at 100) (35 # 10) sample_tree = Ret st1)
    by (eexists; vm_compute; reflexivity).
  destruct H1 as [st1 H1].
  assert (Hnd : NoDup [0%nat; 1%nat]).
  { apply NoDup_cons. split; [|apply NoDup_singleton].
    rewrite list_elem_of_singleton. discriminate. }
  destruct (tree_update_wins [0%nat; 1%nat] _ _ _ _ 1%nat 0%nat
              (TreeNode.mk Position.empty_position 2 0 10 5 0 0 (Some [1%nat; 2%nat]))
              Hnd H1 eq_refl eq_refl)
    as (nd' & E & Hw).
  exists st1, nd'. auto.
Defined.

(** ** [best_move] *)

Section BestMove.

Import Tree.

Lemma max_by_v_spec st rest : forall best best_v ndb r,
  st !! best = Some ndb -> TreeNode.v ndb = best_v ->
  max_by_v st rest best best_v = Ret r ->
  exists ndr, st !! r = Some ndr /\ best_v <= TreeNode.v ndr /\
    (r = best \/ r ∈ rest) /\
    (forall c ndc, c ∈ rest -> st !! c = Some ndc -> TreeNode.v ndc <= TreeNode.v ndr) /\
    (r <> best -> best_v < TreeNode.v ndr) /\
    (forall (j : nat) c ndc, rest !! j = Some c -> st !! c = Some ndc ->
       (forall k : nat, (k <= j)%nat -> rest !! k <> Some r) -> r <> best ->
       TreeNode.v ndc < TreeNode.v ndr).
Proof.
  induction rest as [|c rest IH]; intros best best_v ndb r Hb Hv; cbn [max_by_v].
  - intros [= <-]. exists ndb. split; [exact Hb|]. split; [lia|]. split; [by left|].
    split; [by intros c ndc ?%elem_of_nil|]. split; [congruence|].
    intros j c ndc Hj. by rewrite lookup_nil in Hj.
  - unfold get. destruct (st !! c) as [nd|] eqn:Ec; [|discriminate].
    cbn [mbind result_bind]. destruct (Z.ltb_spec best_v (TreeNode.v nd)) as [Hlt|Hge].
    + intros H. destruct (IH c (TreeNode.v nd) nd r Ec eq_refl H)
        as (ndr & Er & Hle & Hin & Hmax & Hstrict & Hfirst).
      exists ndr. split; [exact Er|]. split; [lia|]. split.
      { right. apply elem_of_cons. destruct Hin as [->|Hin]; auto. }
      split.
      { intros c' ndc [->|Hc']%elem_of_cons Ec'; [|by eapply Hmax].
        rewrite Ec in Ec'. injection Ec' as <-. exact Hle. }
      split; [intros _; lia|].
      intros [|j] c' ndc Hj Ec' Hbefore Hrb; cbn in Hj.
      * injection Hj as <-. rewrite Ec in Ec'. injection Ec' as <-.
        destruct (decide (r = c)) as [->|Hrc].
        { exfalso. by apply (Hbefore 0%nat ltac:(lia)). }
        by apply Hstrict.
      * apply (Hfirst j c' ndc Hj Ec').
        { intros k Hk. apply (Hbefore (S k)). lia. }
        intros ->. by apply (Hbefore 0%nat ltac:(lia)).
    + intros H. destruct (IH best best_v ndb r Hb Hv H)
        as (ndr & Er & Hle & Hin & Hmax & Hstrict & Hfirst).
      exists ndr. split; [exact Er|]. split; [exact Hle|]. split.
      { destruct Hin as [->|Hin]; [by left|right; apply elem_of_cons; by right]. }
      split.
      { intros c' ndc [->|Hc']%elem_of_cons Ec'; [|by eapply Hmax].
        rewrite Ec in Ec'. injection Ec' as <-. lia. }
      split; [exact Hstrict|].
      intros [|j] c' ndc Hj Ec' Hbefore Hrb; cbn in Hj.
      * injection Hj as <-. rewrite Ec in Ec'. injection Ec' as <-.
        specialize (Hstrict Hrb). lia.
      * apply (Hfirst j c' ndc Hj Ec'); [|exact Hrb].
        intros k Hk. apply (Hbefore (S k)). lia.
Qed.

Lemma best_move_spec_aux st self :
  match best_move st self with
  | Ret None =>
      exists nd, st !! self = Some nd /\ TreeNode.children nd = None
  | Ret (Some r) =>
      exists nd children ndr,
        st !! self = Some nd /\ TreeNode.children nd = Some children /\
        st !! r = Some ndr /\ r ∈ children /\
        (forall c ndc, c ∈ children -> st !! c = Some ndc ->
           TreeNode.v ndc <= TreeNode.v ndr) /\
        (forall (j : nat) c ndc, children !! j = Some c -> st !! c = Some ndc ->
           (forall k : nat, (k <= j)%nat -> children !! k <> Some r) ->
           TreeNode.v ndc < TreeNode.v ndr)
  | Raise ValueError =>
      exists nd, st !! self = Some nd /\ TreeNode.children nd = Some []
  | Raise AttributeError =>
      st !! self = None \/
      exists nd children c, st !! self = Some nd /\
        TreeNode.children nd = Some children /\ c ∈ children /\ st !! c = None
  | _ => False
  end.
Proof.
  unfold best_move, get. destruct (st !! self) as [nd|] eqn:Es; [|by left].
  cbn [mbind result_bind]. destruct (TreeNode.children nd) as [[|c rest]|] eqn:Ech.
  - eauto.
  - destruct (st !! c) as [c0|] eqn:Ec.
    2:{ right. exists nd, (c :: rest), c. repeat split; auto. apply elem_of_cons. by left. }
    cbn [mbind result_bind].
    destruct (max_by_v st rest c (TreeNode.v c0)) as [r|e|] eqn:Em.
    + cbn [mbind result_bind].
      destruct (max_by_v_spec st rest c _ c0 r Ec eq_refl Em)
        as (ndr & Er & Hle & Hin & Hmax & Hstrict & Hfirst).
      exists nd, (c :: rest), ndr. repeat split; auto.
      * apply elem_of_cons. destruct Hin as [->|Hin]; auto.
      * intros c' ndc [->|Hc']%elem_of_cons Ec'; [|by eapply Hmax].
        rewrite Ec in Ec'. injection Ec' as <-. exact Hle.
      * intros [|j] c' ndc Hj Ec' Hbefore; cbn in Hj.
        -- injection Hj as <-. rewrite Ec in Ec'. injection Ec' as <-.
           apply Hstrict. intros ->. by apply (Hbefore 0%nat ltac:(lia)).
        -- apply (Hfirst j c' ndc Hj Ec').
           ++ intros k Hk. apply (Hbefore (S k)). lia.
           ++ intros ->. by apply (Hbefore 0%nat ltac:(lia)).
    + cbn [mbind result_bind].
      assert (He : e = AttributeError /\ exists c', c' ∈ rest /\ st !! c' = None).
      { clear -Em. revert Em. generalize c (TreeNode.v c0).
        induction rest as [|c1 rest IH]; intros b bv; cbn [max_by_v]; [discriminate|].
        unfold get. destruct (st !! c1) as [n1|] eqn:E1.
        - cbn [mbind result_bind]. destruct (bv <? TreeNode.v n1); intros H;
            destruct (IH _ _ H) as (-> & c' & ? & ?); (split; [reflexivity|]);
            exists c'; (split; [apply elem_of_cons; by right|assumption]).
        - cbn [mbind result_bind]. intros [= <-]. split; [reflexivity|].
          exists c1. split; [apply elem_of_cons; by left|exact E1]. }
      destruct He as (-> & c' & Hc' & Ec'). right.
      exists nd, (c :: rest), c'. repeat split; auto. apply elem_of_cons. by right.
    + exfalso. clear -Em. revert Em. generalize c (TreeNode.v c0).
      induction rest as [|c1 rest IH]; intros b bv; cbn [max_by_v]; [discriminate|].
      unfold get. destruct (st !! c1) as [n1|]; cbn [mbind result_bind]; [|discriminate].
      destruct (bv <? TreeNode.v n1); apply IH.
  - eauto.
Qed.

End BestMove.

(** X19. [best_move] on a node of the tree store: a leaf has none; a node
    with an empty list of children raises [ValueError] ([max] of an empty
    sequence); otherwise the result is a child whose visits no child
    exceeds, and the first such child: every child listed before it has
    fewer visits. *)
Theorem best_move_spec (st : Tree.store) (self : TreeNode.ref) (nd : TreeNode.t)
    (Hself : st !! self = Some nd)
    (Hch : forall children c, TreeNode.children nd = Some children -> c ∈ children ->
                              is_Some (st !! c)) :
  match TreeNode.children nd with
  | None => Tree.best_move st self = Ret None
  | Some [] => Tree.best_move st self = Raise ValueError
  | Some children =>
      exists r ndr,
        Tree.best_move st self = Ret (Some r) /\
        st !! r = Some ndr /\ r ∈ children /\
        (forall c ndc, c ∈ children -> st !! c = Some ndc ->
           TreeNode.v ndc <= TreeNode.v ndr) /\
        (forall (j : nat) c ndc, children !! j = Some c -> st !! c = Some ndc ->
           (forall k : nat, (k <= j)%nat -> children !! k <> Some r) ->
           TreeNode.v ndc < TreeNode.v ndr)
  end.
Proof.
  pose proof (best_move_spec_aux st self) as H.
  destruct (TreeNode.children nd) as [[|c rest]|] eqn:Ech.
  - unfold Tree.best_move, Tree.get. by rewrite Hself; cbn; rewrite Ech.
  - destruct (Tree.best_move st self) as [[r|]|[]|] eqn:E; try contradiction.
    + destruct H as (nd' & children & ndr & Hs & Hc & Hr & Hin & Hmax & Hfirst).
      rewrite Hself in Hs. injection Hs as <-. rewrite Ech in Hc. injection Hc as <-.
      exists r, ndr. auto.
    + destruct H as (nd' & Hs & Hc). rewrite Hself in Hs. injection Hs as <-. congruence.
    + destruct H as [Hs|(nd' & children & c' & Hs & Hc & Hin & Hnone)]; [congruence|].
      rewrite Hself in Hs. injection Hs as <-. rewrite Ech in Hc.
      destruct (Hch children c' Hc Hin) as [x Hx]. congruence.
    + destruct H as (nd' & Hs & Hc). rewrite Hself in Hs. injection Hs as <-. congruence.
  - unfold Tree.best_move, Tree.get. by rewrite Hself; cbn; rewrite Ech.
Qed.

Lemma best_move_spec_witness :
  exists r ndr,
    Tree.best_move sample_tree 0%nat = Ret (Some r) /\
    sample_tree !! r = Some ndr /\ r ∈ [1%nat; 2%nat] /\
    (forall c ndc, c ∈ [1%nat; 2%nat] -> sample_tree !! c = Some ndc ->
       TreeNode.v ndc <= TreeNode.v ndr) /\
    (forall (j : nat) c ndc, [1%nat; 2%nat] !! j = Some c -> sample_tree !! c = Some ndc ->
       (forall k : nat, (k <= j)%nat -> [1%nat; 2%nat] !! k <> Some r) ->
       TreeNode.v ndc < TreeNode.v ndr).
Proof.
  apply (best_move_spec sample_tree 0%nat
           (TreeNode.mk Position.empty_position 2 0 10 5 0 0 (Some [1%nat; 2%nat]))).
  - reflexivity.
  - intros children c [= <-]. rewrite !elem_of_cons, elem_of_nil.
    intros [->|[->|[]]]; eexists; reflexivity.
Defined.

(** ** [empty_area] and [neighborhood_33] *)

Lemma empty_area_loop_spec (b : str) (rec : Z -> result bool) dist ds (P : Z -> Prop) :
  Forall (fun d => 0 <= d < Z.of_nat (length b)) ds ->
  (forall d, d ∈ ds -> b !! Z.to_nat d = Some "." -> 1 < dist ->
     exists r, rec d = Ret r /\ (r = false <-> P d)) ->
  exists r, Board.empty_area_loop rec b dist ds = Ret r /\
    (r = false <->
     exists d, d ∈ ds /\
       ((exists a, b !! Z.to_nat d = Some a /\ (a = "X" \/ a = "x")) \/
        (b !! Z.to_nat d = Some "." /\ 1 < dist /\ P d))).
Proof.
  induction 1 as [|d ds Hd Hds IH]; intros Hrec; cbn [Board.empty_area_loop].
  - exists true. split; [reflexivity|]. split; [discriminate|].
    intros (d & Hd & _). by apply elem_of_nil in Hd.
  - destruct (lookup_lt_is_Some_2 b (Z.to_nat d)) as [x Hx]; [lia|].
    rewrite (getitem_nonneg b d x) by (lia || exact Hx). cbn [mbind result_bind].
    assert (Hrest : exists r, Board.empty_area_loop rec b dist ds = Ret r /\
      (r = false <->
       exists d', d' ∈ ds /\
         ((exists a, b !! Z.to_nat d' = Some a /\ (a = "X" \/ a = "x")) \/
          (b !! Z.to_nat d' = Some "." /\ 1 < dist /\ P d')))).
    { apply IH. intros d' Hd'. apply Hrec. apply elem_of_cons. by right. }
    destruct (Ascii.eqb x "X" || Ascii.eqb x "x") eqn:Est.
    { exists false. split; [reflexivity|]. split; [|reflexivity]. intros _.
      exists d. split; [apply elem_of_cons; by left|]. left. exists x. split; [exact Hx|].
      apply orb_true_iff in Est as [E%Ascii.eqb_eq|E%Ascii.eqb_eq]; auto. }
    apply orb_false_iff in Est as [E1%Ascii.eqb_neq E2%Ascii.eqb_neq].
    assert (Hskip : forall r,
      (r = false <->
       exists d', d' ∈ ds /\
         ((exists a, b !! Z.to_nat d' = Some a /\ (a = "X" \/ a = "x")) \/
          (b !! Z.to_nat d' = Some "." /\ 1 < dist /\ P d'))) ->
      ~ (b !! Z.to_nat d = Some "." /\ 1 < dist /\ P d) ->
      (r = false <->
       exists d', d' ∈ d :: ds /\
         ((exists a, b !! Z.to_nat d' = Some a /\ (a = "X" \/ a = "x")) \/
          (b !! Z.to_nat d' = Some "." /\ 1 < dist /\ P d')))).
    { intros r Hr Hnot. rewrite Hr. split.
      - intros (d' & Hd' & H). exists d'. split; [apply elem_of_cons; by right|exact H].
      - intros (d' & [->|Hd']%elem_of_cons & H); [|eauto].
        exfalso. destruct H as [(a & Ha & Hst)|H]; [|contradiction].
        rewrite Hx in Ha. injection Ha as <-. destruct Hst; contradiction. }
    destruct (Ascii.eqb_spec x ".") as [->|Hdot]; cbn [andb].
    + destruct (Z.ltb_spec 1 dist) as [Hdist|Hdist].
      * destruct (Hrec d ltac:(apply elem_of_cons; by left) Hx Hdist) as (r & -> & Hr).
        cbn [mbind result_bind]. destruct r; cbn [negb].
        -- destruct Hrest as (r' & -> & Hr'). exists r'. split; [reflexivity|].
           apply Hskip; [exact Hr'|]. intros (_ & _ & HP). apply Hr in HP. discriminate.
        -- exists false. split; [reflexivity|]. split; [|reflexivity]. intros _.
           exists d. split; [apply elem_of_cons; by left|]. right.
           split; [exact Hx|]. split; [exact Hdist|]. by apply Hr.
      * destruct Hrest as (r' & -> & Hr'). exists r'. split; [reflexivity|].
        apply Hskip; [exact Hr'|]. intros (_ & ? & _). lia.
    + destruct Hrest as (r' & -> & Hr'). exists r'. split; [reflexivity|].
      apply Hskip; [exact Hr'|]. intros (E & _). rewrite Hx in E. by injection E.
Qed.

Lemma near_stone_iff (b : str) dist c :
  near_stone b dist c <->
  exists d, d ∈ Board.neighbors c /\
    ((exists a, b !! Z.to_nat d = Some a /\ (a = "X" \/ a = "x")) \/
     (b !! Z.to_nat d = Some "." /\ 1 < dist /\ near_stone b (dist - 1) d)).
Proof.
  split.
  - intros [dist' c' d a Hd Ha Hst|dist' c' d Hd Ha Hdist Hn]; exists d; split; eauto.
  - intros (d & Hd & [(a & Ha & Hst)|(Ha & Hdist & Hn)]).
    + by eapply near_here.
    + by eapply near_step.
Qed.

Lemma empty_area_depth_spec (b : str) (Hg : on_grid b) depth : forall c dist,
  on_board c -> (1 <= depth)%nat -> dist <= Z.of_nat depth ->
  exists r, Board.empty_area_depth depth b c dist = Ret r /\
            (r = false <-> near_stone b dist c).
Proof.
  induction depth as [|depth IH]; intros c dist Hc Hd1 Hd; [lia|].
  cbn [Board.empty_area_depth].
  destruct (empty_area_loop_spec b
              (fun d => Board.empty_area_depth depth b d (dist - 1)) dist
              (Board.neighbors c) (near_stone b (dist - 1))) as (r & Hr & Hspec).
  - eapply Forall_impl; [by apply neighbors_in_range|]. intros d Hdr. cbn beta in Hdr.
    rewrite (on_grid_length _ Hg). change (Z.of_nat (Z.to_nat Board.W2)) with Board.W2. lia.
  - intros d Hdn Hdot Hdist. apply IH; [|lia|lia].
    pose proof (on_grid_point b _ "." Hg Hdot eq_refl).
    assert (0 <= d).
    { pose proof (neighbors_in_range c Hc) as Hr. rewrite Forall_forall in Hr.
      specialize (Hr d Hdn). cbn beta in Hr. lia. }
    unfold on_board. change Board.W with 15. change Board.W2 with 225. lia.
  - exists r. split; [exact Hr|]. by rewrite Hspec, near_stone_iff.
Qed.

(** X21. On a board of a game, [empty_area(c, dist)] at a coordinate
    between the first and the last row returns, and it returns False
    exactly when a stone is reached from [c] in at most [dist] steps
    between neighbours, every step but the last through an empty point
    (with [dist] below 1, when a neighbour of [c] holds a stone). *)
Theorem empty_area_spec (b : str) (c dist : Z)
    (Hg : on_grid b) (Hc : on_board c) :
  exists r, Board.empty_area (Board.mk b) c dist = Ret r /\
            (r = false <-> near_stone b dist c).
Proof.
  unfold Board.empty_area. cbn [Board.board].
  apply empty_area_depth_spec; [exact Hg|exact Hc|lia|lia].
Qed.

Lemma empty_area_spec_witness :
  exists r, Board.empty_area (Board.mk Board.empty) 100 3 = Ret r /\
            (r = false <-> near_stone Board.empty 3 100).
Proof.
  apply (empty_area_spec Board.empty 100 3).
  - exact on_grid_empty.
  - unfold on_board, Board.W2, Board.W, Board.N. lia.
Defined.

Lemma slice_lookup {A} (l : list A) (i j : Z) (k : nat) :
  0 <= i -> i <= j -> j <= Z.of_nat (length l) ->
  slice l i j !! k =
  if decide (Z.of_nat k < j - i) then l !! (Z.to_nat i + k)%nat else None.
Proof.
  intros Hi Hij Hj. unfold slice, slice_bound.
  replace (i <? 0) with false by (symmetry; apply Z.ltb_ge; lia).
  replace (j <? 0) with false by (symmetry; apply Z.ltb_ge; lia).
  replace (Z.to_nat (i `min` Z.of_nat (length l))) with (Z.to_nat i) by lia.
  replace (Z.to_nat (j `min` Z.of_nat (length l))) with (Z.to_nat j) by lia.
  case_decide as Hk.
  - rewrite lookup_take_lt by lia. apply lookup_drop.
  - apply lookup_take_ge. lia.
Qed.

Lemma slice_length {A} (l : list A) (i j : Z) :
  0 <= i -> i <= j -> j <= Z.of_nat (length l) ->
  length (slice l i j) = Z.to_nat (j - i).
Proof.
  intros Hi Hij Hj. unfold slice, slice_bound.
  replace (i <? 0) with false by (symmetry; apply Z.ltb_ge; lia).
  replace (j <? 0) with false by (symmetry; apply Z.ltb_ge; lia).
  rewrite length_take, length_drop. lia.
Qed.

(** X22. [neighborhood_33(c)] for a coordinate with the three cells above
    and the three below inside the board string: nine characters, the
    cells of the 3 x 3 square around [c] row by row, with every line feed
    replaced by a blank; the fifth is the cell at [c]. *)
Theorem neighborhood_33_square (b : str) (c : Z)
    (Hc : Board.W + 1 <= c <= Z.of_nat (length b) - Board.W - 2) :
  length (Board.neighborhood_33 (Board.mk b) c) = 9%nat /\
  forall row col : Z, 0 <= row < 3 -> 0 <= col < 3 ->
    Board.neighborhood_33 (Board.mk b) c !! Z.to_nat (3 * row + col) =
    (fun a => if Ascii.eqb a "010" then " " else a) <$>
      b !! Z.to_nat (c + (row - 1) * Board.W + (col - 1)).
Proof.
  change Board.W with 15 in *.
  assert (L1 : length (slice b (c - 15 - 1) (c - 15 + 2)) = 3%nat)
    by (rewrite slice_length by lia; lia).
  assert (L2 : length (slice b (c - 1) (c + 2)) = 3%nat)
    by (rewrite slice_length by lia; lia).
  assert (L3 : length (slice b (c + 15 - 1) (c + 15 + 2)) = 3%nat)
    by (rewrite slice_length by lia; lia).
  assert (Hnth : forall k : nat,
    (slice b (c - 15 - 1) (c - 15 + 2) ++ slice b (c - 1) (c + 2) ++
     slice b (c + 15 - 1) (c + 15 + 2)) !! k =
    if decide (k < 3)%nat then b !! (Z.to_nat (c - 16) + k)%nat
    else if decide (k < 6)%nat then b !! (Z.to_nat (c - 1) + (k - 3))%nat
    else if decide (k < 9)%nat then b !! (Z.to_nat (c + 14) + (k - 6))%nat
    else None).
  { intros k. destruct (decide (k < 3)%nat) as [H3|H3].
    - rewrite lookup_app_l by lia. rewrite slice_lookup by lia.
      rewrite decide_True by lia. f_equal. lia.
    - rewrite lookup_app_r by lia. rewrite L1.
      destruct (decide (k < 6)%nat) as [H6|H6].
      + rewrite lookup_app_l by lia. rewrite slice_lookup by lia.
        rewrite decide_True by lia. reflexivity.
      + rewrite lookup_app_r by lia. rewrite L2. rewrite slice_lookup by lia.
        destruct (decide (k < 9)%nat) as [H9|H9].
        * rewrite decide_True by lia. f_equal. lia.
        * rewrite decide_False by lia. reflexivity. }
  unfold Board.neighborhood_33. cbn [Board.board]. change Board.W with 15. split.
  - rewrite replace_length, !length_app, L1, L2, L3. reflexivity.
  - intros row col Hrow Hcol. unfold replace. rewrite list_lookup_fmap, Hnth.
    assert (Hr : row = 0 \/ row = 1 \/ row = 2) by lia.
    assert (Hcl : col = 0 \/ col = 1 \/ col = 2) by lia.
    destruct Hr as [->|[->| ->]], Hcl as [->|[->| ->]]; cbn [decide];
      repeat (rewrite decide_True by lia || rewrite decide_False by lia);
      do 2 f_equal; lia.
Qed.

Lemma neighborhood_33_square_witness :
  length (Board.neighborhood_33 (Board.mk Board.empty) 16) = 9%nat /\
  forall row col : Z, 0 <= row < 3 -> 0 <= col < 3 ->
    Board.neighborhood_33 (Board.mk Board.empty) 16 !! Z.to_nat (3 * row + col) =
    (fun a => if Ascii.eqb a "010" then " " else a) <$>
      Board.empty !! Z.to_nat (16 + (row - 1) * Board.W + (col - 1)).
Proof.
  apply (neighborhood_33_square Board.empty 16).
  unfold Board.W, Board.N. cbn. lia.
Defined.

(** ** [is_eye]: an eye shape that is not a false eye *)

Lemma eye_loop_spec (b : str) fc ds : forall k edge,
  isspace fc = false ->
  Forall (fun d => 0 <= d < Z.of_nat (length b)) ds ->
  Board.eye_loop b ds fc k edge =
  Ret (k + Z.of_nat (length (filter (fun d => b !! Z.to_nat d = Some fc) ds)),
       edge || existsb (fun d => match b !! Z.to_nat d with
                                 | Some a => isspace a
                                 | None => false
                                 end) ds).
Proof.
  intros k edge Hfc Hds. revert k edge.
  induction Hds as [|d ds Hd Hds IH]; intros k edge; cbn [Board.eye_loop existsb].
  - rewrite filter_nil, orb_false_r. cbn. do 2 f_equal. lia.
  - destruct (lookup_lt_is_Some_2 b (Z.to_nat d)) as [x Hx]; [lia|].
    rewrite (getitem_nonneg b d x) by (lia || exact Hx). cbn [mbind result_bind].
    rewrite Hx. destruct (isspace x) eqn:Esp.
    + rewrite IH. rewrite filter_cons_False.
      2:{ rewrite Hx. intros [= ->]. congruence. }
      cbn [orb]. by rewrite orb_true_r.
    + destruct (Ascii.eqb_spec x fc) as [->|Hne]; rewrite IH; cbn [orb].
      * rewrite filter_cons_True by exact Hx. cbn [length]. do 2 f_equal. lia.
      * rewrite filter_cons_False by (rewrite Hx; congruence). reflexivity.
Qed.

(** X23. On a board of a game, [is_eye] at a point returns, and it
    returns a colour exactly when [is_eyeish] returns that colour and
    fewer than two of the diagonal neighbours are against it, a blank
    diagonal neighbour (the point is on the edge) counting as one and a
    stone of the other colour as one each. *)
Theorem is_eye_spec (b : str) (c : Z) (Hg : on_grid b) (Hc : 16 <= c <= 208) :
  exists r, Board.is_eye (Board.mk b) c = Ret r /\
    forall e, r = Some e <->
      Board.is_eyeish (Board.mk b) c = Ret (Some e) /\
      Z.of_nat (length (diag_enemies b e c)) + (if diag_at_edge b c then 1 else 0) < 2.
Proof.
  assert (Hon : on_board c).
  { unfold on_board. change Board.W with 15. change Board.W2 with 225. lia. }
  destruct (eyeish_loop_spec b (Board.neighbors c) None (on_grid_clean _ Hg))
    as (r0 & Hr0 & Hspec).
  { eapply Forall_impl; [apply neighbors_in_range; exact Hon|].
    intros d Hd. cbn beta in Hd. rewrite (on_grid_length _ Hg).
    change (Z.of_nat (Z.to_nat Board.W2)) with Board.W2. lia. }
  { by left. }
  unfold Board.is_eye, Board.is_eyeish. cbn [Board.board]. rewrite Hr0.
  cbn [mbind result_bind].
  destruct r0 as [e0|].
  - assert (He0 : isspace (swapcase_char e0) = false).
    { destruct (proj1 (Hspec e0) eq_refl) as ([->| ->] & _); reflexivity. }
    rewrite (eye_loop_spec b (swapcase_char e0) (Board.diag_neighbors c) 0 false He0).
    2:{ rewrite (on_grid_length _ Hg). unfold Board.diag_neighbors. change Board.W with 15.
        change (Z.of_nat (Z.to_nat Board.W2)) with 225. repeat constructor; lia. }
    cbn [mbind result_bind orb]. fold (diag_enemies b e0 c) (diag_at_edge b c).
    rewrite Z.add_0_l.
    set (n := if diag_at_edge b c
              then Z.of_nat (length (diag_enemies b e0 c)) + 1
              else Z.of_nat (length (diag_enemies b e0 c))).
    assert (Hn : n = Z.of_nat (length (diag_enemies b e0 c)) +
                     (if diag_at_edge b c then 1 else 0)).
    { unfold n. destruct (diag_at_edge b c); lia. }
    destruct (Z.leb_spec 2 n) as [H2|H2].
    + exists None. split; [reflexivity|]. intros e. split; [discriminate|].
      intros [[= ->] Hlt]. lia.
    + exists (Some e0). split; [reflexivity|]. intros e. split.
      * intros [= <-]. split; [reflexivity|lia].
      * by intros [[= ->] _].
  - exists None. split; [reflexivity|]. intros e. split; [discriminate|].
    by intros [? _].
Qed.

Lemma is_eye_spec_witness :
  exists r, Board.is_eye (Board.mk Board.empty) 16 = Ret r /\
    forall e, r = Some e <->
      Board.is_eyeish (Board.mk Board.empty) 16 = Ret (Some e) /\
      Z.of_nat (length (diag_enemies Board.empty e 16)) +
        (if diag_at_edge Board.empty 16 then 1 else 0) < 2.
Proof.
  apply (is_eye_spec Board.empty 16).
  - exact on_grid_empty.
  - lia.
Defined.

(** ** Groups and liberties *)

Lemma neighbors_sym k d : d ∈ Board.neighbors k <-> k ∈ Board.neighbors d.
Proof.
  unfold Board.neighbors. rewrite !elem_of_cons, !elem_of_nil. lia.
Qed.

Section Groups.

Variables (b : str) (p : ascii).

Lemma group_holds c k :
  0 <= c -> b !! Z.to_nat c = Some p -> component b p c k ->
  0 <= k /\ b !! Z.to_nat k = Some p.
Proof. intros Hc Hp. induction 1; auto. Qed.

Lemma group_trans c k j : component b p c k -> component b p k j -> component b p c j.
Proof.
  intros Hck. induction 1 as [|j d Hj IH Hd Hd0 Hdp]; [exact Hck|].
  by eapply component_step.
Qed.

Lemma group_sym c k :
  0 <= c -> b !! Z.to_nat c = Some p -> component b p c k -> component b p k c.
Proof.
  intros Hc Hp. induction 1 as [|k d Hk IH Hd Hd0 Hdp]; [constructor|].
  destruct (group_holds c k Hc Hp Hk) as [Hk0 Hkp].
  eapply group_trans; [|exact IH].
  eapply component_step; [constructor| |exact Hk0|exact Hkp]. by apply neighbors_sym.
Qed.

Lemma has_liberty_group c k :
  0 <= c -> b !! Z.to_nat c = Some p -> component b p c k ->
  has_liberty b p c <-> has_liberty b p k.
Proof.
  intros Hc Hp Hk. split; intros (j & d & Hj & Hd).
  - exists j, d. split; [|exact Hd]. eapply group_trans; [|exact Hj].
    by apply group_sym.
  - exists j, d. split; [|exact Hd]. by eapply group_trans.
Qed.

End Groups.

Lemma liberty_test_aux (b : str) (p : ascii) (c : Z) :
  length b = Z.to_nat Board.W2 -> rim b -> unmarked b -> 0 <= c ->
  b !! Z.to_nat c = Some p -> p = "X" \/ p = "x" ->
  exists fb r,
    Board.floodfill (Board.mk b) c = Ret fb /\ Board.contact fb "." = Ret r /\
    (forall k : nat,
       (component b p c (Z.of_nat k) -> Board.board fb !! k = Some "#") /\
       (~ component b p c (Z.of_nat k) -> Board.board fb !! k = b !! k) /\
       (Board.board fb !! k = Some "#" -> component b p c (Z.of_nat k))) /\
    (is_Some r -> has_liberty b p c) /\
    (r = None -> ~ has_liberty b p c).
Proof.
  intros Hlen Hrim Hum Hc Hstart Hp.
  assert (Hsp : isspace p = false) by (destruct Hp as [->| ->]; reflexivity).
  assert (Hmk : p <> "#") by (destruct Hp as [->| ->]; discriminate).
  assert (Hdot : p <> ".") by (destruct Hp as [->| ->]; discriminate).
  destruct (floodfill_component_aux b p c Hlen Hrim Hc Hstart Hsp Hmk)
    as (fb & Hrun & Hl & Hcells).
  assert (Hnm : forall k : nat, b !! k <> Some "#").
  { intros k Hk. rewrite Forall_forall in Hum. apply (Hum "#"); [|reflexivity].
    apply list_elem_of_lookup. eauto. }
  assert (Hcomp : forall k : nat,
            Board.board fb !! k = Some "#" -> component b p c (Z.of_nat k)).
  { intros k Hk. by apply (Hcells k). }
  assert (Hpoint : forall k : nat,
            Board.board fb !! k = Some "." -> b !! k = Some ".").
  { intros k Hk. destruct (Hcells k) as (H1 & H2 & _). rewrite <- H2; [exact Hk|].
    intros Hin. rewrite (H1 Hin) in Hk. discriminate. }
  exists fb, (Board.contact_search "." (Board.board fb) 0).
  split; [exact Hrun|]. split; [apply contact_point|]. split.
  { intros k. destruct (Hcells k) as (H1 & H2 & _). auto. }
  split.
  - intros [j Hj].
    destruct (contact_search_sound "." _ 0 j ltac:(discriminate) Hj)
      as (k & -> & Hk & Hadj).
    apply Hpoint in Hk.
    destruct Hadj as [H1|[H1|[(k' & -> & H1)|(k' & -> & H1)]]].
    + exists (Z.of_nat (S k)), (Z.of_nat k). split; [by apply Hcomp|].
      split; [|split; [lia|by rewrite Nat2Z.id]].
      unfold Board.neighbors. rewrite !elem_of_cons. lia.
    + exists (Z.of_nat (k + 15)), (Z.of_nat k). split; [by apply Hcomp|].
      split; [|split; [lia|by rewrite Nat2Z.id]].
      unfold Board.neighbors. change Board.W with 15. rewrite !elem_of_cons. lia.
    + exists (Z.of_nat k'), (Z.of_nat (S k')). split; [by apply Hcomp|].
      split; [|split; [lia|by rewrite Nat2Z.id]].
      unfold Board.neighbors. rewrite !elem_of_cons. lia.
    + exists (Z.of_nat k'), (Z.of_nat (k' + 15)). split; [by apply Hcomp|].
      split; [|split; [lia|by rewrite Nat2Z.id]].
      unfold Board.neighbors. change Board.W with 15. rewrite !elem_of_cons. lia.
  - intros Hnone (k & d & Hk & Hd & Hd0 & Hdp).
    destruct (group_holds b p c k Hc Hstart Hk) as [Hk0 Hkp].
    assert (Hfk : Board.board fb !! Z.to_nat k = Some "#").
    { apply (Hcells (Z.to_nat k)). by rewrite Z2Nat.id. }
    assert (Hfd : Board.board fb !! Z.to_nat d = Some ".").
    { destruct (Hcells (Z.to_nat d)) as (_ & H2 & _). rewrite H2; [exact Hdp|].
      rewrite Z2Nat.id by lia. intros Hin.
      destruct (group_holds b p c d Hc Hstart Hin) as [_ E]. congruence. }
    destruct (contact_search_complete "." _ 0 ltac:(discriminate) Hnone
                (Z.to_nat d) (Z.to_nat k) Hfd Hfk) as (A1 & A2 & A3 & A4).
    revert Hd. unfold Board.neighbors. change Board.W with 15.
    rewrite !elem_of_cons, elem_of_nil. lia.
Qed.

(** X24. The liberty test of the engine, [floodfill] followed by
    [contact(".")], on a W * W board with a blank rim and no marker, from
    a stone at [c]: both calls return, [contact] returns an index when a
    cell of the group of [c] has an empty neighbour, and none when no
    cell of the group has one. *)
Theorem liberty_test (b : str) (p : ascii) (c : Z)
    (Hlen : length b = Z.to_nat Board.W2) (Hrim : rim b) (Hum : unmarked b)
    (Hc : 0 <= c) (Hstart : b !! Z.to_nat c = Some p) (Hp : p = "X" \/ p = "x") :
  exists fb r,
    Board.floodfill (Board.mk b) c = Ret fb /\ Board.contact fb "." = Ret r /\
    (is_Some r -> has_liberty b p c) /\
    (r = None -> ~ has_liberty b p c).
Proof.
  destruct (liberty_test_aux b p c Hlen Hrim Hum Hc Hstart Hp)
    as (fb & r & Hrun & Hcontact & _ & Hsome & Hnone).
  exists fb, r. auto.
Qed.

Lemma own_stone_position_played : Position.played own_stone_position.
Proof.
  assert (H : exists p1, Position.move Position.empty_position 100 = Ret (Some p1) /\
                         Position.pass_move p1 = own_stone_position)
    by (eexists; split; vm_compute; reflexivity).
  destruct H as (p1 & Hmove & <-). apply Position.played_pass.
  apply (Position.played_move Position.empty_position 100 p1);
    [apply Position.played_empty|lia|reflexivity|exact Hmove].
Qed.

Lemma liberty_test_witness :
  exists fb r,
    Board.floodfill (Board.mk (Board.board (Position.board own_stone_position))) 100
      = Ret fb /\
    Board.contact fb "." = Ret r /\
    (is_Some r -> has_liberty (Board.board (Position.board own_stone_position)) "X" 100) /\
    (r = None -> ~ has_liberty (Board.board (Position.board own_stone_position)) "X" 100).
Proof.
  destruct (played_on_grid _ own_stone_position_played) as [Hg _].
  apply (liberty_test (Board.board (Position.board own_stone_position)) "X" 100).
  - by apply on_grid_length.
  - by apply on_grid_rim.
  - by apply unmarked_clean, on_grid_clean.
  - lia.
  - reflexivity.
  - by left.
Defined.

(** ** No group without a liberty stands on the board *)

Lemma captures_of_lookup b b' (k : nat) a :
  captures_of b b' -> b !! k = Some a ->
  b' !! k = Some a \/ (a = "x" /\ b' !! k = Some ".").
Proof.
  intros Hc Ha. destruct (Forall2_lookup_l _ _ _ _ _ Hc Ha) as (y & Hy & [->|[-> ->]]); auto.
Qed.

Lemma captures_of_back b b' (k : nat) a :
  captures_of b b' -> b' !! k = Some a -> a <> "." -> b !! k = Some a.
Proof.
  intros Hc Ha Hne. destruct (Forall2_lookup_r _ _ _ _ _ Hc Ha) as (x & Hx & [->|[-> ->]]);
    [exact Hx|contradiction].
Qed.

Lemma captures_of_point b b' (k : nat) :
  captures_of b b' -> b !! k = Some "." -> b' !! k = Some ".".
Proof. intros Hc Ha. destruct (captures_of_lookup _ _ _ _ Hc Ha) as [?|[_ ?]]; auto. Qed.

Lemma rim_captures b b' : captures_of b b' -> rim b -> rim b'.
Proof.
  intros Hc Hr k a Ha Hk.
  destruct (Forall2_lookup_r _ _ _ _ _ Hc Ha) as (x & Hx & [->|[-> ->]]).
  - by eapply Hr.
  - pose proof (Hr k "x" Hx Hk). discriminate.
Qed.

Lemma component_mono b b' p c k :
  (forall j, 0 <= j -> b !! Z.to_nat j = Some p -> b' !! Z.to_nat j = Some p) ->
  component b p c k -> component b' p c k.
Proof.
  intros Hm. induction 1 as [|j d Hj IH Hd Hd0 Hdp]; [constructor|].
  eapply component_step; [exact IH|exact Hd|exact Hd0|]. by apply Hm.
Qed.

(** A chain of the group of [k] survives when [k] does. *)
Lemma whole_groups_component b b' k j :
  whole_groups b b' -> 0 <= k -> b' !! Z.to_nat k = Some "x" ->
  component b "x" k j -> component b' "x" k j.
Proof.
  intros Hw Hk Hx. induction 1 as [|j d Hj IH Hd Hd0 Hdp]; [constructor|].
  eapply component_step; [exact IH|exact Hd|exact Hd0|].
  apply (Hw k d Hk); [|exact Hx]. by eapply component_step.
Qed.

Lemma whole_groups_liberty b b' k :
  captures_of b b' -> whole_groups b b' -> 0 <= k ->
  b' !! Z.to_nat k = Some "x" -> has_liberty b "x" k -> has_liberty b' "x" k.
Proof.
  intros Hc Hw Hk Hx (j & d & Hj & Hd & Hd0 & Hdp).
  exists j, d. split; [by apply (whole_groups_component b)|].
  split; [exact Hd|]. split; [exact Hd0|]. by eapply captures_of_point.
Qed.

Lemma liberty_back b b' k :
  captures_of b b' -> whole_groups b b' -> 0 <= k ->
  b' !! Z.to_nat k = Some "x" -> has_liberty b' "x" k -> has_liberty b "x" k.
Proof.
  intros Hc Hw Hk Hx (j & d & Hj & Hd & Hd0 & Hdp).
  assert (Hj0 : component b "x" k j).
  { eapply component_mono; [|exact Hj].
    intros i _ Hi. eapply captures_of_back; [exact Hc|exact Hi|discriminate]. }
  exists j, d. split; [exact Hj0|]. split; [exact Hd|]. split; [exact Hd0|].
  destruct (Forall2_lookup_r _ _ _ _ _ Hc Hdp) as (y & Hy & [Ey|[Ey _]]); subst y;
    [exact Hy|].
  assert (Hkd : component b "x" k d) by (by eapply component_step).
  pose proof (Hw k d Hk Hkd Hx). congruence.
Qed.

Lemma whole_groups_refl b : whole_groups b b.
Proof.
  intros k j Hk Hc Hx. by destruct (group_holds b "x" k j Hk Hx Hc).
Qed.

Lemma whole_groups_trans b1 b2 b3 :
  captures_of b1 b2 -> whole_groups b1 b2 -> captures_of b2 b3 -> whole_groups b2 b3 ->
  whole_groups b1 b3.
Proof.
  intros C12 W12 C23 W23 k j Hk Hc Hx.
  assert (Hx2 : b2 !! Z.to_nat k = Some "x") by (eapply captures_of_back; eauto; discriminate).
  apply (W23 k j Hk); [|exact Hx].
  by apply (whole_groups_component b1).
Qed.

(** Taking the group of [d], which has no liberty, off the board. *)
Lemma capture_whole (b : str) (fb : Board.t) d :
  0 <= d -> b !! Z.to_nat d = Some "x" ->
  fills "x" b (Board.board fb) ->
  (forall k : nat, component b "x" d (Z.of_nat k) -> Board.board fb !! k = Some "#") ->
  (forall k : nat, Board.board fb !! k = Some "#" -> component b "x" d (Z.of_nat k)) ->
  whole_groups b (replace "#" "." (Board.board fb)) /\
  replace "#" "." (Board.board fb) !! Z.to_nat d = Some ".".
Proof.
  intros Hd Hdx Hf Hin Hout. split.
  - intros k j Hk Hc Hx.
    destruct (lookup_lt_is_Some_2 (Board.board fb) (Z.to_nat k)) as [y Hy].
    { rewrite <- (replace_length "#" "."). by eapply lookup_lt_Some. }
    rewrite (replace_lookup _ _ _ _ _ Hy) in Hx.
    destruct (Ascii.eqb y "#") eqn:Ey; [discriminate|]. injection Hx as Hx. subst y.
    assert (Hbk : b !! Z.to_nat k = Some "x").
    { destruct Hf as [_ Hf]. destruct (Hf (Z.to_nat k)) as [E|[_ E]]; congruence. }
    destruct (group_holds b "x" k j Hk Hbk Hc) as [Hj0 Hbj].
    destruct Hf as [_ Hf]. destruct (Hf (Z.to_nat j)) as [E|[_ E]].
    + rewrite (replace_lookup _ _ _ _ "x"); [reflexivity|congruence].
    + exfalso. apply Hout in E. rewrite Z2Nat.id in E by lia.
      assert (Hdk : component b "x" d k).
      { eapply group_trans; [exact E|]. by apply group_sym. }
      rewrite <- (Z2Nat.id k Hk) in Hdk. apply Hin in Hdk. congruence.
  - rewrite (replace_lookup _ _ _ _ "#"); [reflexivity|].
    apply Hin. rewrite Z2Nat.id by lia. constructor.
Qed.

Lemma capture_loop_alive ds : forall (b : Board.t) k sc b1 k1 sc1,
  length (Board.board b) = Z.to_nat Board.W2 -> rim (Board.board b) ->
  unmarked (Board.board b) ->
  Forall (fun d => 0 <= d) ds ->
  Position.capture_loop ds b k sc = Ret (b1, k1, sc1) ->
  captures_of (Board.board b) (Board.board b1) /\
  whole_groups (Board.board b) (Board.board b1) /\
  (forall d, d ∈ ds -> Board.board b1 !! Z.to_nat d = Some "x" ->
             has_liberty (Board.board b1) "x" d) /\
  (forall j, 0 <= j -> Board.board b !! Z.to_nat j = Some "x" ->
             Board.board b1 !! Z.to_nat j = Some "." ->
             ~ has_liberty (Board.board b) "x" j /\
             exists d, d ∈ ds /\ Board.board b !! Z.to_nat d = Some "x" /\
                       component (Board.board b) "x" d j).
Proof.
  induction ds as [|d ds IH]; intros b k sc b1 k1 sc1 Hlen Hrim Hum Hds;
    cbn [Position.capture_loop].
  - intros [= <- _ _]. split; [apply captures_of_refl|]. split; [apply whole_groups_refl|].
    split; [intros d Hd; by apply elem_of_nil in Hd|].
    intros j _ Hj Hj'. congruence.
  - apply Forall_cons in Hds as [Hd0 Hds].
    destruct (getitem (Board.board b) d) as [x| |] eqn:Ex; [|discriminate..].
    cbn [mbind result_bind].
    assert (Hbd : Board.board b !! Z.to_nat d = Some x).
    { apply getitem_Ret in Ex as (i & Hi & Hx).
      destruct (index_of_Some _ _ _ Hi) as (_ & Hi0 & _). by rewrite <- (Hi0 Hd0). }
    destruct (Ascii.eqb_spec x "x") as [->|Hx]; cbn [negb].
    + destruct b as [bs]. cbn [Board.board] in *.
      destruct (liberty_test_aux bs "x" d Hlen Hrim Hum Hd0 Hbd ltac:(by right))
        as (fb & r & Hrun & Hcontact & Hcells & Hsome & Hnone).
      rewrite Hrun. cbn [mbind result_bind]. rewrite Hcontact. cbn [mbind result_bind].
      destruct r as [l|].
      * intros H.
        destruct (IH (Board.mk bs) _ _ _ _ _ Hlen Hrim Hum Hds H) as (C & W & L & G).
        cbn [Board.board] in *.
        split; [exact C|]. split; [exact W|]. split.
        { intros d' [->|Hd']%elem_of_cons Hx1; [|by apply L].
          apply (whole_groups_liberty bs); auto. }
        intros j Hj0 Hj Hj1. destruct (G j Hj0 Hj Hj1) as (G1 & d' & Hd' & G2).
        split; [exact G1|]. exists d'. split; [by apply elem_of_cons; right|exact G2].
      * intros H.
        destruct (floodfill_fills _ _ _ Hrun) as (q & Hq & Hf). cbn [Board.board] in Hq, Hf.
        rewrite Ex in Hq. injection Hq as <-. specialize (Hf ltac:(discriminate)).
        destruct (capture_step _ _ (fills_Forall2 _ _ _ Hf) Hum) as (C1 & U1 & _).
        destruct (capture_whole bs fb d Hd0 Hbd Hf) as [W1 Hgone].
        { intros j. by apply (Hcells j). }
        { intros j. by apply (Hcells j). }
        destruct (IH (Board.mk (replace "#" "." (Board.board fb))) _ _ _ _ _
                    ltac:(cbn [Board.board]; rewrite replace_length; destruct Hf as [-> _]; exact Hlen)
                    ltac:(cbn [Board.board]; by eapply rim_captures)
                    U1 Hds H) as (C & W & L & G).
        cbn [Board.board] in *.
        split; [by eapply captures_of_trans|]. split; [by eapply whole_groups_trans|].
        split.
        { intros d' [->|Hd']%elem_of_cons Hx1; [|by apply L].
          exfalso. destruct (captures_of_lookup _ _ _ _ C Hgone) as [E|[E _]]; congruence. }
        intros j Hj0 Hj Hj1.
        destruct (captures_of_lookup _ _ _ _ C1 Hj) as [E|[_ E]].
        -- destruct (G j Hj0 E Hj1) as (G1 & d' & Hd' & Hd'x & G2).
           split; [intros Hlib; apply G1; by apply (whole_groups_liberty bs)|].
           exists d'. split; [by apply elem_of_cons; right|].
           split; [eapply captures_of_back; [exact C1|exact Hd'x|discriminate]|].
           eapply component_mono; [|exact G2].
           intros i _ Hi. eapply captures_of_back; [exact C1|exact Hi|discriminate].
        -- assert (Hdj : component bs "x" d j).
           { destruct (Hf) as [_ Hf']. destruct (Hf' (Z.to_nat j)) as [E'|[_ E']].
             ++ exfalso. rewrite Hj in E'.
                rewrite (replace_lookup _ _ _ _ _ E') in E. discriminate.
             ++ apply (Hcells (Z.to_nat j)) in E'. by rewrite Z2Nat.id in E' by lia. }
           split.
           ++ intros Hlib. apply (Hnone eq_refl).
              by apply (has_liberty_group bs "x" d j Hd0 Hbd).
           ++ exists d. split; [by apply elem_of_cons; left|]. by split.
    + intros H. destruct (IH b _ _ _ _ _ Hlen Hrim Hum Hds H) as (C & W & L & G).
      split; [exact C|]. split; [exact W|]. split; [|].
      2:{ intros j Hj0 Hj Hj1. destruct (G j Hj0 Hj Hj1) as (G1 & d' & Hd' & G2).
          split; [exact G1|]. exists d'. split; [by apply elem_of_cons; right|exact G2]. }
      intros d' [->|Hd']%elem_of_cons Hx1; [|by apply L].
      exfalso. apply Hx. eapply captures_of_back in Hx1; [|exact C|discriminate]. congruence.
Qed.

Lemma has_liberty_swapcase b p c :
  has_liberty b p c -> has_liberty (map swapcase_char b) (swapcase_char p) c.
Proof.
  intros (j & d & Hj & Hd & Hd0 & Hdp). exists j, d.
  split.
  - clear Hd Hd0 Hdp. induction Hj as [|j e Hj IH He He0 Hep]; [constructor|].
    eapply component_step; [exact IH|exact He|exact He0|].
    change (map swapcase_char b) with (swapcase_char <$> b).
    by rewrite list_lookup_fmap, Hep.
  - split; [exact Hd|]. split; [exact Hd0|].
    change (map swapcase_char b) with (swapcase_char <$> b).
    by rewrite list_lookup_fmap, Hdp.
Qed.

Lemma alive_swapcase b : alive b -> alive (map swapcase_char b).
Proof.
  intros Ha c a Hc Hca Hst.
  change (map swapcase_char b) with (swapcase_char <$> b) in Hca.
  rewrite list_lookup_fmap in Hca.
  destruct (b !! Z.to_nat c) as [a'|] eqn:Ea; [|discriminate]. injection Hca as Hca.
  assert (Ea' : a' = swapcase_char a) by (by rewrite <- Hca, swapcase_char_involutive).
  rewrite <- Hca. apply has_liberty_swapcase. apply Ha; [exact Hc|exact Ea|].
  rewrite Ea'. destruct Hst as [-> | ->]; [by right|by left].
Qed.

(** The capture stage of [move] at an empty point [c] of a board of play:
    what holds of the board [b1] it leaves. *)
Lemma capture_stage (old : str) (c : Z) (b1 : str) k0 k sc :
  on_grid old -> 0 <= c -> old !! Z.to_nat c = Some "." ->
  Position.capture_loop (Board.neighbors c) (Board.mk (<[Z.to_nat c := "X"]> old)) k0 []
    = Ret (Board.mk b1, k, sc) ->
  let b0 := <[Z.to_nat c := "X"]> old in
  captures_of b0 b1 /\ whole_groups b0 b1 /\
  (forall d, d ∈ Board.neighbors c -> b1 !! Z.to_nat d = Some "x" -> has_liberty b1 "x" d) /\
  (forall j, 0 <= j -> b0 !! Z.to_nat j = Some "x" -> b1 !! Z.to_nat j = Some "." ->
     ~ has_liberty b0 "x" j /\
     exists d, d ∈ Board.neighbors c /\ b0 !! Z.to_nat d = Some "x" /\
               component b0 "x" d j) /\
  length b1 = Z.to_nat Board.W2 /\ rim b1 /\ unmarked b1 /\
  b1 !! Z.to_nat c = Some "X".
Proof.
  intros Hg Hc0 Hdot E1 b0.
  pose proof (on_grid_length _ Hg) as Hlen.
  pose proof (on_grid_point _ _ _ Hg Hdot eq_refl) as Hrange.
  assert (Hlen0 : length b0 = Z.to_nat Board.W2) by (unfold b0; by rewrite length_insert).
  assert (Hb0c : b0 !! Z.to_nat c = Some "X").
  { unfold b0. apply list_lookup_insert_eq. by eapply lookup_lt_Some. }
  assert (Hrim0 : rim b0).
  { intros i a Hi Hr. destruct (decide (i = Z.to_nat c)) as [->|Hne].
    - exfalso. unfold Board.W2, Board.W, Board.N in Hr. lia.
    - unfold b0 in Hi. rewrite list_lookup_insert_ne in Hi by congruence.
      by eapply (on_grid_rim _ Hg). }
  assert (Hum0 : unmarked b0).
  { apply Forall_insert; [by apply unmarked_clean, on_grid_clean|discriminate]. }
  assert (Hds : Forall (fun d => 0 <= d) (Board.neighbors c)).
  { unfold Board.neighbors, Board.W, Board.N. repeat constructor; lia. }
  destruct (capture_loop_alive _ (Board.mk b0) _ _ _ _ _ Hlen0 Hrim0 Hum0 Hds E1)
    as (C & W & L & G).
  destruct (capture_loop_captures _ (Board.mk b0) _ _ _ _ _ Hum0 E1) as (_ & Hum1 & _).
  cbn [Board.board] in *.
  split; [exact C|]. split; [exact W|]. split; [exact L|]. split; [exact G|].
  split; [rewrite <- Hlen0; symmetry; by eapply Forall2_length|].
  split; [by eapply rim_captures|]. split; [exact Hum1|].
  destruct (captures_of_lookup _ _ _ _ C Hb0c) as [E|[E _]]; [exact E|discriminate].
Qed.

(** Once the stone at [c] has a liberty on the board the capture stage
    leaves, every stone of that board has one. *)
Lemma alive_after_captures (old : str) (c : Z) (b1 : str) :
  alive old -> 0 <= c -> old !! Z.to_nat c = Some "." ->
  let b0 := <[Z.to_nat c := "X"]> old in
  captures_of b0 b1 -> whole_groups b0 b1 ->
  (forall d, d ∈ Board.neighbors c -> b1 !! Z.to_nat d = Some "x" -> has_liberty b1 "x" d) ->
  b1 !! Z.to_nat c = Some "X" -> has_liberty b1 "X" c ->
  alive b1.
Proof.
  intros Hal Hc0 Hdot b0 C W L Hb1c Hlibc.
  assert (Hcl : (Z.to_nat c < length old)%nat) by (by eapply lookup_lt_Some).
  assert (Hb0c : b0 !! Z.to_nat c = Some "X").
  { unfold b0. by apply list_lookup_insert_eq. }
  assert (Hb0 : forall j : nat, j <> Z.to_nat c -> b0 !! j = old !! j).
  { intros j Hj. unfold b0. by apply list_lookup_insert_ne. }
  assert (HX : forall j, 0 <= j -> old !! Z.to_nat j = Some "X" -> b1 !! Z.to_nat j = Some "X").
  { intros j Hj0 Hj. assert (Z.to_nat j <> Z.to_nat c) by congruence.
    rewrite <- Hb0 in Hj by assumption.
    destruct (captures_of_lookup _ _ _ _ C Hj) as [E|[E _]]; [exact E|discriminate]. }
  assert (Hx : forall j, 0 <= j -> old !! Z.to_nat j = Some "x" -> b0 !! Z.to_nat j = Some "x").
  { intros j Hj0 Hj. assert (Z.to_nat j <> Z.to_nat c) by congruence.
    by rewrite Hb0. }
  assert (Hdotk : forall d, 0 <= d -> d <> c -> old !! Z.to_nat d = Some "." ->
                            b1 !! Z.to_nat d = Some ".").
  { intros d Hd0 Hdc Hd. eapply captures_of_point; [exact C|].
    rewrite Hb0; [exact Hd|]. lia. }
  intros k0 a Hk0 Hka [-> | ->].
  - destruct (decide (k0 = c)) as [->|Hkc]; [exact Hlibc|].
    assert (Hold : old !! Z.to_nat k0 = Some "X").
    { rewrite <- Hb0 by lia. eapply captures_of_back; [exact C|exact Hka|discriminate]. }
    destruct (Hal k0 "X" Hk0 Hold ltac:(by left)) as (j & d & Hj & Hd & Hd0 & Hdp).
    pose proof (component_mono _ _ _ _ _ HX Hj) as Hj1.
    destruct (decide (d = c)) as [->|Hdc].
    + apply (has_liberty_group b1 "X" k0 c Hk0 Hka); [|exact Hlibc].
      eapply component_step; [exact Hj1|exact Hd|exact Hc0|exact Hb1c].
    + exists j, d. split; [exact Hj1|]. split; [exact Hd|]. split; [exact Hd0|].
      by apply Hdotk.
  - assert (Hk0' : b0 !! Z.to_nat k0 = Some "x").
    { eapply captures_of_back; [exact C|exact Hka|discriminate]. }
    assert (Hkc : Z.to_nat k0 <> Z.to_nat c) by congruence.
    assert (Hold : old !! Z.to_nat k0 = Some "x") by (by rewrite <- Hb0).
    destruct (Hal k0 "x" Hk0 Hold ltac:(by right)) as (j & d & Hj & Hd & Hd0 & Hdp).
    pose proof (component_mono _ _ _ _ _ Hx Hj) as Hj0.
    pose proof (whole_groups_component _ _ _ _ W Hk0 Hka Hj0) as Hj1.
    destruct (decide (d = c)) as [->|Hdc].
    + destruct (group_holds b1 "x" k0 j Hk0 Hka Hj1) as [Hj00 Hjx].
      apply (has_liberty_group b1 "x" k0 j Hk0 Hka Hj1).
      apply L; [|exact Hjx]. by apply neighbors_sym.
    + exists j, d. split; [exact Hj1|]. split; [exact Hd|]. split; [exact Hd0|].
      by apply Hdotk.
Qed.

Lemma move_alive_aux p c p' :
  on_grid (Board.board (Position.board p)) -> alive (Board.board (Position.board p)) ->
  0 <= c -> Board.board (Position.board p) !! Z.to_nat c = Some "." ->
  Position.move p c = Ret (Some p') ->
  let b0 := <[Z.to_nat c := "X"]> (Board.board (Position.board p)) in
  exists b1,
    Board.board (Position.board p') = map swapcase_char b1 /\
    captures_of b0 b1 /\ whole_groups b0 b1 /\
    (forall j, 0 <= j -> b0 !! Z.to_nat j = Some "x" -> b1 !! Z.to_nat j = Some "." ->
       ~ has_liberty b0 "x" j) /\
    alive b1.
Proof.
  intros Hg Hal Hc0 Hdot Hmove b0.
  assert (Hc : 0 <= c < Z.of_nat (length (Board.board (Position.board p))))
    by (apply lookup_lt_Some in Hdot; lia).
  destruct (move_runs p c p' Hc Hmove)
    as ([b1] & k & sc & E1 & Hnew & _ & _ & _ & _ & _ & sf & l & Hsf & Hl).
  destruct (capture_stage _ c b1 _ _ _ Hg Hc0 Hdot E1)
    as (C & W & L & G & Hlen1 & Hrim1 & Hum1 & Hb1c).
  exists b1. split; [exact Hnew|]. split; [exact C|]. split; [exact W|].
  split; [intros j Hj0 Hj Hj1; by apply (G j)|].
  apply (alive_after_captures _ c b1 Hal Hc0 Hdot C W L Hb1c).
  destruct (liberty_test_aux b1 "X" c Hlen1 Hrim1 Hum1 Hc0 Hb1c ltac:(by left))
    as (fb & r & Hrun & Hcontact & _ & Hsome & _).
  rewrite Hsf in Hrun. injection Hrun as <-. rewrite Hl in Hcontact.
  injection Hcontact as <-. apply Hsome. by eexists.
Qed.

Lemma played_alive_aux p : Position.played p -> alive (Board.board (Position.board p)).
Proof.
  induction 1 as [|p c p' Hp IH Hc Hdot Hmove|p Hp IH].
  - intros c a Hc Hstone Ha. exfalso.
    apply list_elem_of_lookup_2 in Hstone.
    assert (Hno : Forall (fun e : ascii => e <> "X" /\ e <> "x")
                    (Board.board (Position.board Position.empty_position))).
    { vm_compute. repeat constructor; discriminate. }
    rewrite Forall_forall in Hno. destruct (Hno a Hstone). by destruct Ha.
  - destruct (played_on_grid _ Hp) as [Hg _].
    destruct (move_alive_aux p c p' Hg IH Hc Hdot Hmove) as (b1 & -> & _ & _ & _ & Hal).
    by apply alive_swapcase.
  - destruct (played_on_grid _ Hp) as [Hg _].
    change (Board.board (Position.board (Position.pass_move p)))
      with (Board.board (Board.swapcase (Position.board p))).
    rewrite swapcase_board.
    + by apply alive_swapcase.
    + intros Hnil. apply on_grid_length in Hg. rewrite Hnil in Hg. discriminate.
Qed.

Lemma played_komi p : Position.played p -> Position.komi p = 75 # 10.
Proof.
  induction 1 as [|p c p' Hp IH Hc Hdot Hmove|p Hp IH]; [reflexivity| |exact IH].
  assert (Hr : 0 <= c < Z.of_nat (length (Board.board (Position.board p))))
    by (apply lookup_lt_Some in Hdot; lia).
  destruct (move_runs p c p' Hr Hmove) as (_ & _ & _ & _ & _ & _ & _ & _ & _ & -> & _).
  exact IH.
Qed.

Lemma komi_never c : Qeq_bool (inject_Z c) (75 # 10) = false.
Proof.
  destruct (Qeq_bool _ _) eqn:E; [|reflexivity].
  apply Qeq_bool_eq in E. unfold Qeq in E. cbn in E. lia.
Qed.

(** What [move] does at an empty point of a position of play, stage by
    stage. *)
Lemma move_stages p c :
  Position.played p -> 0 <= c ->
  Board.board (Position.board p) !! Z.to_nat c = Some "." ->
  exists b1 k sc sf r,
    Position.capture_loop (Board.neighbors c)
      (Board.mk (<[Z.to_nat c := "X"]> (Board.board (Position.board p))))
      (fst (Position.captures p)) [] = Ret (Board.mk b1, k, sc) /\
    Board.floodfill (Board.mk b1) c = Ret sf /\ Board.contact sf "." = Ret r /\
    (Position.move p c = Ret None <-> r = None).
Proof.
  intros Hp Hc0 Hdot.
  destruct (played_on_grid _ Hp) as [Hg Hin].
  destruct (move_returns p c (on_grid_playable _ Hg Hin) Hc0 Hdot) as (r0 & Hr0 & _).
  pose proof Hr0 as H. unfold Position.move in H.
  rewrite (played_komi p Hp), komi_never in H.
  destruct (Board.is_eyeish _ c) as [e| |]; [|discriminate..]. cbn [mbind result_bind] in H.
  destruct (Position.board p) as [b]. cbn [Board.board] in *.
  rewrite (board_put_stone b c) in H by (lia || by eapply lookup_lt_Some).
  destruct (Position.capture_loop _ _ _ _) as [[[[b1] k] sc]| |] eqn:E1; [|discriminate..].
  cbn [mbind result_bind] in H.
  destruct (Board.floodfill _ c) as [sf| |] eqn:Esf; [|discriminate..].
  cbn [mbind result_bind] in H.
  destruct (Board.contact sf ".") as [r| |] eqn:El; [|discriminate..].
  cbn [mbind result_bind] in H.
  exists b1, k, sc, sf, r. split; [reflexivity|]. split; [exact Esf|]. split; [exact El|].
  rewrite Hr0. destruct r; injection H as <-; split; congruence.
Qed.

(** X25. In a game in which every stone goes on an empty point, every
    stone on the board belongs to a group that has a liberty: [move] takes
    off the groups it leaves without one and refuses the moves that would
    leave the played stone's group without one. *)
Theorem played_alive (p : Position.t) (c : Z) (a : ascii)
    (Hp : Position.played p) (Hc : 0 <= c)
    (Hstone : Board.board (Position.board p) !! Z.to_nat c = Some a)
    (Ha : a = "X" \/ a = "x") :
  has_liberty (Board.board (Position.board p)) a c.
Proof.
  pose proof (played_alive_aux p Hp) as Hal. unfold alive in Hal.
  exact (Hal c a Hc Hstone Ha).
Qed.

Lemma played_alive_witness :
  has_liberty (Board.board (Position.board own_stone_position)) "X" 100.
Proof.
  apply (played_alive own_stone_position 100 "X" own_stone_position_played);
    [lia|reflexivity|by left].
Defined.

(** X26. A move onto an empty point of a position of play takes an
    opponent stone off the board exactly when that point was the only
    liberty of the stone's group; every other opponent stone stays. *)
Theorem move_captures (p p' : Position.t) (c k : Z)
    (Hp : Position.played p) (Hc : 0 <= c)
    (Hdot : Board.board (Position.board p) !! Z.to_nat c = Some ".")
    (Hmove : Position.move p c = Ret (Some p'))
    (Hk : 0 <= k)
    (Hstone : Board.board (Position.board p) !! Z.to_nat k = Some "x") :
  let old := Board.board (Position.board p) in
  let new := Board.board (Position.board p') in
  (new !! Z.to_nat k = Some "." <-> sole_liberty old "x" k c) /\
  (new !! Z.to_nat k = Some "." \/ new !! Z.to_nat k = Some "X").
Proof.
  intros old new.
  destruct (played_on_grid _ Hp) as [Hg _].
  destruct (move_alive_aux p c p' Hg (played_alive_aux p Hp) Hc Hdot Hmove)
    as (b1 & Hnew & C & W & G & Hal).
  fold old in C, W, G, Hdot, Hstone. fold new in Hnew.
  set (b0 := <[Z.to_nat c := "X"]> old) in *.
  assert (Hcl : (Z.to_nat c < length old)%nat) by (by eapply lookup_lt_Some).
  assert (Hb0c : b0 !! Z.to_nat c = Some "X").
  { unfold b0. by apply list_lookup_insert_eq. }
  assert (Hb0 : forall j : nat, j <> Z.to_nat c -> b0 !! j = old !! j).
  { intros j Hj. unfold b0. by apply list_lookup_insert_ne. }
  assert (Hx : forall j, 0 <= j -> old !! Z.to_nat j = Some "x" -> b0 !! Z.to_nat j = Some "x").
  { intros j Hj0 Hj. assert (Z.to_nat j <> Z.to_nat c) by congruence. by rewrite Hb0. }
  assert (Hx' : forall j, 0 <= j -> b0 !! Z.to_nat j = Some "x" -> old !! Z.to_nat j = Some "x").
  { intros j Hj0 Hj. assert (Z.to_nat j <> Z.to_nat c) by congruence. by rewrite <- Hb0. }
  assert (Hback : forall j, 0 <= j -> b1 !! Z.to_nat j = Some "x" -> b0 !! Z.to_nat j = Some "x").
  { intros j _ Hj. eapply captures_of_back; [exact C|exact Hj|discriminate]. }
  pose proof (Hx k Hk Hstone) as Hk0.
  assert (Hlook : forall a, b1 !! Z.to_nat k = Some a ->
                            new !! Z.to_nat k = Some (swapcase_char a)).
  { intros a Ha. rewrite Hnew. change (map swapcase_char b1) with (swapcase_char <$> b1).
    by rewrite list_lookup_fmap, Ha. }
  destruct (captures_of_lookup _ _ _ _ C Hk0) as [E|[_ E]].
  - (* the stone stays *)
    pose proof (Hlook _ E) as En. change (swapcase_char "x") with "X" in En.
    split; [|by right]. split; [intros Hn; congruence|].
    intros Hsole. exfalso.
    destruct (Hal k "x" Hk E ltac:(by right)) as (j & d & Hj & Hd & Hd0 & Hdp).
    pose proof (component_mono _ _ _ _ _ Hback Hj) as Hj0.
    destruct (Forall2_lookup_r _ _ _ _ _ C Hdp) as (y & Hy & [Ey|[Ey _]]); subst y.
    + assert (Hdc : d <> c) by (intros ->; congruence).
      assert (Hdo : old !! Z.to_nat d = Some ".") by (rewrite <- Hb0; [exact Hy|lia]).
      apply Hdc. apply (Hsole j d); auto. by apply (component_mono b0).
    + assert (Hkd : component b0 "x" k d) by (by eapply component_step).
      pose proof (W k d Hk Hkd E). congruence.
  - (* the stone is taken *)
    pose proof (Hlook _ E) as En. change (swapcase_char ".") with "." in En.
    split; [|by left]. split; [|by intros _].
    intros _ j d Hj Hd Hd0 Hdp.
    destruct (decide (d = c)) as [->|Hdc]; [reflexivity|]. exfalso.
    apply (G k Hk Hk0 E). exists j, d.
    split; [by apply (component_mono old)|]. split; [exact Hd|]. split; [exact Hd0|].
    rewrite Hb0; [exact Hdp|lia].
Qed.

Lemma atari_position_played : Position.played atari_position.
Proof.
  assert (H : exists p1 p2, Position.move Position.empty_position 16 = Ret (Some p1) /\
                            Position.move p1 17 = Ret (Some p2) /\
                            Position.move p2 100 = Ret (Some atari_position))
    by (do 2 eexists; repeat split; vm_compute; reflexivity).
  destruct H as (p1 & p2 & H1 & H2 & H3).
  assert (P1 : Position.played p1).
  { apply (Position.played_move Position.empty_position 16 p1);
      [apply Position.played_empty|lia|reflexivity|exact H1]. }
  assert (E1 : Board.board (Position.board p1) !! Z.to_nat 17 = Some ".").
  { vm_compute in H1. injection H1 as <-. reflexivity. }
  assert (P2 : Position.played p2).
  { apply (Position.played_move p1 17 p2); [exact P1|lia|exact E1|exact H2]. }
  apply (Position.played_move p2 100 atari_position); [exact P2|lia| |exact H3].
  vm_compute in H1. injection H1 as <-. vm_compute in H2. injection H2 as <-. reflexivity.
Qed.

Lemma move_captures_witness :
  exists p',
    Position.move atari_position 31 = Ret (Some p') /\
    (Board.board (Position.board p') !! Z.to_nat 16 = Some "." <->
     sole_liberty (Board.board (Position.board atari_position)) "x" 16 31) /\
    (Board.board (Position.board p') !! Z.to_nat 16 = Some "." \/
     Board.board (Position.board p') !! Z.to_nat 16 = Some "X").
Proof.
  assert (H : exists p', Position.move atari_position 31 = Ret (Some p'))
    by (eexists; vm_compute; reflexivity).
  destruct H as (p' & Hmove). exists p'. split; [exact Hmove|].
  apply (move_captures atari_position p' 31 16 atari_position_played);
    [lia|reflexivity|exact Hmove|lia|reflexivity].
Defined.

(** X27. At an empty point of a position of play [move] returns, and it
    refuses the move exactly when the move is a suicide that captures
    nothing: with the stone placed, its group has no liberty while every
    opponent group next to it has one. *)
Theorem move_refuses_suicide (p : Position.t) (c : Z)
    (Hp : Position.played p) (Hc : 0 <= c)
    (Hdot : Board.board (Position.board p) !! Z.to_nat c = Some ".") :
  let b0 := <[Z.to_nat c := "X"]> (Board.board (Position.board p)) in
  (exists r, Position.move p c = Ret r) /\
  (Position.move p c = Ret None <->
   ~ has_liberty b0 "X" c /\
   forall d, d ∈ Board.neighbors c -> b0 !! Z.to_nat d = Some "x" -> has_liberty b0 "x" d).
Proof.
  intros b0.
  destruct (played_on_grid _ Hp) as [Hg Hin].
  split.
  { destruct (move_returns p c (on_grid_playable _ Hg Hin) Hc Hdot) as (r0 & Hr0 & _).
    by exists r0. }
  destruct (move_stages p c Hp Hc Hdot) as (b1 & k & sc & sf & r & E1 & Hsf & Hr & ->).
  destruct (capture_stage _ c b1 _ _ _ Hg Hc Hdot E1)
    as (C & W & L & G & Hlen1 & Hrim1 & Hum1 & Hb1c).
  fold b0 in C, W, G.
  destruct (liberty_test_aux b1 "X" c Hlen1 Hrim1 Hum1 Hc Hb1c ltac:(by left))
    as (fb & r' & Hrun & Hcontact & _ & Hsome & Hnone).
  rewrite Hsf in Hrun. injection Hrun as <-. rewrite Hr in Hcontact.
  injection Hcontact as <-.
  assert (Hds : forall d, d ∈ Board.neighbors c -> 0 <= d).
  { pose proof (on_grid_point _ _ _ Hg Hdot eq_refl).
    intros d. unfold Board.neighbors, Board.W, Board.N.
    rewrite !elem_of_cons, elem_of_nil. lia. }
  assert (HXback : forall j, 0 <= j -> b1 !! Z.to_nat j = Some "X" ->
                             b0 !! Z.to_nat j = Some "X").
  { intros j _ Hj. eapply captures_of_back; [exact C|exact Hj|discriminate]. }
  assert (HXfwd : forall j, 0 <= j -> b0 !! Z.to_nat j = Some "X" ->
                            b1 !! Z.to_nat j = Some "X").
  { intros j _ Hj. destruct (captures_of_lookup _ _ _ _ C Hj) as [E|[E _]];
      [exact E|discriminate]. }
  split.
  - intros ->. specialize (Hnone eq_refl). split.
    + intros (j & d & Hj & Hd & Hd0 & Hdp). apply Hnone. exists j, d.
      split; [by apply (component_mono b0)|]. split; [exact Hd|]. split; [exact Hd0|].
      by eapply captures_of_point.
    + intros d Hd Hdx.
      destruct (captures_of_lookup _ _ _ _ C Hdx) as [E|[_ E]].
      * apply (liberty_back b0 b1); auto.
      * exfalso. apply Hnone. exists c, d.
        split; [constructor|]. split; [exact Hd|]. split; [by apply Hds|exact E].
  - intros [Hno Hall]. destruct r as [l|]; [exfalso|reflexivity].
    destruct (Hsome ltac:(by eexists)) as (j & d & Hj & Hd & Hd0 & Hdp).
    destruct (Forall2_lookup_r _ _ _ _ _ C Hdp) as (y & Hy & [Ey|[Ey _]]); subst y.
    + apply Hno. exists j, d. split; [by apply (component_mono b1)|]. auto.
    + destruct (G d Hd0 Hy Hdp) as (Hdead & d' & Hd' & Hd'x & Hgrp).
      apply Hdead. apply (has_liberty_group b0 "x" d' d (Hds d' Hd') Hd'x Hgrp).
      by apply Hall.
Qed.

Lemma corner_position_played : Position.played corner_position.
Proof.
  assert (H : exists p1 p2,
             Position.move (Position.pass_move Position.empty_position) 17 = Ret (Some p1) /\
             Position.move (Position.pass_move p1) 31 = Ret (Some p2) /\
             p2 = corner_position)
    by (do 2 eexists; repeat split; vm_compute; reflexivity).
  destruct H as (p1 & p2 & H1 & H2 & <-).
  assert (P1 : Position.played p1).
  { apply (Position.played_move (Position.pass_move Position.empty_position) 17 p1);
      [apply Position.played_pass, Position.played_empty|lia|reflexivity|exact H1]. }
  apply (Position.played_move (Position.pass_move p1) 31 p2);
    [by apply Position.played_pass|lia| |exact H2].
  vm_compute in H1. injection H1 as <-. reflexivity.
Qed.

Lemma move_refuses_suicide_witness :
  let b0 := <[Z.to_nat 16 := "X"]> (Board.board (Position.board corner_position)) in
  (exists r, Position.move corner_position 16 = Ret r) /\
  (Position.move corner_position 16 = Ret None <->
   ~ has_liberty b0 "X" 16 /\
   forall d, d ∈ Board.neighbors 16 -> b0 !! Z.to_nat d = Some "x" -> has_liberty b0 "x" d).
Proof.
  apply (move_refuses_suicide corner_position 16 corner_position_played);
    [lia|reflexivity].
Defined.

(** ** cfg_distances: the distances of the common fate graph *)

Lemma sumZ_cons f a (l : list Z) : sumZ f (a :: l) = f a + sumZ f l.
Proof. reflexivity. Qed.

Lemma sumZ_insert f (l : list Z) (k : nat) v v' :
  l !! k = Some v -> sumZ f (<[k := v']> l) = sumZ f l - f v + f v'.
Proof.
  revert k. induction l as [|a l IH]; intros [|k] H; try discriminate.
  - injection H as ->. change (<[0%nat := v']> (v :: l)) with (v' :: l).
    rewrite !sumZ_cons. lia.
  - change (<[S k := v']> (a :: l)) with (a :: <[k := v']> l).
    rewrite !sumZ_cons, (IH k H). lia.
Qed.

Lemma sumZ_replicate f n v : sumZ f (replicate n v) = Z.of_nat n * f v.
Proof.
  induction n as [|n IH]; [reflexivity|].
  change (replicate (S n) v) with (v :: replicate n v). rewrite sumZ_cons, IH. lia.
Qed.

Lemma sumZ_bound f B (l : list Z) :
  (forall v, 0 <= f v <= B) -> 0 <= sumZ f l <= B * Z.of_nat (length l).
Proof.
  intros Hf. induction l as [|a l IH]; [cbn; lia|].
  rewrite sumZ_cons. cbn [length]. pose proof (Hf a). lia.
Qed.

Lemma cfg_reached_range v : 0 <= cfg_reached v <= 1.
Proof. unfold cfg_reached. destruct (v <? 0); lia. Qed.

Lemma cfg_slack_nonneg (l : list Z) : 0 <= sumZ cfg_slack l.
Proof.
  induction l as [|a l IH]; [cbn; lia|]. rewrite sumZ_cons.
  unfold cfg_slack at 1. unfold Board.W2, Board.W, Board.N.
  destruct (a <? 0) eqn:E; [lia|]. apply Z.ltb_ge in E. lia.
Qed.

Lemma cfg_step_range b k d : 0 <= cfg_step b k d <= 1.
Proof. unfold cfg_step. repeat case_match; lia. Qed.

Lemma result_if_Ret {A} (t : bool) (x y : A) :
  (if t then Ret x else Ret y) = Ret (if t then x else y).
Proof. by destruct t. Qed.

Section CfgDistances.

Variables (b : str) (c0 : Z).
Hypothesis Hlen : length b = Z.to_nat Board.W2.
Hypothesis Hrim : rim b.
Hypothesis Hc0 : on_board c0.

Lemma cfg_visit c mc d ds done m fr :
  cfg_inv b c0 m (c :: fr) -> m !! Z.to_nat c = Some mc -> d ∈ Board.neighbors c ->
  cfg_relaxed b m c mc done ->
  exists m' fr',
    Heuristics.cfg_neighbors b c (d :: ds) m fr = Heuristics.cfg_neighbors b c ds m' fr' /\
    cfg_inv b c0 m' (c :: fr') /\ m' !! Z.to_nat c = Some mc /\
    cfg_relaxed b m' c mc (done ++ [d]) /\
    Z.of_nat (length fr') + sumZ cfg_slack m' <= Z.of_nat (length fr) + sumZ cfg_slack m.
Proof.
  intros Hinv Hmc Hd Hdone.
  pose proof Hinv as (L & Z0 & Hcnt & Hpath & Hfr & Hrel).
  destruct (Hfr c ltac:(apply elem_of_cons; by left)) as [Hcb (v & Hv & Hmc0)].
  rewrite Hmc in Hv. injection Hv as <-.
  assert (Hdr : 0 <= d < 225 /\ d <> c).
  { unfold on_board, Board.W2, Board.W, Board.N in Hcb.
    unfold Board.neighbors, Board.W, Board.N in Hd.
    rewrite !elem_of_cons, elem_of_nil in Hd. lia. }
  assert (Hcr : 0 <= c < 225).
  { unfold on_board, Board.W2, Board.W, Board.N in Hcb. lia. }
  assert (L' : length m = 225%nat) by exact L.
  assert (Hlen' : length b = 225%nat) by exact Hlen.
  destruct (lookup_lt_is_Some_2 b (Z.to_nat d)) as [bd Hbd]; [lia|].
  destruct (lookup_lt_is_Some_2 m (Z.to_nat d)) as [md Hmd]; [lia|].
  destruct (lookup_lt_is_Some_2 b (Z.to_nat c)) as [bc Hbc]; [lia|].
  assert (Hstep : cfg_step b c d = if negb (Ascii.eqb bd ".") && Ascii.eqb bd bc then 0 else 1).
  { unfold cfg_step. by rewrite Hbc, Hbd. }
  (* the cases in which the map stays as it is *)
  assert (Hsame : (isspace bd = false -> 0 <= md <= mc + cfg_step b c d) ->
    cfg_inv b c0 m (c :: fr) /\ m !! Z.to_nat c = Some mc /\
    cfg_relaxed b m c mc (done ++ [d]) /\
    Z.of_nat (length fr) + sumZ cfg_slack m <= Z.of_nat (length fr) + sumZ cfg_slack m).
  { intros Hok. split; [exact Hinv|]. split; [exact Hmc|]. split; [|lia].
    intros d' y [Hd'|Hd']%elem_of_app Hd'0 Hy Hsp; [by apply (Hdone d' y)|].
    apply list_elem_of_singleton in Hd'. subst d'.
    rewrite Hbd in Hy. injection Hy as <-. exists md. split; [exact Hmd|]. by apply Hok. }
  cbn [Heuristics.cfg_neighbors].
  rewrite (getitem_nonneg b d bd) by (lia || exact Hbd).
  rewrite !(getitem_nonneg m d md) by (lia || exact Hmd).
  rewrite !(getitem_nonneg m c mc) by (lia || exact Hmc).
  rewrite (getitem_nonneg b c bc) by (lia || exact Hbc).
  cbn [mbind result_bind]. rewrite !result_if_Ret. cbn [mbind result_bind].
  destruct (isspace bd) eqn:Esp.
  { exists m, fr. split; [reflexivity|]. apply Hsame. discriminate. }
  destruct ((0 <=? md) && (md <=? mc)) eqn:Eskip.
  { apply andb_true_iff in Eskip as [E0 E1]. rewrite E0, E1.
    apply Z.leb_le in E0, E1.
    exists m, fr. split; [reflexivity|]. apply Hsame. intros _.
    pose proof (cfg_step_range b c d). lia. }
  assert (Eskip' : (if 0 <=? md then md <=? mc else false) = false).
  { destruct (0 <=? md); [exact Eskip|reflexivity]. }
  rewrite Eskip'.
  assert (Hnew : (if (if negb (Ascii.eqb bd ".") then Ascii.eqb bd bc else false)
                  then mc else mc + 1) = mc + cfg_step b c d).
  { rewrite Hstep. destruct (negb (Ascii.eqb bd ".")), (Ascii.eqb bd bc); cbn; lia. }
  rewrite Hnew. set (new := mc + cfg_step b c d) in *.
  rewrite (proj2 (setitem_Ret m (<[Z.to_nat d := new]> m) d new))
    by (exists (Z.to_nat d); split; [apply index_of_nonneg; lia|reflexivity]).
  cbn [mbind result_bind].
  pose proof (cfg_step_range b c d) as Hsr.
  assert (Hmdc : md < 0 \/ mc < md).
  { apply andb_false_iff in Eskip as [E|E]; [left; by apply Z.leb_gt in E|].
    right. by apply Z.leb_gt in E. }
  destruct ((md <? 0) || (new <? md)) eqn:Epush.
  2:{ (* the entry is rewritten with the value it had *)
      apply orb_false_iff in Epush as [E0 E1]. apply Z.ltb_ge in E0, E1.
      assert (new = md) by lia.
      assert (Hid : <[Z.to_nat d := new]> m = m) by (apply list_insert_id; congruence).
      rewrite Hid. exists m, fr. split; [reflexivity|]. apply Hsame. intros _. lia. }
  assert (Hless : md < 0 \/ new < md).
  { apply orb_true_iff in Epush as [E|E]; [left; by apply Z.ltb_lt in E|].
    right. by apply Z.ltb_lt in E. }
  set (m' := <[Z.to_nat d := new]> m).
  assert (Hm'd : m' !! Z.to_nat d = Some new).
  { unfold m'. apply list_lookup_insert_eq. lia. }
  assert (Hm'ne : forall k : nat, k <> Z.to_nat d -> m' !! k = m !! k).
  { intros k Hk. unfold m'. by apply list_lookup_insert_ne. }
  assert (Hcnt' : sumZ cfg_reached m' = sumZ cfg_reached m - cfg_reached md + 1).
  { unfold m'. rewrite (sumZ_insert _ _ _ md) by exact Hmd.
    unfold cfg_reached at 3. replace (new <? 0) with false; [lia|].
    symmetry. apply Z.ltb_ge. lia. }
  pose proof (Hcnt _ _ Hmc) as Hmcc. pose proof (Hcnt _ _ Hmd) as Hmdd.
  assert (Hrm : md < 0 -> cfg_reached md = 0).
  { intros E. unfold cfg_reached. by rewrite (proj2 (Z.ltb_lt _ _) E). }
  assert (Hrp : 0 <= md -> cfg_reached md = 1).
  { intros E. unfold cfg_reached. by rewrite (proj2 (Z.ltb_ge _ _) E). }
  assert (Hnewlt : new < sumZ cfg_reached m').
  { rewrite Hcnt'. destruct (Z.lt_ge_cases md 0) as [E|E].
    - rewrite (Hrm E). lia.
    - rewrite (Hrp E). lia. }
  assert (Hdc0 : Z.to_nat d <> Z.to_nat c0).
  { intros E. rewrite E, Z0 in Hmd. injection Hmd as <-. lia. }
  exists m', (d :: fr). split; [reflexivity|]. split; [|split; [|split]].
  - (* the invariant *)
    split; [unfold m'; by rewrite length_insert|].
    split; [by rewrite Hm'ne by congruence|].
    split; [|split; [|split]].
    + intros k v Hk. destruct (decide (k = Z.to_nat d)) as [->|Hne].
      * rewrite Hm'd in Hk. injection Hk as <-. lia.
      * rewrite Hm'ne in Hk by exact Hne. pose proof (Hcnt _ _ Hk).
        pose proof (cfg_reached_range md). lia.
    + intros k v Hk Hv. destruct (decide (k = Z.to_nat d)) as [->|Hne].
      * rewrite Hm'd in Hk. injection Hk as <-. rewrite Z2Nat.id by lia.
        apply (cfg_path_step b c0 c mc d bd); auto; [|lia].
        rewrite <- (Z2Nat.id c) by lia. by apply Hpath.
      * rewrite Hm'ne in Hk by exact Hne. by apply Hpath.
    + intros f Hf. destruct (decide (f = d)) as [->|Hne].
      * split.
        -- rewrite <- (Z2Nat.id d) by lia. by apply (rim_on_board b _ bd).
        -- exists new. split; [exact Hm'd|lia].
      * assert (Hf' : f ∈ c :: fr).
        { rewrite !elem_of_cons in Hf. rewrite elem_of_cons. tauto. }
        destruct (Hfr f Hf') as [Hfb (v & Hv & Hv0)]. split; [exact Hfb|].
        exists v. split; [|exact Hv0]. rewrite Hm'ne; [exact Hv|].
        unfold on_board, Board.W2, Board.W, Board.N in Hfb. lia.
    + intros k v Hk Hv. destruct (decide (k = Z.to_nat d)) as [->|Hne].
      * left. rewrite Z2Nat.id by lia. rewrite !elem_of_cons. tauto.
      * rewrite Hm'ne in Hk by exact Hne.
        destruct (Hrel k v Hk Hv) as [Hin|Hr].
        -- left. rewrite !elem_of_cons in *. tauto.
        -- right. intros d' y Hd' Hd'0 Hy Hsp.
           destruct (Hr d' y Hd' Hd'0 Hy Hsp) as (u & Hu & Hu0).
           destruct (decide (d' = d)) as [->|Hne'].
           ++ rewrite Hmd in Hu. injection Hu as <-.
              exists new. split; [exact Hm'd|lia].
           ++ exists u. split; [|exact Hu0]. rewrite Hm'ne; [exact Hu|lia].
  - rewrite Hm'ne; [exact Hmc|lia].
  - intros d' y Hd' Hd'0 Hy Hsp.
    destruct (decide (d' = d)) as [->|Hne'].
    + exists new. split; [exact Hm'd|]. unfold new. lia.
    + apply elem_of_app in Hd' as [Hd'|Hd'].
      * destruct (Hdone d' y Hd' Hd'0 Hy Hsp) as (u & Hu & Hu0).
        exists u. split; [|exact Hu0]. rewrite Hm'ne; [exact Hu|lia].
      * apply list_elem_of_singleton in Hd'. contradiction.
  - unfold m'. rewrite (sumZ_insert _ _ _ md) by exact Hmd.
    cbn [length]. 
    assert (Hsl : cfg_slack new < cfg_slack md).
    { pose proof (sumZ_bound cfg_reached 1 m' cfg_reached_range) as Hb.
      assert (Hl' : length m' = 225%nat) by (unfold m'; by rewrite length_insert).
      rewrite Hl' in Hb.
      unfold cfg_slack, Board.W2, Board.W, Board.N.
      replace (new <? 0) with false by (symmetry; apply Z.ltb_ge; lia).
      destruct (md <? 0) eqn:E; [lia|]. apply Z.ltb_ge in E. lia. }
    lia.
Qed.

Lemma cfg_neighbors_spec c mc ds : forall done m fr,
  cfg_inv b c0 m (c :: fr) -> m !! Z.to_nat c = Some mc ->
  (forall d, d ∈ ds -> d ∈ Board.neighbors c) ->
  cfg_relaxed b m c mc done ->
  exists m' fr',
    Heuristics.cfg_neighbors b c ds m fr = Ret (m', fr') /\
    cfg_inv b c0 m' (c :: fr') /\ m' !! Z.to_nat c = Some mc /\
    cfg_relaxed b m' c mc (done ++ ds) /\
    Z.of_nat (length fr') + sumZ cfg_slack m' <= Z.of_nat (length fr) + sumZ cfg_slack m.
Proof.
  induction ds as [|d ds IH]; intros done m fr Hinv Hmc Hds Hdone.
  - exists m, fr. split; [reflexivity|]. rewrite app_nil_r.
    split; [exact Hinv|]. split; [exact Hmc|]. split; [exact Hdone|lia].
  - destruct (cfg_visit c mc d ds done m fr Hinv Hmc
                ltac:(apply Hds, elem_of_cons; by left) Hdone)
      as (m1 & fr1 & -> & Hinv1 & Hmc1 & Hdone1 & Hle1).
    destruct (IH (done ++ [d]) m1 fr1 Hinv1 Hmc1
                ltac:(intros d' Hd'; apply Hds, elem_of_cons; by right) Hdone1)
      as (m2 & fr2 & -> & Hinv2 & Hmc2 & Hdone2 & Hle2).
    exists m2, fr2. split; [reflexivity|]. rewrite <- app_assoc in Hdone2.
    split; [exact Hinv2|]. split; [exact Hmc2|]. split; [exact Hdone2|lia].
Qed.

Lemma cfg_loop_spec fuel : forall m fr,
  cfg_inv b c0 m fr ->
  Z.of_nat (length fr) + sumZ cfg_slack m <= Z.of_nat fuel ->
  exists m', Heuristics.cfg_loop fuel b m fr = Ret m' /\ cfg_inv b c0 m' [].
Proof.
  induction fuel as [|fuel IH]; intros m fr Hinv Hfuel.
  - pose proof (cfg_slack_nonneg m). destruct fr as [|c fr]; [|cbn [length] in Hfuel; lia].
    exists m. by split.
  - destruct fr as [|c fr]; [exists m; by split|].
    cbn [Heuristics.cfg_loop].
    pose proof Hinv as (_ & _ & _ & _ & Hfr & _).
    destruct (Hfr c ltac:(apply elem_of_cons; by left)) as [Hcb (mc & Hmc & Hmc0)].
    destruct (cfg_neighbors_spec c mc (Board.neighbors c) [] m fr Hinv Hmc
                ltac:(auto) ltac:(intros d y Hd; by apply elem_of_nil in Hd))
      as (m1 & fr1 & -> & Hinv1 & Hmc1 & Hdone1 & Hle1).
    cbn [mbind result_bind]. apply IH.
    + destruct Hinv1 as (L1 & Z1 & Hcnt1 & Hpath1 & Hfr1 & Hrel1).
      split; [exact L1|]. split; [exact Z1|]. split; [exact Hcnt1|]. split; [exact Hpath1|].
      split.
      * intros f Hf. apply Hfr1. apply elem_of_cons. by right.
      * intros k v Hk Hv. destruct (Hrel1 k v Hk Hv) as [[E|Hin]%elem_of_cons|Hr]; auto.
        right. rewrite E. assert (Hkc : k = Z.to_nat c) by lia. subst k.
        rewrite Hmc1 in Hk. injection Hk as <-. exact Hdone1.
    + cbn [length] in Hfuel. lia.
Qed.

Lemma cfg_start_inv :
  cfg_inv b c0 (<[Z.to_nat c0 := 0]> (replicate (Z.to_nat (Board.W * Board.W)) (-1))) [c0].
Proof.
  change (Z.to_nat (Board.W * Board.W)) with 225%nat.
  set (m0 := replicate 225 (-1)).
  assert (L0 : length m0 = 225%nat) by (unfold m0; by rewrite length_replicate).
  assert (Hr : 0 <= c0 < 225).
  { unfold on_board, Board.W2, Board.W, Board.N in Hc0. lia. }
  assert (H0 : <[Z.to_nat c0 := 0]> m0 !! Z.to_nat c0 = Some 0).
  { apply list_lookup_insert_eq. lia. }
  assert (Hcnt : sumZ cfg_reached (<[Z.to_nat c0 := 0]> m0) = 1).
  { rewrite (sumZ_insert _ _ _ (-1)); [|apply lookup_replicate_2; lia].
    unfold m0. rewrite sumZ_replicate. reflexivity. }
  assert (Hval : forall (k : nat) v, <[Z.to_nat c0 := 0]> m0 !! k = Some v ->
                   (k = Z.to_nat c0 /\ v = 0) \/ v = -1).
  { intros k v Hk. destruct (decide (k = Z.to_nat c0)) as [->|Hne].
    - left. rewrite H0 in Hk. by injection Hk as <-.
    - right. rewrite list_lookup_insert_ne in Hk by congruence.
      by apply lookup_replicate in Hk as [-> _]. }
  split; [by rewrite length_insert|]. split; [exact H0|]. split; [|split; [|split]].
  - intros k v Hk. rewrite Hcnt. destruct (Hval k v Hk) as [[_ ->]| ->]; lia.
  - intros k v Hk Hv. destruct (Hval k v Hk) as [[-> ->]| ->]; [|lia].
    rewrite Z2Nat.id by lia. constructor.
  - intros f Hf. apply list_elem_of_singleton in Hf. subst f. split; [exact Hc0|].
    exists 0. split; [exact H0|lia].
  - intros k v Hk Hv. left. destruct (Hval k v Hk) as [[-> ->]| ->]; [|lia].
    rewrite Z2Nat.id by lia. by apply list_elem_of_singleton.
Qed.

Lemma cfg_distances_inv :
  exists m, Heuristics.cfg_distances (Board.mk b) c0 = Ret m /\ cfg_inv b c0 m [].
Proof.
  assert (Hr : 0 <= c0 < 225).
  { unfold on_board, Board.W2, Board.W, Board.N in Hc0. lia. }
  unfold Heuristics.cfg_distances.
  change (Z.to_nat (Board.W * Board.W)) with 225%nat.
  pose proof cfg_start_inv as Hstart.
  change (Z.to_nat (Board.W * Board.W)) with 225%nat in Hstart.
  set (m0 := replicate 225 (-1)) in *.
  assert (L0 : length m0 = 225%nat) by (unfold m0; by rewrite length_replicate).
  rewrite (proj2 (setitem_Ret m0 (<[Z.to_nat c0 := 0]> m0) c0 0))
    by (exists (Z.to_nat c0); split; [apply index_of_nonneg; lia|reflexivity]).
  cbn [mbind result_bind Board.board].
  apply cfg_loop_spec; [exact Hstart|].
  rewrite (sumZ_insert _ _ _ (-1)) by (apply lookup_replicate_2; lia).
  unfold m0. rewrite sumZ_replicate. cbn [length].
  change (cfg_slack (-1)) with 225. change (cfg_slack 0) with 0.
  change (Board.W2 * Board.W2) with 50625. lia.
Qed.

Lemma cfg_path_bound m k n :
  cfg_inv b c0 m [] -> cfg_path b c0 k n ->
  0 <= k /\ exists v, m !! Z.to_nat k = Some v /\ 0 <= v <= n.
Proof.
  intros (L & Z0 & Hcnt & Hpath & Hfr & Hrel). induction 1 as [|k n d y Hk IH Hd Hd0 Hy Hsp].
  - split; [unfold on_board, Board.W, Board.N in Hc0; lia|]. exists 0. split; [exact Z0|lia].
  - destruct IH as [Hk0 (v & Hv & Hvn)]. split; [exact Hd0|].
    destruct (Hrel _ _ Hv ltac:(lia)) as [Hin|Hr]; [by apply elem_of_nil in Hin|].
    rewrite Z2Nat.id in Hr by lia.
    destruct (Hr d y Hd Hd0 Hy Hsp) as (u & Hu & Hu0).
    exists u. split; [exact Hu|lia].
Qed.

(** X28. On a board with a blank rim [cfg_distances] from a point [c]
    between the rims returns a map of the W * W cells in which an entry
    that is not negative is the least cost of a walk from [c] to the cell
    over cells that are not blank, a step between two stones of one colour
    costing nothing and any other step one; the entry is -1 exactly at the
    cells no such walk reaches. *)
Theorem cfg_distances_least :
  exists m,
    Heuristics.cfg_distances (Board.mk b) c0 = Ret m /\
    length m = Z.to_nat Board.W2 /\
    forall k v, 0 <= k -> m !! Z.to_nat k = Some v ->
      (v = -1 /\ forall n, ~ cfg_path b c0 k n) \/
      (0 <= v /\ cfg_path b c0 k v /\ forall n, cfg_path b c0 k n -> v <= n).
Proof.
  destruct cfg_distances_inv as (m & Hrun & Hinv). exists m. split; [exact Hrun|].
  pose proof Hinv as (L & Z0 & Hcnt & Hpath & Hfr & Hrel). split; [exact L|].
  intros k v Hk Hv. destruct (decide (0 <= v)) as [Hv0|Hv0].
  - right. split; [exact Hv0|]. split.
    + rewrite <- (Z2Nat.id k Hk). by apply Hpath.
    + intros n Hn. destruct (cfg_path_bound m k n Hinv Hn) as [_ (u & Hu & Hun)].
      assert (u = v) by congruence. lia.
  - left. pose proof (Hcnt _ _ Hv). split; [lia|].
    intros n Hn. destruct (cfg_path_bound m k n Hinv Hn) as [_ (u & Hu & Hun)].
    assert (u = v) by congruence. lia.
Qed.

End CfgDistances.

Lemma cfg_distances_least_witness :
  exists m,
    Heuristics.cfg_distances (Board.mk (Board.board (Position.board atari_position))) 100
      = Ret m /\
    length m = Z.to_nat Board.W2 /\
    forall k v, 0 <= k -> m !! Z.to_nat k = Some v ->
      (v = -1 /\
       forall n, ~ cfg_path (Board.board (Position.board atari_position)) 100 k n) \/
      (0 <= v /\ cfg_path (Board.board (Position.board atari_position)) 100 k v /\
       forall n, cfg_path (Board.board (Position.board atari_position)) 100 k n -> v <= n).
Proof.
  destruct (played_on_grid _ atari_position_played) as [Hg _].
  apply (cfg_distances_least (Board.board (Position.board atari_position)) 100).
  - by apply on_grid_length.
  - by apply on_grid_rim.
  - unfold on_board, Board.W2, Board.W, Board.N. lia.
Defined.

(** ** line_height: the distance to the nearest edge *)

Lemma divmod_15 r q : 0 <= q < 15 -> (15 * r + q) `div` 15 = r /\ (15 * r + q) `mod` 15 = q.
Proof.
  intros Hq. split.
  - symmetry. apply (Z.div_unique _ 15 r q); lia.
  - symmetry. apply (Z.mod_unique _ 15 r q); lia.
Qed.

Lemma empty_point_iff k :
  0 <= k ->
  Board.empty !! Z.to_nat k = Some "." <->
  1 <= k `div` 15 <= 13 /\ 1 <= k `mod` 15 <= 13.
Proof.
  intros Hk.
  assert (Hall : forallb (fun i : nat =>
            Bool.eqb (match Board.empty !! i with Some a => Ascii.eqb a "." | None => false end)
                     ((1 <=? Z.of_nat i `div` 15) && (Z.of_nat i `div` 15 <=? 13) &&
                      (1 <=? Z.of_nat i `mod` 15) && (Z.of_nat i `mod` 15 <=? 13)))
            (seq 0 225) = true) by (vm_compute; reflexivity).
  rewrite forallb_forall in Hall.
  destruct (Z.lt_ge_cases k 225) as [Hlt|Hge].
  - specialize (Hall (Z.to_nat k)). rewrite Z2Nat.id in Hall by lia.
    specialize (Hall ltac:(apply in_seq; lia)). apply Bool.eqb_prop in Hall.
    split.
    + intros E. rewrite E in Hall. change (Ascii.eqb "." ".") with true in Hall.
      symmetry in Hall. rewrite !andb_true_iff, !Z.leb_le in Hall. lia.
    + intros E.
      assert (Ht : (1 <=? k `div` 15) && (k `div` 15 <=? 13) &&
                   (1 <=? k `mod` 15) && (k `mod` 15 <=? 13) = true).
      { rewrite !andb_true_iff, !Z.leb_le. lia. }
      rewrite Ht in Hall. destruct (Board.empty !! Z.to_nat k) as [a|]; [|discriminate].
      by apply Ascii.eqb_eq in Hall as ->.
  - split.
    + intros E. apply lookup_lt_Some in E.
      change (length Board.empty) with 225%nat in E. lia.
    + intros [H1 _]. exfalso.
      assert (15 <= k `div` 15) by (apply Z.div_le_lower_bound; lia). lia.
Qed.

(** X29. For a point [c] of the board, [line_height c] is not negative,
    and [j] is at most [line_height c] exactly when, for every [i] up to
    [j], the four cells [i] steps left, right, above and below [c] are
    points of the board: the line height counts the points between [c]
    and the nearest edge. *)
Theorem line_height_edge (c j : Z)
    (Hc : 0 <= c) (Hpt : Board.empty !! Z.to_nat c = Some ".") (Hj : 0 <= j) :
  0 <= Board.line_height c /\
  (j <= Board.line_height c <->
   forall i, 0 <= i <= j ->
     Forall (fun d => 0 <= d /\ Board.empty !! Z.to_nat d = Some ".")
       [c - i; c + i; c - i * Board.W; c + i * Board.W]).
Proof.
  apply empty_point_iff in Hpt; [|exact Hc]. destruct Hpt as [Hr Hq].
  set (r := c `div` 15) in *. set (q := c `mod` 15) in *.
  assert (Ec : c = 15 * r + q) by (unfold r, q; apply Z.div_mod; lia).
  assert (Elh : Board.line_height c =
                Z.min (Z.min (Z.min (r - 1) (q - 1)) (13 - r)) (13 - q)).
  { unfold Board.line_height. change Board.W with 15. change Board.N with 13.
    replace (c - (15 + 1)) with (15 * (r - 1) + (q - 1)) by lia.
    destruct (divmod_15 (r - 1) (q - 1) ltac:(lia)) as [-> ->]. f_equal; [f_equal|]; lia. }
  rewrite Elh. change Board.W with 15. split; [lia|]. split.
  - intros Hle i Hi. repeat apply Forall_cons_2; [..|apply Forall_nil_2].
    + split; [lia|]. apply empty_point_iff; [lia|].
      replace (c - i) with (15 * r + (q - i)) by lia.
      destruct (divmod_15 r (q - i) ltac:(lia)) as [-> ->]. lia.
    + split; [lia|]. apply empty_point_iff; [lia|].
      replace (c + i) with (15 * r + (q + i)) by lia.
      destruct (divmod_15 r (q + i) ltac:(lia)) as [-> ->]. lia.
    + split; [lia|]. apply empty_point_iff; [lia|].
      replace (c - i * 15) with (15 * (r - i) + q) by lia.
      destruct (divmod_15 (r - i) q ltac:(lia)) as [-> ->]. lia.
    + split; [lia|]. apply empty_point_iff; [lia|].
      replace (c + i * 15) with (15 * (r + i) + q) by lia.
      destruct (divmod_15 (r + i) q ltac:(lia)) as [-> ->]. lia.
  - intros Hall.
    set (h := Z.min (Z.min (Z.min (r - 1) (q - 1)) (13 - r)) (13 - q)) in *.
    destruct (Z.le_gt_cases j h) as [Hle|Hgt]; [exact Hle|]. exfalso.
    specialize (Hall (h + 1) ltac:(lia)).
    apply Forall_cons in Hall as [[H1 P1] Hall].
    apply Forall_cons in Hall as [[H2 P2] Hall].
    apply Forall_cons in Hall as [[H3 P3] Hall].
    apply Forall_cons in Hall as [[H4 P4] _].
    apply empty_point_iff in P1, P2, P3, P4; try lia.
    replace (c - (h + 1)) with (15 * r + (q - (h + 1))) in P1 by lia.
    replace (c + (h + 1)) with (15 * r + (q + (h + 1))) in P2 by lia.
    replace (c - (h + 1) * 15) with (15 * (r - (h + 1)) + q) in P3 by lia.
    replace (c + (h + 1) * 15) with (15 * (r + (h + 1)) + q) in P4 by lia.
    destruct (divmod_15 (r - (h + 1)) q ltac:(lia)) as [E3 _].
    destruct (divmod_15 (r + (h + 1)) q ltac:(lia)) as [E4 _].
    rewrite E3 in P3. rewrite E4 in P4.
    assert (Hq1 : 0 <= q - (h + 1) < 15) by lia.
    assert (Hq2 : 0 <= q + (h + 1) < 15) by lia.
    destruct (divmod_15 r _ Hq1) as [_ E1]. destruct (divmod_15 r _ Hq2) as [_ E2].
    rewrite E1 in P1. rewrite E2 in P2. lia.
Qed.

Lemma line_height_edge_witness :
  0 <= Board.line_height 48 /\
  (2 <= Board.line_height 48 <->
   forall i, 0 <= i <= 2 ->
     Forall (fun d => 0 <= d /\ Board.empty !! Z.to_nat d = Some ".")
       [48 - i; 48 + i; 48 - i * Board.W; 48 + i * Board.W]).
Proof. apply (line_height_edge 48 2); [lia|reflexivity|lia]. Defined.

(** ** fix_atari returns *)

Lemma board_put_char (b : str) c a :
  0 <= c -> (Z.to_nat c < length b)%nat ->
  Board.board_put (Board.mk b) (Some c) [a] = Some (Board.mk (<[Z.to_nat c := a]> b)).
Proof.
  intros Hc Hlt. unfold Board.board_put, slice_to, slice_from, slice_bound.
  cbn [Board.board].
  replace (c <? 0) with false by (symmetry; apply Z.ltb_ge; lia).
  replace (c + 1 <? 0) with false by (symmetry; apply Z.ltb_ge; lia).
  replace (Z.to_nat (c `min` Z.of_nat (length b))) with (Z.to_nat c) by lia.
  replace (Z.to_nat ((c + 1) `min` Z.of_nat (length b))) with (S (Z.to_nat c)) by lia.
  rewrite (insert_take_drop b (Z.to_nat c) a Hlt).
  f_equal. destruct (take (Z.to_nat c) b); reflexivity.
Qed.

Lemma contact_found p (m : str) j :
  p <> "#" -> Board.contact_search p m 0 = Some j ->
  0 <= j /\ m !! Z.to_nat j = Some p /\
  exists d, j ∈ Board.neighbors d /\ 0 <= d /\ m !! Z.to_nat d = Some "#".
Proof.
  intros Hp Hj. destruct (contact_search_sound p m 0 j Hp Hj) as (k & -> & Hk & Hadj).
  split; [lia|]. rewrite Z.add_0_l, Nat2Z.id. split; [exact Hk|].
  unfold Board.neighbors. change Board.W with 15.
  destruct Hadj as [H1|[H1|[(k' & -> & H1)|(k' & -> & H1)]]].
  - exists (Z.of_nat (S k)). rewrite Nat2Z.id, !elem_of_cons. split; [lia|]. split; [lia|exact H1].
  - exists (Z.of_nat (k + 15)). rewrite Nat2Z.id, !elem_of_cons. split; [lia|]. split; [lia|exact H1].
  - exists (Z.of_nat k'). rewrite Nat2Z.id, !elem_of_cons. split; [lia|]. split; [lia|exact H1].
  - exists (Z.of_nat k'). rewrite Nat2Z.id, !elem_of_cons. split; [lia|]. split; [lia|exact H1].
Qed.

Lemma on_grid_unmarked b : on_grid b -> unmarked b.
Proof. intros Hg. by apply unmarked_clean, on_grid_clean. Qed.

Lemma empty_alphabet : Forall (fun e => isspace e = true \/ e = ".") Board.empty.
Proof.
  assert (H : forallb (fun e => isspace e || Ascii.eqb e ".") Board.empty = true)
    by (vm_compute; reflexivity).
  rewrite forallb_forall in H. apply Forall_forall. intros e He.
  apply list_elem_of_In in He. apply H in He.
  apply orb_true_iff in He as [He|He]; [by left|right; by apply Ascii.eqb_eq].
Qed.

Lemma on_grid_is_point b (k : nat) a :
  on_grid b -> b !! k = Some a -> isspace a = false -> point (Z.of_nat k).
Proof.
  intros Hg Hk Ha. split; [lia|]. rewrite Nat2Z.id.
  destruct (on_grid_lookup _ _ _ Hg Hk) as (e & He & Hae).
  pose proof empty_alphabet as Hal. rewrite Forall_forall in Hal.
  destruct (Hal e) as [Esp| ->]; [by eapply list_elem_of_lookup_2| |exact He].
  rewrite Esp in Hae. subst a. congruence.
Qed.

Lemma point_range c : point c -> 16 <= c <= 208.
Proof.
  intros [Hc Hp]. pose proof (empty_point_range _ _ Hp eq_refl). lia.
Qed.

Lemma point_cell b c : on_grid b -> point c -> exists a, b !! Z.to_nat c = Some a /\ isspace a = false.
Proof.
  intros Hg [Hc Hp]. destruct (Forall2_lookup_r _ _ _ _ _ Hg Hp) as (a & Ha & Hae).
  exists a. split; [exact Ha|]. cbn in Hae. by destruct Hae as [->|[->| ->]].
Qed.

(** The marks of a scratch board. *)
Section Scratch.

Variables (b : str) (p : ascii) (c : Z).
Hypothesis Hg : on_grid b.
Hypothesis Hc : 0 <= c.
Hypothesis Hstart : b !! Z.to_nat c = Some p.
Hypothesis Hp : p = "X" \/ p = "x".

Lemma scratch_contact m :
  scratch_of b p c m ->
  exists r, Board.contact (Board.mk m) "." = Ret r /\
    forall l, r = Some l -> liberty_of b p c l /\ m !! Z.to_nat l = Some ".".
Proof.
  intros (Hlen & Hmark & Hpt). exists (Board.contact_search "." m 0).
  split; [apply contact_point|]. intros l Hl.
  destruct (contact_found "." m l ltac:(discriminate) Hl) as (Hl0 & Hml & d & Hd & Hd0 & Hmd).
  split; [|exact Hml]. split; [exact Hl0|].
  split; [by apply (Hpt _ "." Hml)|].
  exists d. split; [|exact Hd]. rewrite <- (Z2Nat.id d Hd0). by apply Hmark.
Qed.

Lemma scratch_put m l :
  scratch_of b p c m -> 0 <= l -> m !! Z.to_nat l = Some "." ->
  Board.board_put (Board.mk m) (Some l) (lit "L") = Some (Board.mk (<[Z.to_nat l := "L"]> m)) /\
  scratch_of b p c (<[Z.to_nat l := "L"]> m) /\
  (forall k : nat, <[Z.to_nat l := "L"]> m !! k = Some "." -> k <> Z.to_nat l /\ m !! k = Some ".").
Proof.
  intros (Hlen & Hmark & Hpt) Hl Hml.
  pose proof (lookup_lt_Some _ _ _ Hml) as Hlt.
  split; [by apply board_put_char|].
  assert (Hne : forall (k : nat) a, a <> "L" -> <[Z.to_nat l := "L"]> m !! k = Some a ->
                                    k <> Z.to_nat l /\ m !! k = Some a).
  { intros k a Ha Hk. destruct (decide (k = Z.to_nat l)) as [->|Hkl].
    - rewrite list_lookup_insert_eq in Hk by exact Hlt. congruence.
    - by rewrite list_lookup_insert_ne in Hk by congruence. }
  split; [|intros k Hk; by apply Hne].
  split; [by rewrite length_insert|]. split.
  - intros k Hk. apply Hmark. by apply (Hne k "#").
  - intros k a Hk Ha1 Ha2. apply Hpt; [by apply (Hne k a)|exact Ha1|exact Ha2].
Qed.

Lemma group_scan :
  alive b ->
  exists fb l,
    Board.floodfill (Board.mk b) c = Ret (Board.mk fb) /\
    scratch_of b p c fb /\
    (forall k : nat, component b p c (Z.of_nat k) -> fb !! k = Some "#") /\
    1 <= count "#" fb /\
    Board.contact (Board.mk fb) "." = Ret (Some l) /\
    liberty_of b p c l /\ fb !! Z.to_nat l = Some ".".
Proof.
  intros Hal.
  destruct (liberty_test_aux b p c (on_grid_length _ Hg) (on_grid_rim _ Hg)
              (on_grid_unmarked _ Hg) Hc Hstart Hp)
    as ([fb] & r & Hrun & Hcontact & Hcells & Hsome & Hnone).
  cbn [Board.board] in *.
  assert (Hsc : scratch_of b p c fb).
  { destruct (floodfill_fills _ _ _ Hrun) as (q & Hq & Hf). cbn [Board.board] in Hq, Hf.
    assert (Hqp : q = p).
    { apply getitem_Ret in Hq as (i & Hi & Hx).
      destruct (index_of_Some _ _ _ Hi) as (_ & Hi0 & _). rewrite (Hi0 Hc) in Hx. congruence. }
    subst q. destruct Hf as [Hfl Hf]; [destruct Hp as [->| ->]; discriminate|].
    split; [|split].
    - rewrite Hfl. by apply on_grid_length.
    - intros k. by apply (Hcells k).
    - intros k a Hk Ha _. destruct (Hf k) as [E|[_ E]]; congruence. }
  destruct r as [l|].
  2:{ exfalso. apply (Hnone eq_refl). by apply (Hal c p). }
  exists fb, l. split; [exact Hrun|]. split; [exact Hsc|].
  split; [intros k; by apply (Hcells k)|]. split.
  - assert (Hin : "#" ∈ fb).
    { apply (list_elem_of_lookup_2 _ (Z.to_nat c)). apply (Hcells (Z.to_nat c)).
      rewrite Z2Nat.id by lia. constructor. }
    pose proof (count_pos_elem _ _ Hin). lia.
  - split; [exact Hcontact|].
    destruct (scratch_contact fb Hsc) as (r & Hr & Hl).
    rewrite Hcontact in Hr. injection Hr as <-. by apply Hl.
Qed.

End Scratch.

Lemma component_swapcase b p c k :
  component b p c k -> component (map swapcase_char b) (swapcase_char p) c k.
Proof.
  induction 1 as [|j e Hj IH He He0 Hep]; [constructor|].
  eapply component_step; [exact IH|exact He|exact He0|].
  change (map swapcase_char b) with (swapcase_char <$> b).
  by rewrite list_lookup_fmap, Hep.
Qed.

Lemma lookup_swapcase (b : str) (k : nat) a :
  b !! k = Some a -> map swapcase_char b !! k = Some (swapcase_char a).
Proof.
  intros H. change (map swapcase_char b) with (swapcase_char <$> b).
  by rewrite list_lookup_fmap, H.
Qed.

(** A move on an empty point of a position in play. *)
Section MoveInPlay.

Variables (pos : Position.t) (l : Z).
Hypothesis Hin : in_play pos.
Hypothesis Hl : 0 <= l.
Hypothesis Hdot : Board.board (Position.board pos) !! Z.to_nat l = Some ".".

Let b := Board.board (Position.board pos).

Lemma in_play_move_returns : exists r, Position.move pos l = Ret r.
Proof.
  destruct Hin as (Hg & _).
  assert (Hp : playable b).
  { apply on_grid_playable; [exact Hg|]. by eapply list_elem_of_lookup_2. }
  destruct (move_returns pos l Hp Hl Hdot) as (r & Hr & _). by exists r.
Qed.

Variable pos' : Position.t.
Hypothesis Hmove : Position.move pos l = Ret (Some pos').

Let new := Board.board (Position.board pos').

Lemma in_play_move : in_play pos'.
Proof.
  destruct Hin as (Hg & Hal & Hlast).
  assert (Hr : 0 <= l < Z.of_nat (length (Board.board (Position.board pos))))
    by (apply lookup_lt_Some in Hdot; lia).
  destruct (move_runs pos l pos' Hr Hmove)
    as (_ & _ & _ & _ & _ & _ & _ & Hla & Hla2 & _).
  split; [by eapply move_on_grid|]. split.
  - destruct (move_alive_aux pos l pos' Hg Hal Hl Hdot Hmove) as (b1 & -> & _ & _ & _ & H).
    by apply alive_swapcase.
  - intros c [Hc|Hc].
    + rewrite Hla in Hc. injection Hc as <-.
      rewrite <- (Z2Nat.id l Hl). by eapply (on_grid_is_point _ _ "." Hg).
    + apply Hlast. left. by rewrite <- Hla2.
Qed.

(** A group of the mover next to [l] is joined to the stone played. *)
Lemma move_own_group c k :
  0 <= c -> b !! Z.to_nat c = Some "X" -> liberty_of b "X" c l ->
  component b "X" c k -> component new "x" l k.
Proof.
  intros Hc Hstone (_ & _ & j & Hj & Hlj) Hk.
  destruct Hin as (Hg & Hal & _).
  destruct (move_alive_aux pos l pos' Hg Hal Hl Hdot Hmove) as (b1 & Hnew & C & _).
  unfold new. rewrite Hnew. apply (component_swapcase b1 "X").
  fold b in C.
  assert (Hll : (Z.to_nat l < length b)%nat) by (by eapply lookup_lt_Some).
  assert (HX : forall i, 0 <= i -> b !! Z.to_nat i = Some "X" -> b1 !! Z.to_nat i = Some "X").
  { intros i Hi0 Hi. assert (Z.to_nat i <> Z.to_nat l) by (unfold b in *; congruence).
    assert (H0 : <[Z.to_nat l := "X"]> b !! Z.to_nat i = Some "X")
      by (by rewrite list_lookup_insert_ne by congruence).
    destruct (captures_of_lookup _ _ _ _ C H0) as [E|[E _]]; [exact E|discriminate]. }
  assert (Hb1l : b1 !! Z.to_nat l = Some "X").
  { assert (H0 : <[Z.to_nat l := "X"]> b !! Z.to_nat l = Some "X")
      by (by apply list_lookup_insert_eq).
    destruct (captures_of_lookup _ _ _ _ C H0) as [E|[E _]]; [exact E|discriminate]. }
  destruct (group_holds b "X" c j Hc Hstone Hj) as [Hj0 Hjx].
  assert (Hlj1 : component b1 "X" l j).
  { eapply component_step; [constructor| |exact Hj0|by apply HX].
    by apply neighbors_sym. }
  eapply group_trans; [exact Hlj1|].
  apply (component_mono b b1 "X" j k HX).
  eapply group_trans; [|exact Hk]. by apply group_sym.
Qed.

(** The stone played stands. *)
Lemma move_stone : 0 <= l /\ new !! Z.to_nat l = Some "x".
Proof.
  destruct Hin as (Hg & _).
  assert (Hr : 0 <= l < Z.of_nat (length (Board.board (Position.board pos))))
    by (apply lookup_lt_Some in Hdot; lia).
  destruct (move_frame_aux pos pos' l (on_grid_unmarked _ Hg) Hr Hmove) as (_ & H & _).
  by split.
Qed.

(** A stone of the mover stands. *)
Lemma move_own_stone c :
  0 <= c -> b !! Z.to_nat c = Some "X" -> new !! Z.to_nat c = Some "x".
Proof.
  intros Hc Hstone. destruct Hin as (Hg & _).
  assert (Hr : 0 <= l < Z.of_nat (length (Board.board (Position.board pos))))
    by (apply lookup_lt_Some in Hdot; lia).
  destruct (move_frame_aux pos pos' l (on_grid_unmarked _ Hg) Hr Hmove) as (_ & _ & H).
  assert (Hne : Z.to_nat c <> Z.to_nat l) by (unfold b in *; congruence).
  destruct (H (Z.to_nat c) "X" Hne Hstone) as [E|[E _]]; [exact E|discriminate].
Qed.

(** A group of the opponent that has another liberty stands as a whole. *)
Lemma move_opp_group c l2 k :
  0 <= c -> b !! Z.to_nat c = Some "x" -> liberty_of b "x" c l2 -> l2 <> l ->
  component b "x" c k ->
  new !! Z.to_nat c = Some "X" /\ component new "X" c k.
Proof.
  intros Hc Hstone (Hl20 & Hl2 & j & Hj & Hlj) Hne Hk.
  destruct Hin as (Hg & Hal & _).
  destruct (move_alive_aux pos l pos' Hg Hal Hl Hdot Hmove) as (b1 & Hnew & C & W & G & _).
  fold b in C, W, G. set (b0 := <[Z.to_nat l := "X"]> b) in *.
  assert (Hx : forall i, 0 <= i -> b !! Z.to_nat i = Some "x" -> b0 !! Z.to_nat i = Some "x").
  { intros i Hi0 Hi. assert (Z.to_nat i <> Z.to_nat l) by (unfold b in *; congruence).
    unfold b0. by rewrite list_lookup_insert_ne by congruence. }
  assert (Hlib : has_liberty b0 "x" c).
  { exists j, l2. split; [by apply (component_mono b b0 "x" c j Hx)|].
    split; [exact Hlj|]. split; [exact Hl20|].
    unfold b0. rewrite list_lookup_insert_ne by lia. exact Hl2. }
  assert (Hb1c : b1 !! Z.to_nat c = Some "x").
  { destruct (captures_of_lookup _ _ _ _ C (Hx c Hc Hstone)) as [E|[_ E]]; [exact E|].
    exfalso. by apply (G c Hc (Hx c Hc Hstone) E). }
  unfold new. rewrite Hnew. split; [by apply (lookup_swapcase b1 _ "x")|].
  apply (component_swapcase b1 "x").
  apply (whole_groups_component b0 b1 c k W Hc Hb1c).
  by apply (component_mono b b0 "x" c k Hx).
Qed.

End MoveInPlay.

Lemma count_marks_le (m m' : str) :
  length m = length m' ->
  (forall k : nat, m !! k = Some "#" -> m' !! k = Some "#") ->
  count "#" m <= count "#" m'.
Proof.
  revert m'. induction m as [|a m IH]; intros [|a' m'] Hlen Hsub;
    [reflexivity|discriminate|discriminate|].
  rewrite !count_cons.
  assert (IH' : count "#" m <= count "#" m').
  { apply IH; [by injection Hlen|]. intros k Hk. exact (Hsub (S k) Hk). }
  destruct (Ascii.eqb_spec a "#") as [->|Ha].
  - pose proof (Hsub 0%nat eq_refl) as H0. injection H0 as ->.
    rewrite Ascii.eqb_refl. lia.
  - destruct (Ascii.eqb a' "#"); lia.
Qed.

Lemma count_marks_lt (m m' : str) (l : nat) :
  length m = length m' ->
  (forall k : nat, m !! k = Some "#" -> m' !! k = Some "#") ->
  m' !! l = Some "#" -> m !! l <> Some "#" ->
  count "#" m + 1 <= count "#" m'.
Proof.
  revert m' l. induction m as [|a m IH]; intros [|a' m'] l Hlen Hsub Hl Hnl;
    [by rewrite lookup_nil in Hl|discriminate|discriminate|].
  rewrite !count_cons.
  assert (Hsub' : forall k : nat, m !! k = Some "#" -> m' !! k = Some "#").
  { intros k Hk. exact (Hsub (S k) Hk). }
  assert (Hlen' : length m = length m') by (by injection Hlen).
  destruct l as [|l].
  - injection Hl as ->. rewrite Ascii.eqb_refl.
    destruct (Ascii.eqb_spec a "#") as [->|Ha]; [by destruct Hnl|].
    pose proof (count_marks_le m m' Hlen' Hsub'). lia.
  - pose proof (IH m' l Hlen' Hsub' Hl Hnl) as IH'.
    destruct (Ascii.eqb_spec a "#") as [->|Ha].
    + pose proof (Hsub 0%nat eq_refl) as H0. injection H0 as ->.
      rewrite Ascii.eqb_refl. lia.
    + destruct (Ascii.eqb a' "#"); lia.
Qed.

Lemma ladder_loop_returns rec pos c ls :
  in_play pos ->
  Forall (empty_point (Board.board (Position.board pos))) ls ->
  (forall l pos_l, l ∈ ls -> Position.move pos l = Ret (Some pos_l) ->
     exists a ds, rec pos_l c = Ret (a, ds)) ->
  exists r, Heuristics.ladder_loop rec pos c ls = Ret r /\
            forall la, r = Some la -> la ∈ ls.
Proof.
  intros Hin. induction ls as [|l ls IH]; intros Hls Hok; cbn [Heuristics.ladder_loop].
  - exists None. by split.
  - apply Forall_cons in Hls as [[Hl Hdot] Hls].
    destruct IH as (r & Hr & Hr').
    { exact Hls. }
    { intros l' pos_l Hl'. apply Hok. apply elem_of_cons. by right. }
    assert (Hr'' : forall la, r = Some la -> la ∈ l :: ls).
    { intros la Hla. apply elem_of_cons. right. by apply Hr'. }
    destruct (in_play_move_returns pos l Hin Hl Hdot) as ([pos_l|] & Hm); rewrite Hm;
      cbn [mbind result_bind]; [|by exists r].
    destruct (Hok l pos_l ltac:(apply elem_of_cons; by left) Hm) as (a & ds & ->).
    cbn [mbind result_bind].
    destruct (a && bool_decide (ds = [])); [|by exists r].
    exists (Some l). split; [reflexivity|]. intros la [= <-]. apply elem_of_cons. by left.
Qed.

Lemma counter_captures_returns rec fuel pos : forall (cc : str) sols,
  (forall g, 0 <= g -> Board.board (Position.board pos) !! Z.to_nat g = Some "x" ->
     fix_ok rec pos g) ->
  (forall k : nat, cc !! k = Some "x" ->
     Board.board (Position.board pos) !! k = Some "x") ->
  Forall (empty_point (Board.board (Position.board pos))) sols ->
  count "x" cc < Z.of_nat fuel ->
  exists sols',
    Heuristics.counter_captures rec fuel pos (Board.mk cc) sols = Ret sols' /\
    Forall (empty_point (Board.board (Position.board pos))) sols'.
Proof.
  induction fuel as [|fuel IH]; intros cc sols Hrec Hcc Hsols Hfuel.
  { pose proof (count_nonneg "x" cc). lia. }
  cbn [Heuristics.counter_captures].
  rewrite (contact_stone (Board.mk cc) "x") by (by right). cbn [mbind result_bind Board.board].
  destruct (Board.contact_search "x" cc 0) as [g|] eqn:Eg; [|by exists sols].
  destruct (contact_found "x" cc g ltac:(discriminate) Eg) as (Hg0 & Hg & _).
  destruct (Hrec g Hg0 (Hcc _ Hg)) as (a & ccls & -> & Hccls). cbn [mbind result_bind].
  change (lit "%") with ["%"].
  rewrite (board_put_char cc g "%" Hg0) by (by eapply lookup_lt_Some).
  apply IH.
  - exact Hrec.
  - intros k Hk. apply Hcc. destruct (decide (k = Z.to_nat g)) as [->|Hne].
    + rewrite list_lookup_insert_eq in Hk by (by eapply lookup_lt_Some). discriminate.
    + by rewrite list_lookup_insert_ne in Hk by congruence.
  - destruct (a && negb (bool_decide (ccls = []))); [|exact Hsols].
    apply Forall_app. by split.
  - rewrite (count_insert "x" "%" cc _ Hg) by discriminate. lia.
Qed.

Lemma board_eta (B : Board.t) : B = Board.mk (Board.board B).
Proof. by destruct B. Qed.

Lemma scan_position pos c p :
  in_play pos -> 0 <= c -> Board.board (Position.board pos) !! Z.to_nat c = Some p ->
  p = "X" \/ p = "x" ->
  exists fb l,
    Board.floodfill (Position.board pos) c = Ret (Board.mk fb) /\
    scratch_of (Board.board (Position.board pos)) p c fb /\
    (forall k : nat, component (Board.board (Position.board pos)) p c (Z.of_nat k) ->
                     fb !! k = Some "#") /\
    1 <= count "#" fb /\
    Board.contact (Board.mk fb) "." = Ret (Some l) /\
    liberty_of (Board.board (Position.board pos)) p c l /\ fb !! Z.to_nat l = Some ".".
Proof.
  intros (Hg & Hal & _) Hc Hstone Hp.
  destruct (group_scan _ p c Hg Hc Hstone Hp Hal) as (fb & l & Hrun & Hrest).
  exists fb, l. split; [|exact Hrest].
  rewrite (board_eta (Position.board pos)). exact Hrun.
Qed.

Section FixAtariStep.

Variable rec : Position.t -> Z -> result (bool * list Z).
Variable f : Z.
Hypothesis Hrec_x : 1 <= f -> forall pos g, in_play pos -> 0 <= g ->
  Board.board (Position.board pos) !! Z.to_nat g = Some "x" -> fix_ok rec pos g.
Hypothesis Hrec_X : forall pos g, in_play pos -> 0 <= g ->
  Board.board (Position.board pos) !! Z.to_nat g = Some "X" ->
  (forall fb, Board.floodfill (Position.board pos) g = Ret fb ->
     Board.W2 + 2 <= f + count "#" (Board.board fb)) ->
  fix_ok rec pos g.

(** The ladder is read on a group of two liberties. *)
Lemma ladder_top pos c p l l2 :
  in_play pos -> 0 <= c -> Board.board (Position.board pos) !! Z.to_nat c = Some p ->
  p = "X" \/ p = "x" ->
  liberty_of (Board.board (Position.board pos)) p c l ->
  liberty_of (Board.board (Position.board pos)) p c l2 ->
  l <> l2 -> Board.W2 + 1 <= f ->
  exists r, Heuristics.read_ladder_attack rec pos c l l2 = Ret r /\
            forall la, r = Some la -> empty_point (Board.board (Position.board pos)) la.
Proof.
  intros Hin Hc Hstone Hp Hl Hl2 Hne Hf. unfold Heuristics.read_ladder_attack.
  assert (He : Forall (empty_point (Board.board (Position.board pos))) [l; l2]).
  { repeat constructor; [apply Hl|apply Hl|apply Hl2|apply Hl2]. }
  destruct (ladder_loop_returns rec pos c [l; l2] Hin He) as (r & Hr & Hr').
  - intros l' pos_l Hl' Hm.
    assert (Hl'e : empty_point (Board.board (Position.board pos)) l').
    { rewrite Forall_forall in He. by apply He. }
    destruct Hl'e as [Hl'0 Hl'd].
    pose proof (in_play_move pos l' Hin Hl'0 Hl'd pos_l Hm) as Hin'.
    assert (Hok : fix_ok rec pos_l c).
    { destruct Hp as [-> | ->].
      - apply Hrec_x; [unfold Board.W2, Board.W, Board.N in Hf; lia|exact Hin'|exact Hc|].
        by apply (move_own_stone pos l' Hin Hl'0 Hl'd pos_l Hm).
      - assert (Hother : exists l3, liberty_of (Board.board (Position.board pos)) "x" c l3 /\
                                    l3 <> l').
        { apply elem_of_cons in Hl' as [->|Hl'].
          - exists l2. split; [exact Hl2|congruence].
          - apply list_elem_of_singleton in Hl'. subst l'. exists l. by split. }
        destruct Hother as (l3 & Hl3 & Hne3).
        destruct (move_opp_group pos l' Hin Hl'0 Hl'd pos_l Hm c l3 c Hc Hstone Hl3 Hne3)
          as [HX _]; [constructor|].
        apply Hrec_X; [exact Hin'|exact Hc|exact HX|].
        intros fb Hfb.
        destruct (scan_position pos_l c "X" Hin' Hc HX ltac:(by left))
          as (fbq & _ & Hrun & _ & _ & Hcount & _).
        rewrite Hrun in Hfb. injection Hfb as <-. cbn [Board.board]. lia. }
    destruct Hok as (a & ds & Hok & _). by exists a, ds.
  - exists r. split; [exact Hr|]. intros la Hla.
    rewrite Forall_forall in He. apply He. by apply Hr'.
Qed.

(** The ladder is read after the escape: the group has gained a stone. *)
Lemma ladder_escape pos c l escpos (fb : str) l_new l_new_2 :
  in_play pos -> 0 <= c ->
  Board.board (Position.board pos) !! Z.to_nat c = Some "X" ->
  Board.floodfill (Position.board pos) c = Ret (Board.mk fb) ->
  scratch_of (Board.board (Position.board pos)) "X" c fb ->
  liberty_of (Board.board (Position.board pos)) "X" c l ->
  fb !! Z.to_nat l = Some "." ->
  Position.move pos l = Ret (Some escpos) ->
  liberty_of (Board.board (Position.board escpos)) "x" l l_new ->
  liberty_of (Board.board (Position.board escpos)) "x" l l_new_2 ->
  l_new <> l_new_2 ->
  Board.W2 + 2 <= f + 1 + count "#" fb ->
  exists r, Heuristics.read_ladder_attack rec escpos l l_new l_new_2 = Ret r.
Proof.
  intros Hin Hc Hstone Hrun Hsc Hl Hfl Hesc Hn1 Hn2 Hne Hf.
  unfold Heuristics.read_ladder_attack.
  pose proof Hl as (Hl0 & Hld & _).
  pose proof (in_play_move pos l Hin Hl0 Hld escpos Hesc) as Hine.
  destruct (move_stone pos l Hin Hl0 Hld escpos Hesc) as [_ Hex].
  assert (He : Forall (empty_point (Board.board (Position.board escpos))) [l_new; l_new_2]).
  { repeat constructor; [apply Hn1|apply Hn1|apply Hn2|apply Hn2]. }
  destruct (ladder_loop_returns rec escpos l [l_new; l_new_2] Hine He) as (r & Hr & _);
    [|by exists r].
  intros l' pos_l Hl' Hm.
  assert (Hl'e : empty_point (Board.board (Position.board escpos)) l').
  { rewrite Forall_forall in He. by apply He. }
  destruct Hl'e as [Hl'0 Hl'd].
  pose proof (in_play_move escpos l' Hine Hl'0 Hl'd pos_l Hm) as Hin'.
  assert (Hother : exists l3, liberty_of (Board.board (Position.board escpos)) "x" l l3 /\
                              l3 <> l').
  { apply elem_of_cons in Hl' as [->|Hl'].
    - exists l_new_2. split; [exact Hn2|congruence].
    - apply list_elem_of_singleton in Hl'. subst l'. exists l_new. by split. }
  destruct Hother as (l3 & Hl3 & Hne3).
  assert (Hgrp : forall k, component (Board.board (Position.board escpos)) "x" l k ->
                   component (Board.board (Position.board pos_l)) "X" l k).
  { intros k Hk.
    by destruct (move_opp_group escpos l' Hine Hl'0 Hl'd pos_l Hm l l3 k Hl0 Hex Hl3 Hne3 Hk). }
  destruct (move_opp_group escpos l' Hine Hl'0 Hl'd pos_l Hm l l3 l Hl0 Hex Hl3 Hne3)
    as [HX _]; [constructor|].
  assert (Hok : fix_ok rec pos_l l).
  { apply Hrec_X; [exact Hin'|exact Hl0|exact HX|].
    intros fbq Hfbq.
    destruct (scan_position pos_l l "X" Hin' Hl0 HX ltac:(by left))
      as (fq & _ & Hrunq & Hscq & Hmarkq & _).
    rewrite Hrunq in Hfbq. injection Hfbq as <-. cbn [Board.board].
    assert (Hgrow : count "#" fb + 1 <= count "#" fq).
    { destruct Hsc as (Hlen & Hmark & _). destruct Hscq as (Hlenq & _).
      apply (count_marks_lt fb fq (Z.to_nat l)).
      - by rewrite Hlen, Hlenq.
      - intros k Hk. apply Hmarkq. apply Hgrp.
        apply (move_own_group pos l Hin Hl0 Hld escpos Hesc c _ Hc Hstone Hl).
        by apply Hmark.
      - apply Hmarkq. rewrite Z2Nat.id by lia. constructor.
      - rewrite Hfl. discriminate. }
    lia. }
  destruct Hok as (a & ds & Hok & _). by exists a, ds.
Qed.

Lemma body_returns pos c s tt te :
  in_play pos -> 0 <= c ->
  (Board.board (Position.board pos) !! Z.to_nat c = Some "X" \/
   Board.board (Position.board pos) !! Z.to_nat c = Some "x") ->
  (tt = true -> Board.W2 + 1 <= f) ->
  (Board.board (Position.board pos) !! Z.to_nat c = Some "X" ->
   forall fb, Board.floodfill (Position.board pos) c = Ret fb ->
     Board.W2 + 2 <= f + 1 + count "#" (Board.board fb)) ->
  exists a ds,
    Heuristics.fix_atari_body rec pos c s tt te = Ret (a, ds) /\
    Forall (empty_point (Board.board (Position.board pos))) ds.
Proof.
  intros Hin Hc Hst Htt HX.
  set (b := Board.board (Position.board pos)) in *.
  assert (Hp : exists p, b !! Z.to_nat c = Some p /\ (p = "X" \/ p = "x")).
  { destruct Hst; [exists "X"|exists "x"]; auto. }
  destruct Hp as (p & Hstone & Hp).
  destruct (scan_position pos c p Hin Hc Hstone Hp)
    as (fb & l & Hrun & Hsc & Hmark & Hcount & Hcon & Hlib & Hfl).
  fold b in Hsc, Hmark, Hlib.
  pose proof Hlib as (Hl0 & Hld & _).
  assert (Hle : empty_point b l) by (by split).
  unfold Heuristics.fix_atari_body. rewrite Hrun. cbn [mbind result_bind Board.board].
  destruct (s && (count "#" fb =? 1)).
  { exists false, []. split; [reflexivity|constructor]. }
  rewrite Hcon. cbn [mbind result_bind].
  destruct (scratch_put b p c fb l Hsc Hl0 Hfl) as (Hput & Hsc1 & Hpt1).
  rewrite Hput. set (fb1 := <[Z.to_nat l := "L"]> fb) in *.
  destruct (scratch_contact b p c fb1 Hsc1) as (r2 & Hr2 & Hl2).
  rewrite Hr2. cbn [mbind result_bind Board.board].
  destruct r2 as [l2|].
  - (* two liberties at least *)
    destruct (Hl2 l2 eq_refl) as [Hlib2 Hfl2].
    pose proof Hlib2 as (Hl20 & Hl2d & _).
    assert (Hne : l <> l2).
    { intros ->. by destruct (Hpt1 _ Hfl2). }
    destruct (tt && (1 <? count "#" fb) &&
              (negb te || (Board.line_height l =? 0) && (Board.line_height l2 =? 0)))
      eqn:Econd.
    2:{ exists false, []. split; [reflexivity|constructor]. }
    assert (Htrue : tt = true) by (by destruct tt).
    destruct (scratch_put b p c fb1 l2 Hsc1 Hl20 Hfl2) as (Hput2 & Hsc2 & _).
    rewrite Hput2.
    destruct (scratch_contact b p c _ Hsc2) as (r3 & Hr3 & _).
    rewrite Hr3. cbn [mbind result_bind].
    destruct r3 as [l3|].
    { exists false, []. split; [reflexivity|constructor]. }
    destruct (ladder_top pos c p l l2 Hin Hc Hstone Hp Hlib Hlib2 Hne (Htt Htrue))
      as (r & Hr & Hr').
    rewrite Hr. cbn [mbind result_bind].
    destruct r as [la|]; [|exists false, []; split; [reflexivity|constructor]].
    destruct (la =? 0); [exists false, []; split; [reflexivity|constructor]|].
    exists false, [la]. split; [reflexivity|]. constructor; [by apply Hr'|constructor].
  - (* in atari *)
    rewrite (getitem_nonneg (Board.board (Position.board pos)) c p Hc Hstone).
    cbn [mbind result_bind].
    destruct (Ascii.eqb_spec p "x") as [->|Hnx].
    { exists true, [l]. split; [reflexivity|]. by repeat constructor. }
    assert (Hpx : p = "X") by (by destruct Hp). subst p.
    pose proof (HX Hstone _ Hrun) as Hfuel. cbn [Board.board] in Hfuel.
    pose proof Hsc as (Hlen & _). pose proof Hsc1 as (Hlen1 & _ & Hcell1).
    assert (Hf1 : 1 <= f).
    { pose proof (count_le_length "#" fb). rewrite Hlen in H.
      unfold Board.W2, Board.W, Board.N in *. lia. }
    assert (Hinit : Board.init (Some fb1) = Board.mk fb1).
    { apply init_nonempty. intros E. rewrite E in Hlen1. discriminate. }
    rewrite Hinit.
    destruct (counter_captures_returns rec (S (length fb1)) pos fb1 [])
      as (sols & Hs & Hsols).
    { intros g Hg0 Hg. by apply Hrec_x. }
    { intros k Hk. by apply (Hcell1 k "x"). }
    { constructor. }
    { pose proof (count_le_length "x" fb1). lia. }
    rewrite Hs. cbn [mbind result_bind].
    destruct (in_play_move_returns pos l Hin Hl0 Hld) as ([escpos|] & Hm); rewrite Hm;
      cbn [mbind result_bind].
    2:{ exists true, sols. by split. }
    pose proof (in_play_move pos l Hin Hl0 Hld escpos Hm) as Hine.
    destruct (move_stone pos l Hin Hl0 Hld escpos Hm) as [_ Hex].
    destruct (scan_position escpos l "x" Hine Hl0 Hex ltac:(by right))
      as (fbe & l_new & Hrune & Hsce & _ & _ & Hcone & Hlibe & Hfle).
    rewrite Hrune. cbn [mbind result_bind]. rewrite Hcone. cbn [mbind result_bind].
    pose proof Hlibe as (Hln0 & _).
    destruct (scratch_put _ "x" l fbe l_new Hsce Hln0 Hfle) as (Hpute & Hsce1 & Hpte1).
    rewrite Hpute.
    destruct (scratch_contact _ "x" l _ Hsce1) as (r2e & Hr2e & Hl2e).
    rewrite Hr2e. cbn [mbind result_bind].
    destruct r2e as [l2n|]; [|exists true, sols; by split].
    destruct (Hl2e l2n eq_refl) as [Hlibn Hfln].
    pose proof Hlibn as (Hl2n0 & _).
    assert (Hnen : l_new <> l2n).
    { intros ->. by destruct (Hpte1 _ Hfln). }
    assert (Hboth : Forall (empty_point b) (sols ++ [l])).
    { apply Forall_app. split; [exact Hsols|by repeat constructor]. }
    destruct (negb (bool_decide (sols = []))).
    { exists true, (sols ++ [l]). by split. }
    destruct (scratch_put _ "x" l _ l2n Hsce1 Hl2n0 Hfln) as (Hpute2 & Hsce2 & _).
    rewrite Hpute2.
    destruct (scratch_contact _ "x" l _ Hsce2) as (r3e & Hr3e & _).
    rewrite Hr3e. cbn [mbind result_bind].
    destruct r3e as [l3|]; cbn [mbind result_bind].
    { exists true, (sols ++ [l]). by split. }
    destruct (ladder_escape pos c l escpos fb l_new l2n Hin Hc Hstone Hrun Hsc Hlib Hfl Hm
                Hlibe Hlibn Hnen Hfuel) as (r & Hr).
    rewrite Hr. cbn [mbind result_bind].
    destruct (bool_decide (r <> None)).
    + exists true, sols. by split.
    + exists true, (sols ++ [l]). by split.
Qed.

End FixAtariStep.

Lemma fix_atari_returns F : forall pos c s tt te,
  in_play pos -> 0 <= c ->
  (Board.board (Position.board pos) !! Z.to_nat c = Some "X" \/
   Board.board (Position.board pos) !! Z.to_nat c = Some "x") ->
  (1 <= F)%nat ->
  (tt = true -> Board.W2 + 2 <= Z.of_nat F) ->
  (Board.board (Position.board pos) !! Z.to_nat c = Some "X" ->
   forall fb, Board.floodfill (Position.board pos) c = Ret fb ->
     Board.W2 + 2 <= Z.of_nat F + count "#" (Board.board fb)) ->
  exists a ds,
    Heuristics.fix_atari F pos c s tt te = Ret (a, ds) /\
    Forall (empty_point (Board.board (Position.board pos))) ds.
Proof.
  induction F as [|F IH]; intros pos c s tt te Hin Hc Hst HF Htt HX; [lia|].
  cbn [Heuristics.fix_atari].
  apply (body_returns _ (Z.of_nat F)).
  - intros Hf1 pos' g Hin' Hg Hx.
    apply (IH pos' g false false false Hin' Hg); [by right|lia|discriminate|].
    intros HX'. congruence.
  - intros pos' g Hin' Hg HXg Hfuel.
    assert (HF1 : (1 <= F)%nat).
    { destruct (scan_position pos' g "X" Hin' Hg HXg ltac:(by left))
        as (fb & _ & Hrun & (Hlen & _) & _).
      pose proof (Hfuel _ Hrun) as Hfb. cbn [Board.board] in Hfb.
      pose proof (count_le_length "#" fb). rewrite Hlen in H.
      unfold Board.W2, Board.W, Board.N in *. lia. }
    apply (IH pos' g false false false Hin' Hg); [by left|exact HF1|discriminate|].
    intros _. exact Hfuel.
  - exact Hin.
  - exact Hc.
  - exact Hst.
  - intros E. specialize (Htt E). lia.
  - intros E fb Hfb. specialize (HX E fb Hfb). lia.
Qed.

(** A call of [fix_atari] at the depth its callers give it. *)
Lemma fix_atari_top pos c s te :
  in_play pos -> 0 <= c ->
  (Board.board (Position.board pos) !! Z.to_nat c = Some "X" \/
   Board.board (Position.board pos) !! Z.to_nat c = Some "x") ->
  exists a ds,
    Heuristics.fix_atari Heuristics.fix_atari_depth pos c s true te = Ret (a, ds) /\
    Forall (empty_point (Board.board (Position.board pos))) ds.
Proof.
  intros Hin Hc Hst. apply fix_atari_returns; auto.
  - unfold Heuristics.fix_atari_depth, Board.W2, Board.W, Board.N. lia.
  - intros _. unfold Heuristics.fix_atari_depth, Board.W2, Board.W, Board.N. lia.
  - intros _ fb _. pose proof (count_nonneg "#" (Board.board fb)).
    unfold Heuristics.fix_atari_depth, Board.W2, Board.W, Board.N. lia.
Qed.

(** ** The generator and the loop of the playout *)

Lemma fresh_subset ds : forall already d,
  d ∈ Heuristics.fresh ds already -> d ∈ ds.
Proof.
  induction ds as [|e ds IH]; intros already d; cbn [Heuristics.fresh].
  - by intros ?%elem_of_nil.
  - destruct (bool_decide (e ∈ already)).
    + intros H. apply elem_of_cons. right. by eapply IH.
    + intros [->|H]%elem_of_cons; apply elem_of_cons; [by left|right; by eapply IH].
Qed.

Lemma in_play_empty_point pos : in_play pos -> "." ∈ Board.board (Position.board pos).
Proof.
  intros (Hg & Hal & _).
  assert (Hp : point 16) by (split; [lia|reflexivity]).
  destruct (point_cell _ 16 Hg Hp) as (a & Ha & Hsp).
  destruct (on_grid_lookup _ _ _ Hg Ha) as (e & He & Hae).
  destruct (isspace e) eqn:Ee; [subst a; congruence|].
  destruct Hae as [->|Hst]; [by eapply list_elem_of_lookup_2|].
  assert (Hst' : a = "X" \/ a = "x") by exact Hst.
  destruct (Hal 16 a ltac:(lia) Ha Hst') as (j & d & _ & _ & _ & Hd).
  by eapply list_elem_of_lookup_2.
Qed.

Lemma in_play_playable pos : in_play pos -> playable (Board.board (Position.board pos)).
Proof.
  intros Hin. apply on_grid_playable; [apply Hin|by apply in_play_empty_point].
Qed.

Lemma in_play_pass pos : in_play pos -> in_play (Position.pass_move pos).
Proof.
  intros (Hg & Hal & Hlast). split; [|split].
  - change (Board.board (Position.board (Position.pass_move pos)))
      with (Board.board (Board.swapcase (Position.board pos))).
    by apply on_grid_swapcase.
  - change (Board.board (Position.board (Position.pass_move pos)))
      with (Board.board (Board.swapcase (Position.board pos))).
    rewrite swapcase_board.
    + by apply alive_swapcase.
    + intros Hnil. apply on_grid_length in Hg. rewrite Hnil in Hg. discriminate.
  - intros c [Hc|Hc]; [discriminate|]. apply Hlast. by left.
Qed.

Lemma in_play_empty : in_play Position.empty_position.
Proof.
  split; [exact on_grid_empty|]. split; [|intros c [?|?]; discriminate].
  exact (played_alive_aux _ Position.played_empty).
Qed.

Lemma around_range c d : point c -> d ∈ around c -> 0 <= d < Board.W2.
Proof.
  intros Hc%point_range. unfold around, Board.neighbors, Board.diag_neighbors.
  change Board.W with 15. change Board.W2 with 225.
  rewrite !elem_of_cons, !elem_of_app, !elem_of_cons, !elem_of_nil. lia.
Qed.

Lemma last_moves_range pos shuffle :
  in_play pos -> (forall l, shuffle l ≡ₚ l) ->
  Forall (fun d => 0 <= d < Board.W2) (Position.last_moves_neighbors shuffle pos).
Proof.
  intros (_ & _ & Hlast) Hperm. apply Forall_forall. intros d Hd.
  unfold Position.last_moves_neighbors in Hd.
  destruct (add_neighbors_spec shuffle Hperm [] (Position.last pos) (NoDup_nil_2 (A:=Z))) as [N1 E1].
  destruct (add_neighbors_spec shuffle Hperm _ (Position.last2 pos) N1) as [_ E2].
  apply E2 in Hd as [Hd|(c & Hc & Hd)].
  - apply E1 in Hd as [Hd|(c & Hc & Hd)]; [by apply elem_of_nil in Hd|].
    apply (around_range c); [apply Hlast; by left|exact Hd].
  - apply (around_range c); [apply Hlast; by right|exact Hd].
Qed.

Section Generator.

Variable pos : Position.t.
Hypothesis Hin : in_play pos.

Let b := Board.board (Position.board pos).

Lemma cell_in_range c :
  0 <= c < Board.W2 -> exists x, getitem b c = Ret x /\ b !! Z.to_nat c = Some x.
Proof.
  intros Hc. destruct Hin as (Hg & _). pose proof (on_grid_length _ Hg) as Hlen.
  fold b in Hlen. change (Z.to_nat Board.W2) with 225%nat in Hlen.
  change Board.W2 with 225 in Hc.
  destruct (lookup_lt_is_Some_2 b (Z.to_nat c)) as [x Hx]; [lia|].
  exists x. split; [|exact Hx]. apply getitem_nonneg; [lia|exact Hx].
Qed.

Lemma capture_moves_spec shuffle te hs :
  (forall i l, shuffle i l ≡ₚ l) ->
  Forall (fun d => 0 <= d < Board.W2) hs ->
  forall i already, exists ys,
    Heuristics.capture_moves pos shuffle te hs i already = (ys, Ret tt) /\
    empty_cands pos ys.
Proof.
  intros Hperm. induction hs as [|c hs IH]; intros Hhs i already;
    cbn [Heuristics.capture_moves].
  { exists []. split; [reflexivity|constructor]. }
  apply Forall_cons in Hhs as [Hc Hhs].
  destruct (cell_in_range c Hc) as (x & Hx & Hbx). fold b. rewrite Hx.
  destruct (Ascii.eqb x "X" || Ascii.eqb x "x") eqn:Est; [|by apply IH].
  assert (Hst : b !! Z.to_nat c = Some "X" \/ b !! Z.to_nat c = Some "x").
  { apply orb_true_iff in Est as [E|E]; apply Ascii.eqb_eq in E; subst x; auto. }
  destruct (fix_atari_top pos c false te Hin ltac:(lia) Hst) as (a & ds & -> & Hds).
  destruct (IH Hhs (S i) (Heuristics.fresh (shuffle i ds) already ++ already))
    as (ys & -> & Hys).
  eexists. split; [reflexivity|]. cbn [fst]. apply Forall_app. split; [|exact Hys].
  apply Forall_forall. intros [d k] Hd.
  apply list_elem_of_fmap in Hd as (d' & [= -> ->] & Hd'). cbn [fst].
  apply fresh_subset in Hd'. rewrite Hperm in Hd'.
  rewrite Forall_forall in Hds. exact (Hds _ Hd').
Qed.

Lemma pat3_moves_spec pat3set hs :
  Forall (fun d => 0 <= d < Board.W2) hs ->
  forall already, exists ys,
    Heuristics.pat3_moves pat3set pos hs already = (ys, Ret tt) /\ empty_cands pos ys.
Proof.
  induction hs as [|c hs IH]; intros Hhs already; cbn [Heuristics.pat3_moves].
  { exists []. split; [reflexivity|constructor]. }
  apply Forall_cons in Hhs as [Hc Hhs].
  destruct (cell_in_range c Hc) as (x & Hx & Hbx). fold b. rewrite Hx.
  destruct (Ascii.eqb x "." && negb (bool_decide (c ∈ already)) &&
            pat3set (Board.neighborhood_33 (Position.board pos) c)) eqn:E; [|by apply IH].
  destruct (IH Hhs (c :: already)) as (ys & -> & Hys).
  eexists. split; [reflexivity|]. cbn [fst]. constructor; [|exact Hys].
  cbn [fst]. split; [lia|].
  apply andb_true_iff in E as [E _]. apply andb_true_iff in E as [E _].
  apply Ascii.eqb_eq in E. by subst x.
Qed.

Lemma random_moves_spec i0 :
  0 <= i0 ->
  exists ys, Position.moves pos i0 = (ys, Ret tt) /\
             Forall (empty_point b) ys.
Proof.
  intros Hi0. destruct Hin as (Hg & _).
  rewrite (moves_spec pos i0 Hg Hi0). eexists. split; [reflexivity|].
  apply Forall_app. split; apply Forall_forall; intros j Hj;
    apply list_elem_of_filter in Hj as [_ Hj]; apply elem_of_empty_between in Hj as [Hr Hj];
    split; [lia|exact Hj|lia|exact Hj].
Qed.

Lemma gen_playout_moves_spec pat3set rnd hs probs expensive_ok :
  stdlib_random rnd ->
  Forall (fun d => 0 <= d < Board.W2) hs ->
  exists ys,
    Heuristics.gen_playout_moves pat3set rnd pos hs probs expensive_ok = (ys, Ret tt) /\
    empty_cands pos ys.
Proof.
  intros (_ & Hperm & Hx & Hy) Hhs. unfold Heuristics.gen_playout_moves.
  assert (H1 : exists ys,
            (if Qle_bool (Heuristics.capture_draw rnd) (default (1, 1)%Q probs).1
             then Heuristics.capture_moves pos (Heuristics.ds_shuffle rnd)
                    (negb expensive_ok) hs 0 []
             else ([], Ret tt)) = (ys, Ret tt) /\ empty_cands pos ys).
  { destruct (Qle_bool (Heuristics.capture_draw rnd) _); [by apply capture_moves_spec|].
    exists []. split; [reflexivity|constructor]. }
  assert (H2 : exists ys,
            (if Qle_bool (Heuristics.pat3_draw rnd) (default (1, 1)%Q probs).2
             then Heuristics.pat3_moves pat3set pos hs []
             else ([], Ret tt)) = (ys, Ret tt) /\ empty_cands pos ys).
  { destruct (Qle_bool (Heuristics.pat3_draw rnd) _); [by apply pat3_moves_spec|].
    exists []. split; [reflexivity|constructor]. }
  destruct H1 as (y1 & -> & Hy1). destruct H2 as (y2 & -> & Hy2).
  destruct (random_moves_spec (Heuristics.y_draw rnd * Board.W + Heuristics.x_draw rnd))
    as (y3 & -> & Hy3).
  { unfold Board.W, Board.N in *. lia. }
  unfold Heuristics.gen_then. cbn [fst snd].
  eexists. split; [reflexivity|].
  apply Forall_app. split; [exact Hy1|]. apply Forall_app. split; [exact Hy2|].
  apply Forall_forall. intros [d k] Hd.
  apply list_elem_of_fmap in Hd as (d' & [= -> ->] & Hd'). cbn [fst].
  rewrite Forall_forall in Hy3. exact (Hy3 _ Hd').
Qed.

End Generator.

Lemma getitem_cases {A} (l : list A) i :
  (exists a, getitem l i = Ret a) \/ getitem l i = Raise IndexError.
Proof.
  unfold getitem. destruct (index_of l i) as [k|]; [|by right].
  destruct (l !! k); [left; eauto|by right].
Qed.

(** Every position of a game is in play. *)
Lemma played_in_play pos : Position.played pos -> in_play pos.
Proof.
  induction 1 as [|p c p' _ IH Hc Hdot Hm|p _ IH].
  - exact in_play_empty.
  - exact (in_play_move p c IH Hc Hdot p' Hm).
  - exact (in_play_pass p IH).
Qed.

Section PlayoutLoop.

Variable PROB_HEURISTIC : Q * Q.
Variables PROB_RSAREJECT PROB_SSAREJECT : Q.
Variable pat3set : str -> bool.
Variable random : nat -> Heuristics.draws.
Hypothesis Hrandom : forall k, stdlib_random (random k).

Lemma for_moves_spec rnd pos cands :
  in_play pos -> empty_cands pos cands ->
  forall (amaf : list Z) j,
    (exists o amaf',
       Playout.for_moves PROB_RSAREJECT PROB_SSAREJECT rnd pos amaf cands (Ret tt) j
         = Ret (o, amaf') /\
       length amaf' = length amaf /\
       forall p2, o = Some p2 -> in_play p2 /\ Position.n p2 = Position.n pos + 1) \/
    (Playout.for_moves PROB_RSAREJECT PROB_SSAREJECT rnd pos amaf cands (Ret tt) j
       = Raise IndexError /\
     length amaf <> Z.to_nat Board.W2).
Proof.
  intros Hin. induction cands as [|[c kind] cands IH]; intros Hc amaf j;
    cbn [Playout.for_moves].
  { left. exists None, amaf. split; [reflexivity|]. split; [reflexivity|discriminate]. }
  apply Forall_cons in Hc as [[Hc0 Hcd] Hc]. cbn [fst] in Hc0, Hcd.
  destruct (in_play_move_returns pos c Hin Hc0 Hcd) as ([p2|] & Hm); rewrite Hm;
    cbn [mbind result_bind]; [|by apply IH].
  pose proof (in_play_move pos c Hin Hc0 Hcd p2 Hm) as Hin2.
  destruct (move_stone pos c Hin Hc0 Hcd p2 Hm) as [_ Hx].
  assert (Hrej : exists rejected : bool,
    (if Qle_bool (Heuristics.reject_draw rnd j)
          (if bool_decide (kind = lit "random") then PROB_RSAREJECT else PROB_SSAREJECT)
     then
       '(_, ds) ← Heuristics.fix_atari Heuristics.fix_atari_depth p2 c true true true;
       Ret (negb (bool_decide (ds = [])))
     else Ret false) = Ret rejected).
  { destruct (Qle_bool _ _); [|by exists false].
    destruct (fix_atari_top p2 c true true Hin2 Hc0 ltac:(by right)) as (a & ds & -> & _).
    cbn [mbind result_bind]. eauto. }
  destruct Hrej as (rejected & ->). cbn [mbind result_bind].
  destruct rejected; [by apply IH|].
  assert (Hcr : c < Board.W2).
  { destruct Hin as (Hg & _). apply lookup_lt_Some in Hcd.
    rewrite (on_grid_length _ Hg) in Hcd. lia. }
  destruct (getitem_cases amaf c) as [[a Ha]|Ha]; rewrite Ha; cbn [mbind result_bind].
  - left. destruct (getitem_setitem amaf c (if Position.n pos mod 2 =? 0 then 1 else -1) a Ha)
      as (k & _ & _ & Hset).
    destruct (a =? 0).
    + rewrite Hset. cbn [mbind result_bind]. eexists _, _. split; [reflexivity|].
      split; [by rewrite length_insert|]. intros ? [= <-]. split; [exact Hin2|].
      by apply (move_n pos c).
    + cbn [mbind result_bind]. eexists _, _. split; [reflexivity|].
      split; [reflexivity|]. intros ? [= <-]. split; [exact Hin2|]. by apply (move_n pos c).
  - right. split; [reflexivity|]. intros Hlen.
    destruct (lookup_lt_is_Some_2 amaf (Z.to_nat c)) as [a Ha']; [lia|].
    rewrite (getitem_nonneg amaf c a Hc0 Ha') in Ha. discriminate.
Qed.

Lemma playout_loop_spec fuel : forall k pos passes (amaf : list Z),
  in_play pos ->
  Board.MAX_GAME_LEN - Position.n pos <= Z.of_nat fuel ->
  (exists pos' amaf',
     Playout.playout_loop PROB_HEURISTIC PROB_RSAREJECT PROB_SSAREJECT pat3set random
       fuel k pos passes amaf = Ret (pos', amaf') /\
     in_play pos' /\ length amaf' = length amaf /\
     Position.n pos <= Position.n pos' <= Z.max (Position.n pos) Board.MAX_GAME_LEN) \/
  (Playout.playout_loop PROB_HEURISTIC PROB_RSAREJECT PROB_SSAREJECT pat3set random
     fuel k pos passes amaf = Raise IndexError /\
   length amaf <> Z.to_nat Board.W2).
Proof.
  induction fuel as [|fuel IH]; intros k pos passes amaf Hin Hm; cbn [Playout.playout_loop].
  - left. destruct (passes <? 2); cbn [andb].
    + destruct (Z.ltb_spec (Position.n pos) Board.MAX_GAME_LEN); [lia|].
      exists pos, amaf. split; [reflexivity|]. split; [exact Hin|]. split; [reflexivity|lia].
    + exists pos, amaf. split; [reflexivity|]. split; [exact Hin|]. split; [reflexivity|lia].
  - destruct ((passes <? 2) && (Position.n pos <? Board.MAX_GAME_LEN)) eqn:Eg.
    2:{ left. exists pos, amaf. split; [reflexivity|]. split; [exact Hin|].
        split; [reflexivity|lia]. }
    apply andb_true_iff in Eg as [_ Hn%Z.ltb_lt].
    pose proof (Hrandom k) as Hrk. pose proof Hrk as (Hlast & _).
    destruct (gen_playout_moves_spec pos Hin pat3set (random k)
                (Position.last_moves_neighbors (Heuristics.last_shuffle (random k)) pos)
                (Some PROB_HEURISTIC) false Hrk (last_moves_range pos _ Hin Hlast))
      as (ys & Hgen & Hys).
    rewrite Hgen. cbn [fst snd].
    destruct (for_moves_spec (random k) pos ys Hin Hys amaf 0)
      as [(o & amaf1 & E & Hlen1 & Ho)|[E Hlen1]]; rewrite E; cbn [mbind result_bind];
      [|by right].
    destruct o as [p2|].
    + destruct (Ho p2 eq_refl) as [Hin2 Hn2].
      destruct (IH (S k) p2 0 amaf1 Hin2 ltac:(lia))
        as [(pos' & amaf' & E' & H1 & H2 & H3)|[E' H2]].
      * left. exists pos', amaf'. split; [exact E'|]. split; [exact H1|].
        split; [congruence|lia].
      * right. split; [exact E'|congruence].
    + assert (Hnp : Position.n (Position.pass_move pos) = Position.n pos + 1) by reflexivity.
      destruct (IH (S k) (Position.pass_move pos) (passes + 1) amaf1 (in_play_pass pos Hin)
                  ltac:(lia))
        as [(pos' & amaf' & E' & H1 & H2 & H3)|[E' H2]].
      * left. exists pos', amaf'. split; [exact E'|]. split; [exact H1|].
        split; [congruence|lia].
      * right. split; [exact E'|congruence].
Qed.

Lemma mcplayout_spec pos (amaf : list Z) :
  in_play pos ->
  (exists pos' amaf' score owner_map,
     Playout.playout_loop PROB_HEURISTIC PROB_RSAREJECT PROB_SSAREJECT pat3set random
       (Z.to_nat (Board.MAX_GAME_LEN - Position.n pos)) 0 pos 0 amaf = Ret (pos', amaf') /\
     Position.n pos <= Position.n pos' <= Z.max (Position.n pos) Board.MAX_GAME_LEN /\
     Playout.mcplayout PROB_HEURISTIC PROB_RSAREJECT PROB_SSAREJECT pat3set random pos amaf
       = Ret (score, amaf', owner_map) /\
     length amaf' = length amaf /\ length owner_map = Z.to_nat Board.W2) \/
  (Playout.mcplayout PROB_HEURISTIC PROB_RSAREJECT PROB_SSAREJECT pat3set random pos amaf
     = Raise IndexError /\
   length amaf <> Z.to_nat Board.W2).
Proof.
  intros Hin. unfold Playout.mcplayout.
  destruct (playout_loop_spec (Z.to_nat (Board.MAX_GAME_LEN - Position.n pos)) 0 pos 0 amaf
              Hin ltac:(lia))
    as [(pos' & amaf' & E & Hin' & Hlen & Hn)|[E Hlen]]; rewrite E; cbn [mbind result_bind];
    [|by right].
  left.
  destruct (score_returns pos' (replicate (Z.to_nat (Board.W * Board.W)) 0)
              (in_play_playable pos' Hin'))
    as (v & om & Es & Hom); [apply length_replicate|].
  rewrite Es. cbn [mbind result_bind].
  eexists pos', amaf', _, om. split; [reflexivity|]. split; [exact Hn|].
  split; [reflexivity|]. by split.
Qed.

End PlayoutLoop.


Lemma low_draws_ok : forall k : nat, stdlib_random low_draws.
Proof.
  intros _. split; [reflexivity|]. split; [reflexivity|].
  unfold low_draws, Board.N. cbn. lia.
Qed.

